(** * Ignea front-end: lexer, parser and tree passes, embedded and verified

    The development follows the Python sources
    - [ignea/front/common.py]    : positions and the error taxonomy,
    - [ignea/front/lexical.py]   : terminal tags, the off-side driver, the lexer,
    - [ignea/front/syntactic.py] : Tarjan's SCCs, the BSR, the parser,
    - [ignea/front/semantic/common.py] : the tree visitor and the position passes.

    Python objects that are compared by identity (positions, terminals) live
    in an explicit store and are named by their index in it; dictionaries and
    sets are stdpp's [gmap] and [gset]; insertion-ordered dictionaries whose
    order is observable are association lists.  Loops that Python runs until
    a condition fails take a [fuel] argument; running out of it is the
    distinct outcome [OutOfFuel], and the theorems quantify over all fuels. *)

From stdpp Require Import gmap list strings.
From Stdlib Require Import NArith Ascii.
From Stdlib Require String.

Open Scope nat_scope.

(** ** Outcomes and the state monad *)

Definition TagId := nat.
Definition NTId := nat.

(** [IgneaPosition] of common.py: a mutable record, identity-hashed.  The
    record below is the object's contents; objects are cells of [positions]. *)
Record IgneaPosition := mkPosition {
  pos_filename : string;
  index_ : nat;
  line : nat;
  column : nat
}.

(** Python exceptions.  The first three are the errors of an analysis;
    [IgneaDerivationException] is the parser's internal one; the next five
    are the conditions errors of the constructors; the rest are the
    interpreter's own ([KeyError] of a dictionary,
    [IndexError] of a list, a failed [assert]), a reference that names no
    object of the store, and the end of the fuel. *)
Inductive Exn :=
| IgneaNoTerminalTagError (position : IgneaPosition) (last_terminal_tags : list TagId)
| IgneaIndentationError (position : IgneaPosition)
| IgneaNoDerivationError (position : IgneaPosition)
| IgneaDerivationException
| IgneaMultipleIndentsError (terminal_tag : TagId)
| IgneaMultipleDedentsError (terminal_tag : TagId)
| IgneaMissingOffsideError (terminal_tag : TagId)
| IgneaMultipleStartsError (nonterminal_type : NTId)
| IgneaNoStartError
| KeyError
| IndexError
| AssertionError
| Dangling
| OutOfFuel.

Inductive Res (A : Type) :=
| Ok (a : A)
| Raise (e : Exn).
Arguments Ok {A} a.
Arguments Raise {A} e.

(** A computation over a state [S]: the state is returned in both outcomes,
    since what Python mutated before raising stays mutated. *)
Definition M (S A : Type) : Type := S -> Res A * S.

Definition ret {S A} (a : A) : M S A := fun s => (Ok a, s).
Definition raise {S A} (e : Exn) : M S A := fun s => (Raise e, s).
Definition bind {S A B} (c : M S A) (k : A -> M S B) : M S B :=
  fun s => match c s with
           | (Ok a, s') => k a s'
           | (Raise e, s') => (Raise e, s')
           end.
Definition gets {S A} (f : S -> A) : M S A := fun s => (Ok (f s), s).
Definition modify {S} (f : S -> S) : M S unit := fun s => (Ok tt, f s).
Definition from_option {S A} (e : Exn) (o : option A) : M S A :=
  match o with Some a => ret a | None => raise e end.

Notation "'let*' x ':=' c 'in' k" := (bind c (fun x => k))
  (at level 10, x pattern, c at level 100, k at level 200,
   format "'[v' 'let*'  x  ':='  c  'in' '/' k ']'").
Notation "c ';;' k" := (bind c (fun _ => k))
  (at level 100, k at level 200, right associativity).

Fixpoint for_each {S A} (l : list A) (body : A -> M S unit) : M S unit :=
  match l with
  | [] => ret tt
  | a :: l' => body a ;; for_each l' body
  end.

(** ** lexical.py *)

Definition IgneaLexingState := N.
Definition IgneaConditions := N.

(** A terminal tag is a class aggregating static methods; [TagId] names the
    class and [IgneaTerminalTag] is what the class defines. *)
Record IgneaTerminalTag := {
  STATES_START : IgneaLexingState;
  start : IgneaConditions -> bool;
  ignore : IgneaConditions -> bool;
  indent : IgneaConditions -> bool;
  dedent : IgneaConditions -> bool;
  positives : IgneaConditions -> gset TagId;
  negatives : IgneaConditions -> gset TagId;
  nfa : IgneaLexingState -> ascii -> bool * IgneaLexingState
}.

(** [IgneaTerminal]: [start_position], [end_position] and [next] are
    references; [tags] is a set no other object keeps a reference to once
    the terminal is built (the set handed to the constructor is the local
    [accepted_terminal_tags], and the swaps of [_get_terminal] leave the
    store's [next_terminal_tags] on the other object), so it is a value. *)
Record IgneaTerminal := mkTerminal {
  tags : gset TagId;
  value : list ascii;
  start_position : nat;
  end_position : nat;
  next : option nat
}.

(** The object store. *)
Record Store := mkStore {
  positions : list IgneaPosition;
  terminals : list IgneaTerminal
}.

Record _IgneaLexerCache := mkCache {
  states_start : list (TagId * IgneaLexingState);
  terminal_tags_ignore : gset TagId;
  terminal_tags_offside : option (TagId * TagId);
  terminal_tags_positives : gmap TagId (gset TagId);
  terminal_tags_negatives : gmap TagId (gset TagId);
  accepted_terminal_tags : gmap (gset TagId) (gset TagId);
  nfas : gmap (TagId * IgneaLexingState * ascii) (bool * IgneaLexingState)
}.

(** [_IgneaOffside].  [_stack] is kept top first: its head is Python's
    [_stack[-1]], [append] conses and [pop] takes the tail. *)
Record _IgneaOffside := mkOffside {
  terminal_tags : option (TagId * TagId);
  _stack : list nat;
  _state : IgneaLexingState
}.

Record _IgneaLexerStore := mkLexerStore {
  current_position : IgneaPosition;
  current_states : list (TagId * IgneaLexingState);
  current_positive_terminal_tags : gset TagId;
  current_negative_terminal_tags : gset TagId;
  next_states : list (TagId * IgneaLexingState);
  next_terminal_tags : gset TagId;
  offside : _IgneaOffside
}.

Record IgneaLexer := mkLexer {
  filename : string;
  input : list ascii;
  conditions : IgneaConditions;
  lexer_start_position : nat;
  _start : option nat;
  _cache : _IgneaLexerCache;
  _store : _IgneaLexerStore
}.

(** The state the lexer runs in: the object store and the lexer object. *)
Record LexState := mkLexState {
  store : Store;
  lexer : IgneaLexer
}.

(** *** Field updates *)

Definition with_store (f : Store -> Store) (s : LexState) : LexState :=
  mkLexState (f (store s)) (lexer s).
Definition with_lexer (f : IgneaLexer -> IgneaLexer) (s : LexState) : LexState :=
  mkLexState (store s) (f (lexer s)).
Definition with_cache (f : _IgneaLexerCache -> _IgneaLexerCache) (l : IgneaLexer) : IgneaLexer :=
  mkLexer (filename l) (input l) (conditions l) (lexer_start_position l) (_start l)
          (f (_cache l)) (_store l).
Definition with_lexer_store (f : _IgneaLexerStore -> _IgneaLexerStore) (l : IgneaLexer) : IgneaLexer :=
  mkLexer (filename l) (input l) (conditions l) (lexer_start_position l) (_start l)
          (_cache l) (f (_store l)).
Definition set__start (t : option nat) (l : IgneaLexer) : IgneaLexer :=
  mkLexer (filename l) (input l) (conditions l) (lexer_start_position l) t
          (_cache l) (_store l).
Definition with_offside (f : _IgneaOffside -> _IgneaOffside) (s : _IgneaLexerStore) : _IgneaLexerStore :=
  mkLexerStore (current_position s) (current_states s) (current_positive_terminal_tags s)
               (current_negative_terminal_tags s) (next_states s) (next_terminal_tags s)
               (f (offside s)).
Definition set_current_position (p : IgneaPosition) (s : _IgneaLexerStore) : _IgneaLexerStore :=
  mkLexerStore p (current_states s) (current_positive_terminal_tags s)
               (current_negative_terminal_tags s) (next_states s) (next_terminal_tags s)
               (offside s).
Definition set_current_states (c : list (TagId * IgneaLexingState)) (s : _IgneaLexerStore) : _IgneaLexerStore :=
  mkLexerStore (current_position s) c (current_positive_terminal_tags s)
               (current_negative_terminal_tags s) (next_states s) (next_terminal_tags s)
               (offside s).
Definition set_current_positive (c : gset TagId) (s : _IgneaLexerStore) : _IgneaLexerStore :=
  mkLexerStore (current_position s) (current_states s) c
               (current_negative_terminal_tags s) (next_states s) (next_terminal_tags s)
               (offside s).
Definition set_current_negative (c : gset TagId) (s : _IgneaLexerStore) : _IgneaLexerStore :=
  mkLexerStore (current_position s) (current_states s) (current_positive_terminal_tags s)
               c (next_states s) (next_terminal_tags s) (offside s).
Definition set_next_states (c : list (TagId * IgneaLexingState)) (s : _IgneaLexerStore) : _IgneaLexerStore :=
  mkLexerStore (current_position s) (current_states s) (current_positive_terminal_tags s)
               (current_negative_terminal_tags s) c (next_terminal_tags s) (offside s).
Definition set_next_terminal_tags (c : gset TagId) (s : _IgneaLexerStore) : _IgneaLexerStore :=
  mkLexerStore (current_position s) (current_states s) (current_positive_terminal_tags s)
               (current_negative_terminal_tags s) (next_states s) c (offside s).
Definition set__stack (k : list nat) (o : _IgneaOffside) : _IgneaOffside :=
  mkOffside (terminal_tags o) k (_state o).
Definition set__state (q : IgneaLexingState) (o : _IgneaOffside) : _IgneaOffside :=
  mkOffside (terminal_tags o) (_stack o) q.
Definition set_accepted_terminal_tags (m : gmap (gset TagId) (gset TagId)) (c : _IgneaLexerCache) : _IgneaLexerCache :=
  mkCache (states_start c) (terminal_tags_ignore c) (terminal_tags_offside c)
          (terminal_tags_positives c) (terminal_tags_negatives c) m (nfas c).
Definition set_nfas (m : gmap (TagId * IgneaLexingState * ascii) (bool * IgneaLexingState))
           (c : _IgneaLexerCache) : _IgneaLexerCache :=
  mkCache (states_start c) (terminal_tags_ignore c) (terminal_tags_offside c)
          (terminal_tags_positives c) (terminal_tags_negatives c) (accepted_terminal_tags c) m.

(** Reading and writing through the lexer's [_store] and [_cache]. *)
Definition the_store (s : LexState) : _IgneaLexerStore := _store (lexer s).
Definition the_cache (s : LexState) : _IgneaLexerCache := _cache (lexer s).
Definition the_offside (s : LexState) : _IgneaOffside := offside (the_store s).
Definition upd_store (f : _IgneaLexerStore -> _IgneaLexerStore) : M LexState unit :=
  modify (with_lexer (with_lexer_store f)).
Definition upd_cache (f : _IgneaLexerCache -> _IgneaLexerCache) : M LexState unit :=
  modify (with_lexer (with_cache f)).
Definition upd_offside (f : _IgneaOffside -> _IgneaOffside) : M LexState unit :=
  upd_store (with_offside f).

Arguments with_store f s /.
Arguments with_lexer f s /.
Arguments with_cache f l /.
Arguments with_lexer_store f l /.
Arguments with_offside f s /.
Arguments set__start t l /.
Arguments set_current_position p s /.
Arguments set_current_states c s /.
Arguments set_current_positive c s /.
Arguments set_current_negative c s /.
Arguments set_next_states c s /.
Arguments set_next_terminal_tags c s /.
Arguments set__stack k o /.
Arguments set__state q o /.
Arguments set_accepted_terminal_tags m c /.
Arguments set_nfas m c /.
Arguments the_store s /.
Arguments the_cache s /.
Arguments the_offside s /.

(** *** Objects *)

(** [IgneaPosition(...)] and [IgneaPosition.copy]: a new cell. *)
Definition new_position (p : IgneaPosition) : M LexState nat :=
  fun s => (Ok (length (positions (store s))),
            with_store (fun h => mkStore (positions h ++ [p]) (terminals h)) s).

Definition new_terminal (t : IgneaTerminal) : M LexState nat :=
  fun s => (Ok (length (terminals (store s))),
            with_store (fun h => mkStore (positions h) (terminals h ++ [t])) s).

Definition read_position (r : nat) : M LexState IgneaPosition :=
  let* h := gets store in from_option Dangling (positions h !! r).

Definition read_terminal (r : nat) : M LexState IgneaTerminal :=
  let* h := gets store in from_option Dangling (terminals h !! r).

(** [IgneaPosition.update]: the cell [r] takes the contents [p]. *)
Definition update_position (r : nat) (p : IgneaPosition) : M LexState unit :=
  read_position r ;;
  modify (with_store (fun h => mkStore (<[r := p]> (positions h)) (terminals h))).

Definition write_terminal (r : nat) (t : IgneaTerminal) : M LexState unit :=
  read_terminal r ;;
  modify (with_store (fun h => mkStore (positions h) (<[r := t]> (terminals h)))).

Definition set_next (n : option nat) (t : IgneaTerminal) : IgneaTerminal :=
  mkTerminal (tags t) (value t) (start_position t) (end_position t) n.
Definition set_start_position (p : nat) (t : IgneaTerminal) : IgneaTerminal :=
  mkTerminal (tags t) (value t) p (end_position t) (next t).

(** *** The off-side driver *)

Definition newline : ascii := "010"%char.
Definition tab : ascii := "009"%char.
Definition space : ascii := " "%char.

Definition is_newline (c : ascii) : bool := Ascii.eqb c newline.
(** [char in "\t "] *)
Definition is_blank (c : ascii) : bool := Ascii.eqb c tab || Ascii.eqb c space.
(** [char in "\t\n "] *)
Definition is_white (c : ascii) : bool :=
  Ascii.eqb c tab || Ascii.eqb c newline || Ascii.eqb c space.

(** [1 << k & state], read as a truth value. *)
Definition bit (k : N) (state : IgneaLexingState) : bool :=
  negb (N.eqb (N.land (N.shiftl 1 k) state) 0).

Definition OFFSIDE_STATES_START : IgneaLexingState :=
  N.lor (N.lor (N.shiftl 1 0) (N.shiftl 1 1)) (N.shiftl 1 2).

(** [_IgneaOffside.nfa]: one step of the NFA of
    [(\n* [\t ]* ([^\t\n ] [^\n]* \n)?)*]; returns [state_accept] and the
    next [_state]. *)
Definition offside_nfa (state : IgneaLexingState) (char : ascii) : bool * IgneaLexingState :=
  let state_accept := false in
  let next_states := 0%N in
  let next_states :=
    if bit 0 state && is_newline char
    then N.lor next_states (N.lor (N.lor (N.shiftl 1 0) (N.shiftl 1 1)) (N.shiftl 1 2))
    else next_states in
  let next_states :=
    if bit 1 state && is_blank char
    then N.lor next_states (N.lor (N.lor (N.shiftl 1 0) (N.shiftl 1 1)) (N.shiftl 1 2))
    else next_states in
  let '(state_accept, next_states) :=
    if bit 2 state && negb (is_white char)
    then (true, N.lor next_states (N.lor (N.shiftl 1 0) (N.shiftl 1 3)))
    else (state_accept, next_states) in
  let next_states :=
    if bit 3 state && negb (is_newline char)
    then N.lor next_states (N.lor (N.shiftl 1 0) (N.shiftl 1 3))
    else next_states in
  (state_accept, next_states).

Definition _IgneaOffside_nfa (char : ascii) : M LexState bool :=
  let* o := gets the_offside in
  let '(state_accept, next_states) := offside_nfa (_state o) char in
  upd_offside (set__state next_states) ;;
  ret state_accept.

(** [_IgneaOffside._get_offside_terminal]: both positions are copies of
    [start_position]; the new terminal is linked in front of
    [current_terminal]. *)
Definition _get_offside_terminal (start_position : IgneaPosition)
           (current_terminal : option nat) (indent : bool) : M LexState nat :=
  let* start_position_ref := new_position start_position in
  let* accepted_position_ref := new_position start_position in
  let* o := gets the_offside in
  let* tt2 := from_option AssertionError (terminal_tags o) in
  new_terminal
    (mkTerminal {[ if indent then fst tt2 else snd tt2 ]} []
                start_position_ref accepted_position_ref current_terminal).

(** [self._stack.pop()] *)
Definition pop_stack : M LexState unit :=
  let* o := gets the_offside in
  match _stack o with
  | [] => raise IndexError
  | _ :: rest => upd_offside (set__stack rest)
  end.

(** [for _ in range(len(self._stack) - 1)]: the end-of-input drain. *)
Fixpoint drain (n : nat) (start_position : IgneaPosition) (current_terminal : option nat)
  : M LexState (option nat) :=
  match n with
  | 0 => ret current_terminal
  | S n' =>
      let* t := _get_offside_terminal start_position current_terminal false in
      pop_stack ;;
      drain n' start_position (Some t)
  end.

(** [while start_position.column < self._stack[-1]]: [stack] is the
    driver's [_stack] at the head of the iteration. *)
Fixpoint dedent_while (stack : list nat) (start_position : IgneaPosition)
         (current_terminal : option nat) : M LexState (option nat) :=
  match stack with
  | [] => raise IndexError
  | top :: rest =>
      if column start_position <? top then
        let* t := _get_offside_terminal start_position current_terminal false in
        pop_stack ;;
        dedent_while rest start_position (Some t)
      else ret current_terminal
  end.

(** [_IgneaOffside.prepend_offside_terminals] *)
Definition prepend_offside_terminals (start_position : IgneaPosition)
           (current_terminal : option nat) : M LexState (option nat) :=
  let* o := gets the_offside in
  match terminal_tags o with
  | None => ret current_terminal
  | Some _ =>
      match current_terminal with
      | None => drain (length (_stack o) - 1) start_position current_terminal
      | Some _ =>
          let* top := from_option IndexError (head (_stack o)) in
          if column start_position <? top then
            let* current_terminal :=
              dedent_while (_stack o) start_position current_terminal in
            let* o := gets the_offside in
            let* top := from_option IndexError (head (_stack o)) in
            if top <? column start_position
            then raise (IgneaIndentationError start_position)
            else ret current_terminal
          else if top <? column start_position then
            let* t := _get_offside_terminal start_position current_terminal true in
            upd_offside (fun o => set__stack (column start_position :: _stack o) o) ;;
            ret (Some t)
          else ret current_terminal
      end
  end.

(** *** Insertion-ordered dictionaries *)

(** [d[k] = v]: an existing key keeps its place, a new one goes last. *)
Fixpoint alist_set {V} (k : TagId) (v : V) (d : list (TagId * V)) : list (TagId * V) :=
  match d with
  | [] => [(k, v)]
  | (k', v') :: d' => if decide (k' = k) then (k, v) :: d' else (k', v') :: alist_set k v d'
  end.

(** [d.update(other)] *)
Definition alist_update {V} (d other : list (TagId * V)) : list (TagId * V) :=
  foldl (fun acc kv => alist_set (fst kv) (snd kv) acc) d other.

(** [input[start:stop]] for [start <= stop]. *)
Definition slice {A} (start stop : nat) (l : list A) : list A :=
  take (stop - start) (drop start l).

(** *** The lexer *)

Section Lexer.

(** The terminal tag classes, and the class attribute [TERMINAL_TAGS] of the
    lexer at hand. *)
Variable tag_class : TagId -> IgneaTerminalTag.
Variable TERMINAL_TAGS : list TagId.

(** The locals of [_get_terminal].  [start_position] and
    [accepted_position] are position objects nothing else refers to until
    the terminal that owns them is built; they enter the store then. *)
Record Locals := mkLocals {
  l_start_position : IgneaPosition;
  l_accepted_position : IgneaPosition;
  l_accepted_terminal_tags : gset TagId;
  l_is_offside : bool;
  l_last_terminal_tags : list TagId
}.

(** [IgneaLexer._process_nfas] *)
Definition _process_nfas (char : ascii) : M LexState unit :=
  let* items := gets (fun s => current_states (the_store s)) in
  for_each items (fun item =>
    let terminal_tag := fst item in
    let current_states := snd item in
    let* memo := gets (fun s => nfas (the_cache s)) in
    let* r :=
      match memo !! (terminal_tag, current_states, char) with
      | None =>
          let r := nfa (tag_class terminal_tag) current_states char in
          upd_cache (fun c => set_nfas (<[(terminal_tag, current_states, char) := r]> (nfas c)) c) ;;
          ret r
      | Some r => ret r
      end in
    let state_accept := fst r in
    let states := snd r in
    (if state_accept
     then upd_store (fun st => set_next_terminal_tags (next_terminal_tags st ∪ {[terminal_tag]}) st)
     else ret tt) ;;
    (if negb (N.eqb states 0)
     then upd_store (fun st => set_next_states (alist_set terminal_tag states (next_states st)) st)
     else ret tt)).

(** The first [while True] of [_process_positives_negatives]. *)
Fixpoint positives_loop (fuel : nat) (positive_terminal_tags : gset TagId)
  : M LexState (gset TagId) :=
  match fuel with
  | 0 => raise OutOfFuel
  | S fuel' =>
      let* current := gets (fun s => current_positive_terminal_tags (the_store s)) in
      for_each (elements current) (fun terminal_tag =>
        let* c := gets the_cache in
        let* p := from_option KeyError (terminal_tags_positives c !! terminal_tag) in
        upd_store (fun st => set_next_terminal_tags (next_terminal_tags st ∪ p) st)) ;;
      upd_store (fun st =>
        set_next_terminal_tags (next_terminal_tags st ∖ positive_terminal_tags) st) ;;
      let* nxt := gets (fun s => next_terminal_tags (the_store s)) in
      if decide (size nxt = 0) then ret positive_terminal_tags
      else
        let positive_terminal_tags := positive_terminal_tags ∪ nxt in
        upd_store (fun st =>
          set_next_terminal_tags ∅
            (set_current_positive (next_terminal_tags st) st)) ;;
        positives_loop fuel' positive_terminal_tags
  end.

(** The second one.  [negative_terminal_tags] is the store's
    [current_positive_terminal_tags] under another name. *)
Fixpoint negatives_loop (fuel : nat) : M LexState unit :=
  match fuel with
  | 0 => raise OutOfFuel
  | S fuel' =>
      let* current := gets (fun s => current_negative_terminal_tags (the_store s)) in
      for_each (elements current) (fun terminal_tag =>
        let* c := gets the_cache in
        let* n := from_option KeyError (terminal_tags_negatives c !! terminal_tag) in
        upd_store (fun st => set_next_terminal_tags (next_terminal_tags st ∪ n) st)) ;;
      upd_store (fun st =>
        set_next_terminal_tags
          (next_terminal_tags st ∖ current_positive_terminal_tags st) st) ;;
      let* nxt := gets (fun s => next_terminal_tags (the_store s)) in
      if decide (size nxt = 0) then ret tt
      else
        upd_store (fun st =>
          set_current_positive (current_positive_terminal_tags st ∪ next_terminal_tags st) st) ;;
        upd_store (fun st =>
          set_next_terminal_tags ∅
            (set_current_negative (next_terminal_tags st) st)) ;;
        negatives_loop fuel'
  end.

(** [IgneaLexer._process_positives_negatives]; the set it updates in place
    is returned. *)
Definition _process_positives_negatives (fuel : nat) (positive_terminal_tags : gset TagId)
  : M LexState (gset TagId) :=
  upd_store (set_current_positive positive_terminal_tags) ;;
  let* positive_terminal_tags := positives_loop fuel positive_terminal_tags in
  upd_store (set_current_positive ∅) ;;
  for_each (elements positive_terminal_tags) (fun terminal_tag =>
    let* c := gets the_cache in
    let* n := from_option KeyError (terminal_tags_negatives c !! terminal_tag) in
    upd_store (fun st => set_current_positive (current_positive_terminal_tags st ∪ n) st)) ;;
  upd_store (fun st => set_current_negative (current_positive_terminal_tags st) st) ;;
  negatives_loop fuel ;;
  let* negative_terminal_tags := gets (fun s => current_positive_terminal_tags (the_store s)) in
  ret (positive_terminal_tags ∖ negative_terminal_tags).

(** The [for index_ in range(...)] that runs the off-side NFA over the
    characters accepted since the last acceptance. *)
Fixpoint run_offside (start_index : nat) (indices : list nat) (is_offside : bool)
  : M LexState bool :=
  match indices with
  | [] => ret is_offside
  | index_ :: rest =>
      let* inp := gets (fun s => input (lexer s)) in
      let* char := from_option IndexError (inp !! index_) in
      let* a := _IgneaOffside_nfa char in
      run_offside start_index rest
        (if a then is_offside || Nat.eqb index_ start_index else is_offside)
  end.

(** The character just read moves [current_position]. *)
Definition advance (char : ascii) (p : IgneaPosition) : IgneaPosition :=
  if negb (is_newline char)
  then mkPosition (pos_filename p) (index_ p + 1) (line p) (column p + 1)
  else mkPosition (pos_filename p) (index_ p + 1) (line p + 1) 1.

(** The inner [while] of [_get_terminal]: all NFAs step until none is alive
    or the input ends. *)
Fixpoint scan (fuel : nat) (l : Locals) : M LexState Locals :=
  let* st := gets the_store in
  let* inp := gets (fun s => input (lexer s)) in
  if negb ((0 <? length (current_states st)) && (index_ (current_position st) <? length inp))
  then ret l
  else
    match fuel with
    | 0 => raise OutOfFuel
    | S fuel' =>
        let* char := from_option IndexError (inp !! index_ (current_position st)) in
        _process_nfas char ;;
        upd_store (fun st => set_current_position (advance char (current_position st)) st) ;;
        let* st := gets the_store in
        let* l :=
          if 0 <? size (next_terminal_tags st) then
            let accepted_terminal_tags := next_terminal_tags st in
            upd_store (set_next_terminal_tags ∅) ;;
            let* is_offside :=
              run_offside (index_ (l_start_position l))
                          (seq (index_ (l_accepted_position l))
                               (index_ (current_position st) - index_ (l_accepted_position l)))
                          (l_is_offside l) in
            ret (mkLocals (l_start_position l) (current_position st) accepted_terminal_tags
                          is_offside (l_last_terminal_tags l))
          else ret l in
        upd_store (fun st => set_next_states (current_states st)
                               (set_current_states (next_states st) st)) ;;
        let* st := gets the_store in
        let* c := gets the_cache in
        let l :=
          if (length (current_states st) =? 0)
             && (length (next_states st) <? length (states_start c))
          then mkLocals (l_start_position l) (l_accepted_position l)
                        (l_accepted_terminal_tags l) (l_is_offside l)
                        (fst <$> next_states st)
          else l in
        upd_store (set_next_states []) ;;
        scan fuel' l
    end.

(** The refinement of the accepted tags in [_get_terminal], through the
    memo [accepted_terminal_tags] of the cache: positives and negatives,
    then the ignored tags removed. *)
Definition refine_accepted (fuel : nat) (accepted : gset TagId) : M LexState (gset TagId) :=
  let initial_accepted_terminal_tags := accepted in
  let* c := gets the_cache in
  match accepted_terminal_tags c !! initial_accepted_terminal_tags with
  | None =>
      let* a := _process_positives_negatives fuel accepted in
      let* c := gets the_cache in
      let a := a ∖ terminal_tags_ignore c in
      upd_cache (fun c =>
        set_accepted_terminal_tags
          (<[initial_accepted_terminal_tags := a]> (accepted_terminal_tags c)) c) ;;
      ret a
  | Some a => ret a
  end.

(** The terminal [_get_terminal] builds when the refined set is not empty,
    with the off-side terminals in front of it when it starts its line. *)
Definition emit_terminal (l : Locals) (accepted_terminal_tags : gset TagId)
  : M LexState (option nat) :=
  let* inp := gets (fun s => input (lexer s)) in
  let* sp := new_position (l_start_position l) in
  let* ap := new_position (l_accepted_position l) in
  let* t := new_terminal
              (mkTerminal accepted_terminal_tags
                          (slice (index_ (l_start_position l))
                                 (index_ (l_accepted_position l)) inp)
                          sp ap None) in
  if l_is_offside l
  then prepend_offside_terminals (l_start_position l) (Some t)
  else ret (Some t).

(** The outer [while True] of [_get_terminal]. *)
Fixpoint get_terminal_loop (fuel : nat) (l : Locals) : M LexState (option nat) :=
  match fuel with
  | 0 => raise OutOfFuel
  | S fuel' =>
      let* l := scan fuel' l in
      if size (l_accepted_terminal_tags l) =? 0
      then raise (IgneaNoTerminalTagError (l_start_position l) (l_last_terminal_tags l))
      else
        let* accepted_terminal_tags := refine_accepted fuel' (l_accepted_terminal_tags l) in
        if 0 <? size accepted_terminal_tags then emit_terminal l accepted_terminal_tags
        else
          let* st := gets the_store in
          let* inp := gets (fun s => input (lexer s)) in
          if index_ (current_position st) =? length inp
          then prepend_offside_terminals (l_start_position l) None
          else
            upd_store (set_current_position (l_accepted_position l)) ;;
            (if length (current_states st) =? 0 then ret tt else raise AssertionError) ;;
            let* c := gets the_cache in
            upd_store (fun st =>
              set_current_states (alist_update (current_states st) (states_start c)) st) ;;
            get_terminal_loop fuel'
              (mkLocals (l_accepted_position l) (l_accepted_position l)
                        accepted_terminal_tags false [])
  end.

(** [IgneaLexer._get_terminal]; [start_position] is a reference. *)
Definition _get_terminal (fuel : nat) (start_position : nat) : M LexState (option nat) :=
  let* start_position := read_position start_position in
  let* inp := gets (fun s => input (lexer s)) in
  if index_ start_position =? length inp
  then prepend_offside_terminals start_position None
  else
    let* c := gets the_cache in
    upd_store (fun st =>
      set_current_states (alist_update [] (states_start c))
        (set_current_position start_position st)) ;;
    get_terminal_loop fuel (mkLocals start_position start_position ∅ false []).

(** [IgneaLexer.next_terminal] *)
Definition next_terminal (fuel : nat) (current_terminal : option nat)
  : M LexState (option nat) :=
  match current_terminal with
  | None =>
      let* lx := gets lexer in
      match _start lx with
      | None =>
          let* r := _get_terminal fuel (lexer_start_position lx) in
          modify (with_lexer (set__start r)) ;;
          match r with
          | None => ret None
          | Some t =>
              let* tm := read_terminal t in
              let* p := read_position (start_position tm) in
              update_position (lexer_start_position lx) p ;;
              write_terminal t (set_start_position (lexer_start_position lx) tm) ;;
              ret (Some t)
          end
      | Some t => ret (Some t)
      end
  | Some cur =>
      let* tm := read_terminal cur in
      match next tm with
      | None =>
          let* r := _get_terminal fuel (end_position tm) in
          let* tm := read_terminal cur in
          write_terminal cur (set_next r tm) ;;
          ret r
      | Some n => ret (Some n)
      end
  end.

(** Whether [tag] takes part in the analysis proper: started, and neither
    the indent nor the dedent tag. *)
Definition active (conditions : IgneaConditions) (tag : TagId) : bool :=
  start (tag_class tag) conditions
  && negb (indent (tag_class tag) conditions)
  && negb (dedent (tag_class tag) conditions).

(** The loop of [IgneaLexer.__post_init__] over [TERMINAL_TAGS]:
    [offside] is the two-slot list [terminal_tags_offside]. *)
Fixpoint post_init_loop (conditions : IgneaConditions) (tags : list TagId)
         (offside : option TagId * option TagId) (c : _IgneaLexerCache)
  : Res (option TagId * option TagId * _IgneaLexerCache) :=
  match tags with
  | [] => Ok (offside, c)
  | terminal_tag :: rest =>
      let tg := tag_class terminal_tag in
      if start tg conditions then
        if indent tg conditions then
          match fst offside with
          | Some _ => Raise (IgneaMultipleIndentsError terminal_tag)
          | None => post_init_loop conditions rest (Some terminal_tag, snd offside) c
          end
        else if dedent tg conditions then
          match snd offside with
          | Some _ => Raise (IgneaMultipleDedentsError terminal_tag)
          | None => post_init_loop conditions rest (fst offside, Some terminal_tag) c
          end
        else
          post_init_loop conditions rest offside
            (mkCache
               (alist_set terminal_tag (STATES_START tg) (states_start c))
               (if ignore tg conditions
                then terminal_tags_ignore c ∪ {[terminal_tag]}
                else terminal_tags_ignore c)
               (terminal_tags_offside c)
               (<[terminal_tag := filter (fun tag => active conditions tag)
                                         (positives tg conditions)]>
                  (terminal_tags_positives c))
               (<[terminal_tag := filter (fun tag => active conditions tag)
                                         (negatives tg conditions)]>
                  (terminal_tags_negatives c))
               (accepted_terminal_tags c)
               (nfas c))
      else post_init_loop conditions rest offside c
  end.

Definition empty_cache : _IgneaLexerCache := mkCache [] ∅ None ∅ ∅ ∅ ∅.

(** [IgneaLexer(filename, input, conditions)]: the dataclass constructor
    followed by [__post_init__], in an empty object store.  Cell 0 of
    [positions] is the lexer's [start_position]. *)
Definition IgneaLexer_new (filename : string) (input : list ascii)
           (conditions : IgneaConditions) : Res LexState :=
  match post_init_loop conditions TERMINAL_TAGS (None, None) empty_cache with
  | Raise e => Raise e
  | Ok (offside, c) =>
      match offside with
      | (Some t, None) | (None, Some t) => Raise (IgneaMissingOffsideError t)
      | (o0, o1) =>
          let pair := match o0, o1 with
                      | Some i, Some d => Some (i, d)
                      | _, _ => None
                      end in
          let c := mkCache (states_start c) (terminal_tags_ignore c) pair
                           (terminal_tags_positives c) (terminal_tags_negatives c)
                           (accepted_terminal_tags c) (nfas c) in
          Ok (mkLexState
                (mkStore [mkPosition filename 0 1 1] [])
                (mkLexer filename input conditions 0 None c
                   (mkLexerStore (mkPosition String.EmptyString 0 1 1) [] ∅ ∅ [] ∅
                      (mkOffside pair [1] OFFSIDE_STATES_START))))
      end
  end.

(** Consuming the stream: [next_terminal(None)], then [next_terminal] of
    what was returned, until [None] comes back.  The terminals are returned
    in order. *)
Fixpoint consume (fuel : nat) (steps : nat) (current_terminal : option nat)
  : M LexState (list nat) :=
  match steps with
  | 0 => raise OutOfFuel
  | S steps' =>
      let* r := next_terminal fuel current_terminal in
      match r with
      | None => ret []
      | Some t => let* ts := consume fuel steps' (Some t) in ret (t :: ts)
      end
  end.

End Lexer.

(** ** A lexer for identifiers and the keyword [if] *)

Module KeywordLexer.

(** The space, the tab and the newline, repeated: an ignored tag. *)
Definition WS_nfa (s : IgneaLexingState) (c : ascii) : bool * IgneaLexingState :=
  if bit 0 s && is_white c then (true, 1%N) else (false, 0%N).

Definition is_lower (c : ascii) : bool :=
  let n := nat_of_ascii c in (97 <=? n) && (n <=? 122).

(** [[a-z]+] *)
Definition IDENT_nfa (s : IgneaLexingState) (c : ascii) : bool * IgneaLexingState :=
  if bit 0 s && is_lower c then (true, 1%N) else (false, 0%N).

(** [if]: state 0 before the [i], state 1 before the [f]. *)
Definition IF_nfa (s : IgneaLexingState) (c : ascii) : bool * IgneaLexingState :=
  if bit 1 s && Ascii.eqb c "f" then (true, 0%N)
  else if bit 0 s && Ascii.eqb c "i" then (false, 2%N)
  else (false, 0%N).

Definition IDENT : TagId := 0.
Definition IF : TagId := 1.
Definition WS : TagId := 2.

Definition tag_class (t : TagId) : IgneaTerminalTag :=
  match t with
  | 0 => {| STATES_START := 1%N; start := fun _ => true; ignore := fun _ => false;
            indent := fun _ => false; dedent := fun _ => false;
            positives := fun _ => ∅; negatives := fun _ => {[IF]};
            nfa := IDENT_nfa |}
  | 1 => {| STATES_START := 1%N; start := fun _ => true; ignore := fun _ => false;
            indent := fun _ => false; dedent := fun _ => false;
            positives := fun _ => {[IDENT]}; negatives := fun _ => ∅;
            nfa := IF_nfa |}
  | _ => {| STATES_START := 1%N; start := fun _ => true; ignore := fun _ => true;
            indent := fun _ => false; dedent := fun _ => false;
            positives := fun _ => ∅; negatives := fun _ => ∅;
            nfa := WS_nfa |}
  end.

Definition TERMINAL_TAGS : list TagId := [IDENT; IF; WS].

(** The tag set and the value of every terminal of the stream. *)
Definition lex (fuel : nat) (input : string) : Res (list (list TagId * string)) :=
  match IgneaLexer_new tag_class TERMINAL_TAGS "f" (String.list_ascii_of_string input) 0%N with
  | Raise e => Raise e
  | Ok s =>
      match consume tag_class fuel fuel None s with
      | (Raise e, _) => Raise e
      | (Ok ts, s') =>
          Ok (omap (fun t => (fun tm => (elements (tags tm),
                                         String.string_of_list_ascii (value tm)))
                               <$> terminals (store s') !! t) ts)
      end
  end.

End KeywordLexer.

(** ** A lexer with the off-side rule *)

Module OffsideLexer.

Definition IDENT : TagId := 0.
Definition WS : TagId := 1.
Definition INDENT : TagId := 2.
Definition DEDENT : TagId := 3.

(** The indent and the dedent tag recognize nothing themselves: the
    off-side driver makes their terminals. *)
Definition no_nfa (s : IgneaLexingState) (c : ascii) : bool * IgneaLexingState :=
  (false, 0%N).

(** One space, tab or newline: an ignored tag. *)
Definition BLANK_nfa (s : IgneaLexingState) (c : ascii) : bool * IgneaLexingState :=
  if bit 0 s && is_white c then (true, 0%N) else (false, 0%N).

Definition tag_class (t : TagId) : IgneaTerminalTag :=
  match t with
  | 0 => {| STATES_START := 1%N; start := fun _ => true; ignore := fun _ => false;
            indent := fun _ => false; dedent := fun _ => false;
            positives := fun _ => ∅; negatives := fun _ => ∅;
            nfa := KeywordLexer.IDENT_nfa |}
  | 1 => {| STATES_START := 1%N; start := fun _ => true; ignore := fun _ => true;
            indent := fun _ => false; dedent := fun _ => false;
            positives := fun _ => ∅; negatives := fun _ => ∅;
            nfa := BLANK_nfa |}
  | 2 => {| STATES_START := 0%N; start := fun _ => true; ignore := fun _ => false;
            indent := fun _ => true; dedent := fun _ => false;
            positives := fun _ => ∅; negatives := fun _ => ∅;
            nfa := no_nfa |}
  | _ => {| STATES_START := 0%N; start := fun _ => true; ignore := fun _ => false;
            indent := fun _ => false; dedent := fun _ => true;
            positives := fun _ => ∅; negatives := fun _ => ∅;
            nfa := no_nfa |}
  end.

Definition TERMINAL_TAGS : list TagId := [IDENT; WS; INDENT; DEDENT].

Definition new (input : string) : Res LexState :=
  IgneaLexer_new tag_class TERMINAL_TAGS "f" (String.list_ascii_of_string input) 0%N.

Definition nl : string := String.String newline String.EmptyString.

(** Three lines, each deeper than the one before. *)
Definition nested : string := ("a" ++ nl ++ "  b" ++ nl ++ "    cc")%string.

(** A third line between the levels of the first and the second. *)
Definition between : string := ("a" ++ nl ++ "    b" ++ nl ++ "  c")%string.

(** The tag set and the value of every terminal of the stream, or the
    exception that ended it. *)
Definition lex (fuel : nat) (input : string) : Res (list (list TagId * string)) :=
  match new input with
  | Raise e => Raise e
  | Ok s =>
      match consume tag_class fuel fuel None s with
      | (Raise e, _) => Raise e
      | (Ok ts, s') =>
          Ok (omap (fun t => (fun tm => (elements (tags tm),
                                         String.string_of_list_ascii (value tm)))
                               <$> terminals (store s') !! t) ts)
      end
  end.

End OffsideLexer.

(** ** syntactic.py *)

(** *** Tarjan's strongly connected components *)

(** [graph[v]] in an insertion-ordered dictionary. *)
Fixpoint alist_lookup {V} (k : nat) (d : list (nat * V)) : option V :=
  match d with
  | [] => None
  | (k', v) :: d' => if decide (k' = k) then Some v else alist_lookup k d'
  end.

(** The variables [ignea_compute_sccs] shares with its inner function.
    [stack] has its top at the head; [sccs] grows at its end. *)
Record Tarjan := mkTarjan {
  visited_index : gmap NTId nat;
  min_index : gmap NTId nat;
  stack : list NTId;
  sccs : list (gset NTId)
}.

(** [min_index[v] = min(min_index[v], m)] *)
Definition lower_min_index (v : NTId) (m : nat) : M Tarjan unit :=
  let* t := gets id in
  let* mv := from_option KeyError (min_index t !! v) in
  modify (fun t => mkTarjan (visited_index t) (<[v := Nat.min mv m]> (min_index t))
                            (stack t) (sccs t)).

(** [w = stack.pop(); scc.add(w); while w != v: ...], on the stack [stk]:
    the component and what is left of the stack. *)
Fixpoint pop_scc (v : NTId) (stk : list NTId) (scc : gset NTId)
  : option (gset NTId * list NTId) :=
  match stk with
  | [] => None
  | w :: rest =>
      if decide (w = v) then Some (scc ∪ {[w]}, rest)
      else pop_scc v rest (scc ∪ {[w]})
  end.

(** [compute_scc(v)]; the recursion is as deep as the longest path of
    unvisited nodes, which [fuel] bounds. *)
Fixpoint compute_scc (fuel : nat) (graph : list (NTId * gset NTId)) (v : NTId)
  : M Tarjan unit :=
  match fuel with
  | 0 => raise OutOfFuel
  | S fuel' =>
      let* t := gets id in
      let index := size (visited_index t) in
      modify (fun t => mkTarjan (<[v := index]> (visited_index t))
                                (<[v := index]> (min_index t))
                                (v :: stack t) (sccs t)) ;;
      let* successors := from_option KeyError (alist_lookup v graph) in
      for_each (elements successors) (fun w =>
        let* t := gets id in
        match visited_index t !! w with
        | None =>
            compute_scc fuel' graph w ;;
            let* t := gets id in
            let* mw := from_option KeyError (min_index t !! w) in
            lower_min_index v mw
        | Some iw =>
            if bool_decide (w ∈ stack t) then lower_min_index v iw else ret tt
        end) ;;
      let* t := gets id in
      let* mv := from_option KeyError (min_index t !! v) in
      if mv =? index then
        let* popped := from_option IndexError (pop_scc v (stack t) ∅) in
        modify (fun t => mkTarjan (visited_index t) (min_index t) (snd popped)
                                  (sccs t ++ [fst popped]))
      else ret tt
  end.

(** [ignea_compute_sccs(graph)] *)
Definition ignea_compute_sccs (fuel : nat) (graph : list (NTId * gset NTId))
  : Res (list (gset NTId)) :=
  match for_each (graph.*1) (fun v =>
          let* t := gets id in
          match visited_index t !! v with
          | None => compute_scc fuel graph v
          | Some _ => ret tt
          end) (mkTarjan ∅ ∅ [] [])
  with
  | (Ok _, t) => Ok (sccs t)
  | (Raise e, _) => Raise e
  end.

(** *** Nonterminal types, parsing states and the BSR *)

(** What a nonterminal type class defines, [descend] apart. *)
Record IgneaNonterminalType := mkNonterminalType {
  nt_start : IgneaConditions -> bool;
  first : IgneaConditions -> gset NTId
}.

(** A terminal tag ([inl]) or a nonterminal type ([inr]). *)
Definition Symbol : Type := TagId + NTId.

(** [IgneaParsingState], a named tuple
    [(string, start_position, split_position, end_terminal)]: the positions
    and the terminal are references, compared by identity. *)
Definition IgneaParsingState : Type := list Symbol * nat * nat * option nat.
Definition state_string (st : IgneaParsingState) : list Symbol := st.1.1.1.
Definition state_start_position (st : IgneaParsingState) : nat := st.1.1.2.
Definition state_split_position (st : IgneaParsingState) : nat := st.1.2.
Definition state_end_terminal (st : IgneaParsingState) : option nat := st.2.

(** [IgneaEPN], a named tuple [(type_, state)]. *)
Definition IgneaEPN : Type := option NTId * IgneaParsingState.

(** A key of [IgneaBSR.epns]: a class ([inl]) or a derivation string
    ([inr]), and two positions. *)
Definition BSRKey : Type := (Symbol + list Symbol) * nat * nat.

Record IgneaBSR := mkBSR {
  bsr_start : option BSRKey;
  epns : gmap BSRKey (gset IgneaEPN)
}.

(** The parser, with the lexer it drives and the object store. *)
Record IgneaParser := mkParser {
  parser_lexer : LexState;
  nonterminal_types_ascend_parents : gmap NTId (list NTId);
  bsr : IgneaBSR;
  _nonterminal_type_start : NTId;
  _nonterminal_types_first : gmap NTId (gset NTId);
  _eoi : option nat;
  _memo : gmap (NTId * nat) (gset nat)
}.

Definition with_parser_lexer (f : LexState -> LexState) (p : IgneaParser) : IgneaParser :=
  mkParser (f (parser_lexer p)) (nonterminal_types_ascend_parents p) (bsr p)
           (_nonterminal_type_start p) (_nonterminal_types_first p) (_eoi p) (_memo p).
Definition with_bsr (f : IgneaBSR -> IgneaBSR) (p : IgneaParser) : IgneaParser :=
  mkParser (parser_lexer p) (nonterminal_types_ascend_parents p) (f (bsr p))
           (_nonterminal_type_start p) (_nonterminal_types_first p) (_eoi p) (_memo p).
Definition set__eoi (t : option nat) (p : IgneaParser) : IgneaParser :=
  mkParser (parser_lexer p) (nonterminal_types_ascend_parents p) (bsr p)
           (_nonterminal_type_start p) (_nonterminal_types_first p) t (_memo p).
Definition with_memo (f : gmap (NTId * nat) (gset nat) -> gmap (NTId * nat) (gset nat))
           (p : IgneaParser) : IgneaParser :=
  mkParser (parser_lexer p) (nonterminal_types_ascend_parents p) (bsr p)
           (_nonterminal_type_start p) (_nonterminal_types_first p) (_eoi p)
           (f (_memo p)).

(** A computation of the lexer, run on the parser's lexer. *)
Definition in_lexer {A} (c : M LexState A) : M IgneaParser A :=
  fun p => match c (parser_lexer p) with
           | (r, l) => (r, with_parser_lexer (fun _ => l) p)
           end.

(** [try: c except IgneaDerivationException: pass] *)
Definition catch_derivation {S A} (c : M S A) : M S (option A) :=
  fun s => match c s with
           | (Ok a, s') => (Ok (Some a), s')
           | (Raise IgneaDerivationException, s') => (Ok None, s')
           | (Raise e, s') => (Raise e, s')
           end.

(** [state.end_terminal.end_position if state.end_terminal is not None
    else state.split_position] *)
Definition state_end_position (st : IgneaParsingState) : M IgneaParser nat :=
  match state_end_terminal st with
  | Some t => let* tm := in_lexer (read_terminal t) in ret (end_position tm)
  | None => ret (state_split_position st)
  end.

(** [IgneaBSR.add] *)
Definition bsr_add (epn : IgneaEPN) : M IgneaParser unit :=
  let* e := state_end_position epn.2 in
  let key : BSRKey :=
    (match epn.1 with
     | Some type_ => inl (inr type_)
     | None => inr (state_string epn.2)
     end, state_start_position epn.2, e) in
  modify (with_bsr (fun b =>
    mkBSR (bsr_start b) (<[key := default ∅ (epns b !! key) ∪ {[epn]}]> (epns b)))).

(** [terminal.start_position.index_] *)
Definition start_index (t : nat) : M LexState nat :=
  let* tm := read_terminal t in
  let* p := read_position (start_position tm) in
  ret (index_ p).

(** The [while] of [_derive_single_terminal_tag]: along the [next] links
    from [eoi], while the terminals start where [next_terminal] does. *)
Fixpoint eoi_walk (fuel : nat) (next_terminal : nat) (eoi : option nat)
  : M LexState (option nat) :=
  match fuel with
  | 0 => raise OutOfFuel
  | S fuel' =>
      match eoi with
      | None => ret None
      | Some e =>
          if decide (next_terminal = e) then ret eoi
          else
            let* i := start_index next_terminal in
            let* j := start_index e in
            if i =? j then
              let* tm := read_terminal e in
              eoi_walk fuel' next_terminal (next tm)
            else ret eoi
      end
  end.

(** How [derive] is told whether to ascend: a boolean, or the caller's
    nonterminal type, or [None]. *)
Inductive Ascend :=
| AscendFlag (b : bool)
| AscendCaller (caller : option NTId).

(** [(ascend is None or ascend not in self._nonterminal_types_first or
    cls not in self._nonterminal_types_first[ascend]) and
    cls in self._nonterminal_types_first] *)
Definition ascend_at_runtime (first_table : gmap NTId (gset NTId))
           (ascend : option NTId) (cls : NTId) : bool :=
  match ascend with
  | None => true
  | Some caller =>
      match first_table !! caller with
      | None => true
      | Some firsts => negb (bool_decide (cls ∈ firsts))
      end
  end && bool_decide (is_Some (first_table !! cls)).

(** [for a in l: result |= body(a)] *)
Fixpoint union_for {S A B} `{Countable B} (l : list A) (body : A -> M S (gset B))
  : M S (gset B) :=
  match l with
  | [] => ret ∅
  | a :: l' =>
      let* more := body a in
      let* rest := union_for l' body in
      ret (more ∪ rest)
  end.

(** *** The parser *)

Section Parser.

Variable tag_class : TagId -> IgneaTerminalTag.

(** [IgneaParser.derive], as the [descend] methods see it. *)
Definition Derive : Type :=
  Symbol -> gset IgneaParsingState -> Ascend -> M IgneaParser (gset IgneaParsingState).

(** The [descend] method of every nonterminal type: grammar code, which
    calls back into [derive]. *)
Variable descend : NTId -> Derive -> IgneaParsingState -> M IgneaParser (gset IgneaParsingState).

(** The part of [_derive_single_terminal_tag] that keeps [_eoi] at the
    furthest terminal. *)
Definition update_eoi (fuel : nat) (next_terminal : nat) : M IgneaParser unit :=
  let* p := gets id in
  match _eoi p with
  | None => modify (set__eoi (Some next_terminal))
  | Some e =>
      if decide (next_terminal = e) then ret tt
      else
        let* i := in_lexer (start_index next_terminal) in
        let* j := in_lexer (start_index e) in
        if j <? i then modify (set__eoi (Some next_terminal))
        else if i =? j then
          let* eoi := in_lexer (eoi_walk fuel next_terminal (Some e)) in
          if decide (Some next_terminal = eoi)
          then modify (set__eoi (Some next_terminal))
          else ret tt
        else ret tt
  end.

(** [IgneaParser._derive_single_terminal_tag] *)
Definition _derive_single_terminal_tag (fuel : nat) (cls : TagId)
           (current_state : IgneaParsingState) : M IgneaParser (option IgneaParsingState) :=
  bsr_add (None, current_state) ;;
  let* next_terminal :=
    in_lexer (next_terminal tag_class fuel (state_end_terminal current_state)) in
  match next_terminal with
  | None => ret None
  | Some t =>
      update_eoi fuel t ;;
      let* tm := in_lexer (read_terminal t) in
      if bool_decide (cls ∈ tags tm) then
        let* e := state_end_position current_state in
        ret (Some (state_string current_state ++ [inl cls],
                   state_start_position current_state, e, Some t))
      else ret None
  end.

(** [IgneaNonterminalType.ascend] *)
Definition ascend (derive : Derive) (cls : NTId) (current_state : IgneaParsingState)
  : M IgneaParser unit :=
  let* p := gets id in
  let* parents := from_option KeyError (nonterminal_types_ascend_parents p !! cls) in
  for_each parents (fun ascend_parent =>
    catch_derivation (derive (inr ascend_parent) {[current_state]} (AscendFlag true)) ;;
    ret tt).

(** [IgneaParser._derive_single_nonterminal_type] *)
Definition _derive_single_nonterminal_type (derive : Derive) (cls : NTId)
           (current_state : IgneaParsingState) (ascend_ : bool)
  : M IgneaParser (gset IgneaParsingState) :=
  bsr_add (None, current_state) ;;
  let* current_state_end_position := state_end_position current_state in
  let key := (cls, current_state_end_position) in
  let* p := gets id in
  (if ascend_ || negb (bool_decide (is_Some (_memo p !! key))) then
     (if bool_decide (is_Some (_memo p !! key)) then ret tt
      else modify (with_memo (<[key := ∅]>))) ;;
     let* p := gets id in
     let* memo := from_option KeyError (_memo p !! key) in
     let initial_memo_len := size memo in
     let* next_states :=
       catch_derivation
         (descend cls derive
            ([], current_state_end_position, current_state_end_position,
             state_end_terminal current_state)) in
     match next_states with
     | None => ret tt
     | Some next_states =>
         for_each (elements next_states) (fun next_state =>
           bsr_add (Some cls, next_state) ;;
           let* t := from_option AssertionError (state_end_terminal next_state) in
           let* p := gets id in
           let* memo := from_option KeyError (_memo p !! key) in
           modify (with_memo (<[key := memo ∪ {[t]}]>))) ;;
         let* p := gets id in
         let* memo := from_option KeyError (_memo p !! key) in
         if ascend_ && negb (initial_memo_len =? size memo)
         then ascend derive cls current_state
         else ret tt
     end
   else ret tt) ;;
  let* p := gets id in
  let* memo := from_option KeyError (_memo p !! key) in
  ret (set_map (fun next_terminal : nat =>
                  (state_string current_state ++ [inr cls],
                   state_start_position current_state,
                   current_state_end_position, Some next_terminal) : IgneaParsingState)
               memo).

(** The body of [IgneaParser.derive]; [derive] is what the grammar code
    and the ascent call. *)
Definition derive_body (fuel : nat) (derive : Derive) : Derive :=
  fun cls current_states ascend_ =>
    let* next_states :=
      match cls with
      | inl tag =>
          union_for (elements current_states) (fun current_state =>
            let* next_state := _derive_single_terminal_tag fuel tag current_state in
            ret (match next_state with
                 | Some st => {[st]}
                 | None => ∅
                 end))
      | inr nonterminal =>
          let* p := gets id in
          let flag := match ascend_ with
                      | AscendFlag b => b
                      | AscendCaller caller =>
                          ascend_at_runtime (_nonterminal_types_first p) caller nonterminal
                      end in
          union_for (elements current_states) (fun current_state =>
            _derive_single_nonterminal_type derive nonterminal current_state flag)
      end in
    if size next_states =? 0 then raise IgneaDerivationException
    else ret next_states.

(** [IgneaParser.derive]: [fuel] bounds the depth of the calls between
    [derive] and the grammar code, and the loops of the lexer. *)
Fixpoint derive (fuel : nat) : Derive :=
  match fuel with
  | 0 => fun _ _ _ => raise OutOfFuel
  | S fuel' => derive_body fuel (derive fuel')
  end.

(** What [IgneaParser.parse] does after the derivation. *)
Definition parse_completion (fuel : nat) : M IgneaParser unit :=
  let* p := gets id in
  match _eoi p with
  | None => ret tt
  | Some eoi =>
      let* tm := in_lexer (read_terminal eoi) in
      let key : BSRKey :=
        (inl (inr (_nonterminal_type_start p)),
         lexer_start_position (lexer (parser_lexer p)), end_position tm) in
      if bool_decide (is_Some (epns (bsr p) !! key)) then
        let* next_terminal := in_lexer (next_terminal tag_class fuel (Some eoi)) in
        match next_terminal with
        | Some _ =>
            let* tm := in_lexer (read_terminal eoi) in
            let* n := from_option AssertionError (next tm) in
            let* ntm := in_lexer (read_terminal n) in
            let* position := in_lexer (read_position (start_position ntm)) in
            raise (IgneaNoDerivationError position)
        | None =>
            modify (with_bsr (fun b => mkBSR (Some key) (epns b)))
        end
      else
        let* position := in_lexer (read_position (start_position tm)) in
        raise (IgneaNoDerivationError position)
  end.

(** [IgneaParser.parse] *)
Definition parse (fuel : nat) : M IgneaParser unit :=
  let* p := gets id in
  let start_position := lexer_start_position (lexer (parser_lexer p)) in
  catch_derivation
    (derive fuel (inr (_nonterminal_type_start p))
            {[ ([], start_position, start_position, None) ]} (AscendCaller None)) ;;
  parse_completion fuel.

End Parser.

(** *** The parser's constructor *)

(** The first loop of [IgneaParser.__post_init__]: the starting symbol and
    the graph of the [first] sets, in the order of [NONTERMINAL_TYPES]. *)
Fixpoint post_init_types (nt_class : NTId -> IgneaNonterminalType)
         (conditions : IgneaConditions) (types : list NTId)
         (nonterminal_type_start : option NTId)
         (nonterminal_types_first : list (NTId * gset NTId))
  : Res (option NTId * list (NTId * gset NTId)) :=
  match types with
  | [] => Ok (nonterminal_type_start, nonterminal_types_first)
  | nonterminal_type :: rest =>
      let firsts := alist_set nonterminal_type
                              (first (nt_class nonterminal_type) conditions)
                              nonterminal_types_first in
      if nt_start (nt_class nonterminal_type) conditions then
        match nonterminal_type_start with
        | Some _ => Raise (IgneaMultipleStartsError nonterminal_type)
        | None => post_init_types nt_class conditions rest (Some nonterminal_type) firsts
        end
      else post_init_types nt_class conditions rest nonterminal_type_start firsts
  end.

(** The two tables of left recursion:
    [_nonterminal_types_first] and [nonterminal_types_ascend_parents]. *)
Definition Tables : Type := gmap NTId (gset NTId) * gmap NTId (list NTId).

(** [[w for w in scc if v in nonterminal_types_first[w]]] *)
Fixpoint ascend_parents_in (nonterminal_types_first : list (NTId * gset NTId))
         (v : NTId) (scc : list NTId) : Res (list NTId) :=
  match scc with
  | [] => Ok []
  | w :: rest =>
      match alist_lookup w nonterminal_types_first with
      | None => Raise KeyError
      | Some firsts =>
          match ascend_parents_in nonterminal_types_first v rest with
          | Ok parents => Ok (if bool_decide (v ∈ firsts) then w :: parents else parents)
          | Raise e => Raise e
          end
      end
  end.

(** [for v in scc: ...], the entries of one left-recursive component. *)
Definition scc_entries (nonterminal_types_first : list (NTId * gset NTId))
           (scc : gset NTId) : M Tables unit :=
  for_each (elements scc) (fun v =>
    let* firsts := from_option KeyError (alist_lookup v nonterminal_types_first) in
    match ascend_parents_in nonterminal_types_first v (elements scc) with
    | Raise e => raise e
    | Ok parents =>
        modify (fun t : Tables => (<[v := scc ∩ firsts]> t.1, <[v := parents]> t.2))
    end).

(** The body of [for scc in sccs]: a component of one node that is not in
    its own [first] set is skipped. *)
Definition scc_step (nonterminal_types_first : list (NTId * gset NTId))
           (scc : gset NTId) : M Tables unit :=
  let* skip :=
    if size scc =? 1 then
      let* v := from_option KeyError (head (elements scc)) in
      let* firsts := from_option KeyError (alist_lookup v nonterminal_types_first) in
      ret (negb (bool_decide (v ∈ firsts)))
    else ret false in
  if skip : bool then ret tt else scc_entries nonterminal_types_first scc.

(** [IgneaParser(lexer)]: the dataclass constructor followed by
    [__post_init__]. *)
Definition IgneaParser_new (fuel : nat) (nt_class : NTId -> IgneaNonterminalType)
           (NONTERMINAL_TYPES : list NTId) (lexer_ : LexState) : Res IgneaParser :=
  match post_init_types nt_class (conditions (lexer lexer_)) NONTERMINAL_TYPES None [] with
  | Raise e => Raise e
  | Ok (None, _) => Raise IgneaNoStartError
  | Ok (Some nonterminal_type_start, nonterminal_types_first) =>
      match ignea_compute_sccs fuel nonterminal_types_first with
      | Raise e => Raise e
      | Ok sccs =>
          match for_each sccs (scc_step nonterminal_types_first) (∅, ∅) with
          | (Raise e, _) => Raise e
          | (Ok _, tables) =>
              Ok (mkParser lexer_ tables.2 (mkBSR None ∅) nonterminal_type_start
                           tables.1 None ∅)
          end
      end
  end.

(** ** A grammar of two identifiers *)

Module PairParser.

(** The one nonterminal type, the starting symbol [S -> IDENT IDENT]. *)
Definition S_ : NTId := 0.

Definition nt_class (n : NTId) : IgneaNonterminalType :=
  {| nt_start := fun _ => true; first := fun _ => ∅ |}.

Definition NONTERMINAL_TYPES : list NTId := [S_].

(** [S.descend]: [parser.derive(IDENT, {current_state})], then
    [parser.derive(IDENT, ...)] from the states that gives. *)
Definition descend (n : NTId) (derive : Derive) (current_state : IgneaParsingState)
  : M IgneaParser (gset IgneaParsingState) :=
  let* states := derive (inl KeywordLexer.IDENT) {[current_state]} (AscendCaller None) in
  derive (inl KeywordLexer.IDENT) states (AscendCaller None).

Definition new (input : string) : Res IgneaParser :=
  match IgneaLexer_new KeywordLexer.tag_class KeywordLexer.TERMINAL_TAGS "f"
          (String.list_ascii_of_string input) 0%N with
  | Raise e => Raise e
  | Ok l => IgneaParser_new 5 nt_class NONTERMINAL_TYPES l
  end.

(** The outcome of [parse] and what it leaves in [bsr.start], the positions
    read from the store. *)
Definition run (fuel : nat) (input : string)
  : Res (Res unit * option ((Symbol + list Symbol) * option IgneaPosition * option IgneaPosition)) :=
  match new input with
  | Raise e => Raise e
  | Ok p =>
      let '(r, p') := parse KeywordLexer.tag_class descend fuel p in
      Ok (r, match bsr_start (bsr p') with
             | Some k => Some (k.1.1, positions (store (parser_lexer p')) !! k.1.2,
                               positions (store (parser_lexer p')) !! k.2)
             | None => None
             end)
  end.

End PairParser.

(** ** A left-recursive grammar of sums *)

Module SumParser.

Definition IDENT : TagId := 0.
Definition PLUS : TagId := 1.
Definition WS : TagId := 2.

Definition PLUS_nfa (s : IgneaLexingState) (c : ascii) : bool * IgneaLexingState :=
  if bit 0 s && Ascii.eqb c "+" then (true, 0%N) else (false, 0%N).

Definition tag_class (t : TagId) : IgneaTerminalTag :=
  match t with
  | 0 => {| STATES_START := 1%N; start := fun _ => true; ignore := fun _ => false;
            indent := fun _ => false; dedent := fun _ => false;
            positives := fun _ => ∅; negatives := fun _ => ∅;
            nfa := KeywordLexer.IDENT_nfa |}
  | 1 => {| STATES_START := 1%N; start := fun _ => true; ignore := fun _ => false;
            indent := fun _ => false; dedent := fun _ => false;
            positives := fun _ => ∅; negatives := fun _ => ∅;
            nfa := PLUS_nfa |}
  | _ => {| STATES_START := 1%N; start := fun _ => true; ignore := fun _ => true;
            indent := fun _ => false; dedent := fun _ => false;
            positives := fun _ => ∅; negatives := fun _ => ∅;
            nfa := OffsideLexer.BLANK_nfa |}
  end.

Definition TERMINAL_TAGS : list TagId := [IDENT; PLUS; WS].

(** [E -> E PLUS T | T], the starting symbol, and [T -> IDENT]. *)
Definition E : NTId := 0.
Definition T : NTId := 1.

Definition nt_class (n : NTId) : IgneaNonterminalType :=
  match n with
  | 0 => {| nt_start := fun _ => true; first := fun _ => {[E; T]} |}
  | _ => {| nt_start := fun _ => false; first := fun _ => ∅ |}
  end.

Definition NONTERMINAL_TYPES : list NTId := [E; T].

(** The [descend] methods: every alternative is tried, one that cannot be
    derived is passed over, and none derived is
    [IgneaDerivationException]. *)
Definition descend (n : NTId) (derive : Derive) (current_state : IgneaParsingState)
  : M IgneaParser (gset IgneaParsingState) :=
  match n with
  | 0 =>
      let* sum :=
        catch_derivation
          (let* s := derive (inr E) {[current_state]} (AscendCaller (Some E)) in
           let* s := derive (inl PLUS) s (AscendCaller None) in
           derive (inr T) s (AscendCaller (Some E))) in
      let* term :=
        catch_derivation (derive (inr T) {[current_state]} (AscendCaller (Some E))) in
      let next_states := default ∅ sum ∪ default ∅ term in
      if size next_states =? 0 then raise IgneaDerivationException else ret next_states
  | _ => derive (inl IDENT) {[current_state]} (AscendCaller None)
  end.

Definition new (input : string) : Res IgneaParser :=
  match IgneaLexer_new tag_class TERMINAL_TAGS "f"
          (String.list_ascii_of_string input) 0%N with
  | Raise e => Raise e
  | Ok l => IgneaParser_new 5 nt_class NONTERMINAL_TYPES l
  end.

End SumParser.


(** ** Reasoning about computations *)

#[local] Arguments Nat.ltb : simpl never.
#[local] Arguments Nat.leb : simpl never.
#[local] Arguments Nat.eqb : simpl never.
#[local] Arguments N.eqb : simpl never.
#[local] Arguments Nat.sub : simpl never.

Lemma bind_Ok {S A B} (c : M S A) (k : A -> M S B) s b s' :
  bind c k s = (Ok b, s') ->
  exists a s1, c s = (Ok a, s1) /\ k a s1 = (Ok b, s').
Proof.
  unfold bind. destruct (c s) as [[a|e] s1]; [eauto | discriminate].
Qed.

Lemma ret_Ok {S A} (a b : A) (s s' : S) : ret a s = (Ok b, s') -> b = a /\ s' = s.
Proof. unfold ret. intros [= <- <-]. auto. Qed.

Lemma gets_Ok {S A} (f : S -> A) (b : A) (s s' : S) :
  gets f s = (Ok b, s') -> b = f s /\ s' = s.
Proof. unfold gets. intros [= <- <-]. auto. Qed.

Lemma modify_Ok {S} (f : S -> S) (u : unit) (s s' : S) :
  modify f s = (Ok u, s') -> s' = f s.
Proof. unfold modify. intros [= <-]. auto. Qed.

Lemma raise_Ok {S A} (e : Exn) (b : A) (s s' : S) : raise e s = (Ok b, s') -> False.
Proof. discriminate. Qed.

Lemma from_option_Ok {S A} (e : Exn) (o : option A) (b : A) (s s' : S) :
  from_option e o s = (Ok b, s') -> o = Some b /\ s' = s.
Proof. destruct o; cbn; intros [= <- <-] || discriminate; auto. Qed.

Lemma new_position_Ok p r s s' :
  new_position p s = (Ok r, s') ->
  r = length (positions (store s)) /\
  s' = with_store (fun h => mkStore (positions h ++ [p]) (terminals h)) s.
Proof. unfold new_position. intros [= <- <-]. auto. Qed.

Lemma new_terminal_Ok t r s s' :
  new_terminal t s = (Ok r, s') ->
  r = length (terminals (store s)) /\
  s' = with_store (fun h => mkStore (positions h) (terminals h ++ [t])) s.
Proof. unfold new_terminal. intros [= <- <-]. auto. Qed.

(** [mclean] reads off the successful runs of the primitive computations
    among the hypotheses; [minv] also splits binds. *)
Ltac mclean_step :=
  match goal with
  | H : ret _ _ = (Ok _, _) |- _ => apply ret_Ok in H; destruct H as [? ?]; subst
  | H : gets _ _ = (Ok _, _) |- _ => apply gets_Ok in H; destruct H as [? ?]; subst
  | H : modify _ _ = (Ok _, _) |- _ => apply modify_Ok in H; subst
  | H : upd_store _ _ = (Ok _, _) |- _ => apply modify_Ok in H; subst
  | H : upd_cache _ _ = (Ok _, _) |- _ => apply modify_Ok in H; subst
  | H : upd_offside _ _ = (Ok _, _) |- _ => apply modify_Ok in H; subst
  | H : raise _ _ = (Ok _, _) |- _ => apply raise_Ok in H; destruct H
  | H : from_option _ _ _ = (Ok _, _) |- _ =>
      apply from_option_Ok in H; destruct H as [? ?]; subst
  | H : new_position _ _ = (Ok _, _) |- _ =>
      apply new_position_Ok in H; destruct H as [? ?]; subst
  | H : new_terminal _ _ = (Ok _, _) |- _ =>
      apply new_terminal_Ok in H; destruct H as [? ?]; subst
  end.
Ltac mclean := repeat mclean_step.
Ltac minv_step :=
  match goal with
  | H : bind _ _ _ = (Ok _, _) |- _ =>
      let a := fresh "a" in let s := fresh "s" in
      let H1 := fresh "H" in let H2 := fresh "H" in
      apply bind_Ok in H; destruct H as (a & s & H1 & H2)
  | _ => mclean_step
  end.
Ltac minv := repeat minv_step.

(** [mbind H as a s H1 H2] splits the run [H] at its first bind, naming the
    intermediate result and state. *)
Tactic Notation "mbind" hyp(H) "as" ident(a) ident(s) ident(H1) ident(H2) :=
  apply bind_Ok in H; destruct H as (a & s & H1 & H2).

(** [on f tac] runs [tac] on a hypothesis that mentions [f]. *)
Ltac on f tac := match goal with H : context [f] |- _ => tac H end.

(** ** What the lexer never changes *)

(** The fields fixed by the constructor. *)
Record Statics := mkStatics {
  st_input : list ascii;
  st_conditions : IgneaConditions;
  st_start_position : nat;
  st_states_start : list (TagId * IgneaLexingState);
  st_ignore : gset TagId;
  st_offside : option (TagId * TagId);
  st_positives : gmap TagId (gset TagId);
  st_negatives : gmap TagId (gset TagId);
  st_driver_tags : option (TagId * TagId)
}.

Definition statics (s : LexState) : Statics :=
  mkStatics (input (lexer s)) (conditions (lexer s)) (lexer_start_position (lexer s))
            (states_start (the_cache s)) (terminal_tags_ignore (the_cache s))
            (terminal_tags_offside (the_cache s)) (terminal_tags_positives (the_cache s))
            (terminal_tags_negatives (the_cache s)) (terminal_tags (the_offside s)).

(** What the scanning and refinement steps leave alone: the constants, the
    head of the stream, the object store and the indentation stack. *)
Definition quiet (s : LexState) :=
  (statics s, _start (lexer s), store s, _stack (the_offside s)).

(** A linked list of terminals in the store: [chain T r l] when following
    [next] from [r] visits exactly [l] and ends on [None]. *)
Inductive chain (T : list IgneaTerminal) : option nat -> list nat -> Prop :=
| chain_nil : chain T None []
| chain_cons t tm l :
    T !! t = Some tm -> chain T (next tm) l -> chain T (Some t) (t :: l).

Definition has_tag (T : list IgneaTerminal) (g : TagId) (t : nat) : bool :=
  match T !! t with
  | Some tm => bool_decide (g ∈ tags tm)
  | None => false
  end.

(** How many terminals of [l] carry the tag [g]. *)
Fixpoint count_tag (T : list IgneaTerminal) (g : TagId) (l : list nat) : nat :=
  match l with
  | [] => 0
  | t :: l' => (if has_tag T g t then 1 else 0) + count_tag T g l'
  end.

Lemma chain_app T X r l : chain T r l -> chain (T ++ X) r l.
Proof.
  induction 1; econstructor; eauto. by apply lookup_app_l_Some.
Qed.

Lemma chain_functional T r l1 l2 : chain T r l1 -> chain T r l2 -> l1 = l2.
Proof.
  intros H; revert l2; induction H; inversion 1; subst; auto.
  f_equal. apply IHchain. congruence.
Qed.

Lemma count_tag_app T g l1 l2 :
  count_tag T g (l1 ++ l2) = count_tag T g l1 + count_tag T g l2.
Proof. induction l1; cbn; lia. Qed.

Lemma count_tag_ext T T' g l :
  (forall t, t ∈ l -> tags <$> T' !! t = tags <$> T !! t) ->
  count_tag T' g l = count_tag T g l.
Proof.
  induction l as [|t l IH]; cbn; intros H; [done|].
  rewrite IH by (intros; apply H; set_solver).
  unfold has_tag. specialize (H t ltac:(set_solver)).
  destruct (T' !! t) as [a|], (T !! t) as [b|]; cbn in H; try congruence.
  injection H as H. by rewrite H.
Qed.

(** ** The off-side driver, step by step *)

(** An off-side terminal of tag [g] at [sp]. *)
Definition offside_terminal_at (P : list IgneaPosition) (g : TagId) (sp : IgneaPosition)
           (tm : IgneaTerminal) : Prop :=
  tags tm = {[g]} /\ value tm = [] /\
  P !! start_position tm = Some sp /\ P !! end_position tm = Some sp.

Lemma _get_offside_terminal_Ok sp cur ind s t s' :
  _get_offside_terminal sp cur ind s = (Ok t, s') ->
  exists i d,
    terminal_tags (the_offside s) = Some (i, d) /\
    t = length (terminals (store s)) /\
    s' = with_store (fun h =>
           mkStore (positions h ++ [sp; sp])
                   (terminals h ++
                      [mkTerminal {[ if ind then i else d ]} []
                                  (length (positions h)) (S (length (positions h))) cur])) s.
Proof.
  unfold _get_offside_terminal. intros H. minv.
  match goal with H : _ = Some ?a |- _ => destruct a as [i d] end.
  exists i, d. destruct s as [[P T] lx]. cbn in *.
  repeat split; auto. unfold with_store. cbn.
  rewrite length_app, <- app_assoc. cbn. do 6 f_equal. lia.
Qed.

(** The levels [dedent_while] pops for a terminal in column [c]. *)
Fixpoint pops (c : nat) (stack : list nat) : nat :=
  match stack with
  | [] => 0
  | top :: rest => if c <? top then S (pops c rest) else 0
  end.

(** What a batch of [k] off-side terminals of tag [g] at [sp], linked in
    front of [cur], does to the store. *)
Definition batch (g : TagId) (sp : IgneaPosition) (k : nat) (cur r : option nat)
           (h h' : Store) : Prop :=
  exists newP newT,
    positions h' = positions h ++ newP /\
    terminals h' = terminals h ++ newT /\
    length newT = k /\
    Forall (offside_terminal_at (positions h') g sp) newT /\
    Forall (fun tm => length (positions h) <= start_position tm /\
                      length (positions h) <= end_position tm) newT /\
    Forall (fun tm => next tm = cur \/
                      exists n, next tm = Some n /\ n < length (terminals h')) newT /\
    r = match k with 0 => cur | S k' => Some (length (terminals h) + k') end /\
    forall lc, chain (terminals h) cur lc ->
               chain (terminals h') r (rev (seq (length (terminals h)) k) ++ lc).

Lemma batch_zero g sp cur h : batch g sp 0 cur cur h h.
Proof.
  exists [], []. rewrite !app_nil_r. repeat split; auto.
Qed.

Lemma batch_one g sp cur s :
  let h' := mkStore (positions (store s) ++ [sp; sp])
                    (terminals (store s) ++
                       [mkTerminal {[g]} [] (length (positions (store s)))
                                   (S (length (positions (store s)))) cur]) in
  batch g sp 1 cur (Some (length (terminals (store s)))) (store s) h'.
Proof.
  intros h'. eexists _, _. repeat split; try reflexivity.
  - constructor; [|constructor]. repeat split; cbn.
    + rewrite lookup_app_r by lia. by rewrite Nat.sub_diag.
    + rewrite lookup_app_r by lia. by replace (S _ - _) with 1 by lia.
  - constructor; [|constructor]. cbn. lia.
  - constructor; [|constructor]. by left.
  - by rewrite Nat.add_0_r.
  - intros lc Hc. cbn. econstructor.
    + rewrite lookup_app_r by lia. by rewrite Nat.sub_diag.
    + cbn. by apply chain_app.
Qed.

Lemma offside_terminal_at_app P X g sp tm :
  offside_terminal_at P g sp tm -> offside_terminal_at (P ++ X) g sp tm.
Proof.
  intros (? & ? & ? & ?). repeat split; auto; by apply lookup_app_l_Some.
Qed.

Lemma chain_head_lt T r l t : chain T r (t :: l) -> r = Some t /\ t < length T.
Proof.
  inversion 1; subst. split; [done|]. by eapply lookup_lt_Some.
Qed.

Lemma batch_trans g sp k1 k2 cur r1 r2 h1 h2 h3 :
  batch g sp k1 cur r1 h1 h2 -> batch g sp k2 r1 r2 h2 h3 ->
  batch g sp (k1 + k2) cur r2 h1 h3.
Proof.
  intros (P1 & T1 & HP1 & HT1 & Hl1 & HF1 & Hf1 & Hn1 & Hz1 & Hc1)
         (P2 & T2 & HP2 & HT2 & Hl2 & HF2 & Hf2 & Hn2 & Hz2 & Hc2).
  assert (Hr1 : r1 = cur \/ exists n, r1 = Some n /\ n < length (terminals h2)).
  { destruct k1; [by left|right]. eexists. split; [done|].
    rewrite HT1, length_app. lia. }
  exists (P1 ++ P2), (T1 ++ T2). repeat split.
  - by rewrite HP2, HP1, app_assoc.
  - by rewrite HT2, HT1, app_assoc.
  - rewrite length_app. lia.
  - apply Forall_app. split; [|done].
    rewrite HP2. eapply Forall_impl; [exact HF1|].
    intros; by apply offside_terminal_at_app.
  - apply Forall_app. split; [done|].
    eapply Forall_impl; [exact Hf2|]. rewrite HP1, length_app. cbn. lia.
  - apply Forall_app. split.
    + eapply Forall_impl; [exact Hn1|]. intros tm [?|(n & ? & ?)]; [by left|right].
      exists n. split; [done|]. rewrite HT2, length_app. lia.
    + eapply Forall_impl; [exact Hn2|]. intros tm [Hx|?]; [|by right].
      destruct Hr1 as [->|(n & -> & ?)]; [by left|right].
      exists n. split; [done|]. rewrite HT2, length_app. lia.
  - rewrite Hz2. destruct k2 as [|k2].
    + by rewrite Nat.add_0_r.
    + rewrite HT1, length_app, Hl1, Nat.add_succ_r. f_equal. lia.
  - intros lc Hc. specialize (Hc2 _ (Hc1 _ Hc)).
    rewrite HT1, length_app, Hl1 in Hc2.
    by rewrite seq_app, rev_app_distr, <- app_assoc.
Qed.

(** The lexer with its indentation stack replaced. *)
Definition restack (k : list nat) (l : IgneaLexer) : IgneaLexer :=
  with_lexer_store (with_offside (set__stack k)) l.

Lemma restack_id s : restack (_stack (the_offside s)) (lexer s) = lexer s.
Proof. by destruct s as [? [? ? ? ? ? ? [? ? ? ? ? ? []]]]. Qed.

Lemma restack_restack k k' l : restack k (restack k' l) = restack k l.
Proof. reflexivity. Qed.

Lemma pop_stack_Ok u s s' :
  pop_stack s = (Ok u, s') ->
  exists top rest, _stack (the_offside s) = top :: rest /\
                   s' = with_lexer (restack rest) s.
Proof.
  unfold pop_stack. intros H. minv.
  destruct (_stack (the_offside s)) as [|top rest] eqn:E; minv.
  eauto.
Qed.

Lemma drain_Ok n sp cur s r s' i d :
  drain n sp cur s = (Ok r, s') ->
  terminal_tags (the_offside s) = Some (i, d) ->
  lexer s' = restack (drop n (_stack (the_offside s))) (lexer s) /\
  n <= length (_stack (the_offside s)) /\
  batch d sp n cur r (store s) (store s').
Proof.
  revert cur s. induction n as [|n IH]; intros cur s H Htt; cbn in H.
  - minv. rewrite drop_0, (restack_id s).
    split; [done|]. split; [lia|]. apply batch_zero.
  - minv.
    on _get_offside_terminal
       ltac:(fun H => apply _get_offside_terminal_Ok in H as (i' & d' & Htt' & -> & ->)).
    rewrite Htt in Htt'. injection Htt' as <- <-.
    on pop_stack ltac:(fun H => apply pop_stack_Ok in H as (top & rest & Hst & ->)).
    on drain ltac:(fun H => apply IH in H as (Hl & Hn & Hb); [|done]).
    cbn in *. rewrite Hst in *. cbn in *. rewrite Hl.
    split; [done|]. split; [lia|].
    change (S n) with (1 + n). eapply batch_trans; [|exact Hb].
    apply (batch_one d sp cur s).
Qed.

Lemma dedent_while_Ok stack sp cur s r s' i d :
  dedent_while stack sp cur s = (Ok r, s') ->
  _stack (the_offside s) = stack ->
  terminal_tags (the_offside s) = Some (i, d) ->
  lexer s' = restack (drop (pops (column sp) stack) stack) (lexer s) /\
  (exists top, head (drop (pops (column sp) stack) stack) = Some top /\
               top <= column sp) /\
  batch d sp (pops (column sp) stack) cur r (store s) (store s').
Proof.
  revert cur s. induction stack as [|top rest IH]; intros cur s H Hst Htt; cbn in H.
  - minv.
  - cbn. destruct (column sp <? top) eqn:E.
    + minv.
      on _get_offside_terminal
         ltac:(fun H => apply _get_offside_terminal_Ok in H as (i' & d' & Htt' & -> & ->)).
      rewrite Htt in Htt'. injection Htt' as <- <-.
      on pop_stack ltac:(fun H => apply pop_stack_Ok in H as (top' & rest' & Hst' & ->)).
      cbn in Hst', Hst. rewrite Hst in Hst'. injection Hst' as <- <-.
      on dedent_while ltac:(fun H => apply IH in H as (Hl & Hn & Hb); [|done..]).
      rewrite Hl. split; [done|]. split; [done|].
      change (S ?n) with (1 + n). eapply batch_trans; [|exact Hb].
      apply (batch_one d sp cur s).
    + minv. apply Nat.ltb_ge in E. rewrite drop_0, <- Hst at 1.
      rewrite (restack_id s).
      split; [done|]. split; [|apply batch_zero]. eauto.
Qed.

Lemma pops_spec c stack :
  Forall (fun l => c < l) (take (pops c stack) stack) /\
  pops c stack <= length stack /\
  forall top, head (drop (pops c stack) stack) = Some top -> top <= c.
Proof.
  induction stack as [|top rest (IH1 & IH2 & IH3)]; cbn [pops].
  - split; [constructor|]. split; [cbn; lia|]. discriminate.
  - destruct (c <? top) eqn:E; cbn [take drop head length].
    + apply Nat.ltb_lt in E. split; [by constructor|]. split; [lia|done].
    + apply Nat.ltb_ge in E. split; [constructor|]. split; [lia|]. by intros ? [= <-].
Qed.

Lemma dedent_while_total stack sp cur s i d :
  _stack (the_offside s) = stack ->
  terminal_tags (the_offside s) = Some (i, d) ->
  (exists lvl, lvl ∈ stack /\ lvl <= column sp) ->
  exists r s', dedent_while stack sp cur s = (Ok r, s').
Proof.
  revert cur s. induction stack as [|top rest IH]; intros cur s Hst Htt (lvl & Hin & Hle).
  - by apply elem_of_nil in Hin.
  - cbn [dedent_while]. destruct (column sp <? top) eqn:E.
    + apply Nat.ltb_lt in E.
      apply elem_of_cons in Hin as [->|Hin]; [lia|].
      destruct (_get_offside_terminal sp cur false s) as [[t|e] s1] eqn:E1.
      * apply _get_offside_terminal_Ok in E1 as Hs1.
        destruct Hs1 as (i' & d' & _ & _ & ->).
        edestruct (IH (Some t)) as (r & s' & Hr); [| |by eauto|].
        3:{ exists r, s'. unfold bind at 1. rewrite E1. unfold bind at 1.
            unfold pop_stack, bind, gets. cbn. cbn in Hst. rewrite Hst. cbn.
            exact Hr. }
        -- reflexivity.
        -- exact Htt.
      * exfalso. unfold _get_offside_terminal in E1.
        unfold bind, new_position, gets, from_option, new_terminal in E1. cbn in E1.
        cbn in Htt. rewrite Htt in E1. cbn in E1. discriminate.
    + eauto.
Qed.

Lemma prepend_offside_terminals_None sp cur s r s' :
  prepend_offside_terminals sp cur s = (Ok r, s') ->
  terminal_tags (the_offside s) = None ->
  r = cur /\ s' = s.
Proof.
  unfold prepend_offside_terminals. intros H Htt. minv.
  rewrite Htt in *. by minv.
Qed.

(** A successful [prepend_offside_terminals] with the off-side rule active:
    a batch of [k] terminals of one tag [g]; either dedents, one per level
    popped, or one indent for the level pushed. *)
Lemma prepend_offside_terminals_Ok sp cur s r s' i d :
  prepend_offside_terminals sp cur s = (Ok r, s') ->
  terminal_tags (the_offside s) = Some (i, d) ->
  exists g k stk',
    lexer s' = restack stk' (lexer s) /\
    batch g sp k cur r (store s) (store s') /\
    ((g = d /\ k + length stk' = length (_stack (the_offside s)))
     \/ (g = i /\ k = 1 /\ length stk' = S (length (_stack (the_offside s))))) /\
    (_stack (the_offside s) <> [] -> stk' <> []) /\
    (cur = None -> length stk' <= 1).
Proof.
  unfold prepend_offside_terminals. intros H Htt. minv.
  rewrite Htt in *. destruct cur as [c|].
  - minv. destruct (_stack _) as [|top rest] eqn:Hst; [discriminate|].
    on @head ltac:(fun H => injection H as <-).
    destruct (column sp <? top) eqn:E1.
    + minv. on dedent_while ltac:(fun H =>
        eapply dedent_while_Ok in H as (Hl & (top' & Hh & Hle) & Hb); [|done..]).
      assert (Hs0 : _stack (the_offside s0)
                    = drop (pops (column sp) (top :: rest)) (top :: rest))
        by (unfold the_offside, the_store; by rewrite Hl).
      match goal with
      | H : head (_stack (the_offside s0)) = _ |- _ =>
          rewrite Hs0, Hh in H; injection H as <-
      end.
      destruct (top' <? column sp) eqn:E2; minv.
      exists d, (pops (column sp) (top :: rest)),
        (drop (pops (column sp) (top :: rest)) (top :: rest)).
      split; [done|]. split; [done|]. split; [left; split; [done|]|].
      * rewrite length_drop.
        assert (pops (column sp) (top :: rest) <= length (top :: rest)); [|lia].
        clear. generalize (top :: rest). intros l. induction l; cbn; [lia|].
        destruct (_ <? _); cbn; lia.
      * split; [|discriminate]. intros _ Hn. rewrite Hn in Hh. discriminate.
    + destruct (top <? column sp) eqn:E2; minv.
      * on _get_offside_terminal
           ltac:(fun H => apply _get_offside_terminal_Ok in H as (i' & d' & Htt' & -> & ->)).
        rewrite Htt in Htt'. injection Htt' as <- <-.
        exists i, 1, (column sp :: top :: rest). cbn in *. rewrite Hst.
        split; [done|]. split; [apply (batch_one i sp (Some c) s)|].
        split; [right; done|]. split; [done|discriminate].
      * exists d, 0, (top :: rest). rewrite <- Hst at 1.
        rewrite (restack_id s). split; [done|]. split; [apply batch_zero|].
        split; [left; done|]. split; [done|discriminate].
  - on drain ltac:(fun H => eapply drain_Ok in H as (Hl & Hn & Hb); [|done]).
    cbn in *.
    exists d, (length (_stack (offside (_store (lexer s)))) - 1),
      (drop (length (_stack (offside (_store (lexer s)))) - 1)
            (_stack (offside (_store (lexer s))))).
    split; [done|]. split; [done|]. rewrite length_drop.
    split; [left; split; [done|lia]|].
    split; [|intros _; lia].
    intros Hne Hd. apply (f_equal length) in Hd. rewrite length_drop in Hd. cbn in Hd.
    destruct (_stack _); [done|]. cbn in Hd. lia.
Qed.

(** ** Invariants of the lexer *)

Lemma for_each_inv {S A} (I : S -> Prop) (l : list A) (body : A -> M S unit) :
  (forall a s u s', a ∈ l -> I s -> body a s = (Ok u, s') -> I s') ->
  forall s u s', I s -> for_each l body s = (Ok u, s') -> I s'.
Proof.
  induction l as [|a l IH]; intros Hb s u s' HI H; cbn in H.
  - by minv.
  - minv. eapply IH; [| |eassumption].
    + intros; eapply Hb; eauto. by right.
    + eapply Hb; eauto. by left.
Qed.

Lemma elem_of_alist_set {V} k (v : V) d g q :
  (g, q) ∈ alist_set k v d -> (g = k /\ q = v) \/ (g, q) ∈ d.
Proof.
  induction d as [|[k' v'] d IH]; cbn.
  - intros [= -> ->]%list_elem_of_singleton. by left.
  - destruct (decide (k' = k)) as [->|].
    + intros [[= -> ->]|?]%elem_of_cons; [by left|right; by right].
    + intros [[= -> ->]|?]%elem_of_cons; [right; by left|].
      destruct IH as [?|?]; auto. right. by right.
Qed.

Lemma elem_of_alist_update {V} (d o : list (TagId * V)) g q :
  (g, q) ∈ alist_update d o -> (g, q) ∈ d \/ (g, q) ∈ o.
Proof.
  unfold alist_update. revert d. induction o as [|[k v] o IH]; cbn; intros d H; [by left|].
  apply IH in H as [H|H]; [|right; by right].
  apply elem_of_alist_set in H as [[-> ->]|H]; [right; by left|by left].
Qed.

Section LexerFacts.

Variable tag_class : TagId -> IgneaTerminalTag.
Variable TERMINAL_TAGS : list TagId.

Definition is_active (x : Statics) (g : TagId) : Prop :=
  active tag_class (st_conditions x) g = true.

Definition all_active (x : Statics) (X : gset TagId) : Prop :=
  forall g, g ∈ X -> is_active x g.

(** What [__post_init__] establishes once and for all. *)
Record wf_statics (x : Statics) : Prop := {
  wf_ignore : all_active x (st_ignore x);
  wf_positives : forall k v, st_positives x !! k = Some v -> all_active x v;
  wf_negatives : forall k v, st_negatives x !! k = Some v -> all_active x v;
  wf_states_start : forall g q, (g, q) ∈ st_states_start x -> is_active x g;
  wf_driver : st_driver_tags x = st_offside x;
  wf_offside : forall i d, st_offside x = Some (i, d) ->
                           ~ is_active x i /\ ~ is_active x d /\ i <> d
}.

(** The store's transient sets hold active tags only. *)
Record scratch_active (s : LexState) : Prop := {
  sa_tags : all_active (statics s) (next_terminal_tags (the_store s));
  sa_next : forall g q, (g, q) ∈ next_states (the_store s) -> is_active (statics s) g;
  sa_current : forall g q, (g, q) ∈ current_states (the_store s) -> is_active (statics s) g
}.

(** The memoized refinements hold active, non-ignored tags only. *)
Definition wf_memo (s : LexState) : Prop :=
  forall k v, accepted_terminal_tags (the_cache s) !! k = Some v ->
              forall g, g ∈ v -> is_active (statics s) g /\ g ∉ st_ignore (statics s).

(** Scanning leaves this alone. *)
Definition calm (s : LexState) := (quiet s, accepted_terminal_tags (the_cache s)).

Lemma calm_statics s s' : calm s' = calm s -> statics s' = statics s.
Proof. unfold calm, quiet. congruence. Qed.

Lemma _IgneaOffside_nfa_Ok char s a s' :
  _IgneaOffside_nfa char s = (Ok a, s') ->
  calm s' = calm s /\ (scratch_active s -> scratch_active s').
Proof.
  unfold _IgneaOffside_nfa. intros H. minv.
  destruct (offside_nfa _ _) as [acc nxt]. minv.
  split; [done|]. by intros [].
Qed.

Lemma run_offside_Ok start_index indices b s r s' :
  run_offside start_index indices b s = (Ok r, s') ->
  calm s' = calm s /\ (scratch_active s -> scratch_active s').
Proof.
  revert b s. induction indices as [|i l IH]; intros b s H; cbn in H; minv; [done|].
  on _IgneaOffside_nfa ltac:(fun H => apply _IgneaOffside_nfa_Ok in H as [Hc Hs]).
  on run_offside ltac:(fun H => apply IH in H as [Hc' Hs']).
  split; [congruence|auto].
Qed.

Lemma _process_nfas_Ok char s u s' :
  _process_nfas tag_class char s = (Ok u, s') ->
  calm s' = calm s /\ (scratch_active s -> scratch_active s').
Proof.
  unfold _process_nfas. intros H. minv.
  on @for_each ltac:(fun H => eapply (for_each_inv
    (fun s1 => calm s1 = calm s /\
               current_states (the_store s1) = current_states (the_store s) /\
               (scratch_active s -> scratch_active s1))) in H as (Hc & _ & Hsa)); [done| |done].
  intros [g q] s1 [] s2 Hin (Hc & Hcs & Hsa) H.
  mbind H as memo s1' Hm H. mclean.
  mbind H as a0 s0 H0 H. mbind H as a1 s3 H3 H4. cbn [fst snd] in *.
  assert (Hstep1 : calm s0 = calm s1 /\ the_store s0 = the_store s1).
  { destruct (nfas _ !! _); minv; done. }
  destruct Hstep1 as [Hc1 Hst1].
  assert (Hstep2 : calm s3 = calm s0 /\
                   current_states (the_store s3) = current_states (the_store s0) /\
                   next_states (the_store s3) = next_states (the_store s0) /\
                   (next_terminal_tags (the_store s3) = next_terminal_tags (the_store s0)
                    \/ next_terminal_tags (the_store s3)
                       = next_terminal_tags (the_store s0) ∪ {[g]})).
  { destruct a0.1; minv; cbn; auto. }
  destruct Hstep2 as (Hc2 & Hcs2 & Hns2 & Hnt2).
  assert (Hstep3 : calm s2 = calm s3 /\
                   current_states (the_store s2) = current_states (the_store s3) /\
                   next_terminal_tags (the_store s2) = next_terminal_tags (the_store s3) /\
                   (next_states (the_store s2) = next_states (the_store s3)
                    \/ next_states (the_store s2)
                       = alist_set g a0.2 (next_states (the_store s3)))).
  { destruct (negb _); minv; cbn; auto. }
  destruct Hstep3 as (Hc3 & Hcs3 & Hnt3 & Hns3).
  split; [congruence|]. split; [congruence|].
  intros Hs. specialize (Hsa Hs). destruct Hsa as [Ht Hn Hcur].
  assert (Hx : statics s2 = statics s1) by (unfold calm, quiet in *; congruence).
  assert (Hg : is_active (statics s1) g).
  { apply (Hcur g q). by rewrite Hcs. }
  split; rewrite Hx.
  - rewrite Hnt3. rewrite Hst1 in Hnt2.
    destruct Hnt2 as [->| ->]; [done|].
    intros g' [?| ->%elem_of_singleton]%elem_of_union; auto.
  - intros g' q'. rewrite Hst1 in Hns2. rewrite Hns2 in Hns3.
    destruct Hns3 as [->| ->]; [apply Hn|].
    intros [[-> _]|?]%elem_of_alist_set; eauto.
  - intros g' q'. rewrite Hcs3, Hcs2, Hst1. apply Hcur.
Qed.

(** What the refinement loops leave alone, and what they keep true of
    [next_terminal_tags]. *)
Definition refining (s0 s1 : LexState) : Prop :=
  calm s1 = calm s0 /\
  current_states (the_store s1) = current_states (the_store s0) /\
  next_states (the_store s1) = next_states (the_store s0) /\
  all_active (statics s0) (next_terminal_tags (the_store s1)).

Lemma refining_trans s0 s1 s2 : refining s0 s1 -> refining s1 s2 -> refining s0 s2.
Proof.
  intros (Hc & Hcs & Hns & Ha) (Hc' & Hcs' & Hns' & Ha').
  repeat split; try congruence. by rewrite <- (calm_statics _ _ Hc).
Qed.

Lemma refining_scratch s0 s1 : refining s0 s1 -> scratch_active s0 -> scratch_active s1.
Proof.
  intros (Hc & Hcs & Hns & Ha) [Ht Hn Hcur].
  split; rewrite (calm_statics _ _ Hc); [done|by rewrite Hns|by rewrite Hcs].
Qed.

(** The loop [for terminal_tag in X: next_terminal_tags |= table[terminal_tag]]. *)
Lemma gather_Ok (I : LexState -> Prop)
      (table : _IgneaLexerCache -> gmap TagId (gset TagId))
      (upd : gset TagId -> _IgneaLexerStore -> _IgneaLexerStore) l s u s' :
  I s ->
  (forall s1 k p, I s1 -> table (the_cache s1) !! k = Some p ->
                  I (with_lexer (with_lexer_store (upd p)) s1)) ->
  for_each l (fun terminal_tag =>
    let* c := gets the_cache in
    let* p := from_option KeyError (table c !! terminal_tag) in
    upd_store (upd p)) s = (Ok u, s') ->
  I s'.
Proof.
  intros HI Hstep. apply for_each_inv; [|done].
  intros t s1 [] s2 _ HI1 H. minv. eauto.
Qed.

Lemma refining_statics s0 s1 : refining s0 s1 -> statics s1 = statics s0.
Proof. intros (Hc & _). by apply calm_statics. Qed.

Lemma positives_loop_Ok fuel P s R s' :
  positives_loop fuel P s = (Ok R, s') ->
  wf_statics (statics s) ->
  all_active (statics s) (next_terminal_tags (the_store s)) ->
  all_active (statics s) P ->
  refining s s' /\ all_active (statics s) R.
Proof.
  revert P s. induction fuel as [|fuel IH]; intros P s H Hwf Hn HP;
    cbn [positives_loop] in H; [by minv|].
  mbind H as cur s1 H1 H. mclean. mbind H as u1 s2 H2 H.
  mbind H as u2 s3 H3 H. mclean. mbind H as nxt s4 H4 H. mclean.
  assert (Hr : refining s s2).
  { eapply (gather_Ok (refining s) terminal_tags_positives
              (fun p st => set_next_terminal_tags (next_terminal_tags st ∪ p) st));
      [| |exact H2].
    - repeat split; auto.
    - intros s1 k p (Hc & Hcs & Hns & Ha) Hp. repeat split; auto.
      cbn. intros g [?|?]%elem_of_union; auto.
      eapply (wf_positives _ Hwf k); [|done].
      rewrite <- (calm_statics _ _ Hc). exact Hp. }
  match type of H with context [decide (size (next_terminal_tags (the_store ?sx)) = 0)] =>
    set (s3 := sx) in * end.
  assert (Hr3 : refining s s3).
  { destruct Hr as (Hc & Hcs & Hns & Ha). repeat split; auto.
    cbn. intros g [Hg _]%elem_of_difference. by apply Ha. }
  destruct (decide _) as [Hz|Hz].
  - mclean. done.
  - mbind H as u3 s5 H5 H. mclean.
    match type of H with positives_loop _ _ ?sx = _ => set (s5 := sx) in * end.
    assert (Hr5 : refining s s5).
    { destruct Hr3 as (Hc & Hcs & Hns & Ha). repeat split; auto.
      cbn. intros g Hg. by apply elem_of_empty in Hg. }
    apply IH in H as [Hr' HR]; rewrite ?(refining_statics _ _ Hr5) in *.
    + split; [|done]. eapply refining_trans; [exact Hr5|exact Hr'].
    + done.
    + by destruct Hr5 as (_ & _ & _ & ?).
    + intros g [?|Hg]%elem_of_union; [by apply HP|].
      by destruct Hr3 as (_ & _ & _ & Ha); apply Ha.
Qed.

Lemma negatives_loop_Ok fuel s u s' :
  negatives_loop fuel s = (Ok u, s') ->
  wf_statics (statics s) ->
  all_active (statics s) (next_terminal_tags (the_store s)) ->
  refining s s'.
Proof.
  revert s. induction fuel as [|fuel IH]; intros s H Hwf Hn;
    cbn [negatives_loop] in H; [by minv|].
  mbind H as cur s1 H1 H. mclean. mbind H as u1 s2 H2 H.
  mbind H as u2 s3 H3 H. mclean. mbind H as nxt s4 H4 H. mclean.
  assert (Hr : refining s s2).
  { eapply (gather_Ok (refining s) terminal_tags_negatives
              (fun p st => set_next_terminal_tags (next_terminal_tags st ∪ p) st));
      [| |exact H2].
    - repeat split; auto.
    - intros s1 k p (Hc & Hcs & Hns & Ha) Hp. repeat split; auto.
      cbn. intros g [?|?]%elem_of_union; auto.
      eapply (wf_negatives _ Hwf k); [|done].
      rewrite <- (calm_statics _ _ Hc). exact Hp. }
  match type of H with context [decide (size (next_terminal_tags (the_store ?sx)) = 0)] =>
    set (s3 := sx) in * end.
  assert (Hr3 : refining s s3).
  { destruct Hr as (Hc & Hcs & Hns & Ha). repeat split; auto.
    cbn. intros g [Hg _]%elem_of_difference. by apply Ha. }
  destruct (decide _) as [Hz|Hz].
  - mclean. done.
  - mbind H as u3 s5 H5 H. mbind H as u4 s6 H6 H. mclean.
    match type of H with negatives_loop _ ?sx = _ => set (s5 := sx) in * end.
    assert (Hr5 : refining s s5).
    { destruct Hr3 as (Hc & Hcs & Hns & Ha). repeat split; auto.
      cbn. intros g Hg. by apply elem_of_empty in Hg. }
    apply IH in H; rewrite ?(refining_statics _ _ Hr5) in *.
    + eapply refining_trans; [exact Hr5|exact H].
    + done.
    + by destruct Hr5 as (_ & _ & _ & ?).
Qed.

Lemma _process_positives_negatives_Ok fuel P s R s' :
  _process_positives_negatives fuel P s = (Ok R, s') ->
  wf_statics (statics s) ->
  all_active (statics s) (next_terminal_tags (the_store s)) ->
  all_active (statics s) P ->
  refining s s' /\ all_active (statics s) R.
Proof.
  unfold _process_positives_negatives. intros H Hwf Hn HP.
  mbind H as u0 s0 H0 H. mclean.
  match type of H with bind _ _ ?sx = _ => set (s0 := sx) in * end.
  assert (Hr0 : refining s s0) by (repeat split; auto).
  mbind H as P' s1 H1 H.
  apply positives_loop_Ok in H1 as [Hr1 HP']; rewrite ?(refining_statics _ _ Hr0);
    [|done|by destruct Hr0 as (_ & _ & _ & ?)|done].
  assert (Hr1' := refining_trans _ _ _ Hr0 Hr1).
  mbind H as u2 s2 H2 H. mclean.
  match type of H with bind _ _ ?sx = _ => set (s2 := sx) in * end.
  assert (Hr2 : refining s s2).
  { destruct Hr1' as (Hc & Hcs & Hns & Ha). repeat split; auto. }
  mbind H as u3 s3 H3 H.
  assert (Hr3 : refining s s3).
  { eapply (gather_Ok (refining s) terminal_tags_negatives
              (fun n st => set_current_positive (current_positive_terminal_tags st ∪ n) st));
      [exact Hr2| |exact H3].
    intros sa k p (Hc & Hcs & Hns & Ha) Hp. repeat split; auto. }
  mbind H as u4 s4 H4 H. mclean.
  match type of H with bind _ _ ?sx = _ => set (s4 := sx) in * end.
  assert (Hr4 : refining s s4).
  { destruct Hr3 as (Hc & Hcs & Hns & Ha). repeat split; auto. }
  mbind H as u5 s5 H5 H.
  apply negatives_loop_Ok in H5; rewrite ?(refining_statics _ _ Hr4);
    [|done|by destruct Hr4 as (_ & _ & _ & ?)].
  minv. split; [by eapply refining_trans|].
  intros g [Hg _]%elem_of_difference. by apply HP'.
Qed.

Lemma scratch_active_of s s1 :
  scratch_active s -> statics s1 = statics s ->
  all_active (statics s) (next_terminal_tags (the_store s1)) ->
  (forall g q, (g, q) ∈ next_states (the_store s1) -> is_active (statics s) g) ->
  (forall g q, (g, q) ∈ current_states (the_store s1) -> is_active (statics s) g) ->
  scratch_active s1.
Proof. intros _ Hx ? ? ?. split; by rewrite Hx. Qed.

Lemma scan_unfold fuel l :
  scan tag_class fuel l =
  (let* st := gets the_store in
   let* inp := gets (fun s => input (lexer s)) in
   if negb ((0 <? length (current_states st)) && (index_ (current_position st) <? length inp))
   then ret l
   else
     match fuel with
     | 0 => raise OutOfFuel
     | S fuel' =>
        let* char := from_option IndexError (inp !! index_ (current_position st)) in
        _process_nfas tag_class char ;;
        upd_store (fun st => set_current_position (advance char (current_position st)) st) ;;
        let* st := gets the_store in
        let* l :=
          if 0 <? size (next_terminal_tags st) then
            let accepted_terminal_tags := next_terminal_tags st in
            upd_store (set_next_terminal_tags ∅) ;;
            let* is_offside :=
              run_offside (index_ (l_start_position l))
                          (seq (index_ (l_accepted_position l))
                               (index_ (current_position st) - index_ (l_accepted_position l)))
                          (l_is_offside l) in
            ret (mkLocals (l_start_position l) (current_position st) accepted_terminal_tags
                          is_offside (l_last_terminal_tags l))
          else ret l in
        upd_store (fun st => set_next_states (current_states st)
                               (set_current_states (next_states st) st)) ;;
        let* st := gets the_store in
        let* c := gets the_cache in
        let l :=
          if (length (current_states st) =? 0)
             && (length (next_states st) <? length (states_start c))
          then mkLocals (l_start_position l) (l_accepted_position l)
                        (l_accepted_terminal_tags l) (l_is_offside l)
                        (fst <$> next_states st)
          else l in
        upd_store (set_next_states []) ;;
        scan tag_class fuel' l
     end).
Proof. by destruct fuel. Qed.

(** Scanning touches neither the object store nor the stack, and accepts
    active tags only. *)
Lemma scan_Ok fuel l s l' s' :
  scan tag_class fuel l s = (Ok l', s') ->
  scratch_active s ->
  all_active (statics s) (l_accepted_terminal_tags l) ->
  calm s' = calm s /\ scratch_active s' /\
  all_active (statics s) (l_accepted_terminal_tags l').
Proof.
  revert l s. induction fuel as [|fuel IH]; intros l s H Hs Hl;
    rewrite scan_unfold in H;
    mbind H as st sA HA H; mclean; mbind H as inp sB HB H; mclean;
    (destruct (negb _) eqn:E; [by mclean|]); [by mclean|].
  mbind H as char sC HC H. mclean. mbind H as u1 s1 H1 H.
  apply _process_nfas_Ok in H1 as [Hc1 Hs1]. specialize (Hs1 Hs).
  assert (Hx1 := calm_statics _ _ Hc1).
  mbind H as u2 s2 H2 H. mclean. mbind H as st2 s3 H3 H. mclean.
  match type of H with bind _ _ ?sx = _ => set (s2 := sx) in * end.
  assert (Hc2 : calm s2 = calm s) by (rewrite <- Hc1; reflexivity).
  assert (Hs2 : scratch_active s2) by (by destruct Hs1).
  assert (Hx2 := calm_statics _ _ Hc2).
  mbind H as l1 s4 H4 H.
  assert (Hstep : calm s4 = calm s /\ scratch_active s4 /\
                  all_active (statics s) (l_accepted_terminal_tags l1)).
  { destruct (0 <? size _).
    - cbv zeta in H4. mbind H4 as u3 s3 H3 H4. mclean. mbind H4 as b s5 H5 H4. mclean.
      apply run_offside_Ok in H5 as [Hc5 Hs5].
      split; [rewrite Hc5, <- Hc2; reflexivity|]. split.
      + apply Hs5. destruct Hs2 as [Ht Hn Hcur]. by split.
      + cbn. rewrite <- Hx2. by destruct Hs2.
    - by mclean. }
  destruct Hstep as (Hc4 & Hs4 & Hl1).
  assert (Hx4 := calm_statics _ _ Hc4).
  mbind H as u5 s5 H5 H. mclean. mbind H as st3 s6 H6 H. mclean.
  mbind H as c s7 H7 H. mclean. mbind H as u8 s8 H8 H. mclean.
  apply IH in H as (Hc' & Hs' & Hl').
  - split; [rewrite Hc', <- Hc4; reflexivity|]. split; [done|].
    by rewrite <- Hx4.
  - destruct Hs4 as [Ht Hn Hcur]. split; [done| |done].
    cbn. intros g q Hg. by apply elem_of_nil in Hg.
  - rewrite <- Hx4 in Hl1.
    destruct ((length _ =? 0) && _); intros g Hg; exact (Hl1 g Hg).
Qed.

(** *** Terminals in the store *)

(** A terminal as the lexer builds them: an off-side terminal (one of the
    two off-side tags, no text, both positions at one index), or a terminal
    of the input (active tags none of which is ignored, and the text
    between its positions). *)
Definition good_terminal (x : Statics) (P : list IgneaPosition) (tm : IgneaTerminal) : Prop :=
  exists sp ep,
    P !! start_position tm = Some sp /\ P !! end_position tm = Some ep /\
    ((exists i d, st_offside x = Some (i, d) /\ (tags tm = {[i]} \/ tags tm = {[d]}) /\
                  value tm = [] /\ index_ sp = index_ ep)
     \/ ((forall g, g ∈ tags tm -> is_active x g /\ g ∉ st_ignore x) /\
         value tm = slice (index_ sp) (index_ ep) (st_input x))).

Lemma good_terminal_app x P X tm : good_terminal x P tm -> good_terminal x (P ++ X) tm.
Proof.
  intros (sp & ep & Hs & He & H). exists sp, ep.
  repeat split; auto; by apply lookup_app_l_Some.
Qed.

(** How a step extends the store: new positions and new terminals, all
    good, linked into a list that ends on [cur]; [r] is its head.  The
    indent and dedent terminals of the new list account for the change of
    the indentation stack from [stk] to [stk']. *)
Definition grows (x : Statics) (h h' : Store) (stk stk' : list nat)
           (cur r : option nat) : Prop :=
  exists newP newT,
    positions h' = positions h ++ newP /\
    terminals h' = terminals h ++ newT /\
    Forall (good_terminal x (positions h')) newT /\
    Forall (fun tm => length (positions h) <= start_position tm /\
                      length (positions h) <= end_position tm) newT /\
    Forall (fun tm => next tm = cur \/
                      exists n, next tm = Some n /\ n < length (terminals h')) newT /\
    (r = cur \/ exists n, r = Some n /\ length (terminals h) <= n < length (terminals h')) /\
    forall lc, chain (terminals h) cur lc ->
      exists l, chain (terminals h') r (l ++ lc) /\
                Forall (fun t => length (terminals h) <= t) l /\
                forall i d, st_offside x = Some (i, d) ->
                  count_tag (terminals h') i l + length stk
                  = count_tag (terminals h') d l + length stk'.

Lemma grows_refl x h stk cur : grows x h h stk stk cur cur.
Proof.
  exists [], []. rewrite !app_nil_r. repeat split; auto.
  intros lc Hc. exists []. repeat split; auto.
Qed.

Lemma count_tag_old T X g l :
  Forall (fun t => t < length T) l -> count_tag (T ++ X) g l = count_tag T g l.
Proof.
  intros H. apply count_tag_ext. intros t Ht.
  rewrite Forall_forall in H. by rewrite lookup_app_l by auto.
Qed.

Lemma chain_lt T r l : chain T r l -> Forall (fun t => t < length T) l.
Proof.
  induction 1; constructor; auto. by eapply lookup_lt_Some.
Qed.

Lemma chain_app_inv T r l1 l2 :
  chain T r (l1 ++ l2) -> Forall (fun t => t < length T) l1.
Proof. intros H%chain_lt. by apply Forall_app in H as [? _]. Qed.

Lemma grows_trans x h0 h1 h2 stk0 stk1 stk2 cur r1 r2 :
  grows x h0 h1 stk0 stk1 cur r1 -> grows x h1 h2 stk1 stk2 r1 r2 ->
  grows x h0 h2 stk0 stk2 cur r2.
Proof.
  intros (P1 & T1 & HP1 & HT1 & HG1 & Hf1 & Hn1 & Hr1 & Hc1)
         (P2 & T2 & HP2 & HT2 & HG2 & Hf2 & Hn2 & Hr2 & Hc2).
  exists (P1 ++ P2), (T1 ++ T2). repeat split.
  - by rewrite HP2, HP1, app_assoc.
  - by rewrite HT2, HT1, app_assoc.
  - apply Forall_app. split; [|done].
    rewrite HP2. eapply Forall_impl; [exact HG1|]. intros; by apply good_terminal_app.
  - apply Forall_app. split; [done|].
    eapply Forall_impl; [exact Hf2|]. rewrite HP1, length_app. cbn. lia.
  - apply Forall_app. split.
    + eapply Forall_impl; [exact Hn1|]. intros tm [?|(n & ? & ?)]; [by left|right].
      exists n. split; [done|]. rewrite HT2, length_app. lia.
    + eapply Forall_impl; [exact Hn2|]. intros tm [Hx|?]; [|by right].
      destruct Hr1 as [->|(n & -> & ?)]; [by left|right].
      exists n. split; [done|]. rewrite HT2, length_app. lia.
  - destruct Hr2 as [->|(n & -> & Hn)].
    + destruct Hr1 as [->|(n & -> & Hn)]; [by left|right].
      exists n. split; [done|]. rewrite HT2, length_app. lia.
    + right. exists n. split; [done|]. rewrite HT1, length_app in Hn. lia.
  - intros lc Hc. destruct (Hc1 _ Hc) as (l1 & Hch1 & Hl1 & Hb1).
    destruct (Hc2 _ Hch1) as (l2 & Hch2 & Hl2 & Hb2).
    exists (l2 ++ l1). rewrite <- app_assoc. split; [done|]. split.
    + apply Forall_app. split; [|done].
      eapply Forall_impl; [exact Hl2|]. rewrite HT1, length_app. cbn. lia.
    + intros i d Hid. specialize (Hb1 i d Hid). specialize (Hb2 i d Hid).
      rewrite !count_tag_app. apply chain_app_inv in Hch1.
      rewrite HT2, !(count_tag_old _ T2 _ l1) by done.
      rewrite HT2 in Hb2. lia.
Qed.

Lemma count_tag_rev T g l : count_tag T g (rev l) = count_tag T g l.
Proof.
  induction l as [|t l IH]; cbn; [done|]. rewrite count_tag_app, IH. cbn. lia.
Qed.

(** A batch of [k] terminals of the one tag [g] counts [k] for [g] and
    nothing for another tag. *)
Lemma count_tag_batch T newT g g' :
  Forall (fun tm => tags tm = {[g]}) newT ->
  count_tag (T ++ newT) g' (seq (length T) (length newT))
  = if decide (g' = g) then length newT else 0.
Proof.
  revert T. induction newT as [|tm newT IH]; intros T H; [by destruct (decide _)|].
  apply Forall_cons in H as [Htm H]. cbn [length seq count_tag].
  replace (T ++ tm :: newT) with ((T ++ [tm]) ++ newT) by by rewrite <- app_assoc.
  replace (S (length T)) with (length (T ++ [tm])) by (rewrite length_app; cbn; lia).
  rewrite IH by done. unfold has_tag.
  rewrite lookup_app_l by (rewrite !length_app; cbn; lia).
  rewrite lookup_app_r by lia. rewrite Nat.sub_diag. cbn. rewrite Htm.
  destruct (decide (g' = g)) as [->|Hne].
  - rewrite bool_decide_eq_true_2 by by apply elem_of_singleton. lia.
  - rewrite bool_decide_eq_false_2; [done|]. by intros ?%elem_of_singleton.
Qed.

(** A batch of off-side terminals of tag [g], one of the two off-side tags,
    grows the store. *)
Lemma batch_grows x g sp k cur r h h' stk stk' i d :
  wf_statics x -> st_offside x = Some (i, d) ->
  batch g sp k cur r h h' ->
  (g = d /\ k + length stk' = length stk) \/ (g = i /\ k = 1 /\ length stk' = S (length stk)) ->
  grows x h h' stk stk' cur r.
Proof.
  intros Hwf Hid (newP & newT & HP & HT & Hlen & HF & Hf & Hn & Hz & Hc) Hg.
  destruct (wf_offside _ Hwf _ _ Hid) as (_ & _ & Hne).
  exists newP, newT. repeat split; auto.
  - eapply Forall_impl; [exact HF|]. intros tm (Ht & Hv & Hs & He).
    exists sp, sp. repeat split; auto. left. exists i, d. repeat split; auto.
    destruct Hg as [[-> _]|[-> _]]; auto.
  - destruct k as [|k]; [left; auto|right].
    exists (length (terminals h) + k). split; [done|]. rewrite HT, length_app. lia.
  - intros lc Hch. exists (rev (seq (length (terminals h)) k)).
    split; [auto|]. split.
    + apply Forall_rev, Forall_forall. intros t Ht%elem_of_seq. lia.
    + intros i' d' Hid'. rewrite Hid in Hid'. injection Hid' as <- <-.
      rewrite !count_tag_rev, HT, <- Hlen.
      assert (HF' : Forall (fun tm => tags tm = {[g]}) newT)
        by (eapply Forall_impl; [exact HF|]; by intros tm (? & _)).
      rewrite !(count_tag_batch _ _ g) by done.
      destruct Hg as [[-> Hk]|(-> & Hk & Hs)].
      * destruct (decide (i = d)); [done|]. destruct (decide (d = d)); [lia|done].
      * destruct (decide (i = i)); [|done]. destruct (decide (d = i)); [by subst|lia].
Qed.

(** *** What a call of [_get_terminal] does *)

Definition refined (x : Statics) (a : gset TagId) : Prop :=
  forall g, g ∈ a -> is_active x g /\ g ∉ st_ignore x.

Lemma refine_accepted_Ok fuel A s a s' :
  refine_accepted fuel A s = (Ok a, s') ->
  wf_statics (statics s) -> scratch_active s -> wf_memo s ->
  all_active (statics s) A ->
  quiet s' = quiet s /\ scratch_active s' /\ wf_memo s' /\ refined (statics s) a.
Proof.
  unfold refine_accepted. intros H Hwf Hs Hm HA. mbind H as c s0 H0 H. mclean.
  destruct (accepted_terminal_tags (the_cache s) !! A) as [a0|] eqn:E.
  - mclean. split; [done|]. split; [done|]. split; [done|]. exact (Hm _ _ E).
  - mbind H as a1 s1 H1 H.
    apply _process_positives_negatives_Ok in H1 as [Hr Ha1]; [|done|by destruct Hs|done].
    mbind H as c1 s2 H2 H. mclean. mbind H as u s3 H3 H. mclean.
    assert (Hx := refining_statics _ _ Hr).
    assert (Hq : quiet s1 = quiet s) by (destruct Hr as (Hc & _); unfold calm in Hc; congruence).
    assert (Hmm : accepted_terminal_tags (the_cache s1) = accepted_terminal_tags (the_cache s))
      by (destruct Hr as (Hc & _); unfold calm in Hc; congruence).
    assert (Hs1 := refining_scratch _ _ Hr Hs).
    assert (Hig : terminal_tags_ignore (the_cache s1) = st_ignore (statics s))
      by (by rewrite <- Hx).
    assert (Hre : refined (statics s) (a1 ∖ terminal_tags_ignore (the_cache s1))).
    { intros g [Hg Hni]%elem_of_difference. split; [by apply Ha1|by rewrite <- Hig]. }
    split; [rewrite <- Hq; reflexivity|]. split; [|split; [|done]].
    + destruct Hs1 as [? ? ?]. by split.
    + intros k v. cbn. change (statics _) with (statics s1). rewrite Hx.
      cbn in Hmm, Hig.
      destruct (decide (A = k)) as [->|Hne].
      * rewrite lookup_insert_eq. intros [= <-] g Hg. destruct (Hre g Hg).
        split; [done|]. by rewrite Hig.
      * rewrite lookup_insert_ne by done. rewrite Hmm. intros Hkv g Hg.
        destruct (Hm _ _ Hkv g Hg).
        split; [done|]. by rewrite Hig.
Qed.

(** A successful call: the constants and the head of the stream stay, the
    invariants of the transient data hold again, and the store grows by a
    list of good terminals whose head is returned. *)
Record emits (cur : option nat) (s s' : LexState) (r : option nat) : Prop := {
  em_statics : statics s' = statics s;
  em_start : _start (lexer s') = _start (lexer s);
  em_scratch : scratch_active s';
  em_memo : wf_memo s';
  em_grows : grows (statics s) (store s) (store s')
                   (_stack (the_offside s)) (_stack (the_offside s')) cur r;
  em_stack : _stack (the_offside s) <> [] -> _stack (the_offside s') <> [];
  em_drained : cur = None -> r = None -> st_offside (statics s) <> None ->
               length (_stack (the_offside s')) <= 1
}.

Lemma prepend_emits sp cur s r s' :
  prepend_offside_terminals sp cur s = (Ok r, s') ->
  wf_statics (statics s) -> scratch_active s -> wf_memo s ->
  emits cur s s' r.
Proof.
  intros H Hwf Hs Hm.
  destruct (terminal_tags (the_offside s)) as [[i d]|] eqn:Htt.
  - destruct (prepend_offside_terminals_Ok _ _ _ _ _ _ _ H Htt)
      as (g & k & stk' & Hl & Hb & Hg & Hne & Hd).
    assert (Hid : st_offside (statics s) = Some (i, d))
      by (rewrite <- (wf_driver _ Hwf); exact Htt).
    assert (Hx : statics s' = statics s).
    { unfold statics, the_cache, the_offside, the_store. by rewrite Hl. }
    assert (Hstk : _stack (the_offside s') = stk')
      by (unfold the_offside, the_store; by rewrite Hl).
    split.
    + exact Hx.
    + by rewrite Hl.
    + destruct Hs as [Ht Hn Hc].
      split; rewrite Hx; unfold the_store; rewrite Hl; done.
    + intros k0 v. rewrite Hx. unfold the_cache. rewrite Hl. apply Hm.
    + rewrite Hstk. eapply batch_grows; eauto.
    + by rewrite Hstk.
    + intros Hc _ _. rewrite Hstk. auto.
  - apply prepend_offside_terminals_None in H as [-> ->]; [|done].
    split; auto; [apply grows_refl|].
    intros _ _ Hno. rewrite <- (wf_driver _ Hwf) in Hno. by destruct Hno.
Qed.

Lemma emit_terminal_Ok l a s r s' :
  emit_terminal l a s = (Ok r, s') ->
  wf_statics (statics s) -> scratch_active s -> wf_memo s ->
  refined (statics s) a ->
  emits None s s' r /\ r <> None.
Proof.
  unfold emit_terminal. intros H Hwf Hs Hm Ha.
  mbind H as inp s0 H0 H. mclean. mbind H as sp s1 H1 H. mclean.
  mbind H as ap s2 H2 H. mclean. mbind H as t s3 H3 H. mclean.
  match type of H with _ ?sx = _ => set (s3 := sx) in * end.
  set (tm := mkTerminal a (slice (index_ (l_start_position l))
                                 (index_ (l_accepted_position l)) (input (lexer s)))
                        (length (positions (store s)))
                        (length (positions (store s) ++ [l_start_position l])) None).
  assert (He : emits None s s3 (Some (length (terminals (store s))))).
  { split; auto.
    - by destruct Hs.
    - exists [l_start_position l; l_accepted_position l], [tm].
      split; [cbn; by rewrite <- app_assoc|]. split; [done|].
      split; [|split; [|split; [|split]]].
      + constructor; [|constructor].
        exists (l_start_position l), (l_accepted_position l). cbn.
        split; [|split].
        * rewrite <- app_assoc. rewrite lookup_app_r by lia. by rewrite Nat.sub_diag.
        * rewrite lookup_app_r by done. by rewrite Nat.sub_diag.
        * right. split; [exact Ha|done].
      + constructor; [|constructor]. cbn. rewrite length_app. cbn. lia.
      + constructor; [|constructor]. by left.
      + right. eexists. split; [done|]. cbn. rewrite length_app. cbn. lia.
      + intros lc. inversion 1; subst. exists [length (terminals (store s))].
        split; [|split].
        * apply (chain_cons _ _ tm); [|constructor].
          cbn. rewrite lookup_app_r by done. by rewrite Nat.sub_diag.
        * by constructor.
        * intros i d Hid. destruct (wf_offside _ Hwf _ _ Hid) as (Hi & Hd & _).
          cbn. unfold has_tag. cbn. rewrite lookup_app_r by done.
          rewrite Nat.sub_diag. cbn.
          rewrite !bool_decide_eq_false_2; [done|..]; intros Hg; apply Ha in Hg as [? _]; done.
    - intros _ [=]. }
  destruct (l_is_offside l).
  - apply prepend_emits in H; [|by rewrite (em_statics _ _ _ _ He)
                                |exact (em_scratch _ _ _ _ He)|exact (em_memo _ _ _ _ He)].
    destruct He as [Hx1 Hst1 _ _ Hg1 Hk1 _]. destruct H as [Hx2 Hst2 Hs2 Hm2 Hg2 Hk2 _].
    rewrite Hx1 in Hg2.
    assert (Hr : r <> None).
    { destruct Hg2 as (_ & _ & _ & _ & _ & _ & _ & [->|(n & -> & _)] & _); done. }
    split; [|done].
    split; [congruence|congruence|done|done|eapply grows_trans; eauto|auto|done].
  - mclean. by split.
Qed.

Lemma emits_quiet cur s0 s s' r :
  quiet s = quiet s0 -> emits cur s s' r -> emits cur s0 s' r.
Proof.
  unfold quiet. intros Hq [Hx' ? ? ? Hg ? ?].
  assert (Hx : statics s = statics s0) by congruence.
  assert (Hst : _start (lexer s) = _start (lexer s0)) by congruence.
  assert (Hh : store s = store s0) by congruence.
  assert (Hk : _stack (the_offside s) = _stack (the_offside s0)) by congruence.
  rewrite Hx, Hh, Hk in *. by split; try congruence.
Qed.

Lemma wf_memo_calm s s' : calm s' = calm s -> wf_memo s -> wf_memo s'.
Proof.
  intros Hc H k v. rewrite (calm_statics _ _ Hc).
  replace (accepted_terminal_tags (the_cache s'))
    with (accepted_terminal_tags (the_cache s)) by (unfold calm in Hc; congruence).
  apply H.
Qed.

Lemma get_terminal_loop_Ok fuel l s r s' :
  get_terminal_loop tag_class fuel l s = (Ok r, s') ->
  wf_statics (statics s) -> scratch_active s -> wf_memo s ->
  all_active (statics s) (l_accepted_terminal_tags l) ->
  emits None s s' r.
Proof.
  revert l s. induction fuel as [|fuel IH]; intros l s H Hwf Hs Hm Hl;
    cbn [get_terminal_loop] in H; [by mclean|].
  mbind H as l1 s1 H1 H. apply scan_Ok in H1 as (Hc1 & Hs1 & Hl1); [|done..].
  assert (Hx1 := calm_statics _ _ Hc1).
  assert (Hm1 := wf_memo_calm _ _ Hc1 Hm).
  assert (Hq1 : quiet s1 = quiet s) by (unfold calm in Hc1; congruence).
  destruct (size _ =? 0); [by mclean|].
  mbind H as a s2 H2 H.
  apply refine_accepted_Ok in H2 as (Hq2 & Hs2 & Hm2 & Ha);
    [|by rewrite Hx1|done|done|by rewrite Hx1].
  rewrite Hx1 in Ha.
  assert (Hq : quiet s2 = quiet s) by congruence.
  assert (Hx2 : statics s2 = statics s) by (unfold quiet in Hq; congruence).
  destruct (0 <? size a).
  - apply emit_terminal_Ok in H as [He _]; [|by rewrite Hx2|done|done|by rewrite Hx2].
    by eapply emits_quiet.
  - mbind H as st s3 H3 H. mclean. mbind H as inp s4 H4 H. mclean.
    destruct (_ =? length _).
    + apply prepend_emits in H; [|by rewrite Hx2|done|done]. by eapply emits_quiet.
    + mbind H as u5 s5 H5 H. mclean. mbind H as u6 s6 H6 H.
      destruct (length _ =? 0); [|by mclean]. mclean.
      mbind H as c s7 H7 H. mclean. mbind H as u8 s8 H8 H. mclean.
      apply IH in H.
      * eapply emits_quiet; [|exact H]. rewrite <- Hq. reflexivity.
      * by rewrite <- Hx2 in Hwf.
      * destruct Hs2 as [Ht Hn Hc]. split; [done|done|].
        intros g q [Hg|Hg]%elem_of_alist_update; [by eapply Hc|].
        rewrite <- Hx2 in Hwf. exact (wf_states_start _ Hwf _ _ Hg).
      * exact Hm2.
      * intros g Hg. rewrite <- Hx2 in Ha. by destruct (Ha g Hg).
Qed.

(** Reading a position. *)
Lemma read_position_Ok p s v s' :
  read_position p s = (Ok v, s') -> s' = s /\ positions (store s) !! p = Some v.
Proof. unfold read_position. intros H. minv. done. Qed.

Lemma read_terminal_Ok t s v s' :
  read_terminal t s = (Ok v, s') -> s' = s /\ terminals (store s) !! t = Some v.
Proof. unfold read_terminal. intros H. minv. done. Qed.

Lemma _get_terminal_Ok fuel p s r s' :
  _get_terminal tag_class fuel p s = (Ok r, s') ->
  wf_statics (statics s) -> scratch_active s -> wf_memo s ->
  emits None s s' r.
Proof.
  unfold _get_terminal. intros H Hwf Hs Hm.
  mbind H as sp s0 H0 H. apply read_position_Ok in H0 as [-> _].
  mbind H as inp s1 H1 H. mclean.
  destruct (_ =? length _).
  - by eapply prepend_emits.
  - mbind H as c s2 H2 H. mclean. mbind H as u3 s3 H3 H. mclean.
    apply get_terminal_loop_Ok in H.
    + eapply emits_quiet; [|exact H]. reflexivity.
    + done.
    + destruct Hs as [Ht Hn Hc]. split; [done|done|].
      intros g q [Hg|Hg]%elem_of_alist_update; [by apply elem_of_nil in Hg|].
      exact (wf_states_start _ Hwf _ _ Hg).
    + exact Hm.
    + intros g Hg. by apply elem_of_empty in Hg.
Qed.

(** *** The invariant of the lexer *)

Record lexer_inv (s : LexState) : Prop := {
  inv_statics : wf_statics (statics s);
  inv_scratch : scratch_active s;
  inv_memo : wf_memo s;
  inv_terminals :
    Forall (good_terminal (statics s) (positions (store s))) (terminals (store s));
  inv_next :
    Forall (fun tm => forall n, next tm = Some n -> n < length (terminals (store s)))
           (terminals (store s));
  inv_start : forall t, _start (lexer s) = Some t -> t < length (terminals (store s));
  (** until the first terminal is returned, no terminal refers to the
      lexer's own [start_position] *)
  inv_unaliased :
    _start (lexer s) = None ->
    Forall (fun tm => start_position tm <> lexer_start_position (lexer s) /\
                      end_position tm <> lexer_start_position (lexer s))
           (terminals (store s));
  inv_start_position : lexer_start_position (lexer s) < length (positions (store s));
  inv_stack : _stack (the_offside s) <> []
}.

(** The invariant after a successful [_get_terminal], before the caller
    stores the result. *)
Lemma emits_inv s s' r :
  lexer_inv s -> emits None s s' r ->
  lexer_inv s' /\
  (forall t, r = Some t -> t < length (terminals (store s'))) /\
  (forall t tm, terminals (store s) !! t = Some tm -> terminals (store s') !! t = Some tm) /\
  (forall p v, positions (store s) !! p = Some v -> positions (store s') !! p = Some v) /\
  (forall t tm, terminals (store s') !! t = Some tm -> length (terminals (store s)) <= t ->
                length (positions (store s)) <= start_position tm /\
                length (positions (store s)) <= end_position tm).
Proof.
  intros [Hwf Hs Hm HT Hn Hst Hun Hsp Hk] [Hx Hst' Hs' Hm' Hg Hk' _].
  destruct Hg as (newP & newT & HP & HT' & HG & Hf & Hnx & Hr & _).
  assert (Hlsp : lexer_start_position (lexer s') = lexer_start_position (lexer s))
    by (apply (f_equal st_start_position) in Hx; exact Hx).
  split; [split|split; [|split; [|split]]].
  - by rewrite Hx.
  - done.
  - done.
  - rewrite Hx, HT'. apply Forall_app. split; [|done].
    rewrite HP. eapply Forall_impl; [exact HT|]. intros; by apply good_terminal_app.
  - rewrite HT'. apply Forall_app. split.
    + eapply Forall_impl; [exact Hn|]. intros tm H n Hnn. rewrite length_app.
      specialize (H n Hnn). lia.
    + eapply Forall_impl; [exact Hnx|]. rewrite <- HT'.
      intros tm [H|(n & H & ?)] n' Hn'; congruence.
  - intros t Ht. rewrite Hst' in Ht. apply Hst in Ht. rewrite HT', length_app. lia.
  - intros Hno. rewrite Hst' in Hno. rewrite Hlsp, HT'. apply Forall_app. split; [auto|].
    eapply Forall_impl; [exact Hf|]. cbn. lia.
  - rewrite Hlsp, HP, length_app. lia.
  - auto.
  - intros t ->. destruct Hr as [|(n & [= <-] & ?)]; [done|lia].
  - intros t tm Ht. rewrite HT'. by apply lookup_app_l_Some.
  - intros p v Hp. rewrite HP. by apply lookup_app_l_Some.
  - intros t tm Ht Hle. rewrite HT', lookup_app_r in Ht by done.
    apply list_elem_of_lookup_2 in Ht. rewrite Forall_forall in Hf. by apply Hf.
Qed.

Lemma good_terminal_insert x P r v tm :
  good_terminal x P tm -> start_position tm <> r -> end_position tm <> r ->
  good_terminal x (<[r := v]> P) tm.
Proof.
  intros (sp & ep & Hs & He & H) H1 H2. exists sp, ep.
  rewrite !list_lookup_insert_ne by done. auto.
Qed.

Lemma update_position_Ok r p s u s' :
  update_position r p s = (Ok u, s') ->
  s' = with_store (fun h => mkStore (<[r := p]> (positions h)) (terminals h)) s.
Proof.
  unfold update_position. intros H. mbind H as v s0 H0 H.
  apply read_position_Ok in H0 as [-> _]. by mclean.
Qed.

Lemma write_terminal_Ok r t s u s' :
  write_terminal r t s = (Ok u, s') ->
  s' = with_store (fun h => mkStore (positions h) (<[r := t]> (terminals h))) s.
Proof.
  unfold write_terminal. intros H. mbind H as v s0 H0 H.
  apply read_terminal_Ok in H0 as [-> _]. by mclean.
Qed.

Lemma scratch_active_with_store f s :
  scratch_active s -> scratch_active (with_store f s).
Proof. by intros []. Qed.

Lemma scratch_active_with_start r s :
  scratch_active s -> scratch_active (with_lexer (set__start r) s).
Proof. by intros []. Qed.

(** [next_terminal] keeps the invariant, and what it returns is in the
    store. *)
Lemma next_terminal_inv fuel cur s r s' :
  next_terminal tag_class fuel cur s = (Ok r, s') ->
  lexer_inv s ->
  lexer_inv s' /\ statics s' = statics s /\
  forall t, r = Some t -> t < length (terminals (store s')).
Proof.
  intros H Hinv. destruct cur as [c|]; cbn [next_terminal] in H.
  - mbind H as tm s0 H0 H. apply read_terminal_Ok in H0 as [-> Hc].
    destruct (next tm) as [n|] eqn:En.
    + mclean. split; [done|]. split; [done|]. intros t [= <-].
      destruct Hinv. rewrite Forall_forall in inv_next0.
      eapply inv_next0; [|exact En]. by eapply list_elem_of_lookup_2.
    + mbind H as r1 s1 H1 H. apply _get_terminal_Ok in H1; [|by destruct Hinv..].
      assert (Hx := em_statics _ _ _ _ H1).
      assert (Hst := em_start _ _ _ _ H1).
      destruct (emits_inv _ _ _ Hinv H1) as (Hinv1 & Hr & Hold & _ & _).
      mbind H as tm' s2 H2 H. apply read_terminal_Ok in H2 as [-> Hc'].
      mbind H as u s3 H3 H. apply write_terminal_Ok in H3 as ->. mclean.
      rewrite (Hold _ _ Hc) in Hc'. injection Hc' as <-.
      destruct Hinv1 as [Hwf Hs Hm HT Hn Hs0 Hun Hsp Hk].
      assert (Hc1 := Hold _ _ Hc).
      split; [split|split; [done|]].
      * exact Hwf.
      * by apply scratch_active_with_store.
      * exact Hm.
      * cbn. apply Forall_insert; [done|]. exact (Forall_lookup_1 _ _ _ _ HT Hc1).
      * cbn. rewrite length_insert. apply Forall_insert; [done|].
        cbn. intros n ->. by apply Hr.
      * cbn. by rewrite length_insert.
      * cbn. intros Hno. apply Forall_insert; [auto|].
        exact (Forall_lookup_1 _ _ _ _ (Hun Hno) Hc1).
      * exact Hsp.
      * exact Hk.
      * cbn. intros t ->. rewrite length_insert. auto.
  - mbind H as lx s0 H0 H. mclean.
    destruct (_start (lexer s)) as [t0|] eqn:Est.
    + mclean. split; [done|]. split; [done|]. intros t [= <-].
      by apply (inv_start _ Hinv).
    + mbind H as r1 s1 H1 H. apply _get_terminal_Ok in H1; [|by destruct Hinv..].
      assert (Hx := em_statics _ _ _ _ H1).
      assert (Hst := em_start _ _ _ _ H1).
      destruct (emits_inv _ _ _ Hinv H1) as (Hinv1 & Hr & Hold & _ & Hnew).
      assert (Hlsp : lexer_start_position (lexer s1) = lexer_start_position (lexer s))
        by (apply (f_equal st_start_position) in Hx; exact Hx).
      mbind H as u s2 H2 H. mclean.
      destruct Hinv1 as [Hwf Hs Hm HT Hn Hs0 Hun Hsp Hk].
      rewrite Hst, Est in Hun. specialize (Hun eq_refl).
      destruct r1 as [t1|].
      * mbind H as tm s3 H3 H. apply read_terminal_Ok in H3 as [-> Ht1]. cbn in Ht1.
        mbind H as p s4 H4 H. apply read_position_Ok in H4 as [-> Hp]. cbn in Hp.
        mbind H as u5 s5 H5 H. apply update_position_Ok in H5 as ->.
        mbind H as u6 s6 H6 H. apply write_terminal_Ok in H6 as ->. mclean.
        rewrite Hlsp in Hun, Hsp.
        assert (HT' : Forall (good_terminal (statics s1)
                               (<[lexer_start_position (lexer s) := p]> (positions (store s1))))
                             (terminals (store s1))).
        { rewrite Forall_forall in HT, Hun. apply Forall_forall. intros tm' Htm'.
          destruct (Hun _ Htm'). by apply good_terminal_insert; auto. }
        split; [split|split; [done|]].
        -- exact Hwf.
        -- by apply scratch_active_with_store, scratch_active_with_store,
             scratch_active_with_start.
        -- exact Hm.
        -- cbn. apply Forall_insert; [done|].
           destruct (Forall_lookup_1 _ _ _ _ HT' Ht1) as (sp & ep & Hsp' & Hep & Hform).
           destruct (Forall_lookup_1 _ _ _ _ Hun Ht1) as [Hne1 Hne2].
           rewrite list_lookup_insert_ne in Hsp' by done.
           rewrite Hp in Hsp'. injection Hsp' as <-.
           exists p, ep. cbn. rewrite list_lookup_insert_eq by done. auto.
        -- cbn. rewrite length_insert. apply Forall_insert; [done|].
           exact (Forall_lookup_1 _ _ _ _ Hn Ht1).
        -- cbn. intros t [= <-]. rewrite length_insert. by apply Hr.
        -- cbn. discriminate.
        -- cbn. by rewrite length_insert, Hlsp.
        -- exact Hk.
        -- cbn. intros t [= <-]. rewrite length_insert. by apply Hr.
      * mclean. split; [split|split; [done|]].
        -- exact Hwf.
        -- by apply scratch_active_with_start.
        -- exact Hm.
        -- exact HT.
        -- exact Hn.
        -- cbn. discriminate.
        -- cbn. intros _. exact Hun.
        -- exact Hsp.
        -- exact Hk.
        -- discriminate.
Qed.

(** *** What the constructor establishes *)

Record init_ok (conds : IgneaConditions) (offside : option TagId * option TagId)
       (c : _IgneaLexerCache) : Prop := {
  io_ignore : forall g, g ∈ terminal_tags_ignore c ->
                        active tag_class conds g = true /\ ignore (tag_class g) conds = true;
  io_positives : forall k v, terminal_tags_positives c !! k = Some v ->
                             forall g, g ∈ v -> active tag_class conds g = true;
  io_negatives : forall k v, terminal_tags_negatives c !! k = Some v ->
                             forall g, g ∈ v -> active tag_class conds g = true;
  io_states_start : forall g q, (g, q) ∈ states_start c -> active tag_class conds g = true;
  io_indent : forall i, offside.1 = Some i ->
                        start (tag_class i) conds = true /\ indent (tag_class i) conds = true;
  io_dedent : forall d, offside.2 = Some d ->
                        start (tag_class d) conds = true /\
                        indent (tag_class d) conds = false /\
                        dedent (tag_class d) conds = true;
  io_memo : accepted_terminal_tags c = ∅
}.

Lemma post_init_loop_Ok conds tags offside c offside' c' :
  post_init_loop tag_class conds tags offside c = Ok (offside', c') ->
  init_ok conds offside c ->
  init_ok conds offside' c' /\
  (forall g, g ∈ terminal_tags_ignore c' <->
             g ∈ terminal_tags_ignore c \/
             (g ∈ tags /\ active tag_class conds g = true /\
              ignore (tag_class g) conds = true)).
Proof.
  revert offside c. induction tags as [|t tags IH]; intros offside c H Hok; cbn in H.
  - injection H as <- <-. split; [done|].
    intros g. split; [by left|]. intros [?|[Hg _]]; [done|]. by apply elem_of_nil in Hg.
  - destruct (start (tag_class t) conds) eqn:Es.
    + destruct (indent (tag_class t) conds) eqn:Ei.
      * destruct offside.1 eqn:Eo; [discriminate|].
        apply IH in H as (Hok' & Hiff).
        -- split; [done|]. intros g. rewrite Hiff. cbn.
           split; (intros [?|(Hg & Ha & Hi)]; [by left|right]).
           ++ split; [by right|done].
           ++ apply elem_of_cons in Hg as [->|Hg]; [|done].
              unfold active in Ha. by rewrite Es, Ei in Ha.
        -- destruct Hok. split; auto.
           cbn. intros i [= <-]. auto.
      * destruct (dedent (tag_class t) conds) eqn:Ed.
        -- destruct offside.2 eqn:Eo; [discriminate|].
           apply IH in H as (Hok' & Hiff).
           ++ split; [done|]. intros g. rewrite Hiff. cbn.
              split; (intros [?|(Hg & Ha & Hi)]; [by left|right]).
              ** split; [by right|done].
              ** apply elem_of_cons in Hg as [->|Hg]; [|done].
                 unfold active in Ha. by rewrite Es, Ei, Ed in Ha.
           ++ destruct Hok. split; auto.
              cbn. intros d [= <-]. auto.
        -- assert (Hact : active tag_class conds t = true)
             by (unfold active; by rewrite Es, Ei, Ed).
           apply IH in H as (Hok' & Hiff).
           ++ split; [done|]. intros g. rewrite Hiff. cbn.
              destruct (ignore (tag_class t) conds) eqn:Eig.
              ** rewrite elem_of_union, elem_of_singleton, elem_of_cons.
                 split; [intros [[?| ->]|(? & ? & ?)]|intros [?|([->|?] & ? & ?)]]; auto.
              ** rewrite elem_of_cons.
                 split; [intros [?|(? & ? & ?)]|intros [?|([->|?] & ? & Hi)]]; auto.
                 congruence.
           ++ destruct Hok as [Hig Hp Hn Hss Hin Hde Hme]. split; cbn; auto.
              ** destruct (ignore (tag_class t) conds) eqn:Eig; [|done].
                 intros g [Hg| ->%elem_of_singleton]%elem_of_union; auto.
              ** intros k v. destruct (decide (t = k)) as [->|Hne].
                 --- rewrite lookup_insert_eq. intros [= <-] g [Hg _]%elem_of_filter.
                     by apply Is_true_true.
                 --- rewrite lookup_insert_ne by done. apply Hp.
              ** intros k v. destruct (decide (t = k)) as [->|Hne].
                 --- rewrite lookup_insert_eq. intros [= <-] g [Hg _]%elem_of_filter.
                     by apply Is_true_true.
                 --- rewrite lookup_insert_ne by done. apply Hn.
              ** intros g q [[-> _]|Hg]%elem_of_alist_set; eauto.
    + apply IH in H as (Hok' & Hiff); [|done].
      split; [done|]. intros g. rewrite Hiff.
      split; (intros [?|(Hg & Ha & Hi)]; [by left|right]).
      * split; [by right|done].
      * apply elem_of_cons in Hg as [->|Hg]; [|done].
        unfold active in Ha. by rewrite Es in Ha.
Qed.

Lemma init_ok_empty conds : init_ok conds (None, None) empty_cache.
Proof.
  split; cbn; try done;
    try (intros k v; by rewrite lookup_empty);
    try (intros g Hg; by apply elem_of_empty in Hg);
    try (intros g q Hg; by apply elem_of_nil in Hg).
Qed.

(** The state the constructor returns. *)
Definition fresh_lexer (fname : string) (inp : list ascii) (conds : IgneaConditions)
           (c : _IgneaLexerCache) (pair : option (TagId * TagId)) : LexState :=
  mkLexState
    (mkStore [mkPosition fname 0 1 1] [])
    (mkLexer fname inp conds 0 None
       (mkCache (states_start c) (terminal_tags_ignore c) pair
                (terminal_tags_positives c) (terminal_tags_negatives c)
                (accepted_terminal_tags c) (nfas c))
       (mkLexerStore (mkPosition String.EmptyString 0 1 1) [] ∅ ∅ [] ∅
          (mkOffside pair [1] OFFSIDE_STATES_START))).

Lemma fresh_lexer_inv fname inp conds c o0 o1 pair :
  init_ok conds (o0, o1) c ->
  pair = match o0, o1 with Some i, Some d => Some (i, d) | _, _ => None end ->
  lexer_inv (fresh_lexer fname inp conds c pair).
Proof.
  intros [Hig Hp Hn Hss Hin Hde Hme] Hpair. cbn in *.
  split; cbn; try done.
  - split; cbn; try done.
    + intros g Hg. by apply Hig.
    + intros i d Hid. rewrite Hid in Hpair.
      destruct o0 as [i'|], o1 as [d'|]; try discriminate.
      injection Hpair as -> ->. destruct (Hin i' eq_refl) as [Hsi Hii].
      destruct (Hde d' eq_refl) as (Hsd & Hid' & Hdd).
      unfold is_active, active. cbn. rewrite Hsi, Hii, Hsd, Hid', Hdd. cbn.
      repeat split; try done. intros ->. congruence.
  - split; cbn.
    + intros g Hg. by apply elem_of_empty in Hg.
    + intros g q Hg. by apply elem_of_nil in Hg.
    + intros g q Hg. by apply elem_of_nil in Hg.
  - intros k v. cbn. by rewrite Hme, lookup_empty.
  - lia.
Qed.

Lemma IgneaLexer_new_Ok fname inp conds s :
  IgneaLexer_new tag_class TERMINAL_TAGS fname inp conds = Ok s ->
  exists c pair,
    s = fresh_lexer fname inp conds c pair /\
    lexer_inv s /\
    forall g, g ∈ terminal_tags_ignore c <->
              g ∈ TERMINAL_TAGS /\ active tag_class conds g = true /\
              ignore (tag_class g) conds = true.
Proof.
  unfold IgneaLexer_new. intros H.
  destruct (post_init_loop _ _ _ _ _) as [[[o0 o1] c]|] eqn:E; [|discriminate].
  apply post_init_loop_Ok in E as (Hok & Hiff); [|apply init_ok_empty].
  exists c, (match o0, o1 with Some i, Some d => Some (i, d) | _, _ => None end).
  assert (Hinv := fresh_lexer_inv fname inp conds c o0 o1 _ Hok eq_refl).
  assert (Hs : s = fresh_lexer fname inp conds c
                     (match o0, o1 with Some i, Some d => Some (i, d) | _, _ => None end))
    by (destruct o0 as [i|], o1 as [d|]; try discriminate; by injection H as <-).
  subst s. split; [done|]. split; [done|].
  intros g. rewrite Hiff. cbn. split; [intros [Hg|?]; [|done]|by right].
    by apply elem_of_empty in Hg.
Qed.

(** *** The states of a lexer *)

(** The states a lexer goes through: the one its constructor returns, and
    what the successful calls of [next_terminal] make of it. *)
Inductive reachable (fname : string) (inp : list ascii) (conds : IgneaConditions)
  : LexState -> Prop :=
| reach_new s :
    IgneaLexer_new tag_class TERMINAL_TAGS fname inp conds = Ok s ->
    reachable fname inp conds s
| reach_next s fuel cur r s' :
    reachable fname inp conds s ->
    next_terminal tag_class fuel cur s = (Ok r, s') ->
    reachable fname inp conds s'.

(** The ignore set the constructor records. *)
Definition ignore_set (conds : IgneaConditions) (X : gset TagId) : Prop :=
  forall g, g ∈ X <-> g ∈ TERMINAL_TAGS /\ active tag_class conds g = true /\
                      ignore (tag_class g) conds = true.

Lemma reachable_inv fname inp conds s :
  reachable fname inp conds s ->
  lexer_inv s /\ input (lexer s) = inp /\ conditions (lexer s) = conds /\
  ignore_set conds (terminal_tags_ignore (the_cache s)).
Proof.
  induction 1 as [s H|s fuel cur r s' _ (Hinv & Hi & Hc & Hig) H].
  - apply IgneaLexer_new_Ok in H as (c & pair & -> & Hinv & Hig).
    split; [done|]. split; [done|]. split; [done|]. exact Hig.
  - apply next_terminal_inv in H as (Hinv' & Hx & _); [|done].
    split; [done|].
    split; [by rewrite <- Hi; apply (f_equal st_input) in Hx|].
    split; [by rewrite <- Hc; apply (f_equal st_conditions) in Hx|].
    apply (f_equal st_ignore) in Hx. cbn in Hx. unfold the_cache. by rewrite Hx.
Qed.

(** A terminal that carries the indent or the dedent tag. *)
Definition is_offside_terminal (s : LexState) (tm : IgneaTerminal) : Prop :=
  exists i d, terminal_tags_offside (the_cache s) = Some (i, d) /\
              (i ∈ tags tm \/ d ∈ tags tm).

Lemma good_terminal_cases s tm :
  wf_statics (statics s) ->
  good_terminal (statics s) (positions (store s)) tm ->
  exists sp ep,
    positions (store s) !! start_position tm = Some sp /\
    positions (store s) !! end_position tm = Some ep /\
    (forall g, g ∈ tags tm -> g ∉ terminal_tags_ignore (the_cache s)) /\
    (is_offside_terminal s tm -> value tm = [] /\ index_ sp = index_ ep) /\
    (~ is_offside_terminal s tm ->
     value tm = slice (index_ sp) (index_ ep) (input (lexer s))).
Proof.
  intros Hwf (sp & ep & Hs & He & Hform). exists sp, ep.
  split; [done|]. split; [done|].
  destruct Hform as [(i & d & Hid & Ht & Hv & Hi)|[Ha Hv]].
  - destruct (wf_offside _ Hwf _ _ Hid) as (Hni & Hnd & _).
    split; [|split; [done|]].
    + intros g Hg Hig. apply (wf_ignore _ Hwf) in Hig.
      destruct Ht as [Ht|Ht]; rewrite Ht in Hg; apply elem_of_singleton in Hg; by subst.
    + intros Hno. destruct Hno. exists i, d. split; [done|].
      destruct Ht as [-> | ->]; [left|right]; by apply elem_of_singleton.
  - split; [|split; [|done]].
    + intros g Hg. by destruct (Ha g Hg).
    + intros (i & d & Hid & Hor). destruct (wf_offside _ Hwf _ _ Hid) as (Hni & Hnd & _).
      destruct Hor as [Hg|Hg]; destruct (Ha _ Hg); done.
Qed.

End LexerFacts.

(** ** The lexer: memoization of the stream *)

(** What [next_terminal(current_terminal)] finds memoized: the field
    [_start] of the lexer, or the field [next] of the terminal; [None] when
    the reference names no terminal. *)
Definition successor (s : LexState) (current_terminal : option nat) : option (option nat) :=
  match current_terminal with
  | None => Some (_start (lexer s))
  | Some c => next <$> terminals (store s) !! c
  end.

(** The two ways a call of [next_terminal] succeeds: on a memoized
    terminal, with no lexing and no change of state; or through
    [_get_terminal], whose result is then stored in the field read. *)
Lemma next_terminal_cases tag_class fuel cur s r s' :
  next_terminal tag_class fuel cur s = (Ok r, s') ->
  (exists n, successor s cur = Some (Some n) /\ r = Some n /\ s' = s) \/
  (successor s cur = Some None /\ successor s' cur = Some r /\
   exists p s1,
     _get_terminal tag_class fuel p s = (Ok r, s1) /\
     lexer s' = match cur with None => set__start r (lexer s1) | Some _ => lexer s1 end /\
     length (terminals (store s')) = length (terminals (store s1)) /\
     (forall t, tags <$> terminals (store s') !! t = tags <$> terminals (store s1) !! t) /\
     (forall t, Some t <> cur ->
                next <$> terminals (store s') !! t = next <$> terminals (store s1) !! t)).
Proof.
  intros H. destruct cur as [c|]; cbn [next_terminal] in H.
  - mbind H as tm s0 H0 H. apply read_terminal_Ok in H0 as [-> Hc].
    destruct (next tm) as [n|] eqn:En.
    + mclean. left. exists n. cbn. by rewrite Hc, <- En.
    + right. mbind H as r1 s1 H1 H.
      mbind H as tm' s2 H2 H. apply read_terminal_Ok in H2 as [-> Hc'].
      mbind H as u s3 H3 H. apply write_terminal_Ok in H3 as ->. mclean.
      assert (Hlt := lookup_lt_Some _ _ _ Hc').
      split; [cbn; by rewrite Hc, <- En|]. split.
      { cbn. by rewrite list_lookup_insert_eq. }
      exists (end_position tm), s1. split; [done|]. split; [done|]. cbn.
      split; [by rewrite length_insert|]. split.
      * intros t. destruct (decide (c = t)) as [->|Hne].
        -- by rewrite list_lookup_insert_eq, Hc'.
        -- by rewrite list_lookup_insert_ne.
      * intros t Hne. rewrite list_lookup_insert_ne; [done|congruence].
  - mbind H as lx s0 H0 H. mclean.
    destruct (_start (lexer s)) as [t0|] eqn:Est.
    + mclean. left. exists t0. cbn. by rewrite Est.
    + right. mbind H as r1 s1 H1 H. mbind H as u s2 H2 H. mclean.
      split; [cbn; by rewrite Est|].
      destruct r1 as [t1|].
      * mbind H as tm s3 H3 H. apply read_terminal_Ok in H3 as [-> Ht1]. cbn in Ht1.
        mbind H as p s4 H4 H. apply read_position_Ok in H4 as [-> Hp].
        mbind H as u5 s5 H5 H. apply update_position_Ok in H5 as ->.
        mbind H as u6 s6 H6 H. apply write_terminal_Ok in H6 as ->. mclean.
        split; [done|].
        exists (lexer_start_position (lexer s)), s1. split; [done|]. split; [done|]. cbn.
        split; [by rewrite length_insert|].
        assert (Hlt := lookup_lt_Some _ _ _ Ht1).
        split; intros t; (destruct (decide (t1 = t)) as [->|Hne];
          [by rewrite list_lookup_insert_eq, Ht1|by rewrite list_lookup_insert_ne]).
      * mclean. split; [done|].
        exists (lexer_start_position (lexer s)), s1. by repeat split.
Qed.

(** Calling again after a terminal was returned: no lexing is needed
    (any fuel will do, none included) and nothing changes. *)
Lemma next_terminal_again tag_class fuel cur s t s' :
  next_terminal tag_class fuel cur s = (Ok (Some t), s') ->
  successor s' cur = Some (Some t) /\
  forall fuel', next_terminal tag_class fuel' cur s' = (Ok (Some t), s').
Proof.
  intros H.
  assert (Hsucc : successor s' cur = Some (Some t)).
  { apply next_terminal_cases in H as [(n & Hs & [= ->] & ->)|(_ & Hs & _)]; done. }
  split; [done|]. intros fuel'. destruct cur as [c|]; cbn in Hsucc |- *.
  - destruct (terminals (store s') !! c) as [tm|] eqn:Hc; [|discriminate].
    injection Hsucc as Hn.
    unfold bind, read_terminal, gets, from_option, ret. cbn. rewrite Hc. cbn.
    by rewrite Hn.
  - injection Hsucc as Hst. unfold bind, gets. cbn. by rewrite Hst.
Qed.

(** ** The lexer: the off-side rule over a whole stream *)

Lemma chain_ext T T' r l :
  chain T r l ->
  (forall t, t ∈ l -> next <$> T' !! t = next <$> T !! t) ->
  chain T' r l.
Proof.
  induction 1 as [|t tm l Ht _ IH]; intros Hx; [constructor|].
  assert (Hn := Hx t ltac:(by left)). rewrite Ht in Hn. cbn in Hn.
  destruct (T' !! t) as [tm'|] eqn:Ht'; [|discriminate]. injection Hn as Hn.
  econstructor; [exact Ht'|]. rewrite Hn. apply IH. intros u Hu. apply Hx. by right.
Qed.

Section Balance.

Variable tag_class : TagId -> IgneaTerminalTag.
Variables i d : TagId.

(** The consumer has received [received], the last of which is [cur]; the
    terminals already linked after [cur] are [pend].  Indents and dedents
    of both lists together account for the levels on the stack. *)
Definition balanced_so_far (s : LexState) (cur : option nat) (received : list nat) : Prop :=
  lexer_inv tag_class s /\ st_offside (statics s) = Some (i, d) /\
  Forall (fun t => t < length (terminals (store s))) received /\
  exists nx pend,
    successor s cur = Some nx /\ chain (terminals (store s)) nx pend /\
    count_tag (terminals (store s)) i (received ++ pend) + 1
    = count_tag (terminals (store s)) d (received ++ pend)
      + length (_stack (the_offside s)).

Lemma balanced_step fuel s cur received r s' :
  balanced_so_far s cur received ->
  next_terminal tag_class fuel cur s = (Ok r, s') ->
  match r with
  | Some t => balanced_so_far s' (Some t) (received ++ [t])
  | None => count_tag (terminals (store s')) i received
            = count_tag (terminals (store s')) d received
  end.
Proof.
  intros (Hinv & Hid & Hrec & nx & pend & Hsucc & Hch & Hbal) H.
  assert (Hinv' := next_terminal_inv _ _ _ _ _ _ H Hinv).
  destruct Hinv' as (Hinv' & Hx' & Hvalid).
  destruct (next_terminal_cases _ _ _ _ _ _ H)
    as [(n & Hs & -> & ->)|(Hs & Hs' & p & s1 & Hget & Hlx & Hlen & Htags & Hnext)].
  - (* memoized *)
    rewrite Hs in Hsucc. injection Hsucc as <-.
    inversion Hch as [|? tm pend' Hn Hch']; subst.
    split; [done|]. split; [done|]. split.
    { apply Forall_app. split; [done|]. constructor; [|constructor].
      by eapply lookup_lt_Some. }
    exists (next tm), pend'. cbn. rewrite Hn. split; [done|]. split; [done|].
    by rewrite <- app_assoc.
  - (* computed *)
    rewrite Hs in Hsucc. injection Hsucc as <-. inversion Hch; subst.
    rewrite app_nil_r in Hbal.
    apply _get_terminal_Ok in Hget; [|by destruct Hinv..].
    destruct Hget as [Hx1 Hst1 _ _ Hg Hk Hdr].
    destruct Hg as (newP & newT & HP & HT & _ & _ & _ & _ & Hc).
    destruct (Hc [] (chain_nil _)) as (l & Hl & Hnew & Hb). rewrite app_nil_r in Hl.
    specialize (Hb i d Hid).
    assert (Hstk : _stack (the_offside s') = _stack (the_offside s1)).
    { unfold the_offside, the_store. rewrite Hlx. by destruct cur. }
    assert (Hcount : forall g l0,
              count_tag (terminals (store s')) g l0 = count_tag (terminals (store s1)) g l0).
    { intros g l0. apply count_tag_ext. intros; apply Htags. }
    assert (Hold : forall g, count_tag (terminals (store s1)) g received
                             = count_tag (terminals (store s)) g received).
    { intros g. rewrite HT. by apply count_tag_old. }
    assert (Hcur : forall t, length (terminals (store s)) <= t -> Some t <> cur).
    { intros t Hle <-. cbn in Hs.
      destruct (terminals (store s) !! t) eqn:E; [|discriminate].
      apply lookup_lt_Some in E. lia. }
    destruct r as [t|].
    + inversion Hl as [|? tm l' Ht Hl']; subst.
      apply Forall_cons in Hnew as [Hnt Hnew].
      split; [done|]. split; [by rewrite Hx'|]. split.
      { apply Forall_app. split; [|constructor; [auto|constructor]].
        eapply Forall_impl; [exact Hrec|]. cbn. intros t0 Ht0.
        rewrite Hlen, HT, length_app. lia. }
      exists (next tm), l'. split.
      { cbn. rewrite Hnext by auto. by rewrite Ht. }
      split.
      { eapply chain_ext; [exact Hl'|]. intros u Hu. apply Hnext, Hcur.
        rewrite Forall_forall in Hnew. auto. }
      rewrite <- app_assoc, Hstk, !Hcount, !count_tag_app, !Hold.
      cbn [app count_tag] in *. lia.
    + inversion Hl; subst. cbn [count_tag] in Hb.
      assert (length (_stack (the_offside s1)) = 1).
      { assert (_stack (the_offside s1) <> []) by (apply Hk; by destruct Hinv).
        assert (length (_stack (the_offside s1)) <= 1).
        { apply Hdr; try done. by rewrite Hid. }
        destruct (_stack (the_offside s1)); [done|cbn in *; lia]. }
      rewrite !Hcount, !Hold. lia.
Qed.

Lemma consume_balanced fuel steps cur s received ts s' :
  consume tag_class fuel steps cur s = (Ok ts, s') ->
  balanced_so_far s cur received ->
  count_tag (terminals (store s')) i (received ++ ts)
  = count_tag (terminals (store s')) d (received ++ ts).
Proof.
  revert cur s received ts. induction steps as [|steps IH];
    intros cur s received ts H Hb; cbn [consume] in H; [by mclean|].
  mbind H as r s1 H1 H. eapply balanced_step in H1; [|exact Hb].
  destruct r as [t|].
  - mbind H as ts' s2 H2 H. mclean.
    apply (IH _ _ _ _ H2) in H1. by rewrite <- app_assoc in H1.
  - mclean. by rewrite app_nil_r.
Qed.

End Balance.

(** C6 (off-side balance).  With the off-side rule active (the constructor
    found an indent tag [i] and a dedent tag [d]), when the stream of a new
    lexer is consumed from its first terminal until [next_terminal] returns
    [None], no call raising, the terminals returned carry [i] as often as
    they carry [d]. *)
Theorem offside_balance tag_class TERMINAL_TAGS fname inp conds s0 i d fuel steps ts s' :
  IgneaLexer_new tag_class TERMINAL_TAGS fname inp conds = Ok s0 ->
  terminal_tags_offside (the_cache s0) = Some (i, d) ->
  consume tag_class fuel steps None s0 = (Ok ts, s') ->
  count_tag (terminals (store s')) i ts = count_tag (terminals (store s')) d ts.
Proof.
  intros Hnew Hid Hrun.
  apply IgneaLexer_new_Ok in Hnew as (c & pair & -> & Hinv & _).
  apply (consume_balanced tag_class i d fuel steps None _ [] ts s' Hrun).
  split; [done|]. split; [exact Hid|]. split; [constructor|].
  exists None, []. split; [done|]. split; [constructor|]. done.
Qed.

Lemma offside_balance_witness :
  exists s0 ts s',
    OffsideLexer.new OffsideLexer.nested = Ok s0 /\
    terminal_tags_offside (the_cache s0) = Some (OffsideLexer.INDENT, OffsideLexer.DEDENT) /\
    consume OffsideLexer.tag_class 30 30 None s0 = (Ok ts, s') /\
    count_tag (terminals (store s')) OffsideLexer.INDENT ts = 2 /\
    count_tag (terminals (store s')) OffsideLexer.INDENT ts
    = count_tag (terminals (store s')) OffsideLexer.DEDENT ts.
Proof.
  let v := eval vm_compute in (OffsideLexer.new OffsideLexer.nested) in
  match v with Ok ?s => pose (s0 := s) end.
  let v := eval vm_compute in (consume OffsideLexer.tag_class 30 30 None s0) in
  match v with (Ok ?l, ?s) => pose (ts := l); pose (s' := s) end.
  assert (E0 : OffsideLexer.new OffsideLexer.nested = Ok s0) by (vm_compute; reflexivity).
  assert (Hid : terminal_tags_offside (the_cache s0)
                = Some (OffsideLexer.INDENT, OffsideLexer.DEDENT))
    by (vm_compute; reflexivity).
  assert (E1 : consume OffsideLexer.tag_class 30 30 None s0 = (Ok ts, s'))
    by (vm_compute; reflexivity).
  exists s0, ts, s'. split; [exact E0|]. split; [exact Hid|]. split; [exact E1|].
  split; [vm_compute; reflexivity|].
  exact (offside_balance _ _ _ _ _ _ _ _ _ _ _ _ E0 Hid E1).
Defined.

(** C7.  The off-side rule being active, [prepend_offside_terminals] is
    called for a terminal that starts at [sp], in a column less than the top
    of the indentation stack.  It pops the [k] levels above that column (all
    of the popped levels exceed it, the level left on top does not), making
    one dedent terminal per level popped (the batch), and then raises
    [IgneaIndentationError] at [sp] unless the level left on top is the
    column.  The stack is assumed to hold a level that does not exceed the
    column (its bottom level 1 in a lexer); without one the loop empties the
    stack and the source fails on [self._stack[-1]].  The witness runs it on
    the third line of [OffsideLexer.between], where the whole lexer raises
    the error at the position of [c]. *)
Theorem dedents_then_mismatch sp c s i d top rest :
  terminal_tags (the_offside s) = Some (i, d) ->
  _stack (the_offside s) = top :: rest ->
  column sp < top ->
  (exists lvl, lvl ∈ rest /\ lvl <= column sp) ->
  let k := pops (column sp) (top :: rest) in
  exists r s' top',
    0 < k /\
    Forall (fun l => column sp < l) (take k (top :: rest)) /\
    head (drop k (top :: rest)) = Some top' /\ top' <= column sp /\
    lexer s' = restack (drop k (top :: rest)) (lexer s) /\
    batch d sp k (Some c) r (store s) (store s') /\
    prepend_offside_terminals sp (Some c) s
    = (if decide (top' = column sp) then Ok r else Raise (IgneaIndentationError sp), s').
Proof.
  intros Htt Hst Hlt (lvl & Hin & Hle) k.
  destruct (dedent_while_total (top :: rest) sp (Some c) s i d Hst Htt)
    as (r & s1 & Hrun); [exists lvl; split; [by right|done]|].
  destruct (dedent_while_Ok _ _ _ _ _ _ _ _ Hrun Hst Htt) as (Hl & (top' & Hh & Hle') & Hb).
  destruct (pops_spec (column sp) (top :: rest)) as (Hall & _ & _).
  exists r, s1, top'. fold k in Hl, Hh, Hb, Hall.
  split.
  { subst k. cbn [pops]. apply Nat.ltb_lt in Hlt. rewrite Hlt. lia. }
  split; [done|]. split; [done|]. split; [done|]. split; [done|]. split; [done|].
  unfold prepend_offside_terminals.
  unfold bind at 1. unfold gets at 1. rewrite Htt. rewrite Hst.
  unfold bind at 1. unfold from_option at 1. cbn [head ret].
  rewrite (proj2 (Nat.ltb_lt _ _) Hlt).
  unfold bind at 1. rewrite Hrun.
  unfold bind at 1. unfold gets at 1.
  assert (Hs1 : _stack (the_offside s1) = drop k (top :: rest))
    by (unfold the_offside, the_store; by rewrite Hl).
  rewrite Hs1, Hh. unfold bind at 1. unfold from_option at 1. cbn [ret].
  destruct (decide (top' = column sp)) as [->|Hne].
  - by rewrite Nat.ltb_irrefl.
  - rewrite (proj2 (Nat.ltb_lt top' (column sp))) by lia. done.
Qed.

Lemma dedents_then_mismatch_witness :
  OffsideLexer.lex 30 OffsideLexer.between
  = Raise (IgneaIndentationError (mkPosition "f" 10 3 3)) /\
  exists s0 s s',
    OffsideLexer.new OffsideLexer.between = Ok s0 /\
    consume OffsideLexer.tag_class 30 3 None s0 = (Raise OutOfFuel, s) /\
    terminal_tags (the_offside s) = Some (OffsideLexer.INDENT, OffsideLexer.DEDENT) /\
    _stack (the_offside s) = [5; 1] /\
    prepend_offside_terminals (mkPosition "f" 10 3 3) (Some 1) s
    = (Raise (IgneaIndentationError (mkPosition "f" 10 3 3)), s') /\
    _stack (the_offside s') = [1] /\
    length (terminals (store s')) = S (length (terminals (store s))).
Proof.
  split; [vm_compute; reflexivity|].
  let v := eval vm_compute in (OffsideLexer.new OffsideLexer.between) in
  match v with Ok ?x => pose (s0 := x) end.
  let v := eval vm_compute in (consume OffsideLexer.tag_class 30 3 None s0) in
  match v with (_, ?x) => pose (s := x) end.
  assert (Htt : terminal_tags (the_offside s)
                = Some (OffsideLexer.INDENT, OffsideLexer.DEDENT)) by reflexivity.
  assert (Hst : _stack (the_offside s) = [5; 1]) by reflexivity.
  assert (Hlt : column (mkPosition "f" 10 3 3) < 5) by (cbn; lia).
  assert (Hlvl : exists lvl, lvl ∈ [1] /\ lvl <= column (mkPosition "f" 10 3 3))
    by (exists 1; split; [by left|cbn; lia]).
  destruct (dedents_then_mismatch _ 1 s _ _ _ _ Htt Hst Hlt Hlvl)
    as (r & s' & top' & _ & _ & Hh & _ & Hl & Hb & Hrun).
  vm_compute in Hh. injection Hh as <-.
  destruct (decide (1 = column (mkPosition "f" 10 3 3))) as [Heq|_]; [discriminate Heq|].
  exists s0, s, s'.
  split; [vm_compute; reflexivity|]. split; [vm_compute; reflexivity|].
  split; [exact Htt|]. split; [exact Hst|]. split; [exact Hrun|]. split.
  - unfold the_offside, the_store. rewrite Hl. reflexivity.
  - destruct Hb as (newP & newT & _ & HT & Hlen & _). rewrite HT, length_app, Hlen.
    vm_compute. reflexivity.
Defined.


(** ** The lexer: what every returned terminal satisfies *)

Lemma returned_terminal tag_class TERMINAL_TAGS fname inp conds s fuel cur t s' :
  reachable tag_class TERMINAL_TAGS fname inp conds s ->
  next_terminal tag_class fuel cur s = (Ok (Some t), s') ->
  lexer_inv tag_class s' /\ input (lexer s') = inp /\ conditions (lexer s') = conds /\
  ignore_set tag_class TERMINAL_TAGS conds (terminal_tags_ignore (the_cache s')) /\
  exists tm, terminals (store s') !! t = Some tm /\
             good_terminal tag_class (statics s') (positions (store s')) tm.
Proof.
  intros Hr H.
  assert (Hr' : reachable tag_class TERMINAL_TAGS fname inp conds s')
    by (eapply reach_next; eauto).
  apply reachable_inv in Hr' as (Hinv & Hi & Hc & Hig).
  apply reachable_inv in Hr as (Hinv0 & _).
  apply next_terminal_inv in H as (_ & _ & Ht); [|done].
  specialize (Ht t eq_refl). apply lookup_lt_is_Some_2 in Ht as [tm Htm].
  split; [done|]. split; [done|]. split; [done|]. split; [done|].
  exists tm. split; [done|].
  eapply Forall_lookup_1; [|exact Htm]. by destruct Hinv.
Qed.

(** C8 (ignore correctness).  In every state a lexer reaches, a terminal
    returned by [next_terminal] carries no tag that is in [TERMINAL_TAGS],
    active (started, neither indent nor dedent) and ignored under the
    lexer's conditions; and no set memoized in the cache
    [accepted_terminal_tags] holds such a tag, so the memoized path serves
    none either. *)
Theorem ignored_tags_never_emitted tag_class TERMINAL_TAGS fname inp conds s fuel cur t s' :
  reachable tag_class TERMINAL_TAGS fname inp conds s ->
  next_terminal tag_class fuel cur s = (Ok (Some t), s') ->
  (exists tm, terminals (store s') !! t = Some tm /\
     forall g, g ∈ tags tm ->
               ~ (g ∈ TERMINAL_TAGS /\ active tag_class conds g = true /\
                  ignore (tag_class g) conds = true)) /\
  (forall k v g, accepted_terminal_tags (the_cache s') !! k = Some v -> g ∈ v ->
                 ~ (g ∈ TERMINAL_TAGS /\ active tag_class conds g = true /\
                    ignore (tag_class g) conds = true)).
Proof.
  intros Hr H.
  eapply returned_terminal in H as (Hinv & Hi & Hc & Hig & tm & Htm & Hgood); [|exact Hr].
  split.
  - exists tm. split; [done|]. intros g Hg Hbad. apply Hig in Hbad.
    eapply good_terminal_cases in Hgood as (sp & ep & _ & _ & Hni & _);
      [|by destruct Hinv].
    by apply (Hni g).
  - intros k v g Hkv Hg Hbad. apply Hig in Hbad.
    destruct Hinv as [_ _ Hm _ _ _ _ _ _]. by destruct (Hm k v Hkv g Hg).
Qed.

(** C10.  In every state a lexer reaches, a terminal returned by
    [next_terminal] that carries neither the indent nor the dedent tag has
    as value the input between the indices of its start and end positions;
    one that carries the indent or the dedent tag has the empty value and
    equal start and end indices. *)
Theorem terminal_value_is_input_slice tag_class TERMINAL_TAGS fname inp conds s fuel cur t s' :
  reachable tag_class TERMINAL_TAGS fname inp conds s ->
  next_terminal tag_class fuel cur s = (Ok (Some t), s') ->
  exists tm sp ep,
    terminals (store s') !! t = Some tm /\
    positions (store s') !! start_position tm = Some sp /\
    positions (store s') !! end_position tm = Some ep /\
    (~ is_offside_terminal s' tm -> value tm = slice (index_ sp) (index_ ep) inp) /\
    (is_offside_terminal s' tm -> value tm = [] /\ index_ sp = index_ ep).
Proof.
  intros Hr H.
  eapply returned_terminal in H as (Hinv & Hi & Hc & Hig & tm & Htm & Hgood); [|exact Hr].
  eapply good_terminal_cases in Hgood as (sp & ep & Hs & He & _ & Hoff & Hin);
    [|by destruct Hinv].
  exists tm, sp, ep. rewrite Hi in Hin. auto.
Qed.

Lemma ignored_tags_never_emitted_witness :
  exists s0 t s',
    IgneaLexer_new KeywordLexer.tag_class KeywordLexer.TERMINAL_TAGS "f"
      (String.list_ascii_of_string " if") 0%N = Ok s0 /\
    next_terminal KeywordLexer.tag_class 9 None s0 = (Ok (Some t), s') /\
    (exists tm, terminals (store s') !! t = Some tm /\
       forall g, g ∈ tags tm ->
                 ~ (g ∈ KeywordLexer.TERMINAL_TAGS /\
                    active KeywordLexer.tag_class 0%N g = true /\
                    ignore (KeywordLexer.tag_class g) 0%N = true)) /\
    (forall k v g, accepted_terminal_tags (the_cache s') !! k = Some v -> g ∈ v ->
                   ~ (g ∈ KeywordLexer.TERMINAL_TAGS /\
                      active KeywordLexer.tag_class 0%N g = true /\
                      ignore (KeywordLexer.tag_class g) 0%N = true)).
Proof.
  let v := eval vm_compute in
    (IgneaLexer_new KeywordLexer.tag_class KeywordLexer.TERMINAL_TAGS "f"
       (String.list_ascii_of_string " if") 0%N) in
  match v with Ok ?s => pose (s0 := s) end.
  let v := eval vm_compute in (next_terminal KeywordLexer.tag_class 9 None s0) in
  match v with (Ok (Some ?n), ?s) => pose (t := n); pose (s' := s) end.
  assert (E0 : IgneaLexer_new KeywordLexer.tag_class KeywordLexer.TERMINAL_TAGS "f"
                 (String.list_ascii_of_string " if") 0%N = Ok s0)
    by (vm_compute; reflexivity).
  assert (E1 : next_terminal KeywordLexer.tag_class 9 None s0 = (Ok (Some t), s'))
    by (vm_compute; reflexivity).
  exists s0, t, s'. split; [exact E0|]. split; [exact E1|].
  exact (ignored_tags_never_emitted _ _ _ _ _ _ _ _ _ _
           (reach_new _ _ _ _ _ _ E0) E1).
Defined.

Lemma terminal_value_is_input_slice_witness :
  exists s0 t s',
    OffsideLexer.new OffsideLexer.nested = Ok s0 /\
    next_terminal OffsideLexer.tag_class 9 None s0 = (Ok (Some t), s') /\
    exists tm sp ep,
      terminals (store s') !! t = Some tm /\
      positions (store s') !! start_position tm = Some sp /\
      positions (store s') !! end_position tm = Some ep /\
      (~ is_offside_terminal s' tm ->
       value tm = slice (index_ sp) (index_ ep)
                        (String.list_ascii_of_string OffsideLexer.nested)) /\
      (is_offside_terminal s' tm -> value tm = [] /\ index_ sp = index_ ep).
Proof.
  let v := eval vm_compute in (OffsideLexer.new OffsideLexer.nested) in
  match v with Ok ?s => pose (s0 := s) end.
  let v := eval vm_compute in (next_terminal OffsideLexer.tag_class 9 None s0) in
  match v with (Ok (Some ?n), ?s) => pose (t := n); pose (s' := s) end.
  assert (E0 : OffsideLexer.new OffsideLexer.nested = Ok s0) by (vm_compute; reflexivity).
  assert (E1 : next_terminal OffsideLexer.tag_class 9 None s0 = (Ok (Some t), s'))
    by (vm_compute; reflexivity).
  exists s0, t, s'. split; [exact E0|]. split; [exact E1|].
  exact (terminal_value_is_input_slice _ _ _ _ _ _ _ _ _ _
           (reach_new _ _ _ _ _ _ E0) E1).
Defined.

(** C2, as the code has it.  With [IDENT] for [[a-z]+], [IF] for [if],
    [IF.positives = {IDENT}], [IDENT.negatives = {IF}] and an ignored
    whitespace tag, the input [if ifx] gives two terminals, both of tag set
    [{IDENT}]: [if] is accepted by [IDENT] and [IF], and the negatives of
    [IDENT] take [IF] out of the set. *)
Theorem keyword_lexes_as_identifier :
  KeywordLexer.lex 20 "if ifx"
  = Ok [([KeywordLexer.IDENT], "if"%string); ([KeywordLexer.IDENT], "ifx"%string)].
Proof. vm_compute. reflexivity. Qed.

(** The stream the specification gives for [if ifx] is not the one the
    lexer returns. *)
Lemma keyword_not_kept :
  KeywordLexer.lex 20 "if ifx"
  <> Ok [([KeywordLexer.IF], "if"%string); ([KeywordLexer.IDENT], "ifx"%string)].
Proof. vm_compute. discriminate. Qed.

(** A call that returned [None] is not memoized.  On an input of one
    space the first call returns [None] and leaves [_start] at [None]; the
    second call enters the lexing loop again: it returns [None] with fuel for
    the loop and raises [OutOfFuel] without, where a memoized result needs
    none. *)
Lemma end_of_input_not_memoized :
  exists s0 s1 s2,
    IgneaLexer_new KeywordLexer.tag_class KeywordLexer.TERMINAL_TAGS "f"
      (String.list_ascii_of_string " ") 0%N = Ok s0 /\
    next_terminal KeywordLexer.tag_class 9 None s0 = (Ok None, s1) /\
    successor s1 None = Some None /\
    next_terminal KeywordLexer.tag_class 9 None s1 = (Ok None, s2) /\
    fst (next_terminal KeywordLexer.tag_class 0 None s1) = Raise OutOfFuel.
Proof.
  let v := eval vm_compute in
    (IgneaLexer_new KeywordLexer.tag_class KeywordLexer.TERMINAL_TAGS "f"
       (String.list_ascii_of_string " ") 0%N) in
  match v with Ok ?x => pose (s0 := x) end.
  let v := eval vm_compute in (next_terminal KeywordLexer.tag_class 9 None s0) in
  match v with (_, ?x) => pose (s1 := x) end.
  let v := eval vm_compute in (next_terminal KeywordLexer.tag_class 9 None s1) in
  match v with (_, ?x) => pose (s2 := x) end.
  exists s0, s1, s2.
  split; [vm_compute; reflexivity|]. split; [vm_compute; reflexivity|].
  split; [reflexivity|]. split; [vm_compute; reflexivity|].
  vm_compute; reflexivity.
Qed.

(** ** The lexer: calling again at the end of the input *)

(** Between two steps of the analysis the transient sets of the store are
    empty ("always empty after use"). *)
Definition tidy (s : LexState) : Prop :=
  next_terminal_tags (the_store s) = ∅ /\ next_states (the_store s) = [].

(** What the refinement loops leave alone: all but the three sets they work
    in. *)
Definition rest (s : LexState) :=
  (store s, filename (lexer s), input (lexer s), conditions (lexer s),
   lexer_start_position (lexer s), _start (lexer s), _cache (lexer s),
   current_position (the_store s), current_states (the_store s),
   next_states (the_store s), offside (the_store s)).

(** What the off-side automaton leaves alone: all but its own state. *)
Definition set_offside_state (q : IgneaLexingState) (s : LexState) : LexState :=
  with_lexer (with_lexer_store (with_offside (set__state q))) s.

(** What a run of [_get_terminal] that ends on [None] reads of the state it
    starts in, the memos apart. *)
Record agree (s t : LexState) : Prop := {
  ag_input : input (lexer t) = input (lexer s);
  ag_states_start : states_start (the_cache t) = states_start (the_cache s);
  ag_ignore : terminal_tags_ignore (the_cache t) = terminal_tags_ignore (the_cache s);
  ag_position : current_position (the_store t) = current_position (the_store s);
  ag_current : current_states (the_store t) = current_states (the_store s);
  ag_next : next_states (the_store t) = next_states (the_store s);
  ag_tags : next_terminal_tags (the_store t) = next_terminal_tags (the_store s);
  ag_driver : terminal_tags (the_offside t) = terminal_tags (the_offside s);
  ag_stack : _stack (the_offside t) = _stack (the_offside s)
}.

(** The memos of [s] are among those of [t]. *)
Definition memo_le (s t : LexState) : Prop :=
  nfas (the_cache s) ⊆ nfas (the_cache t) /\
  accepted_terminal_tags (the_cache s) ⊆ accepted_terminal_tags (the_cache t).

Lemma agree_refl s : agree s s.
Proof. by split. Qed.

Lemma agree_trans s t u : agree s t -> agree t u -> agree s u.
Proof. intros [] []. split; congruence. Qed.

Lemma agree_sym s t : agree s t -> agree t s.
Proof. intros []. by split. Qed.

Lemma memo_le_refl s : memo_le s s.
Proof. by split. Qed.

Lemma memo_le_trans s t u : memo_le s t -> memo_le t u -> memo_le s u.
Proof. intros [? ?] [? ?]. split; etrans; eauto. Qed.

Lemma memo_le_cache s t u : memo_le s t -> the_cache u = the_cache t -> memo_le s u.
Proof. intros [H1 H2] H. unfold memo_le. by rewrite H. Qed.

Lemma cache_memo_le s t : the_cache t = the_cache s -> memo_le s t.
Proof. intros H. unfold memo_le. by rewrite H. Qed.

Lemma bind_run {S A B} (c : M S A) (k : A -> M S B) s a s1 r :
  c s = (Ok a, s1) -> k a s1 = r -> bind c k s = r.
Proof. intros H1 H2. unfold bind. by rewrite H1. Qed.

Lemma read_terminal_run t s tm :
  terminals (store s) !! t = Some tm -> read_terminal t s = (Ok tm, s).
Proof. intros H. unfold read_terminal, bind, gets, from_option. by rewrite H. Qed.

Lemma read_position_run r s p :
  positions (store s) !! r = Some p -> read_position r s = (Ok p, s).
Proof. intros H. unfold read_position, bind, gets, from_option. by rewrite H. Qed.

Lemma size_zero_empty (X : gset TagId) : size X = 0 -> X = ∅.
Proof. intros H. apply leibniz_equiv. by apply size_empty_inv. Qed.

Lemma size_ltb_false (X : gset TagId) : (0 <? size X) = false -> X = ∅.
Proof. intros H%Nat.ltb_ge. apply size_zero_empty. lia. Qed.

(** *** The refinement loops *)

Section Relexing.

Variable tag_class : TagId -> IgneaTerminalTag.

Lemma gather_rest (table : _IgneaLexerCache -> gmap TagId (gset TagId))
      (upd : gset TagId -> _IgneaLexerStore -> _IgneaLexerStore) l s u s' :
  (forall p st, current_position (upd p st) = current_position st /\
                current_states (upd p st) = current_states st /\
                next_states (upd p st) = next_states st /\
                offside (upd p st) = offside st) ->
  for_each l (fun terminal_tag =>
    let* c := gets the_cache in
    let* p := from_option KeyError (table c !! terminal_tag) in
    upd_store (upd p)) s = (Ok u, s') ->
  rest s' = rest s.
Proof.
  intros Hupd H.
  apply (gather_Ok (fun s1 => rest s1 = rest s) table upd l s u s'); [done| |done].
  intros s1 k p <- _. unfold rest. cbn.
  destruct (Hupd p (_store (lexer s1))) as (-> & -> & -> & ->). done.
Qed.

Lemma positives_loop_rest fuel P s R s' :
  positives_loop fuel P s = (Ok R, s') ->
  rest s' = rest s /\ next_terminal_tags (the_store s') = ∅.
Proof.
  revert P s. induction fuel as [|fuel IH]; intros P s H;
    cbn [positives_loop] in H; [by minv|].
  mbind H as cur s1 H1 H. mclean. mbind H as u1 s2 H2 H.
  mbind H as u2 s3 H3 H. mclean. mbind H as nxt s4 H4 H. mclean.
  apply gather_rest in H2; [|by intros].
  destruct (decide _) as [Hz|Hz].
  - mclean. split; [by rewrite <- H2|]. by apply size_zero_empty.
  - mbind H as u3 s5 H5 H. mclean. apply IH in H as [Hr He].
    split; [|done]. by rewrite Hr, <- H2.
Qed.

Lemma negatives_loop_rest fuel s u s' :
  negatives_loop fuel s = (Ok u, s') ->
  rest s' = rest s /\ next_terminal_tags (the_store s') = ∅.
Proof.
  revert s. induction fuel as [|fuel IH]; intros s H;
    cbn [negatives_loop] in H; [by minv|].
  mbind H as cur s1 H1 H. mclean. mbind H as u1 s2 H2 H.
  mbind H as u2 s3 H3 H. mclean. mbind H as nxt s4 H4 H. mclean.
  apply gather_rest in H2; [|by intros].
  destruct (decide _) as [Hz|Hz].
  - mclean. split; [by rewrite <- H2|]. by apply size_zero_empty.
  - mbind H as u3 s5 H5 H. mbind H as u4 s6 H6 H. mclean. apply IH in H as [Hr He].
    split; [|done]. by rewrite Hr, <- H2.
Qed.

Lemma _process_positives_negatives_rest fuel P s R s' :
  _process_positives_negatives fuel P s = (Ok R, s') ->
  rest s' = rest s /\ next_terminal_tags (the_store s') = ∅.
Proof.
  unfold _process_positives_negatives. intros H.
  mbind H as u0 s0 H0 H. mclean.
  mbind H as P' s1 H1 H. apply positives_loop_rest in H1 as [Hr1 _].
  mbind H as u2 s2 H2 H. mclean.
  mbind H as u3 s3 H3 H. apply gather_rest in H3; [|by intros].
  mbind H as u4 s4 H4 H. mclean.
  mbind H as u5 s5 H5 H. apply negatives_loop_rest in H5 as [Hr5 He].
  minv. split; [|done]. etrans; [exact Hr5|]. etrans; [exact H3|]. exact Hr1.
Qed.

Lemma rest_cache s s' : rest s' = rest s -> the_cache s' = the_cache s.
Proof. unfold rest. cbn. congruence. Qed.

Lemma rest_agree s s' :
  rest s' = rest s ->
  next_terminal_tags (the_store s') = next_terminal_tags (the_store s) ->
  agree s s'.
Proof. unfold rest. cbn. intros H Ht. split; cbn; congruence. Qed.

Lemma rest_store s s' :
  rest s' = rest s ->
  store s' = store s /\ _start (lexer s') = _start (lexer s) /\
  lexer_start_position (lexer s') = lexer_start_position (lexer s).
Proof. unfold rest. cbn. intros H. repeat split; congruence. Qed.

(** The two ways [refine_accepted] returns: on a memoized set, with no
    change of state; or with its result memoized. *)
Lemma refine_accepted_cases fuel K s a s' :
  refine_accepted fuel K s = (Ok a, s') ->
  (accepted_terminal_tags (the_cache s) !! K = Some a /\ s' = s) \/
  (accepted_terminal_tags (the_cache s) !! K = None /\
   exists s1, rest s1 = rest s /\ next_terminal_tags (the_store s1) = ∅ /\
     s' = with_lexer (with_cache (fun c =>
            set_accepted_terminal_tags (<[K := a]> (accepted_terminal_tags c)) c)) s1).
Proof.
  unfold refine_accepted. intros H. mbind H as c s0 H0 H. mclean.
  destruct (accepted_terminal_tags (the_cache s) !! K) as [a0|] eqn:E.
  - mclean. by left.
  - right. split; [done|]. mbind H as a1 s1 H1 H.
    apply _process_positives_negatives_rest in H1 as [Hr He].
    mbind H as c1 s2 H2 H. mclean. mbind H as u s3 H3 H. mclean.
    exists s1. done.
Qed.

Lemma refine_accepted_keeps fuel K s a s' :
  refine_accepted fuel K s = (Ok a, s') ->
  memo_le s s' /\ accepted_terminal_tags (the_cache s') !! K = Some a /\
  store s' = store s /\ _start (lexer s') = _start (lexer s) /\
  lexer_start_position (lexer s') = lexer_start_position (lexer s) /\
  (tidy s -> tidy s' /\ agree s s').
Proof.
  intros H. apply refine_accepted_cases in H as [[Hk ->]|(Hk & s1 & Hr & He & ->)].
  - split; [apply memo_le_refl|]. do 4 (split; [done|]).
    intros Ht. split; [done|apply agree_refl].
  - assert (Hc := rest_cache _ _ Hr). destruct (rest_store _ _ Hr) as (Hst & Hs & Hp).
    cbn in Hc. split; [|split; [|split; [|split; [|split]]]]; try done.
    + split; cbn; rewrite Hc; [done|]. by apply insert_subseteq.
    + cbn. by rewrite lookup_insert_eq.
    + intros [Ht Hn].
      assert (Ha : agree s s1) by (apply rest_agree; [done|]; by rewrite He, Ht).
      split.
      * split; cbn; [done|]. rewrite <- Hn. apply (ag_next _ _ Ha).
      * destruct Ha. by split.
Qed.

Lemma refine_accepted_hit fuel K t a :
  accepted_terminal_tags (the_cache t) !! K = Some a ->
  refine_accepted fuel K t = (Ok a, t).
Proof. intros H. unfold refine_accepted, bind, gets. by rewrite H. Qed.

(** *** The off-side automaton *)

Lemma set_offside_state_id s : set_offside_state (_state (the_offside s)) s = s.
Proof. by destruct s as [h [f i c sp st ca [cp cs pp np ns nt [tt stk q]]]]. Qed.

Lemma run_offside_shape si idx b s r s' :
  run_offside si idx b s = (Ok r, s') ->
  (exists q, s' = set_offside_state q s) /\
  forall b' t, input (lexer t) = input (lexer s) ->
    exists r' q, run_offside si idx b' t = (Ok r', set_offside_state q t).
Proof.
  revert b s. induction idx as [|i idx IH]; intros b s H; cbn [run_offside] in H.
  - mclean. split; [eexists; symmetry; apply set_offside_state_id|].
    intros b' t _. exists b', (_state (the_offside t)).
    by rewrite set_offside_state_id.
  - mbind H as inp s0 H0 H. mclean. mbind H as char s1 H1 H. mclean.
    mbind H as a s2 H2 H. unfold _IgneaOffside_nfa in H2.
    mbind H2 as o s3 H3 H2. mclean.
    destruct (offside_nfa (_state (the_offside s)) char) as [acc nxt] eqn:E.
    mbind H2 as u s4 H4 H2. mclean.
    apply IH in H as [(q & ->) Hagain]. split; [by exists q|].
    intros b' t Hin.
    destruct (offside_nfa (_state (the_offside t)) char) as [acc' nxt'] eqn:E'.
    edestruct (Hagain (if acc' then b' || Nat.eqb i si else b')
                      (set_offside_state nxt' t)) as (r' & q' & Hr'); [exact Hin|].
    exists r', q'. cbn [run_offside].
    unfold bind at 1. unfold gets at 1. cbv beta iota.
    unfold bind at 1. rewrite Hin. match goal with H : input _ !! i = Some _ |- _ => rewrite H end.
    cbn [from_option ret]. cbv beta iota.
    unfold bind at 1. unfold _IgneaOffside_nfa. unfold bind at 1. unfold gets at 1.
    cbv beta iota. rewrite E'. unfold bind at 1. unfold upd_offside, upd_store, modify.
    cbv beta iota. unfold ret at 1. cbv beta iota. exact Hr'.
Qed.

(** *** The automata of the tags *)

Lemma for_each_memo {A} (l : list A) (body : A -> M LexState unit) :
  (forall a s u s1, body a s = (Ok u, s1) -> memo_le s s1) ->
  forall s u s1, for_each l body s = (Ok u, s1) -> memo_le s s1.
Proof.
  intros Hb s u s1 H.
  apply (for_each_inv (memo_le s) l body) with (s := s) (u := u); [|apply memo_le_refl|done].
  intros a s0 u0 s0' _ Hle H0. eapply memo_le_trans; [exact Hle|]. by eapply Hb.
Qed.

Lemma for_each_again {A} (l : list A) (body : A -> M LexState unit) :
  (forall a s u s1, body a s = (Ok u, s1) -> memo_le s s1) ->
  (forall a s u s1 t, body a s = (Ok u, s1) -> agree s t -> memo_le s1 t ->
     exists t1, body a t = (Ok tt, t1) /\ agree s1 t1 /\ the_cache t1 = the_cache t) ->
  forall s u s1 t, for_each l body s = (Ok u, s1) -> agree s t -> memo_le s1 t ->
     exists t1, for_each l body t = (Ok tt, t1) /\ agree s1 t1 /\ the_cache t1 = the_cache t.
Proof.
  intros Hm Hb. induction l as [|a l IH]; intros s u s1 t H Ha Hle; cbn [for_each] in *.
  - mclean. exists t. done.
  - mbind H as u0 s0 H0 H.
    assert (Hle0 : memo_le s0 t).
    { eapply memo_le_trans; [|exact Hle]. by eapply for_each_memo. }
    destruct (Hb _ _ _ _ _ H0 Ha Hle0) as (t0 & Ht0 & Ha0 & Hc0).
    destruct (IH _ _ _ t0 H Ha0) as (t1 & Ht1 & Ha1 & Hc1).
    { eapply memo_le_cache; [exact Hle|done]. }
    exists t1. split; [|split; [done|congruence]].
    eapply bind_run; [exact Ht0|exact Ht1].
Qed.

(** One automaton, one character: the result is in the memo afterwards. *)
Lemma nfa_step_cases (g : TagId) (q : IgneaLexingState) (char : ascii) s r s0 :
  match nfas (the_cache s) !! (g, q, char) with
  | None =>
      let r := nfa (tag_class g) q char in
      upd_cache (fun c => set_nfas (<[(g, q, char) := r]> (nfas c)) c) ;;
      ret r
  | Some r => ret r
  end s = (Ok r, s0) ->
  nfas (the_cache s0) !! (g, q, char) = Some r /\
  memo_le s s0 /\ the_store s0 = the_store s /\ input (lexer s0) = input (lexer s) /\
  states_start (the_cache s0) = states_start (the_cache s) /\
  terminal_tags_ignore (the_cache s0) = terminal_tags_ignore (the_cache s).
Proof.
  intros H. destruct (nfas (the_cache s) !! (g, q, char)) as [v|] eqn:E.
  - mclean. split; [done|]. split; [apply memo_le_refl|done].
  - mbind H as u s2 H2 H. mclean. cbn. split; [by rewrite lookup_insert_eq|].
    split; [|done]. split; cbn; [|done]. by apply insert_subseteq.
Qed.

Lemma _process_nfas_memo char s u s1 :
  _process_nfas tag_class char s = (Ok u, s1) -> memo_le s s1.
Proof.
  unfold _process_nfas. intros H. mbind H as items s0 H0 H. mclean.
  eapply for_each_memo; [|exact H].
  intros [g q] sa ua sb Hb. cbn [fst snd] in Hb.
  mbind Hb as memo sm Hm Hb. mclean.
  mbind Hb as r s2 H2 Hb. apply nfa_step_cases in H2 as (_ & Hle & _).
  eapply memo_le_trans; [exact Hle|]. apply cache_memo_le.
  mbind Hb as u3 s3 H3 Hb.
  destruct (fst r), (negb (N.eqb (snd r) 0)); minv; reflexivity.
Qed.

Lemma _process_nfas_again char s u s1 t :
  _process_nfas tag_class char s = (Ok u, s1) -> agree s t -> memo_le s1 t ->
  exists t1, _process_nfas tag_class char t = (Ok tt, t1) /\ agree s1 t1 /\
             the_cache t1 = the_cache t.
Proof.
  unfold _process_nfas. intros H Ha Hle. mbind H as items s0 H0 H. mclean.
  unfold bind at 1. unfold gets at 1. cbv beta iota.
  replace (current_states (the_store t)) with (current_states (the_store s))
    by (symmetry; apply (ag_current _ _ Ha)).
  eapply for_each_again; [| |exact H|exact Ha|exact Hle].
  - clear. intros [g q] sa ua sb Hb. cbn [fst snd] in Hb.
    mbind Hb as memo sm Hm Hb. mclean.
    mbind Hb as r s2 H2 Hb. apply nfa_step_cases in H2 as (_ & Hle & _).
    eapply memo_le_trans; [exact Hle|]. apply cache_memo_le.
    mbind Hb as u3 s3 H3 Hb.
    destruct (fst r), (negb (N.eqb (snd r) 0)); minv; reflexivity.
  - clear. intros [g q] sa ua sb ta Hb Ha Hle. cbn [fst snd] in Hb |- *.
    mbind Hb as memo sm Hm Hb. mclean. mbind Hb as r s2 H2 Hb.
    apply nfa_step_cases in H2 as (Hr & _ & Hst & Hin & Hss & Hig).
    mbind Hb as u3 s3 H3 Hb.
    assert (Hhit : nfas (the_cache ta) !! (g, q, char) = Some r).
    { eapply lookup_weaken; [|exact (proj1 Hle)].
      destruct (fst r), (negb (N.eqb (snd r) 0)); minv; exact Hr. }
    unfold bind at 1. unfold bind at 1. unfold gets at 1. cbv beta iota.
    rewrite Hhit. unfold ret at 1. cbv beta iota.
    destruct Ha as [A1 A2 A3 A4 A5 A6 A7 A8 A9]. cbn in *.
    destruct (fst r), (negb (N.eqb (snd r) 0)); minv;
      (eexists; split; [reflexivity|]); (split; [|reflexivity]);
      split; cbn; congruence.
Qed.

(** *** Scanning *)

Lemma set_offside_state_quiet q s : quiet (set_offside_state q s) = quiet s.
Proof. reflexivity. Qed.

Lemma scan_keeps fuel l s l' s' :
  scan tag_class fuel l s = (Ok l', s') ->
  quiet s' = quiet s /\ memo_le s s' /\ (tidy s -> tidy s').
Proof.
  revert l s. induction fuel as [|fuel IH]; intros l s H;
    rewrite scan_unfold in H;
    mbind H as st sA HA H; mclean; mbind H as inp sB HB H; mclean;
    (destruct (negb _) eqn:E; [mclean; split; [done|split; [apply memo_le_refl|done]]|]);
    [by mclean|].
  mbind H as char sC HC H. mclean. mbind H as u1 s1 H1 H.
  assert (Hm1 := _process_nfas_memo _ _ _ _ H1).
  apply _process_nfas_Ok in H1 as [Hc1 _].
  assert (Hq1 : quiet s1 = quiet s) by (unfold calm in Hc1; congruence).
  mbind H as u2 s2 H2 H. mclean. mbind H as st2 s3 H3 H. mclean.
  match type of H with bind _ _ ?sx = _ => set (s2 := sx) in * end.
  mbind H as l1 s4 H4 H.
  assert (Hstep : quiet s4 = quiet s2 /\ the_cache s4 = the_cache s2 /\
                  next_terminal_tags (the_store s4) = ∅).
  { destruct (0 <? size _) eqn:Esz.
    - cbv zeta in H4. mbind H4 as u3 s3 H3 H4. mclean. mbind H4 as b s5 H5 H4. mclean.
      apply run_offside_shape in H5 as [(q & ->) _]. done.
    - mclean. split; [done|]. split; [done|]. by apply size_ltb_false. }
  destruct Hstep as (Hq4 & Hc4 & Ht4).
  mbind H as u5 s5 H5 H. mclean. mbind H as st3 s6 H6 H. mclean.
  mbind H as c s7 H7 H. mclean. mbind H as u8 s8 H8 H. mclean.
  apply IH in H as (Hq' & Hm' & Ht').
  split; [|split].
  - rewrite Hq'. etrans; [|exact Hq1]. etrans; [|exact Hq4]. reflexivity.
  - eapply memo_le_trans; [exact Hm1|]. eapply memo_le_trans; [|exact Hm'].
    apply cache_memo_le. cbn. cbn in Hc4. by rewrite Hc4.
  - intros _. apply Ht'. split; cbn; [exact Ht4|done].
Qed.

(** The locals of [_get_terminal], but for [is_offside]. *)
Definition loc_eq (l m : Locals) : Prop :=
  l_start_position m = l_start_position l /\
  l_accepted_position m = l_accepted_position l /\
  l_accepted_terminal_tags m = l_accepted_terminal_tags l /\
  l_last_terminal_tags m = l_last_terminal_tags l.

Lemma accept_again (st1 st2 : _IgneaLexerStore) l s l1 s4 m t :
  (if 0 <? size (next_terminal_tags st1) then
     let accepted_terminal_tags := next_terminal_tags st1 in
     upd_store (set_next_terminal_tags ∅) ;;
     let* is_offside :=
       run_offside (index_ (l_start_position l))
                   (seq (index_ (l_accepted_position l))
                        (index_ (current_position st1) - index_ (l_accepted_position l)))
                   (l_is_offside l) in
     ret (mkLocals (l_start_position l) (current_position st1) accepted_terminal_tags
                   is_offside (l_last_terminal_tags l))
   else ret l) s = (Ok l1, s4) ->
  next_terminal_tags st2 = next_terminal_tags st1 ->
  current_position st2 = current_position st1 ->
  next_terminal_tags (the_store s) = next_terminal_tags st1 ->
  agree s t -> loc_eq l m ->
  exists m1 t4,
    (if 0 <? size (next_terminal_tags st2) then
       let accepted_terminal_tags := next_terminal_tags st2 in
       upd_store (set_next_terminal_tags ∅) ;;
       let* is_offside :=
         run_offside (index_ (l_start_position m))
                     (seq (index_ (l_accepted_position m))
                          (index_ (current_position st2) - index_ (l_accepted_position m)))
                     (l_is_offside m) in
       ret (mkLocals (l_start_position m) (current_position st2) accepted_terminal_tags
                     is_offside (l_last_terminal_tags m))
     else ret m) t = (Ok m1, t4) /\
    agree s4 t4 /\ the_cache t4 = the_cache t /\ loc_eq l1 m1 /\
    next_terminal_tags (the_store t4) = ∅.
Proof.
  intros H Ht Hp Hs Ha (L1 & L2 & L3 & L4). rewrite Ht, Hp, L1, L2.
  destruct (0 <? size _) eqn:Esz.
  - cbv zeta in H |- *. mbind H as u3 s3 H3 H. mclean. mbind H as b s5 H5 H. mclean.
    apply run_offside_shape in H5 as [(q & ->) Hagain].
    edestruct (Hagain (l_is_offside m)
                 (with_lexer (with_lexer_store (set_next_terminal_tags ∅)) t))
      as (r' & q' & Hr'); [cbn; apply (ag_input _ _ Ha)|].
    eexists _, _. split.
    { eapply bind_run; [reflexivity|]. eapply bind_run; [exact Hr'|]. reflexivity. }
    split; [|split; [done|split; [by repeat split|done]]].
    destruct Ha. by split.
  - mclean. exists m, t. split; [done|]. split; [done|]. split; [done|].
    split; [by repeat split|]. rewrite (ag_tags _ _ Ha), Hs. by apply size_ltb_false.
Qed.

Lemma scan_again fuel :
  forall l s l1 s1 fuel' m t,
    scan tag_class fuel l s = (Ok l1, s1) ->
    agree s t -> memo_le s1 t -> fuel <= fuel' -> loc_eq l m ->
    exists m1 t1, scan tag_class fuel' m t = (Ok m1, t1) /\ agree s1 t1 /\
                  the_cache t1 = the_cache t /\ loc_eq l1 m1.
Proof.
  induction fuel as [|fuel IH]; intros l s l1 s1 fuel' m t H Ha Hle Hf Hl;
    rewrite scan_unfold in H;
    mbind H as st sA HA H; mclean; mbind H as inp sB HB H; mclean.
  all: rewrite scan_unfold; unfold bind at 1; unfold gets at 1; cbv beta iota;
       unfold bind at 1; unfold gets at 1; cbv beta iota.
  all: rewrite (ag_current _ _ Ha), (ag_position _ _ Ha), (ag_input _ _ Ha).
  all: destruct (negb _) eqn:E.
  1,3: mclean; exists m, t; done.
  1: by mclean.
  destruct fuel' as [|fuel']; [lia|].
  mbind H as char sC HC H. mclean. mbind H as u1 s1' H1 H.
  mbind H as u2 s2 H2 H. mclean. mbind H as st2 s3 H3 H. mclean.
  match type of H with bind _ _ ?sx = _ => set (s2 := sx) in * end.
  mbind H as l2 s4 H4 H.
  mbind H as u5 s5 H5 H. mclean. mbind H as st3 s6 H6 H. mclean.
  mbind H as c s7 H7 H. mclean. mbind H as u8 s8 H8 H. mclean.
  match type of H with scan _ _ _ ?sx = _ => set (s8 := sx) in * end.
  destruct (scan_keeps _ _ _ _ _ H) as (_ & Hm8 & _).
  assert (Hc4 : the_cache s4 = the_cache s1').
  { destruct (0 <? size _).
    - cbv zeta in H4. mbind H4 as u3 s3 H3 H4. mclean. mbind H4 as b s9 H9 H4. mclean.
      by apply run_offside_shape in H9 as [(q & ->) _].
    - by mclean. }
  assert (Hle1 : memo_le s1' t).
  { eapply memo_le_trans; [|exact Hle]. eapply memo_le_trans; [|exact Hm8].
    apply cache_memo_le. subst s8. cbn. cbn in Hc4. by rewrite Hc4. }
  destruct (_process_nfas_again _ _ _ _ _ H1 Ha Hle1) as (tA & HtA & HaA & HcA).
  set (t2 := with_lexer (with_lexer_store (fun st =>
               set_current_position (advance char (current_position st)) st)) tA).
  assert (Ha2 : agree s2 t2) by (destruct HaA; subst s2 t2; split; cbn in *; congruence).
  destruct (accept_again (the_store s2) (the_store t2) _ _ _ _ m t2 H4)
    as (m2 & t4 & Ht4 & Ha4 & Hc4' & Hl4 & He4);
    [apply (ag_tags _ _ Ha2)|apply (ag_position _ _ Ha2)|done|done|done|].
  set (t7 := with_lexer (with_lexer_store (fun st0 =>
                  set_next_states (current_states st0)
                    (set_current_states (next_states st0) st0))) t4).
  set (t8 := with_lexer (with_lexer_store (set_next_states [])) t7).
  set (m8 := if (length (current_states (the_store t7)) =? 0)
                && (length (next_states (the_store t7)) <? length (states_start (the_cache t7)))
             then mkLocals (l_start_position m2) (l_accepted_position m2)
                           (l_accepted_terminal_tags m2) (l_is_offside m2)
                           (fst <$> next_states (the_store t7))
             else m2).
  assert (Ha8 : agree s8 t8) by (destruct Ha4; subst s8 t8 t7; split; cbn in *; congruence).
  edestruct (IH _ _ _ _ fuel' m8 t8 H Ha8) as (m1 & t1 & Ht1 & Ha1 & Hc1 & Hl1).
  { eapply memo_le_cache; [exact Hle|]. subst t8 t7 t2. cbn. cbn in Hc4', HcA. congruence. }
  { lia. }
  { destruct Hl4 as (L1 & L2 & L3 & L4). subst m8 t7. clear -L1 L2 L3 L4 Ha4.
    destruct Ha4 as [A1 A2 A3 A4 A5 A6 A7 A8 A9]. cbn in A2, A5, A6 |- *.
    rewrite A2, A5, A6. destruct (_ && _); repeat split; cbn; congruence. }
  exists m1, t1. split; [|split; [done|split; [|done]]].
  - eapply bind_run; [rewrite H0; reflexivity|]. cbv beta.
    eapply bind_run; [exact HtA|]. cbv beta.
    eapply bind_run; [reflexivity|]. cbv beta.
    eapply bind_run; [reflexivity|]. cbv beta.
    eapply bind_run; [exact Ht4|]. cbv beta.
    eapply bind_run; [reflexivity|]. cbv beta.
    eapply bind_run; [reflexivity|]. cbv beta.
    eapply bind_run; [reflexivity|]. cbv beta.
    eapply bind_run; [reflexivity|]. cbv beta.
    exact Ht1.
  - rewrite Hc1. subst t8 t7 t2. cbn. cbn in Hc4', HcA. congruence.
Qed.

(** *** The end of the input *)

Lemma drain_some n sp cur s r s' :
  drain n sp cur s = (Ok r, s') ->
  (n = 0 /\ r = cur /\ s' = s) \/ exists x, r = Some x.
Proof.
  revert cur s. induction n as [|n IH]; intros cur s H; cbn [drain] in H.
  - mclean. by left.
  - right. mbind H as t s1 H1 H. mbind H as u s2 H2 H.
    apply IH in H as [(_ & -> & _)|?]; eauto.
Qed.

Lemma dedent_while_some stack sp c s r s' :
  dedent_while stack sp (Some c) s = (Ok r, s') -> exists x, r = Some x.
Proof.
  revert c s. induction stack as [|top stack IH]; intros c s H; cbn [dedent_while] in H.
  - by mclean.
  - destruct (column sp <? top).
    + mbind H as t s1 H1 H. mbind H as u s2 H2 H. by eapply IH.
    + mclean. eauto.
Qed.

Lemma prepend_some sp c s r s' :
  prepend_offside_terminals sp (Some c) s = (Ok r, s') -> exists x, r = Some x.
Proof.
  unfold prepend_offside_terminals. intros H. mbind H as o s0 H0 H. mclean.
  destruct (terminal_tags _); [|mclean; eauto].
  mbind H as top s1 H1 H. mclean.
  destruct (column sp <? top).
  - mbind H as r1 s2 H2 H. apply dedent_while_some in H2 as (x & ->).
    mbind H as o2 s3 H3 H. mclean. mbind H as top2 s4 H4 H. mclean.
    destruct (top2 <? column sp); mclean; eauto.
  - destruct (top <? column sp).
    + mbind H as t s2 H2 H. mbind H as u s3 H3 H. mclean. eauto.
    + mclean. eauto.
Qed.

Lemma emit_terminal_some l a s r s' :
  emit_terminal l a s = (Ok r, s') -> exists x, r = Some x.
Proof.
  unfold emit_terminal. intros H.
  mbind H as inp s0 H0 H. mclean. mbind H as sp s1 H1 H. mclean.
  mbind H as ap s2 H2 H. mclean. mbind H as t s3 H3 H. mclean.
  destruct (l_is_offside l); [by eapply prepend_some|mclean; eauto].
Qed.

(** At the end of the input [prepend_offside_terminals] returns [None]
    only when no indentation level is open, and then it changes nothing. *)
Lemma prepend_none sp s s1 :
  prepend_offside_terminals sp None s = (Ok None, s1) ->
  s1 = s /\
  forall sp' t,
    terminal_tags (the_offside t) = terminal_tags (the_offside s) ->
    _stack (the_offside t) = _stack (the_offside s) ->
    prepend_offside_terminals sp' None t = (Ok None, t).
Proof.
  unfold prepend_offside_terminals. intros H. mbind H as o s0 H0 H. mclean.
  destruct (terminal_tags (the_offside s)) as [p|] eqn:Ett.
  - apply drain_some in H as [(Hn & _ & ->)|(x & [=])]. split; [done|].
    intros sp' t Ht Hs. unfold bind, gets. rewrite Ht, Hs, Hn. reflexivity.
  - mclean. split; [done|]. intros sp' t Ht Hs. unfold bind, gets. by rewrite Ht.
Qed.

(** *** The loop of [_get_terminal], when it ends on [None] *)

Lemma get_terminal_loop_none fuel :
  forall l s s1,
    get_terminal_loop tag_class fuel l s = (Ok None, s1) -> tidy s ->
    quiet s1 = quiet s /\ memo_le s s1 /\ tidy s1 /\
    forall fuel' m t,
      agree s t -> memo_le s1 t -> fuel <= fuel' -> loc_eq l m ->
      exists t1, get_terminal_loop tag_class fuel' m t = (Ok None, t1).
Proof.
  induction fuel as [|fuel IH]; intros l s s1 H Ht;
    cbn [get_terminal_loop] in H; [by mclean|].
  mbind H as l1 sA HA H.
  destruct (scan_keeps _ _ _ _ _ HA) as (HqA & HmA & HtA). specialize (HtA Ht).
  destruct (size _ =? 0) eqn:Esz; [by mclean|].
  mbind H as a sB HB H.
  destruct (refine_accepted_keeps _ _ _ _ _ HB) as (HmB & HhitB & HstB & HsB & HpB & HkB).
  destruct (HkB HtA) as [HtB HaB].
  assert (HqB : quiet sB = quiet sA).
  { destruct HaB. unfold quiet, statics. cbn in *.
    apply refine_accepted_cases in HB as [[_ ->]|(_ & s2 & Hr & _ & ->)]; [done|].
    unfold rest in Hr. cbn in *. congruence. }
  destruct (0 <? size a) eqn:Ea; [by apply emit_terminal_some in H as (x & [=])|].
  mbind H as st s3 H3 H. mclean. mbind H as inp s4 H4 H. mclean.
  destruct (_ =? length _) eqn:Eend.
  - apply prepend_none in H as [-> Hagain].
    split; [congruence|]. split; [by eapply memo_le_trans|]. split; [done|].
    intros fuel' m t Ha Hle Hf Hl. destruct fuel' as [|fuel']; [lia|].
    destruct (scan_again fuel l s l1 sA fuel' m t HA Ha) as (m1 & tA & HrA & HaA & HcA & HlA);
      [by eapply memo_le_trans|lia|done|].
    assert (Ha' : agree sB tA) by (eapply agree_trans; [apply agree_sym; exact HaB|exact HaA]).
    destruct HlA as (L1 & L2 & L3 & L4).
    exists tA. cbn [get_terminal_loop].
    eapply bind_run; [exact HrA|]. cbv beta. rewrite L3, Esz.
    eapply bind_run.
    { apply refine_accepted_hit. eapply lookup_weaken; [exact HhitB|].
      rewrite HcA. exact (proj2 Hle). }
    cbv beta. rewrite Ea.
    eapply bind_run; [reflexivity|]. cbv beta.
    eapply bind_run; [reflexivity|]. cbv beta.
    rewrite (ag_position _ _ Ha'), (ag_input _ _ Ha'), Eend.
    apply Hagain; [apply (ag_driver _ _ Ha')|apply (ag_stack _ _ Ha')].
  - mbind H as u5 s5 H5 H. mclean. mbind H as u6 s6 H6 H.
    destruct (length _ =? 0) eqn:Ecur; [|by mclean]. mclean.
    mbind H as c s7 H7 H. mclean. mbind H as u8 s8 H8 H. mclean.
    match type of H with get_terminal_loop _ _ _ ?sx = _ => set (s8 := sx) in * end.
    assert (Ht8 : tidy s8) by (destruct HtB; by split).
    destruct (IH _ _ _ H Ht8) as (Hq8 & Hm8 & Ht1 & Hagain).
    split; [rewrite Hq8; etrans; [|exact HqA]; etrans; [|exact HqB]; reflexivity|].
    split.
    { eapply memo_le_trans; [exact HmA|]. eapply memo_le_trans; [exact HmB|exact Hm8]. }
    split; [done|].
    intros fuel' m t Ha Hle Hf Hl. destruct fuel' as [|fuel']; [lia|].
    assert (HleB : memo_le sB t) by (eapply memo_le_trans; [exact Hm8|exact Hle]).
    destruct (scan_again fuel l s l1 sA fuel' m t HA Ha) as (m1 & tA & HrA & HaA & HcA & HlA);
      [by eapply memo_le_trans|lia|done|].
    assert (Ha' : agree sB tA) by (eapply agree_trans; [apply agree_sym; exact HaB|exact HaA]).
    destruct HlA as (L1 & L2 & L3 & L4).
    set (t8 := with_lexer (with_lexer_store (fun st =>
                 set_current_states (alist_update (current_states (the_store tA))
                                       (states_start (the_cache tA))) st))
                 (with_lexer (with_lexer_store (set_current_position (l_accepted_position m1)))
                    tA)).
    edestruct (Hagain fuel' (mkLocals (l_accepted_position m1) (l_accepted_position m1)
                               a false []) t8) as (t1 & Hr1).
    { destruct Ha' as [A1 A2 A3 A4 A5 A6 A7 A8 A9]. subst s8 t8. split; cbn in *; congruence. }
    { eapply memo_le_cache; [exact Hle|]. subst t8. cbn. cbn in HcA. exact HcA. }
    { lia. }
    { repeat split; cbn; congruence. }
    exists t1. cbn [get_terminal_loop].
    eapply bind_run; [exact HrA|]. cbv beta. rewrite L3, Esz.
    eapply bind_run.
    { apply refine_accepted_hit. eapply lookup_weaken; [exact HhitB|].
      rewrite HcA. exact (proj2 HleB). }
    cbv beta. rewrite Ea.
    eapply bind_run; [reflexivity|]. cbv beta.
    eapply bind_run; [reflexivity|]. cbv beta.
    rewrite (ag_position _ _ Ha'), (ag_input _ _ Ha'), Eend.
    eapply bind_run; [reflexivity|]. cbv beta.
    rewrite (ag_current _ _ Ha'), Ecur.
    eapply bind_run; [reflexivity|]. cbv beta.
    eapply bind_run; [reflexivity|]. cbv beta.
    eapply bind_run; [reflexivity|]. cbv beta.
    exact Hr1.
Qed.

Lemma _get_terminal_none fuel p s s1 :
  _get_terminal tag_class fuel p s = (Ok None, s1) -> tidy s ->
  quiet s1 = quiet s /\ tidy s1 /\
  forall fuel', fuel <= fuel' ->
    exists s2, _get_terminal tag_class fuel' p s1 = (Ok None, s2).
Proof.
  unfold _get_terminal. intros H Ht.
  mbind H as sp s0 H0 H. apply read_position_Ok in H0 as [-> Hp].
  mbind H as inp s2 H2 H. mclean.
  destruct (_ =? length _) eqn:Eend.
  - apply prepend_none in H as [-> Hagain]. split; [done|]. split; [done|].
    intros fuel' _. exists s. eapply bind_run; [by apply read_position_run|]. cbv beta.
    eapply bind_run; [reflexivity|]. cbv beta. rewrite Eend. by apply Hagain.
  - mbind H as c s3 H3 H. mclean. mbind H as u4 s4 H4 H. mclean.
    match type of H with get_terminal_loop _ _ _ ?sx = _ => set (s4 := sx) in * end.
    assert (Ht4 : tidy s4) by (destruct Ht; by split).
    destruct (get_terminal_loop_none _ _ _ _ H Ht4) as (Hq & Hm & Ht1 & Hagain).
    assert (Hq1 : quiet s1 = quiet s) by (rewrite Hq; reflexivity).
    split; [done|]. split; [done|].
    intros fuel' Hf.
    set (t4 := with_lexer (with_lexer_store (fun st =>
                 set_current_states (alist_update [] (states_start (the_cache s1)))
                   (set_current_position sp st))) s1).
    edestruct (Hagain fuel' (mkLocals sp sp ∅ false []) t4) as (t1 & Hr1).
    { destruct Ht as [Ha Hb], Ht1 as [Hc Hd]. unfold quiet, statics in Hq1.
      subst s4 t4. split; cbn in *; congruence. }
    { by apply cache_memo_le. }
    { done. }
    { by repeat split. }
    exists t1. eapply bind_run.
    { apply read_position_run. unfold quiet in Hq1.
      replace (store s1) with (store s) by congruence. exact Hp. }
    cbv beta. eapply bind_run; [reflexivity|]. cbv beta.
    replace (input (lexer s1)) with (input (lexer s))
      by (unfold quiet, statics in Hq1; congruence).
    rewrite Eend.
    eapply bind_run; [reflexivity|]. cbv beta.
    eapply bind_run; [reflexivity|]. cbv beta. exact Hr1.
Qed.

Lemma set__start_id s : with_lexer (set__start (_start (lexer s))) s = s.
Proof. by destruct s as [h []]. Qed.

Lemma set_next_id tm : set_next (next tm) tm = tm.
Proof. by destruct tm. Qed.

(** A call of [next_terminal] that returns [None] leaves the state as
    [_get_terminal] left it, and calling again with as much fuel returns
    [None] again. *)
Lemma next_terminal_none fuel cur s s' :
  next_terminal tag_class fuel cur s = (Ok None, s') -> tidy s ->
  tidy s' /\
  forall fuel', fuel <= fuel' ->
    exists s'', next_terminal tag_class fuel' cur s' = (Ok None, s'').
Proof.
  intros H Ht. destruct cur as [c|]; cbn [next_terminal] in H |- *.
  - mbind H as tm s0 H0 H. apply read_terminal_Ok in H0 as [-> Hc].
    destruct (next tm) as [n|] eqn:En; [by mclean|].
    mbind H as r1 s1 H1 H.
    mbind H as tm' s2 H2 H. apply read_terminal_Ok in H2 as [-> Hc'].
    mbind H as u s3 H3 H. mclean.
    destruct (_get_terminal_none _ _ _ _ H1 Ht) as (Hq & Ht1 & Hagain).
    assert (Hst : store s1 = store s) by (unfold quiet in Hq; congruence).
    rewrite Hst, Hc in Hc'. injection Hc' as <-.
    assert (Hs3 : s3 = s1).
    { unfold write_terminal in H3. mbind H3 as x s4 H4 H3.
      apply read_terminal_Ok in H4 as [-> _]. mclean.
      assert (Hc1 : terminals (store s1) !! c = Some tm) by (by rewrite Hst).
      rewrite <- En, set_next_id. clear -Hc1. destruct s1 as [[P T] lx].
      cbn in Hc1 |- *. by rewrite list_insert_id. }
    subst s3. split; [done|]. intros fuel' Hf.
    destruct (Hagain fuel' Hf) as (s2 & Hr2).
    destruct (_get_terminal_none _ _ _ _ Hr2 Ht1) as (Hq2 & _ & _).
    assert (Hst2 : store s2 = store s) by (unfold quiet in Hq2; congruence).
    eexists. eapply bind_run; [apply read_terminal_run; by rewrite Hst|]. cbv beta.
    rewrite En.
    eapply bind_run; [exact Hr2|]. cbv beta.
    eapply bind_run; [apply read_terminal_run; by rewrite Hst2|]. cbv beta.
    eapply bind_run.
    { unfold write_terminal. eapply bind_run; [apply read_terminal_run; by rewrite Hst2|].
      reflexivity. }
    reflexivity.
  - mbind H as lx s0 H0 H. mclean.
    destruct (_start (lexer s)) as [t0|] eqn:Est; [by mclean|].
    mbind H as r1 s1 H1 H. mbind H as u s2 H2 H. mclean.
    destruct r1 as [t1|].
    { mbind H as tm s3 H3 H. mbind H as p s4 H4 H. mbind H as u5 s5 H5 H.
      mbind H as u6 s6 H6 H. by mclean. }
    mclean.
    destruct (_get_terminal_none _ _ _ _ H1 Ht) as (Hq & Ht1 & Hagain).
    assert (Hs : _start (lexer s1) = None) by (unfold quiet in Hq; congruence).
    assert (Hp : lexer_start_position (lexer s1) = lexer_start_position (lexer s))
      by (unfold quiet, statics in Hq; congruence).
    rewrite <- Hs, set__start_id.
    split; [done|]. intros fuel' Hf.
    destruct (Hagain fuel' Hf) as (s2 & Hr2).
    eexists. eapply bind_run; [reflexivity|]. cbv beta. rewrite Hs, Hp.
    eapply bind_run; [exact Hr2|]. cbv beta.
    eapply bind_run; [reflexivity|]. reflexivity.
Qed.

(** *** The transient sets are empty in every state of a lexer *)

Lemma prepend_tidy sp cur s r s' :
  prepend_offside_terminals sp cur s = (Ok r, s') -> tidy s -> tidy s'.
Proof.
  intros H Ht. destruct (terminal_tags (the_offside s)) as [[i d]|] eqn:Htt.
  - destruct (prepend_offside_terminals_Ok _ _ _ _ _ _ _ H Htt) as (g & k & stk' & Hl & _).
    unfold tidy, the_store. rewrite Hl. exact Ht.
  - by apply prepend_offside_terminals_None in H as [_ ->].
Qed.

Lemma emit_terminal_tidy l a s r s' :
  emit_terminal l a s = (Ok r, s') -> tidy s -> tidy s'.
Proof.
  unfold emit_terminal. intros H Ht.
  mbind H as inp s0 H0 H. mclean. mbind H as sp s1 H1 H. mclean.
  mbind H as ap s2 H2 H. mclean. mbind H as t s3 H3 H. mclean.
  destruct (l_is_offside l); [by eapply prepend_tidy; [exact H|]|by mclean].
Qed.

Lemma get_terminal_loop_tidy fuel :
  forall l s r s',
    get_terminal_loop tag_class fuel l s = (Ok r, s') -> tidy s -> tidy s'.
Proof.
  induction fuel as [|fuel IH]; intros l s r s' H Ht;
    cbn [get_terminal_loop] in H; [by mclean|].
  mbind H as l1 sA HA H.
  destruct (scan_keeps _ _ _ _ _ HA) as (_ & _ & HtA). specialize (HtA Ht).
  destruct (size _ =? 0); [by mclean|].
  mbind H as a sB HB H.
  destruct (refine_accepted_keeps _ _ _ _ _ HB) as (_ & _ & _ & _ & _ & HkB).
  destruct (HkB HtA) as [HtB _].
  destruct (0 <? size a); [by eapply emit_terminal_tidy|].
  mbind H as st s3 H3 H. mclean. mbind H as inp s4 H4 H. mclean.
  destruct (_ =? length _); [by eapply prepend_tidy|].
  mbind H as u5 s5 H5 H. mclean. mbind H as u6 s6 H6 H.
  destruct (length _ =? 0); [|by mclean]. mclean.
  mbind H as c s7 H7 H. mclean. mbind H as u8 s8 H8 H. mclean.
  eapply IH; [exact H|]. destruct HtB. by split.
Qed.

Lemma _get_terminal_tidy fuel p s r s' :
  _get_terminal tag_class fuel p s = (Ok r, s') -> tidy s -> tidy s'.
Proof.
  unfold _get_terminal. intros H Ht.
  mbind H as sp s0 H0 H. apply read_position_Ok in H0 as [-> Hp].
  mbind H as inp s2 H2 H. mclean.
  destruct (_ =? length _); [by eapply prepend_tidy|].
  mbind H as c s3 H3 H. mclean. mbind H as u4 s4 H4 H. mclean.
  eapply get_terminal_loop_tidy; [exact H|]. destruct Ht. by split.
Qed.

Lemma next_terminal_tidy fuel cur s r s' :
  next_terminal tag_class fuel cur s = (Ok r, s') -> tidy s -> tidy s'.
Proof.
  intros H Ht. destruct cur as [c|]; cbn [next_terminal] in H.
  - mbind H as tm s0 H0 H. apply read_terminal_Ok in H0 as [-> Hc].
    destruct (next tm) as [n|]; [by mclean|].
    mbind H as r1 s1 H1 H. apply _get_terminal_tidy in H1; [|done].
    mbind H as tm' s2 H2 H. apply read_terminal_Ok in H2 as [-> Hc'].
    mbind H as u s3 H3 H. apply write_terminal_Ok in H3 as ->. mclean. exact H1.
  - mbind H as lx s0 H0 H. mclean.
    destruct (_start (lexer s)) as [t0|]; [by mclean|].
    mbind H as r1 s1 H1 H. apply _get_terminal_tidy in H1; [|done].
    mbind H as u s2 H2 H. mclean.
    destruct r1 as [t1|]; [|mclean; exact H1].
    mbind H as tm s3 H3 H. apply read_terminal_Ok in H3 as [-> Ht1].
    mbind H as p s4 H4 H. apply read_position_Ok in H4 as [-> Hp].
    mbind H as u5 s5 H5 H. apply update_position_Ok in H5 as ->.
    mbind H as u6 s6 H6 H. apply write_terminal_Ok in H6 as ->. mclean. exact H1.
Qed.

(** *** The fuel is only a bound *)

(** A result reached with some fuel is reached with more. *)
Definition le_run {A} (c1 c2 : M LexState A) : Prop :=
  forall s a s', c1 s = (Ok a, s') -> c2 s = (Ok a, s').

Lemma le_run_refl {A} (c : M LexState A) : le_run c c.
Proof. by intros s a s' H. Qed.

Lemma le_run_bind {A B} (c1 c2 : M LexState A) (k1 k2 : A -> M LexState B) :
  le_run c1 c2 -> (forall a, le_run (k1 a) (k2 a)) ->
  le_run (bind c1 k1) (bind c2 k2).
Proof.
  intros Hc Hk s b s' H. mbind H as a s1 H1 H.
  eapply bind_run; [by apply Hc|]. by apply Hk.
Qed.

Ltac le_run_step := apply le_run_bind; [apply le_run_refl|intros ?].

Lemma positives_loop_mono fuel :
  forall fuel' P, fuel <= fuel' ->
    le_run (positives_loop fuel P) (positives_loop fuel' P).
Proof.
  induction fuel as [|fuel IH]; intros fuel' P Hf.
  - intros s a s' H. by mclean.
  - destruct fuel' as [|fuel']; [lia|]. cbn [positives_loop].
    do 4 le_run_step. destruct (decide _); [apply le_run_refl|].
    le_run_step. apply IH. lia.
Qed.

Lemma negatives_loop_mono fuel :
  forall fuel', fuel <= fuel' -> le_run (negatives_loop fuel) (negatives_loop fuel').
Proof.
  induction fuel as [|fuel IH]; intros fuel' Hf.
  - intros s a s' H. by mclean.
  - destruct fuel' as [|fuel']; [lia|]. cbn [negatives_loop].
    do 4 le_run_step. destruct (decide _); [apply le_run_refl|].
    do 2 le_run_step. apply IH. lia.
Qed.

Lemma refine_accepted_mono fuel fuel' K :
  fuel <= fuel' -> le_run (refine_accepted fuel K) (refine_accepted fuel' K).
Proof.
  intros Hf. unfold refine_accepted. le_run_step.
  destruct (_ !! _); [apply le_run_refl|].
  apply le_run_bind; [|intros ?; apply le_run_refl].
  unfold _process_positives_negatives. le_run_step.
  apply le_run_bind; [by apply positives_loop_mono|intros ?].
  do 3 le_run_step.
  apply le_run_bind; [by apply negatives_loop_mono|intros ?]. apply le_run_refl.
Qed.

Lemma scan_mono fuel :
  forall fuel' l, fuel <= fuel' -> le_run (scan tag_class fuel l) (scan tag_class fuel' l).
Proof.
  induction fuel as [|fuel IH]; intros fuel' l Hf; rewrite !scan_unfold.
  - do 2 le_run_step. destruct (negb _); [apply le_run_refl|].
    intros s0 x s0' H. by mclean.
  - destruct fuel' as [|fuel']; [lia|].
    do 2 le_run_step. destruct (negb _); [apply le_run_refl|].
    do 9 le_run_step. apply IH. lia.
Qed.

Lemma get_terminal_loop_mono fuel :
  forall fuel' l, fuel <= fuel' ->
    le_run (get_terminal_loop tag_class fuel l) (get_terminal_loop tag_class fuel' l).
Proof.
  induction fuel as [|fuel IH]; intros fuel' l Hf.
  - intros s a s' H. by mclean.
  - destruct fuel' as [|fuel']; [lia|]. cbn [get_terminal_loop].
    apply le_run_bind; [apply scan_mono; lia|intros ?].
    destruct (size _ =? 0); [apply le_run_refl|].
    apply le_run_bind; [apply refine_accepted_mono; lia|intros ?].
    destruct (0 <? size _); [apply le_run_refl|].
    do 2 le_run_step. destruct (_ =? length _); [apply le_run_refl|].
    do 4 le_run_step. apply IH. lia.
Qed.

Lemma next_terminal_mono fuel fuel' cur :
  fuel <= fuel' ->
  le_run (next_terminal tag_class fuel cur) (next_terminal tag_class fuel' cur).
Proof.
  intros Hf.
  assert (Hg : forall p, le_run (_get_terminal tag_class fuel p)
                                (_get_terminal tag_class fuel' p)).
  { intros p. unfold _get_terminal. do 2 le_run_step.
    destruct (_ =? length _); [apply le_run_refl|].
    do 2 le_run_step. by apply get_terminal_loop_mono. }
  destruct cur as [c|]; cbn [next_terminal].
  - le_run_step. destruct (next _); [apply le_run_refl|].
    apply le_run_bind; [apply Hg|intros ?; apply le_run_refl].
  - le_run_step. destruct (_start _); [apply le_run_refl|].
    apply le_run_bind; [apply Hg|intros ?; apply le_run_refl].
Qed.

End Relexing.

Lemma reachable_tidy tag_class TERMINAL_TAGS fname inp conds s :
  reachable tag_class TERMINAL_TAGS fname inp conds s -> tidy s.
Proof.
  induction 1 as [s H|s fuel cur r s' _ IH H].
  - apply IgneaLexer_new_Ok in H as (c & pair & -> & _). by split.
  - by eapply next_terminal_tidy.
Qed.

(** After [None] the stream stays at its end: with as much fuel a second
    call returns [None], and a second call that returns, returns [None]. *)
Lemma next_terminal_none_again tag_class fuel cur s s' :
  next_terminal tag_class fuel cur s = (Ok None, s') -> tidy s ->
  (forall fuel', fuel <= fuel' ->
     exists s'', next_terminal tag_class fuel' cur s' = (Ok None, s'')) /\
  (forall fuel' r' s'',
     next_terminal tag_class fuel' cur s' = (Ok r', s'') -> r' = None).
Proof.
  intros H Ht. destruct (next_terminal_none _ _ _ _ _ H Ht) as [_ Hagain].
  split; [exact Hagain|]. intros fuel' r' s'' H'.
  destruct (Hagain (fuel `max` fuel')) as (s2 & H2); [lia|].
  apply (next_terminal_mono tag_class fuel' (fuel `max` fuel')) in H'; [|lia].
  congruence.
Qed.

(** C3, as the code has it.  A successful call of [next_terminal] leaves
    its result in the field it reads ([next] of the argument, [_start] for
    [None]).  If the result is a terminal, calling again returns the same
    terminal, with any fuel (no lexing takes place) and without changing the
    state.  If the result is [None], the field stays [None], so nothing is
    memoized and a second call lexes again; in a state the lexer reaches it
    finds the end of the input again: with at least as much fuel the second
    call returns [None], and with any fuel a second call that returns,
    returns [None]. *)
Theorem next_terminal_memoizes_terminals tag_class TERMINAL_TAGS fname inp conds
        fuel cur s r s' :
  next_terminal tag_class fuel cur s = (Ok r, s') ->
  successor s' cur = Some r /\
  (forall t, r = Some t ->
     forall fuel', next_terminal tag_class fuel' cur s' = (Ok (Some t), s')) /\
  (r = None -> reachable tag_class TERMINAL_TAGS fname inp conds s ->
     (forall fuel', fuel <= fuel' ->
        exists s'', next_terminal tag_class fuel' cur s' = (Ok None, s'')) /\
     (forall fuel' r' s'',
        next_terminal tag_class fuel' cur s' = (Ok r', s'') -> r' = None)).
Proof.
  intros H. split; [|split].
  - by apply next_terminal_cases in H as [(n & Hs & -> & ->)|(_ & Hs & _)].
  - intros t ->. by apply next_terminal_again in H as [_ H].
  - intros -> Hr. apply (next_terminal_none_again tag_class fuel cur s s' H).
    by eapply reachable_tidy.
Qed.

Lemma next_terminal_memoizes_terminals_witness :
  (exists s0 t s',
     IgneaLexer_new KeywordLexer.tag_class KeywordLexer.TERMINAL_TAGS "f"
       (String.list_ascii_of_string "if") 0%N = Ok s0 /\
     next_terminal KeywordLexer.tag_class 9 None s0 = (Ok (Some t), s') /\
     successor s' None = Some (Some t) /\
     next_terminal KeywordLexer.tag_class 0 None s' = (Ok (Some t), s')) /\
  (exists s0 s1,
     IgneaLexer_new KeywordLexer.tag_class KeywordLexer.TERMINAL_TAGS "f"
       (String.list_ascii_of_string " ") 0%N = Ok s0 /\
     next_terminal KeywordLexer.tag_class 9 None s0 = (Ok None, s1) /\
     successor s1 None = Some None /\
     (exists s2, next_terminal KeywordLexer.tag_class 12 None s1 = (Ok None, s2)) /\
     (forall fuel' r' s2,
        next_terminal KeywordLexer.tag_class fuel' None s1 = (Ok r', s2) -> r' = None)).
Proof.
  split.
  - let v := eval vm_compute in
      (IgneaLexer_new KeywordLexer.tag_class KeywordLexer.TERMINAL_TAGS "f"
         (String.list_ascii_of_string "if") 0%N) in
    match v with Ok ?x => pose (s0 := x) end.
    let v := eval vm_compute in (next_terminal KeywordLexer.tag_class 9 None s0) in
    match v with (Ok (Some ?n), ?x) => pose (t := n); pose (s' := x) end.
    assert (E1 : next_terminal KeywordLexer.tag_class 9 None s0 = (Ok (Some t), s'))
      by (vm_compute; reflexivity).
    exists s0, t, s'. split; [vm_compute; reflexivity|]. split; [exact E1|].
    destruct (next_terminal_memoizes_terminals KeywordLexer.tag_class
                KeywordLexer.TERMINAL_TAGS "f" (String.list_ascii_of_string "if") 0%N
                9 None s0 (Some t) s' E1) as (Hs & Hagain & _).
    split; [exact Hs|]. exact (Hagain t eq_refl 0).
  - let v := eval vm_compute in
      (IgneaLexer_new KeywordLexer.tag_class KeywordLexer.TERMINAL_TAGS "f"
         (String.list_ascii_of_string " ") 0%N) in
    match v with Ok ?x => pose (s0 := x) end.
    let v := eval vm_compute in (next_terminal KeywordLexer.tag_class 9 None s0) in
    match v with (Ok None, ?x) => pose (s1 := x) end.
    assert (E0 : IgneaLexer_new KeywordLexer.tag_class KeywordLexer.TERMINAL_TAGS "f"
                   (String.list_ascii_of_string " ") 0%N = Ok s0)
      by (vm_compute; reflexivity).
    assert (E1 : next_terminal KeywordLexer.tag_class 9 None s0 = (Ok None, s1))
      by (vm_compute; reflexivity).
    exists s0, s1. split; [exact E0|]. split; [exact E1|].
    destruct (next_terminal_memoizes_terminals KeywordLexer.tag_class
                KeywordLexer.TERMINAL_TAGS "f" (String.list_ascii_of_string " ") 0%N
                9 None s0 None s1 E1) as (Hs & _ & Hnone).
    destruct (Hnone eq_refl (reach_new _ _ _ _ _ _ E0)) as [Hmore Honly].
    split; [exact Hs|]. split; [apply Hmore; lia|exact Honly].
Defined.

(** ** The parser: how [parse] ends *)

Lemma run_pair {S A} (c : M S A) s r : fst (c s) = r -> c s = (r, snd (c s)).
Proof. intros <-. apply surjective_pairing. Qed.

Lemma in_lexer_run {A} (c : M LexState A) p r l :
  c (parser_lexer p) = (r, l) -> in_lexer c p = (r, with_parser_lexer (fun _ => l) p).
Proof. intros H. unfold in_lexer. by rewrite H. Qed.

Lemma with_parser_lexer_id p : with_parser_lexer (fun _ => parser_lexer p) p = p.
Proof. by destruct p. Qed.

Lemma with_parser_lexer_const l l' p :
  with_parser_lexer (fun _ => l) (with_parser_lexer (fun _ => l') p)
  = with_parser_lexer (fun _ => l) p.
Proof. reflexivity. Qed.

(** The outcomes of the derivation that [parse] goes on from: a result, or
    [IgneaDerivationException], which it passes over. *)
Definition passed_over {A} (r : Res A) : Prop :=
  match r with
  | Ok _ => True
  | Raise e => e = IgneaDerivationException
  end.

Lemma parse_unfold tag_class descend fuel p r p1 :
  derive tag_class descend fuel (inr (_nonterminal_type_start p))
    {[ ([], lexer_start_position (lexer (parser_lexer p)),
        lexer_start_position (lexer (parser_lexer p)), None) ]}
    (AscendCaller None) p = (r, p1) ->
  passed_over r ->
  parse tag_class descend fuel p = parse_completion tag_class fuel p1.
Proof.
  intros H Hr. unfold parse. unfold bind at 1. unfold gets at 1. cbv beta iota delta [id].
  unfold bind at 1. unfold catch_derivation. rewrite H.
  destruct r as [a|e]; [done|]. cbn in Hr. by subst e.
Qed.

(** A terminal of a lexer and the position it starts at. *)
Lemma terminal_start_position tag_class l t :
  lexer_inv tag_class l -> t < length (terminals (store l)) ->
  exists tm pos, terminals (store l) !! t = Some tm /\
                 positions (store l) !! start_position tm = Some pos.
Proof.
  intros Hinv Ht. apply lookup_lt_is_Some_2 in Ht as [tm Htm].
  destruct Hinv as [_ _ _ Hgood _ _ _ _ _].
  destruct (Forall_lookup_1 _ _ _ _ Hgood Htm) as (sp & ep & Hsp & _).
  eauto.
Qed.

(** How [parse] ends.  [p1] is the parser after the top-level derivation
    ([derive] returned, or raised [IgneaDerivationException], which [parse]
    passes over), its lexer in a state a lexer reaches and [_eoi], if set,
    a terminal of the store.  Then
    - with [_eoi] at [None], [parse] returns and leaves the parser as the
      derivation left it ([bsr.start] included);
    - with [_eoi] a terminal and no entry of [bsr.epns] under [key] (the
      starting symbol, the lexer's [start_position], the [end_position] of
      [_eoi]), it raises [IgneaNoDerivationError] at the position [_eoi]
      starts at;
    - with an entry under [key], it calls [next_terminal(_eoi)]: if that
      returns a terminal, it raises [IgneaNoDerivationError] at the position
      this terminal starts at; if that returns [None], it sets [bsr.start]
      to [key] and returns; and if that raises (a lexical error, or the end
      of the fuel), [parse] raises the same and [bsr.start] stays as it
      was. *)
Theorem parse_after_derivation tag_class descend fuel p r p1 :
  derive tag_class descend fuel (inr (_nonterminal_type_start p))
    {[ ([], lexer_start_position (lexer (parser_lexer p)),
        lexer_start_position (lexer (parser_lexer p)), None) ]}
    (AscendCaller None) p = (r, p1) ->
  passed_over r ->
  lexer_inv tag_class (parser_lexer p1) ->
  (forall e, _eoi p1 = Some e -> e < length (terminals (store (parser_lexer p1)))) ->
  (_eoi p1 = None -> parse tag_class descend fuel p = (Ok tt, p1)) /\
  (forall e, _eoi p1 = Some e ->
     exists tm pos,
       terminals (store (parser_lexer p1)) !! e = Some tm /\
       positions (store (parser_lexer p1)) !! start_position tm = Some pos /\
       let key : BSRKey :=
         (inl (inr (_nonterminal_type_start p1)),
          lexer_start_position (lexer (parser_lexer p1)), end_position tm) in
       (epns (bsr p1) !! key = None ->
        parse tag_class descend fuel p = (Raise (IgneaNoDerivationError pos), p1)) /\
       (is_Some (epns (bsr p1) !! key) ->
        forall x l,
          next_terminal tag_class fuel (Some e) (parser_lexer p1) = (x, l) ->
          match x with
          | Ok (Some n) =>
              exists ntm npos,
                terminals (store l) !! n = Some ntm /\
                positions (store l) !! start_position ntm = Some npos /\
                parse tag_class descend fuel p
                = (Raise (IgneaNoDerivationError npos), with_parser_lexer (fun _ => l) p1)
          | Ok None =>
              parse tag_class descend fuel p
              = (Ok tt, with_bsr (fun b => mkBSR (Some key) (epns b))
                                 (with_parser_lexer (fun _ => l) p1))
          | Raise e' =>
              parse tag_class descend fuel p
              = (Raise e', with_parser_lexer (fun _ => l) p1)
          end)).
Proof.
  intros Hd Hr Hinv Heoi. rewrite (parse_unfold _ _ _ _ _ _ Hd Hr). split.
  { intros Ee. unfold parse_completion, bind, gets, id. by rewrite Ee. }
  intros e Ee.
  destruct (terminal_start_position _ _ e Hinv (Heoi e Ee)) as (tm & pos & Htm & Hpos).
  exists tm, pos. split; [done|]. split; [done|]. cbn zeta.
  assert (Hrun : parse_completion tag_class fuel p1
                 = (if bool_decide (is_Some (epns (bsr p1) !!
                          ((inl (inr (_nonterminal_type_start p1)),
                            lexer_start_position (lexer (parser_lexer p1)),
                            end_position tm) : BSRKey)))
                    then
                      let* next_terminal :=
                        in_lexer (next_terminal tag_class fuel (Some e)) in
                      match next_terminal with
                      | Some _ =>
                          let* tm := in_lexer (read_terminal e) in
                          let* n := from_option AssertionError (next tm) in
                          let* ntm := in_lexer (read_terminal n) in
                          let* position := in_lexer (read_position (start_position ntm)) in
                          raise (IgneaNoDerivationError position)
                      | None =>
                          modify (with_bsr (fun b =>
                            mkBSR (Some (inl (inr (_nonterminal_type_start p1)),
                                         lexer_start_position (lexer (parser_lexer p1)),
                                         end_position tm)) (epns b)))
                      end
                    else
                      let* position := in_lexer (read_position (start_position tm)) in
                      raise (IgneaNoDerivationError position)) p1).
  { unfold parse_completion. unfold bind at 1. unfold gets at 1.
    cbv beta iota delta [id]. rewrite Ee. unfold bind at 1.
    by rewrite (in_lexer_run _ _ _ _ (read_terminal_run _ _ _ Htm)), with_parser_lexer_id. }
  rewrite Hrun. clear Hrun. split.
  - intros Hk. rewrite Hk, bool_decide_eq_false_2 by (by intros [? ?]).
    unfold bind.
    by rewrite (in_lexer_run _ _ _ _ (read_position_run _ _ _ Hpos)), with_parser_lexer_id.
  - intros Hk x l Hn. rewrite bool_decide_eq_true_2 by done.
    destruct x as [[n|]|x];
      (unfold bind at 1; rewrite (in_lexer_run _ _ _ _ Hn); cbv beta iota);
      [|reflexivity..].
    assert (Hinv' := Hn). apply next_terminal_inv in Hinv' as (Hinv' & _ & Hv); [|done].
    destruct (terminal_start_position _ _ n Hinv' (Hv n eq_refl))
      as (ntm & npos & Hntm & Hnpos).
    exists ntm, npos. split; [done|]. split; [done|].
    apply next_terminal_cases in Hn as Hc.
    assert (Hsucc : successor l (Some e) = Some (Some n))
      by (destruct Hc as [(n' & Hs & [= ->] & ->)|(_ & Hs & _)]; done).
    cbn in Hsucc. destruct (terminals (store l) !! e) as [tm'|] eqn:Htm'; [|done].
    injection Hsucc as Hnext.
    unfold bind at 1.
    rewrite (in_lexer_run _ (with_parser_lexer (fun _ => l) p1) _ _
               (read_terminal_run _ _ _ Htm')), with_parser_lexer_const.
    cbv beta iota. unfold bind at 1. rewrite Hnext. cbn [from_option ret].
    cbv beta iota. unfold bind at 1.
    rewrite (in_lexer_run _ (with_parser_lexer (fun _ => l) p1) _ _
               (read_terminal_run _ _ _ Hntm)), with_parser_lexer_const.
    cbv beta iota. unfold bind at 1.
    rewrite (in_lexer_run _ (with_parser_lexer (fun _ => l) p1) _ _
               (read_position_run _ _ _ Hnpos)), with_parser_lexer_const.
    reflexivity.
Qed.

(** The run of [PairParser] on [ab cd]: the lexer after its first and its
    second terminal, and the derivation of [parse]. *)
Definition pair_lexer1 (p : IgneaParser) : LexState :=
  snd (next_terminal KeywordLexer.tag_class 20 None (parser_lexer p)).
Definition pair_lexer2 (p : IgneaParser) : LexState :=
  snd (next_terminal KeywordLexer.tag_class 20 (Some 0) (pair_lexer1 p)).
Definition pair_derivation (p : IgneaParser)
  : Res (gset IgneaParsingState) * IgneaParser :=
  derive KeywordLexer.tag_class PairParser.descend 20
    (inr (_nonterminal_type_start p))
    {[ ([], lexer_start_position (lexer (parser_lexer p)),
        lexer_start_position (lexer (parser_lexer p)), None) ]}
    (AscendCaller None) p.

Lemma parse_after_derivation_witness :
  exists p p', PairParser.new "ab cd" = Ok p /\
    parse KeywordLexer.tag_class PairParser.descend 20 p = (Ok tt, p') /\
    bsr_start (bsr p') = Some (inl (inr PairParser.S_), 0, 4).
Proof.
  let v := eval vm_compute in (PairParser.new "ab cd") in
  match v with Ok ?x => exists x; set (p := x) end.
  assert (Hd := surjective_pairing (pair_derivation p)).
  unfold pair_derivation at 1 in Hd.
  assert (Hr : passed_over (fst (pair_derivation p))) by (vm_compute; exact I).
  assert (Hinv : lexer_inv KeywordLexer.tag_class (parser_lexer (snd (pair_derivation p)))).
  { assert (Hr2 : reachable KeywordLexer.tag_class KeywordLexer.TERMINAL_TAGS "f"
                   (String.list_ascii_of_string "ab cd") 0%N (pair_lexer2 p)).
    { refine (reach_next _ _ _ _ _ (pair_lexer1 p) 20 (Some 0) (Some 1) _ _
                (run_pair (next_terminal KeywordLexer.tag_class 20 (Some 0)) _ _ _));
        [|vm_compute; reflexivity].
      refine (reach_next _ _ _ _ _ (parser_lexer p) 20 None (Some 0) _ _
                (run_pair (next_terminal KeywordLexer.tag_class 20 None) _ _ _));
        [|vm_compute; reflexivity].
      apply reach_new. vm_compute. reflexivity. }
    apply reachable_inv in Hr2 as [Hr2 _].
    assert (Heq : parser_lexer (snd (pair_derivation p)) = pair_lexer2 p).
    { let v := eval vm_compute in (pair_lexer2 p) in
      transitivity v; [|symmetry]; vm_compute; reflexivity. }
    rewrite Heq. exact Hr2. }
  assert (He : _eoi (snd (pair_derivation p)) = Some 1) by (vm_compute; reflexivity).
  assert (Heoi : forall e, _eoi (snd (pair_derivation p)) = Some e ->
             e < length (terminals (store (parser_lexer (snd (pair_derivation p)))))).
  { intros e He'. rewrite He in He'. injection He' as <-.
    apply Nat.ltb_lt. vm_compute. reflexivity. }
  destruct (parse_after_derivation KeywordLexer.tag_class PairParser.descend 20 p
              (fst (pair_derivation p)) (snd (pair_derivation p)) Hd Hr Hinv Heoi)
    as [_ Hsome].
  destruct (Hsome 1 He) as (tm & pos & Htm & _ & _ & Hyes).
  assert (Hend : end_position tm = 4).
  { assert (end_position <$>
              terminals (store (parser_lexer (snd (pair_derivation p)))) !! 1 = Some 4)
      as Hx by (vm_compute; reflexivity).
    rewrite Htm in Hx. by injection Hx. }
  rewrite Hend in Hyes.
  match type of Hyes with
  | ?A -> _ => assert (Hk : A) by (apply (bool_decide_eq_true_1 A); vm_compute; reflexivity)
  end.
  assert (Hx : fst (next_terminal KeywordLexer.tag_class 20 (Some 1)
                      (parser_lexer (snd (pair_derivation p)))) = Ok None)
    by (vm_compute; reflexivity).
  assert (Hn := Hyes Hk _ _ (run_pair _ _ _ Hx)).
  eexists. split; [vm_compute; reflexivity|]. split; [exact Hn|].
  vm_compute. reflexivity.
Defined.

(** ** Tarjan's algorithm: what [ignea_compute_sccs] returns *)

(** A loop that may raise: [I] holds of the items done and the state as long
    as the body returns, [E] of the exception when it raises. *)
Lemma for_each_cases {S A} (I : list A -> S -> Prop) (E : Exn -> Prop)
      (l : list A) (body : A -> M S unit) :
  (forall pre a post s, l = pre ++ a :: post -> I pre s ->
     match body a s with
     | (Ok _, s') => I (pre ++ [a]) s'
     | (Raise e, _) => E e
     end) ->
  forall s, I [] s ->
    match for_each l body s with
    | (Ok _, s') => I l s'
    | (Raise e, _) => E e
    end.
Proof.
  intros Hbody.
  assert (Hgen : forall post pre s, l = pre ++ post -> I pre s ->
            match for_each post body s with
            | (Ok _, s') => I l s'
            | (Raise e, _) => E e
            end).
  { induction post as [|a post IH]; intros pre s Hl HI; cbn [for_each].
    - rewrite app_nil_r in Hl. by subst.
    - unfold bind. specialize (Hbody pre a post s Hl HI).
      destruct (body a s) as [[u|e] s1]; [|done].
      apply (IH (pre ++ [a])); [|done]. by rewrite <- app_assoc. }
  intros s HI. by apply (Hgen l []).
Qed.

(** Every successor named by the graph is a key of the graph. *)
Definition closed (graph : list (NTId * gset NTId)) : Prop :=
  forall v successors w,
    alist_lookup v graph = Some successors -> w ∈ successors ->
    is_Some (alist_lookup w graph).

(** An edge of the graph, and the paths along its edges. *)
Definition edge (graph : list (NTId * gset NTId)) (v w : NTId) : Prop :=
  exists successors, alist_lookup v graph = Some successors /\ w ∈ successors.

Definition path (graph : list (NTId * gset NTId)) : NTId -> NTId -> Prop :=
  rtc (edge graph).

(** A strongly connected component: its nodes reach each other, and it
    holds every node that one of its nodes reaches and is reached from. *)
Definition is_scc (graph : list (NTId * gset NTId)) (C : gset NTId) : Prop :=
  (forall x y, x ∈ C -> y ∈ C -> path graph x y) /\
  (forall x y, x ∈ C -> path graph x y -> path graph y x -> y ∈ C).

Definition in_sccs (l : list (gset NTId)) (u : NTId) : Prop :=
  exists scc, scc ∈ l /\ u ∈ scc.

Definition disjoint_list (l : list (gset NTId)) : Prop :=
  forall i j a b, l !! i = Some a -> l !! j = Some b -> i <> j -> a ## b.

(** The keys of the graph not visited yet. *)
Definition unvisited (graph : list (NTId * gset NTId)) (t : Tarjan) : nat :=
  size (list_to_set (graph.*1) ∖ dom (visited_index t) : gset NTId).

(** The invariant of the variables of [ignea_compute_sccs]. *)
Record wf_tarjan (graph : list (NTId * gset NTId)) (t : Tarjan) : Prop := {
  wf_min : forall u, is_Some (visited_index t !! u) -> is_Some (min_index t !! u);
  wf_min_le : forall u i m,
    visited_index t !! u = Some i -> min_index t !! u = Some m -> m <= i;
  wf_bound : forall u i, visited_index t !! u = Some i -> i < size (visited_index t);
  wf_nodup : NoDup (stack t);
  wf_stack : forall u, u ∈ stack t -> is_Some (visited_index t !! u);
  wf_sccs : forall scc u, scc ∈ sccs t -> u ∈ scc ->
                          (u ∉ stack t) /\ is_Some (visited_index t !! u);
  wf_disjoint : disjoint_list (sccs t);
  wf_nonempty : forall scc, scc ∈ sccs t -> scc <> ∅;
  wf_cover : forall u, is_Some (visited_index t !! u) ->
                       u ∈ stack t \/ in_sccs (sccs t) u;
  wf_scc_edges : forall x y, in_sccs (sccs t) x -> edge graph x y -> in_sccs (sccs t) y;
  wf_is_scc : forall scc, scc ∈ sccs t -> is_scc graph scc
}.

Lemma alist_lookup_elem_of {V} (k : nat) (d : list (nat * V)) v :
  alist_lookup k d = Some v -> k ∈ (d.*1).
Proof.
  induction d as [|[k' v'] d IH]; cbn; [done|].
  destruct (decide (k' = k)) as [->|]; [left|right; auto].
Qed.

Lemma alist_lookup_is_Some {V} (k : nat) (d : list (nat * V)) :
  k ∈ (d.*1) -> is_Some (alist_lookup k d).
Proof.
  induction d as [|[k' v'] d IH]; cbn; [by intros ?%elem_of_nil|].
  destruct (decide (k' = k)) as [->|]; [eauto|].
  intros [?|?]%elem_of_cons; [congruence|auto].
Qed.

Lemma pop_scc_app v above rest scc :
  v ∉ above ->
  pop_scc v (above ++ v :: rest) scc = Some (scc ∪ list_to_set above ∪ {[v]}, rest).
Proof.
  revert scc. induction above as [|w above IH]; intros scc Hv; cbn.
  - rewrite decide_True by done. by rewrite (right_id_L ∅ (∪)).
  - apply not_elem_of_cons in Hv as [Hne Hv].
    rewrite decide_False by done. rewrite IH by done.
    by rewrite (assoc_L (∪)).
Qed.

Lemma unvisited_insert graph t v i :
  visited_index t !! v = None -> v ∈ (graph.*1) ->
  S (size (list_to_set (graph.*1) ∖ dom (<[v := i]> (visited_index t)) : gset NTId))
  = unvisited graph t.
Proof.
  intros Hv Hk. unfold unvisited.
  rewrite dom_insert_L.
  assert (list_to_set graph.*1 ∖ dom (visited_index t)
          = {[v]} ∪ (list_to_set graph.*1 ∖ ({[v]} ∪ dom (visited_index t))) :> gset NTId)
    as ->.
  { apply set_eq. intros x. rewrite elem_of_union, !elem_of_difference, elem_of_union,
      elem_of_singleton, elem_of_list_to_set, elem_of_dom.
    split.
    - intros [Hx Hn]. destruct (decide (x = v)) as [->|]; [by left|right].
      split; [done|]. intros [?|?]; done.
    - intros [->|[Hx Hn]].
      + split; [done|]. intros [? H]. pose proof (eq_trans (eq_sym Hv) H). discriminate.
      + split; [done|]. intros ?. apply Hn. by right. }
  rewrite (size_union {[v]}); [by rewrite size_singleton|].
  intros x Hx1 Hx2. apply elem_of_singleton in Hx1 as ->.
  apply elem_of_difference in Hx2 as [_ Hx2]. apply Hx2. apply elem_of_union. left.
  by apply elem_of_singleton.
Qed.

Lemma unvisited_mono graph t t' :
  visited_index t ⊆ visited_index t' -> unvisited graph t' <= unvisited graph t.
Proof.
  intros Hsub. unfold unvisited. apply subseteq_size.
  intros x. rewrite !elem_of_difference, !elem_of_dom.
  intros [Hx Hn]. split; [done|]. intros [i Hi]. apply Hn.
  exists i. by eapply lookup_weaken.
Qed.

Lemma Some_None_absurd {A} (o : option A) x : o = Some x -> o = None -> False.
Proof. congruence. Qed.

Lemma is_Some_weaken (m1 m2 : gmap NTId nat) u :
  m1 ⊆ m2 -> is_Some (m1 !! u) -> is_Some (m2 !! u).
Proof. intros Hsub [i Hi]. exists i. by eapply lookup_weaken. Qed.

Lemma None_weaken (m1 m2 : gmap NTId nat) u :
  m1 ⊆ m2 -> m2 !! u = None -> m1 !! u = None.
Proof.
  intros Hsub Hn. destruct (m1 !! u) as [i|] eqn:E; [|done].
  eapply lookup_weaken in E; [|done]. congruence.
Qed.

Lemma in_sccs_app l more u : in_sccs l u -> in_sccs (l ++ more) u.
Proof. intros (scc & Hscc & Hu). exists scc. split; [|done]. apply elem_of_app. by left. Qed.

(** The states [compute_scc] goes through. *)
Definition pushed (v : NTId) (t : Tarjan) : Tarjan :=
  mkTarjan (<[v := size (visited_index t)]> (visited_index t))
           (<[v := size (visited_index t)]> (min_index t))
           (v :: stack t) (sccs t).
Definition lowered (v : NTId) (m : nat) (t : Tarjan) : Tarjan :=
  mkTarjan (visited_index t) (<[v := m]> (min_index t)) (stack t) (sccs t).
Definition popped (scc : gset NTId) (rest : list NTId) (t : Tarjan) : Tarjan :=
  mkTarjan (visited_index t) (min_index t) rest (sccs t ++ [scc]).

Lemma lower_min_index_run v m t mv :
  min_index t !! v = Some mv ->
  lower_min_index v m t = (Ok tt, lowered v (Nat.min mv m) t).
Proof.
  intros H. unfold lower_min_index, bind, gets, from_option, modify, id. by rewrite H.
Qed.

Lemma wf_pushed graph v t :
  wf_tarjan graph t -> visited_index t !! v = None -> wf_tarjan graph (pushed v t).
Proof.
  intros [Hm Hle Hbd Hnd Hst Hsc Hdj Hne Hcv Hed Htr] Hv.
  assert (Hvs : v ∉ stack t).
  { intros Hin. apply Hst in Hin as [? Hin]. congruence. }
  split; cbn.
  - intros u. destruct (decide (v = u)) as [->|].
    + rewrite !lookup_insert_eq. eauto.
    + rewrite !lookup_insert_ne by done. apply Hm.
  - intros u i m. destruct (decide (v = u)) as [->|].
    + rewrite !lookup_insert_eq. intros [= <-] [= <-]. lia.
    + rewrite !lookup_insert_ne by done. apply Hle.
  - intros u i. rewrite map_size_insert_None by done.
    destruct (decide (v = u)) as [->|].
    + rewrite lookup_insert_eq. intros [= <-]. lia.
    + rewrite lookup_insert_ne by done. intros Hu. apply Hbd in Hu. lia.
  - by constructor.
  - intros u [->|Hu]%elem_of_cons.
    + rewrite lookup_insert_eq. eauto.
    + destruct (decide (v = u)) as [->|]; [done|].
      rewrite lookup_insert_ne by done. by apply Hst.
  - intros scc u Hscc Hu. destruct (Hsc scc u Hscc Hu) as [Hns [i Hi]].
    assert (v <> u) by congruence.
    split.
    + intros [->|?]%elem_of_cons; done.
    + rewrite lookup_insert_ne by done. eauto.
  - done.
  - done.
  - intros u. destruct (decide (v = u)) as [->|].
    + intros _. left. by left.
    + rewrite lookup_insert_ne by done. intros Hu.
      destruct (Hcv u Hu) as [?|?]; [left; by right|by right].
  - done.
  - done.
Qed.

Lemma wf_lowered graph v m t i :
  wf_tarjan graph t -> visited_index t !! v = Some i -> m <= i ->
  wf_tarjan graph (lowered v m t).
Proof.
  intros [Hm Hle Hbd Hnd Hst Hsc Hdj Hne Hcv Hed Htr] Hv Hmi. split; cbn; try done.
  - intros u Hu. destruct (decide (v = u)) as [->|].
    + rewrite lookup_insert_eq. eauto.
    + rewrite lookup_insert_ne by done. by apply Hm.
  - intros u j m'. destruct (decide (v = u)) as [->|].
    + rewrite lookup_insert_eq. intros Hj [= <-]. congruence.
    + rewrite lookup_insert_ne by done. apply Hle.
Qed.

(** Popping the component [above ∪ {v}]: its edges lead into itself or into
    the components found before, and its nodes reach each other. *)
Lemma wf_popped graph v above rest t :
  wf_tarjan graph t -> stack t = above ++ v :: rest ->
  (forall x y, x ∈ (list_to_set above ∪ {[v]} : gset NTId) -> edge graph x y ->
               y ∈ (list_to_set above ∪ {[v]} : gset NTId) \/ in_sccs (sccs t) y) ->
  (forall x y, x ∈ (list_to_set above ∪ {[v]} : gset NTId) ->
               y ∈ (list_to_set above ∪ {[v]} : gset NTId) -> path graph x y) ->
  wf_tarjan graph (popped (list_to_set above ∪ {[v]}) rest t).
Proof.
  intros [Hm Hle Hbd Hnd Hst Hsc Hdj Hne Hcv Hed Htr] Hs Hedges Hconn.
  rewrite Hs in Hnd. apply NoDup_app in Hnd as (Hnda & Hdisj & Hndr).
  apply NoDup_cons in Hndr as [Hvr Hndr].
  assert (Hin : forall u, u ∈ (list_to_set above ∪ {[v]} : gset NTId) ->
                          u ∈ stack t /\ u ∉ rest).
  { intros u [Hu|Hu]%elem_of_union.
    - apply elem_of_list_to_set in Hu. split.
      + rewrite Hs. apply elem_of_app. by left.
      + intros Hr. apply (Hdisj u Hu). by right.
    - apply elem_of_singleton in Hu as ->. split; [|done].
      rewrite Hs. apply elem_of_app. right. by left. }
  assert (Hlast : forall u, u ∈ (list_to_set above ∪ {[v]} : gset NTId) ->
                            in_sccs (sccs t ++ [list_to_set above ∪ {[v]}]) u).
  { intros u Hu. eexists. split; [|exact Hu]. apply elem_of_app. right.
    by apply list_elem_of_singleton. }
  assert (Hout : forall x y, path graph x y -> in_sccs (sccs t) x -> in_sccs (sccs t) y).
  { induction 1 as [|x y z Hxy _ IH]; [done|]. intros Hx. apply IH. by eapply Hed. }
  assert (Hclosed : forall x y, path graph x y ->
            x ∈ (list_to_set above ∪ {[v]} : gset NTId) ->
            y ∈ (list_to_set above ∪ {[v]} : gset NTId) \/ in_sccs (sccs t) y).
  { induction 1 as [|x y z Hxy Hyz IH]; [by left|]. intros Hx.
    destruct (Hedges x y Hx Hxy) as [Hy|Hy]; [by apply IH|].
    right. by eapply Hout. }
  split; cbn; try done.
  - intros u Hu. apply Hst. rewrite Hs. apply elem_of_app. right. by right.
  - intros scc u [Hscc| ->%list_elem_of_singleton]%elem_of_app Hu.
    + destruct (Hsc scc u Hscc Hu) as [Hns Hvis]. split; [|done].
      intros Hr. apply Hns. rewrite Hs. apply elem_of_app. right. by right.
    + destruct (Hin u Hu) as [Hst' Hnr]. split; [done|]. by apply Hst.
  - intros i j a b Ha Hb Hij.
    assert (Hold : forall k c, sccs t !! k = Some c ->
                     c ## (list_to_set above ∪ {[v]} : gset NTId)).
    { intros k c Hc u Hu1 Hu2. destruct (Hin u Hu2) as [Hst' _].
      destruct (Hsc c u) as [Hns _]; [by eapply list_elem_of_lookup_2|done|done]. }
    destruct (decide (i < length (sccs t))) as [Hi|Hi],
             (decide (j < length (sccs t))) as [Hj|Hj].
    + rewrite lookup_app_l in Ha, Hb by done. by eapply Hdj.
    + rewrite lookup_app_l in Ha by done. rewrite lookup_app_r in Hb by lia.
      apply list_lookup_singleton_Some in Hb as [_ <-]. by eapply Hold.
    + rewrite lookup_app_l in Hb by done. rewrite lookup_app_r in Ha by lia.
      apply list_lookup_singleton_Some in Ha as [_ <-]. symmetry. by eapply Hold.
    + rewrite lookup_app_r in Ha, Hb by lia.
      apply list_lookup_singleton_Some in Ha as [Ha _].
      apply list_lookup_singleton_Some in Hb as [Hb _]. lia.
  - intros scc [Hscc| ->%list_elem_of_singleton]%elem_of_app; [by apply Hne|].
    intros He. assert (Hv : v ∈ (list_to_set above ∪ {[v]} : gset NTId)).
    { apply elem_of_union. right. by apply elem_of_singleton. }
    rewrite He in Hv. by apply elem_of_empty in Hv.
  - intros u Hu. destruct (Hcv u Hu) as [Hst'|Hus].
    + rewrite Hs in Hst'. apply elem_of_app in Hst' as [Ha|[->|Hr]%elem_of_cons].
      * right. apply Hlast. apply elem_of_union. left. by apply elem_of_list_to_set.
      * right. apply Hlast. apply elem_of_union. right. by apply elem_of_singleton.
      * by left.
    + right. by apply in_sccs_app.
  - intros x y (scc & [Hscc| ->%list_elem_of_singleton]%elem_of_app & Hx) Hxy.
    + apply in_sccs_app. eapply Hed; [|done]. by exists scc.
    + destruct (Hedges x y Hx Hxy) as [Hy|Hy]; [by apply Hlast|by apply in_sccs_app].
  - intros scc [Hscc| ->%list_elem_of_singleton]%elem_of_app; [by apply Htr|].
    split; [done|]. intros x y Hx Hxy Hyx.
    destruct (Hclosed x y Hxy Hx) as [Hy|Hy]; [done|].
    apply (Hout y x Hyx) in Hy as (scc & Hscc & Hxs).
    destruct (Hsc scc x Hscc Hxs) as [Hns _]. by destruct (Hin x Hx).
Qed.

(** Where an edge out of a visited node may lead: into a component found
    before, or to a node on the stack whose index is at least [m]. *)
Definition settled (s : Tarjan) (m : nat) (y : NTId) : Prop :=
  in_sccs (sccs s) y \/
  (y ∈ stack s /\ exists i, visited_index s !! y = Some i /\ m <= i).

Lemma settled_mono s s' m m' y new more :
  settled s m y -> sccs s' = sccs s ++ more -> stack s' = new ++ stack s ->
  visited_index s ⊆ visited_index s' -> m' <= m -> settled s' m' y.
Proof.
  intros [Hy|(Hy & i & Hi & Hmi)] Hsc Hst Hvis Hm.
  - left. rewrite Hsc. by apply in_sccs_app.
  - right. split; [rewrite Hst; apply elem_of_app; by right|].
    exists i. split; [by eapply lookup_weaken|lia].
Qed.

(** What [compute_scc(v)] has done when it returns, called with the
    variables [t]; [new] are the nodes it leaves on the stack. *)
Record scc_post (graph : list (NTId * gset NTId)) (b : nat) (v : NTId)
       (t : Tarjan) (new : list NTId) (t' : Tarjan) : Prop := {
  post_wf : wf_tarjan graph t';
  post_visited : visited_index t ⊆ visited_index t';
  post_v : visited_index t' !! v = Some (size (visited_index t));
  post_stack : stack t' = new ++ stack t;
  post_new : forall u, u ∈ new -> visited_index t !! u = None;
  post_root : forall i, min_index t' !! v = Some i -> visited_index t' !! v = Some i ->
                        new = [];
  post_sccs : exists more, sccs t' = sccs t ++ more;
  post_min : exists m, min_index t' !! v = Some m /\ b <= m;
  post_old_min :
    forall u, is_Some (visited_index t !! u) -> min_index t' !! u = min_index t !! u;
  post_new_index :
    forall u i, visited_index t !! u = None -> visited_index t' !! u = Some i ->
                size (visited_index t) <= i;
  post_closed :
    forall u, visited_index t !! u = None -> is_Some (visited_index t' !! u) ->
              exists successors,
                alist_lookup u graph = Some successors /\
                forall w, w ∈ successors -> is_Some (visited_index t' !! w);
  post_reach : forall x, x ∈ new -> exists z, z ∈ stack t /\ path graph x z;
  post_from : forall u, visited_index t !! u = None -> is_Some (visited_index t' !! u) ->
                        path graph v u;
  post_low : forall m, min_index t' !! v = Some m -> m < size (visited_index t) ->
                       exists z, z ∈ stack t' /\ visited_index t' !! z = Some m /\
                                 path graph v z;
  post_edges : forall x y m, x ∈ new -> edge graph x y -> min_index t' !! v = Some m ->
                             settled t' m y
}.

(** The loop of [compute_scc(v)] over the successors of [v], [done] of them
    dealt with; [above] are the nodes pushed after [v]. *)
Record scc_loop (graph : list (NTId * gset NTId)) (b : nat) (v : NTId)
       (t : Tarjan) (above : list NTId) (done : list NTId) (s : Tarjan) : Prop := {
  lp_wf : wf_tarjan graph s;
  lp_fresh : visited_index t !! v = None;
  lp_visited : visited_index t ⊆ visited_index s;
  lp_v : visited_index s !! v = Some (size (visited_index t));
  lp_stack : stack s = above ++ v :: stack t;
  lp_above : forall u, u ∈ above -> visited_index t !! u = None /\ u <> v;
  lp_sccs : exists more, sccs s = sccs t ++ more;
  lp_min : exists m z, min_index s !! v = Some m /\ b <= m /\
                       z ∈ stack s /\ visited_index s !! z = Some m /\ path graph v z;
  lp_low : forall u, u ∈ stack s -> exists i, visited_index s !! u = Some i /\ b <= i;
  lp_old_min :
    forall u, is_Some (visited_index t !! u) -> min_index s !! u = min_index t !! u;
  lp_new_index :
    forall u i, visited_index t !! u = None -> visited_index s !! u = Some i ->
                size (visited_index t) <= i;
  lp_closed :
    forall u, visited_index t !! u = None -> u <> v -> is_Some (visited_index s !! u) ->
              exists successors,
                alist_lookup u graph = Some successors /\
                forall w, w ∈ successors -> is_Some (visited_index s !! w);
  lp_done : forall w, w ∈ done -> is_Some (visited_index s !! w);
  lp_reach : forall x, x ∈ above -> path graph x v;
  lp_from : forall u, visited_index t !! u = None -> is_Some (visited_index s !! u) ->
                      path graph v u;
  lp_edges : forall x y m, x ∈ above \/ (x = v /\ y ∈ done) -> edge graph x y ->
                           min_index s !! v = Some m -> settled s m y
}.

Lemma scc_loop_start graph b v t :
  wf_tarjan graph t -> visited_index t !! v = None ->
  (forall u, u ∈ stack t -> exists i, visited_index t !! u = Some i /\ b <= i) ->
  b <= size (visited_index t) ->
  scc_loop graph b v t [] [] (pushed v t).
Proof.
  intros Hwf Hv Hlow Hb. split; cbn.
  - by apply wf_pushed.
  - done.
  - by apply insert_subseteq.
  - by rewrite lookup_insert_eq.
  - done.
  - by intros u ?%elem_of_nil.
  - exists []. by rewrite app_nil_r.
  - exists (size (visited_index t)), v. rewrite !lookup_insert_eq.
    split; [done|]. split; [done|]. split; [by left|]. split; [done|]. apply rtc_refl.
  - intros u [->|Hu]%elem_of_cons.
    + rewrite lookup_insert_eq. eauto.
    + destruct (Hlow u Hu) as (i & Hi & Hbi). exists i. split; [|done].
      rewrite lookup_insert_ne; [done|]. intros ->. congruence.
  - intros u [i Hi]. rewrite lookup_insert_ne; [done|]. intros ->. congruence.
  - intros u i Hu. destruct (decide (v = u)) as [->|].
    + rewrite lookup_insert_eq. intros [= <-]. lia.
    + rewrite lookup_insert_ne by done. congruence.
  - intros u Hu Hne. rewrite lookup_insert_ne by done. intros [? ?]. congruence.
  - by intros w ?%elem_of_nil.
  - by intros x ?%elem_of_nil.
  - intros u Hu. destruct (decide (v = u)) as [->|]; [intros _; apply rtc_refl|].
    rewrite lookup_insert_ne by done. intros [? ?]. congruence.
  - intros x y m [?%elem_of_nil|[_ ?%elem_of_nil]]; done.
Qed.

(** The body of the loop of [compute_scc(v)] and what follows the loop. *)
Definition scc_visit (fuel : nat) (graph : list (NTId * gset NTId)) (v w : NTId)
  : M Tarjan unit :=
  let* t := gets id in
  match visited_index t !! w with
  | None =>
      compute_scc fuel graph w ;;
      let* t := gets id in
      let* mw := from_option KeyError (min_index t !! w) in
      lower_min_index v mw
  | Some iw =>
      if bool_decide (w ∈ stack t) then lower_min_index v iw else ret tt
  end.

Definition scc_finish (index : nat) (v : NTId) : M Tarjan unit :=
  let* t := gets id in
  let* mv := from_option KeyError (min_index t !! v) in
  if mv =? index then
    let* popped := from_option IndexError (pop_scc v (stack t) ∅) in
    modify (fun t => mkTarjan (visited_index t) (min_index t) (snd popped)
                              (sccs t ++ [fst popped]))
  else ret tt.

Lemma compute_scc_unfold fuel graph v t :
  compute_scc (S fuel) graph v t
  = match alist_lookup v graph with
    | None => (Raise KeyError, pushed v t)
    | Some successors =>
        match for_each (elements successors) (scc_visit fuel graph v) (pushed v t) with
        | (Ok _, s) => scc_finish (size (visited_index t)) v s
        | (Raise e, s) => (Raise e, s)
        end
    end.
Proof.
  cbn [compute_scc]. unfold bind at 1. unfold gets at 1. cbv beta iota delta [id].
  unfold bind at 1. unfold modify at 1. cbv beta iota. fold (pushed v t).
  unfold bind at 1. destruct (alist_lookup v graph) as [successors|]; [|done].
  cbn [from_option ret]. cbv beta iota. unfold bind at 1. reflexivity.
Qed.

(** After the loop: [v] is the root of a component and the stack is popped
    down to it, or [v] stays on the stack. *)
Lemma scc_finish_post graph b v t above successors s :
  wf_tarjan graph t ->
  (forall a, a ∈ stack t -> path graph a v) ->
  alist_lookup v graph = Some successors ->
  scc_loop graph b v t above (elements successors) s ->
  exists t' new, scc_finish (size (visited_index t)) v s = (Ok tt, t') /\
                 scc_post graph b v t new t'.
Proof.
  intros Hwft Hreach Hg
         [Hwf Hv Hvis Hsv Hst Hab (more & Hsc) (m & z & Hm & Hbm & Hz & Hzi & Hvz)
            Hlow Hold Hidx Hcl Hdone Hrc Hfrom Hedges].
  assert (Hclosed : forall u, visited_index t !! u = None ->
            is_Some (visited_index s !! u) ->
            exists successors, alist_lookup u graph = Some successors /\
              forall w, w ∈ successors -> is_Some (visited_index s !! w)).
  { intros u Hu Hus. destruct (decide (u = v)) as [->|Hne]; [|by apply Hcl].
    exists successors. split; [done|]. intros w Hw. apply Hdone.
    by apply elem_of_elements. }
  assert (Hout : forall x y, x ∈ above \/ x = v -> edge graph x y -> settled s m y).
  { intros x y Hx Hxy. apply (Hedges x y m); [|done..].
    destruct Hx as [?| ->]; [by left|right]. split; [done|].
    destruct Hxy as (sx & Hsx & Hy). rewrite Hg in Hsx. injection Hsx as <-.
    by apply elem_of_elements. }
  assert (Hto : forall x, x ∈ above \/ x = v -> path graph x v).
  { intros x [?| ->]; [by apply Hrc|apply rtc_refl]. }
  assert (Hmi : m <= size (visited_index t)) by (by eapply (wf_min_le _ _ Hwf)).
  unfold scc_finish, bind, gets, id. rewrite Hm. cbn [from_option ret].
  destruct (m =? size (visited_index t)) eqn:E.
  - apply Nat.eqb_eq in E. subst m.
    rewrite Hst, pop_scc_app by (intros Hin; by destruct (Hab v Hin)).
    cbn [from_option ret fst snd]. unfold modify.
    eexists. exists []. split; [reflexivity|].
    rewrite (left_id_L ∅ (∪)).
    fold (popped (list_to_set above ∪ {[v]}) (stack t) s).
    assert (Hin : forall x, x ∈ (list_to_set above ∪ {[v]} : gset NTId) ->
                            x ∈ above \/ x = v).
    { intros x [Hx|Hx]%elem_of_union; [left; by apply elem_of_list_to_set in Hx|right].
      by apply elem_of_singleton in Hx. }
    assert (Hni : forall x, x ∈ above \/ x = v ->
                            x ∈ (list_to_set above ∪ {[v]} : gset NTId)).
    { intros x [Hx| ->]; apply elem_of_union;
        [left; by apply elem_of_list_to_set|right; by apply elem_of_singleton]. }
    split; cbn.
    + eapply wf_popped; [done..| |].
      * intros x y Hx%Hin Hxy.
        destruct (Hout x y Hx Hxy) as [Hy|(Hy & i & Hi & Hle)]; [by right|left].
        rewrite Hst in Hy. apply elem_of_app in Hy as [Hy|[->|Hy]%elem_of_cons].
        -- apply Hni. by left.
        -- apply Hni. by right.
        -- destruct (wf_stack _ _ Hwft y Hy) as [j Hj].
           pose proof (wf_bound _ _ Hwft y j Hj) as Hlt.
           eapply lookup_weaken in Hj; [|done].
           pose proof (eq_trans (eq_sym Hi) Hj) as Hij. injection Hij as ->. lia.
      * intros x y Hx%Hin Hy%Hin. etransitivity; [by apply Hto|].
        destruct Hy as [Hy| ->]; [|apply rtc_refl].
        apply Hfrom; [by destruct (Hab y Hy)|].
        apply (wf_stack _ _ Hwf). rewrite Hst. apply elem_of_app. by left.
    + done.
    + done.
    + done.
    + by intros u ?%elem_of_nil.
    + done.
    + exists (more ++ [list_to_set above ∪ {[v]}]). by rewrite Hsc, app_assoc.
    + eauto.
    + done.
    + done.
    + done.
    + by intros x ?%elem_of_nil.
    + done.
    + intros m' Hm' Hlt. pose proof (eq_trans (eq_sym Hm) Hm') as Hmm.
      injection Hmm as <-. lia.
    + by intros x y m' ?%elem_of_nil.
  - apply Nat.eqb_neq in E.
    assert (Hzt : z ∈ stack t).
    { rewrite Hst in Hz. apply elem_of_app in Hz as [Hz|[->|Hz]%elem_of_cons]; [| |done].
      - destruct (Hab z Hz) as [Hzn _]. specialize (Hidx z m Hzn Hzi). lia.
      - pose proof (eq_trans (eq_sym Hsv) Hzi) as Hmm. injection Hmm as Hmm. lia. }
    exists s, (above ++ [v]). split; [done|]. split.
    + done.
    + done.
    + done.
    + by rewrite Hst, <- app_assoc.
    + intros u [Hu| ->%list_elem_of_singleton]%elem_of_app; [|done].
      by destruct (Hab u Hu).
    + intros i Hi Hi'. pose proof (eq_trans (eq_sym Hm) Hi) as Hmm.
      pose proof (eq_trans (eq_sym Hsv) Hi') as Hii.
      injection Hmm as <-. injection Hii as Hii. lia.
    + eauto.
    + eauto.
    + done.
    + done.
    + done.
    + intros x Hx. exists z. split; [done|]. etransitivity; [|exact Hvz].
      apply Hto. apply elem_of_app in Hx as [?| ->%list_elem_of_singleton]; eauto.
    + done.
    + intros m' Hm' _. pose proof (eq_trans (eq_sym Hm) Hm') as Hmm. injection Hmm as <-.
      eauto.
    + intros x y m' Hx Hxy Hm'. pose proof (eq_trans (eq_sym Hm) Hm') as Hmm.
      injection Hmm as <-. apply (Hout x); [|done].
      apply elem_of_app in Hx as [?| ->%list_elem_of_singleton]; eauto.
Qed.

(** A successor [w] that is on the stack, or in a component found before. *)
Lemma scc_visit_seen graph b v t above pre w s fuel iw :
  scc_loop graph b v t above pre s ->
  edge graph v w ->
  visited_index s !! w = Some iw ->
  exists s', scc_visit fuel graph v w s = (Ok tt, s') /\
             scc_loop graph b v t above (pre ++ [w]) s'.
Proof.
  intros [Hwf Hv Hvis Hsv Hst Hab Hsc (m & z & Hm & Hbm & Hz & Hzi & Hvz)
            Hlow Hold Hidx Hcl Hdone Hrc Hfrom Hedges] Hvw Hw.
  assert (Hdone' : forall x, x ∈ pre ++ [w] -> is_Some (visited_index s !! x)).
  { intros x [Hx| ->%list_elem_of_singleton]%elem_of_app; eauto. }
  assert (Hmi : m <= size (visited_index t)) by (by eapply (wf_min_le _ _ Hwf)).
  unfold scc_visit, bind, gets, id. rewrite Hw.
  destruct (bool_decide (w ∈ stack s)) eqn:Es.
  - apply bool_decide_eq_true_1 in Es.
    rewrite (lower_min_index_run _ _ _ _ Hm). eexists. split; [done|].
    destruct (Hlow w Es) as (i & Hi & Hbi). rewrite Hw in Hi. injection Hi as <-.
    split; cbn; try done.
    + eapply wf_lowered; [done..|lia].
    + rewrite lookup_insert_eq. destruct (decide (m <= iw)) as [Hle|Hgt].
      * exists (Nat.min m iw), z. rewrite Nat.min_l by done.
        split; [done|]. by split.
      * exists (Nat.min m iw), w. rewrite Nat.min_r by lia.
        split; [done|]. split; [done|]. split; [done|]. split; [done|].
        by apply rtc_once.
    + intros u Hu. rewrite lookup_insert_ne; [by apply Hold|].
      intros ->. destruct Hu. congruence.
    + intros x y m'. rewrite lookup_insert_eq. intros Hx Hxy [= <-].
      assert (Hold' : settled s m y ->
                      settled (lowered v (Nat.min m iw) s) (Nat.min m iw) y).
      { intros H. eapply (settled_mono s _ m _ y [] []); cbn;
          [done|by rewrite app_nil_r|done|done|lia]. }
      destruct Hx as [Hx|[-> [Hy| ->%list_elem_of_singleton]%elem_of_app]].
      * apply Hold'. apply (Hedges x y m); [by left|done..].
      * apply Hold'. apply (Hedges v y m); [by right|done..].
      * right. cbn. split; [done|]. exists iw. split; [done|lia].
  - apply bool_decide_eq_false_1 in Es.
    exists s. split; [done|]. split; try done; [by exists m, z|].
    intros x y m' Hx Hxy Hm'.
    destruct Hx as [Hx|[-> [Hy| ->%list_elem_of_singleton]%elem_of_app]].
    + apply (Hedges x y m'); [by left|done..].
    + apply (Hedges v y m'); [by right|done..].
    + destruct (wf_cover _ _ Hwf w ltac:(eauto)) as [?|?]; [done|by left].
Qed.

Lemma compute_scc_cases fuel graph :
  forall b v t,
  wf_tarjan graph t -> visited_index t !! v = None ->
  (forall u, u ∈ stack t -> exists i, visited_index t !! u = Some i /\ b <= i) ->
  b <= size (visited_index t) ->
  (closed graph -> is_Some (alist_lookup v graph)) ->
  (forall a, a ∈ stack t -> path graph a v) ->
  match compute_scc fuel graph v t with
  | (Ok _, t') => exists new, scc_post graph b v t new t'
  | (Raise e, _) =>
      (e = KeyError /\ ~ closed graph) \/ (e = OutOfFuel /\ fuel <= unvisited graph t)
  end.
Proof.
  induction fuel as [|fuel IH]; intros b v t Hwf Hv Hlow Hb Hkey Hreach.
  { cbn. right. split; [done|lia]. }
  rewrite compute_scc_unfold.
  destruct (alist_lookup v graph) as [successors|] eqn:Hg.
  2:{ left. split; [done|]. intros Hc. by destruct (Hkey Hc). }
  assert (Hstep : forall pre w post s,
            elements successors = pre ++ w :: post ->
            (exists above, scc_loop graph b v t above pre s) ->
            match scc_visit fuel graph v w s with
            | (Ok _, s') => exists above, scc_loop graph b v t above (pre ++ [w]) s'
            | (Raise e, _) =>
                (e = KeyError /\ ~ closed graph)
                \/ (e = OutOfFuel /\ S fuel <= unvisited graph t)
            end).
  { intros pre w post s Hel [above Hloop].
    assert (Hww : w ∈ successors).
    { apply elem_of_elements. rewrite Hel. apply elem_of_app. right. by left. }
    assert (Hvw : edge graph v w) by (by exists successors).
    destruct (visited_index s !! w) as [iw|] eqn:Hw.
    { destruct (scc_visit_seen _ _ _ _ _ _ _ _ fuel _ Hloop Hvw Hw) as (s' & -> & Hs').
      by exists above. }
    assert (Hloop' := Hloop).
    destruct Hloop' as [Hwfs _ Hvis Hsv Hst Hab (more & Hsc)
                          (m & z & Hm & Hbm & Hz & Hzi & Hvz)
                          Hlows Hold Hidx Hcl Hdone Hrc Hfrom Hedges].
    assert (Hsize : size (visited_index t) <= size (visited_index s))
      by (by apply map_subseteq_size).
    assert (Htov : forall a, a ∈ stack s -> path graph a v).
    { intros a Ha. rewrite Hst in Ha.
      apply elem_of_app in Ha as [Ha|[->|Ha]%elem_of_cons];
        [by apply Hrc|apply rtc_refl|by apply Hreach]. }
    specialize (IH b w s Hwfs Hw Hlows ltac:(lia)
                   ltac:(intros Hc; by eapply Hc)
                   ltac:(intros a Ha; eapply rtc_r; [by apply Htov|done])).
    unfold scc_visit. unfold bind at 1. unfold gets at 1. cbv beta iota delta [id].
    rewrite Hw. unfold bind at 1.
    destruct (compute_scc fuel graph w s) as [[u|e] s1].
    2:{ destruct IH as [?|[-> Hf]]; [by left|right]. split; [done|].
        assert (Hpush : visited_index (pushed v t) ⊆ visited_index s).
        { cbn. by apply insert_subseteq_l. }
        apply unvisited_mono with (graph := graph) in Hpush.
        assert (Hin := alist_lookup_elem_of _ _ _ Hg).
        pose proof (unvisited_insert graph t v (size (visited_index t)) Hv Hin) as Hu.
        unfold unvisited in Hpush at 2. cbn in Hpush. lia. }
    destruct IH as [new [Hwf1 Hvis1 Hv1 Hst1 Hnew _ (more1 & Hsc1)
                           (mw & Hmw & Hbw) Hold1 Hidx1 Hcl1 Hreach1 Hfrom1 Hlow1
                           Hedges1]].
    unfold bind at 1. unfold gets at 1. cbv beta iota delta [id]. rewrite Hmw.
    cbn [from_option]. unfold bind at 1. unfold ret at 1. cbv beta iota.
    assert (Hm1 : min_index s1 !! v = Some m) by (rewrite Hold1; eauto).
    rewrite (lower_min_index_run _ _ _ _ Hm1).
    assert (Hsv1 : visited_index s1 !! v = Some (size (visited_index t)))
      by (by eapply lookup_weaken).
    assert (Hmi : m <= size (visited_index t)) by (by eapply (wf_min_le _ _ Hwfs)).
    assert (Hmwi : mw <= size (visited_index s)) by (by eapply (wf_min_le _ _ Hwf1)).
    exists (new ++ above). split; cbn.
    - eapply wf_lowered; [done..|lia].
    - done.
    - by etransitivity.
    - done.
    - by rewrite Hst1, Hst, app_assoc.
    - intros x [Hx|Hx]%elem_of_app; [|by apply Hab].
      specialize (Hnew x Hx). split; [by eapply None_weaken|]. intros ->. congruence.
    - exists (more ++ more1). by rewrite Hsc1, Hsc, app_assoc.
    - rewrite lookup_insert_eq. destruct (decide (m <= mw)) as [Hle|Hgt].
      + exists (Nat.min m mw), z. rewrite Nat.min_l by done.
        split; [done|]. split; [done|].
        split; [rewrite Hst1; apply elem_of_app; by right|].
        split; [by eapply lookup_weaken|done].
      + destruct (Hlow1 mw Hmw ltac:(lia)) as (z' & Hz' & Hzi' & Hwz).
        exists (Nat.min m mw), z'. rewrite Nat.min_r by lia.
        split; [done|]. split; [done|]. split; [done|]. split; [done|].
        by eapply rtc_l.
    - intros x Hx. rewrite Hst1 in Hx. apply elem_of_app in Hx as [Hx|Hx].
      + destruct (wf_stack _ _ Hwf1 x) as [i Hi];
          [rewrite Hst1; apply elem_of_app; by left|].
        exists i. split; [done|]. specialize (Hidx1 x i (Hnew x Hx) Hi). lia.
      + destruct (Hlows x Hx) as (i & Hi & Hbi). exists i. split; [|done].
        by eapply lookup_weaken.
    - intros x Hx. rewrite lookup_insert_ne;
        [|intros ->; destruct Hx as [? Hx]; exact (Some_None_absurd _ _ Hx Hv)].
      rewrite Hold1 by (by eapply is_Some_weaken). by apply Hold.
    - intros x i Hx Hi. destruct (visited_index s !! x) as [j|] eqn:Ej.
      + assert (j = i) as -> by (eapply lookup_weaken in Ej; [|done]; congruence).
        by eapply Hidx.
      + specialize (Hidx1 x i Ej Hi). lia.
    - intros x Hx Hne Hxs. destruct (visited_index s !! x) as [j|] eqn:Ej.
      + destruct (Hcl x Hx Hne ltac:(eauto)) as (sx & Hsx & Hall).
        exists sx. split; [done|]. intros y Hy. eapply is_Some_weaken; [done|]. by apply Hall.
      + by apply Hcl1.
    - intros x [Hx| ->%list_elem_of_singleton]%elem_of_app; [|by eauto].
      eapply is_Some_weaken; [done|]. by apply Hdone.
    - intros x [Hx|Hx]%elem_of_app; [|by apply Hrc].
      destruct (Hreach1 x Hx) as (z0 & Hz0 & Hxz). etransitivity; [exact Hxz|].
      by apply Htov.
    - intros x Hx Hxs. destruct (visited_index s !! x) as [j|] eqn:Ej.
      + apply Hfrom; [done|]. rewrite Ej. eauto.
      + eapply rtc_l; [exact Hvw|]. by apply Hfrom1.
    - intros x y m'. rewrite lookup_insert_eq. intros Hx Hxy [= <-].
      assert (Hold' : settled s m y ->
                      settled (lowered v (Nat.min m mw) s1) (Nat.min m mw) y).
      { intros H. eapply (settled_mono s _ m _ y new more1); cbn; [done..|lia]. }
      destruct Hx as [[Hx|Hx]%elem_of_app
                     |[-> [Hy| ->%list_elem_of_singleton]%elem_of_app]].
      + eapply (settled_mono s1 _ mw _ y [] []); cbn;
          [by eapply Hedges1|by rewrite app_nil_r|done|done|lia].
      + apply Hold'. apply (Hedges x y m); [by left|done..].
      + apply Hold'. apply (Hedges v y m); [by right|done..].
      + destruct (wf_cover _ _ Hwf1 w ltac:(eauto)) as [Hin|Hin]; [right|by left].
        cbn. split; [done|]. exists (size (visited_index s)). split; [done|lia]. }
  pose proof (for_each_cases (fun pre s => exists above, scc_loop graph b v t above pre s)
                (fun e => (e = KeyError /\ ~ closed graph)
                          \/ (e = OutOfFuel /\ S fuel <= unvisited graph t))
                (elements successors) (scc_visit fuel graph v) Hstep (pushed v t)
                (ex_intro _ [] (scc_loop_start graph b v t Hwf Hv Hlow Hb))) as Hloop.
  destruct (for_each (elements successors) (scc_visit fuel graph v) (pushed v t))
    as [[u|e] s]; [|done].
  destruct Hloop as [above Hloop].
  destruct (scc_finish_post _ _ _ _ _ _ _ Hwf Hreach Hg Hloop) as (t' & new & -> & Hpost).
  by exists new.
Qed.

(** [ignea_compute_sccs] returns the strongly connected components of the
    graph: the sets returned are not empty, pairwise disjoint, hold the keys
    of the graph and nothing else, and each one is a strongly connected
    component.  It returns only for a graph whose successors are all keys: a
    successor that is no key raises [KeyError].  With more fuel than the
    graph has keys the fuel does not run out. *)
Theorem ignea_compute_sccs_correct fuel graph :
  match ignea_compute_sccs fuel graph with
  | Ok sccs =>
      closed graph /\ disjoint_list sccs /\
      (forall scc, scc ∈ sccs -> scc <> ∅) /\
      (forall v, v ∈ (graph.*1) <-> exists scc, scc ∈ sccs /\ v ∈ scc) /\
      (forall scc, scc ∈ sccs -> is_scc graph scc)
  | Raise e =>
      (e = KeyError /\ ~ closed graph) \/ (e = OutOfFuel /\ fuel <= length graph)
  end.
Proof.
  unfold ignea_compute_sccs.
  set (body := fun v : NTId =>
         let* t := gets id in
         match visited_index t !! v with
         | None => compute_scc fuel graph v
         | Some _ => ret tt
         end).
  set (I := fun (pre : list NTId) (s : Tarjan) =>
         wf_tarjan graph s /\ stack s = [] /\
         (forall k, k ∈ pre -> is_Some (visited_index s !! k)) /\
         (forall u, is_Some (visited_index s !! u) ->
            exists successors, alist_lookup u graph = Some successors /\
              forall w, w ∈ successors -> is_Some (visited_index s !! w))).
  set (E := fun e => (e = KeyError /\ ~ closed graph)
                     \/ (e = OutOfFuel /\ fuel <= length graph)).
  assert (Hstep : forall pre v post s, graph.*1 = pre ++ v :: post -> I pre s ->
            match body v s with
            | (Ok _, s') => I (pre ++ [v]) s'
            | (Raise e, _) => E e
            end).
  { intros pre v post s Hel (Hwf & Hst & Hpre & Hcl).
    unfold body, bind, gets, id.
    destruct (visited_index s !! v) as [i|] eqn:Hv.
    { split; [done|]. split; [done|]. split; [|done].
      intros k [Hk| ->%list_elem_of_singleton]%elem_of_app; eauto. }
    assert (Hkey : v ∈ (graph.*1)) by (rewrite Hel; apply elem_of_app; right; by left).
    pose proof (compute_scc_cases fuel graph (size (visited_index s)) v s Hwf Hv
                  ltac:(rewrite Hst; by intros u ?%elem_of_nil) ltac:(lia)
                  ltac:(intros _; by apply alist_lookup_is_Some)
                  ltac:(rewrite Hst; by intros u ?%elem_of_nil)) as Hc.
    destruct (compute_scc fuel graph v s) as [[u|e] s'].
    - destruct Hc as [new [Hwf' Hvis Hv' Hst' _ Hroot _ (m & Hm & Hbm) _ _ Hcl' _ _ _ _]].
      assert (m = size (visited_index s)) as ->.
      { pose proof (wf_min_le _ _ Hwf' _ _ _ Hv' Hm). lia. }
      rewrite (Hroot _ Hm Hv'), Hst in Hst'.
      split; [done|]. split; [done|]. split.
      + intros k [Hk| ->%list_elem_of_singleton]%elem_of_app; [|eauto].
        eapply is_Some_weaken; [done|]. by apply Hpre.
      + intros x Hx. destruct (visited_index s !! x) as [j|] eqn:Ej; [|by apply Hcl'].
        destruct (Hcl x ltac:(eauto)) as (sx & Hsx & Hall).
        exists sx. split; [done|]. intros y Hy. eapply is_Some_weaken; [done|]. by apply Hall.
    - destruct Hc as [?|[-> Hf]]; [by left|right]. split; [done|].
      etransitivity; [exact Hf|]. unfold unvisited.
      etransitivity; [apply subseteq_size, subseteq_difference_l; reflexivity|].
      rewrite <- (length_fmap fst graph). generalize (graph.*1). clear.
      induction l as [|a l IHl]; cbn; [by rewrite size_empty|].
      rewrite (size_union_alt {[a]}), size_singleton.
      assert (size (list_to_set l ∖ {[a]} : gset NTId) <= size (list_to_set l : gset NTId))
        by (apply subseteq_size, subseteq_difference_l; reflexivity).
      lia. }
  assert (HI0 : I [] (mkTarjan ∅ ∅ [] [])).
  { split; [|split; [done|split]].
    - split; cbn.
      + intros u [? Hu]. by rewrite lookup_empty in Hu.
      + intros u i m Hu. by rewrite lookup_empty in Hu.
      + intros u i Hu. by rewrite lookup_empty in Hu.
      + constructor.
      + by intros u ?%elem_of_nil.
      + by intros scc u ?%elem_of_nil.
      + intros i j a b Ha. by rewrite lookup_nil in Ha.
      + by intros scc ?%elem_of_nil.
      + intros u [? Hu]. by rewrite lookup_empty in Hu.
      + by intros x y (scc & ?%elem_of_nil & _).
      + by intros scc ?%elem_of_nil.
    - by intros k ?%elem_of_nil.
    - intros u [? Hu]. cbn in Hu. by rewrite lookup_empty in Hu. }
  pose proof (for_each_cases I E (graph.*1) body Hstep _ HI0) as Hrun.
  destruct (for_each (graph.*1) body (mkTarjan ∅ ∅ [] [])) as [[u|e] s]; [|done].
  destruct Hrun as (Hwf & Hst & Hall & Hcl).
  assert (Hkeys : forall v, is_Some (visited_index s !! v) -> v ∈ (graph.*1)).
  { intros v Hv. destruct (Hcl v Hv) as (sx & Hsx & _). by eapply alist_lookup_elem_of. }
  split; [|split; [by destruct Hwf|split; [by destruct Hwf|split; [|by destruct Hwf]]]].
  - intros v successors w Hv Hw.
    destruct (Hcl v (Hall v (alist_lookup_elem_of _ _ _ Hv))) as (sx & Hsx & Hvis).
    rewrite Hv in Hsx. injection Hsx as <-.
    apply alist_lookup_is_Some, Hkeys. by apply Hvis.
  - intros v. split.
    + intros Hv. destruct (wf_cover _ _ Hwf v (Hall v Hv)) as [Hin|?]; [|done].
      rewrite Hst in Hin. by apply elem_of_nil in Hin.
    + intros (scc & Hscc & Hv). apply Hkeys. by destruct (wf_sccs _ _ Hwf scc v Hscc Hv).
Qed.

(** ** The parser's constructor: the starting symbol and the tables of left recursion *)

Lemma alist_lookup_alist_set {V} (k k' : nat) (v : V) d :
  alist_lookup k (alist_set k' v d) = if decide (k' = k) then Some v else alist_lookup k d.
Proof.
  induction d as [|[k0 v0] d IH]; cbn; [done|].
  repeat case_decide; cbn; repeat case_decide; subst; try congruence.
Qed.

Lemma alist_set_keys {V} (k : nat) (v : V) d x :
  x ∈ (alist_set k v d).*1 <-> x = k \/ x ∈ (d.*1).
Proof.
  induction d as [|[k0 v0] d IH]; cbn.
  - rewrite list_elem_of_singleton. split; [by left|]. intros [?|?%elem_of_nil]; done.
  - destruct (decide (k0 = k)) as [->|Hne]; cbn.
    + rewrite !elem_of_cons. tauto.
    + rewrite !elem_of_cons, IH. tauto.
Qed.

Lemma alist_set_length {V} (k : nat) (v : V) d :
  length (alist_set k v d) <= S (length d).
Proof.
  induction d as [|[k0 v0] d IH]; cbn; [lia|].
  destruct (decide (k0 = k)); cbn; lia.
Qed.

Section ParserConstructor.

Variable nt_class : NTId -> IgneaNonterminalType.
Variable conds : IgneaConditions.
Variable TYPES : list NTId.

(** [w] is in the [first] set of a type [v] of the parser. *)
Definition first_of (v w : NTId) : Prop :=
  v ∈ TYPES /\ w ∈ first (nt_class v) conds.

(** [v] leads to [w] through [first] sets. *)
Definition leads_to : NTId -> NTId -> Prop := rtc first_of.

(** [v] is left-recursive: it comes back to itself through [first] sets. *)
Definition left_recursive (v : NTId) : Prop :=
  exists w, first_of v w /\ leads_to w v.

(** The types that are starting symbols, in the order of [NONTERMINAL_TYPES]. *)
Definition starts : list NTId :=
  filter (fun t => nt_start (nt_class t) conds) TYPES.

(** Every type named by a [first] set is a type of the parser. *)
Definition first_sets_closed : Prop :=
  forall v w, first_of v w -> w ∈ TYPES.

(** The dictionary [nonterminal_types_first] after the first loop. *)
Definition first_graph (types : list NTId) (acc : list (NTId * gset NTId))
  : list (NTId * gset NTId) :=
  foldl (fun acc t => alist_set t (first (nt_class t) conds) acc) acc types.

Lemma post_init_types_cases types start0 firsts :
  match post_init_types nt_class conds types start0 firsts with
  | Ok (start', firsts') =>
      option_list start0 ++ filter (fun t => nt_start (nt_class t) conds) types
      = option_list start' /\
      firsts' = first_graph types firsts
  | Raise e =>
      exists t, e = IgneaMultipleStartsError t /\
        (option_list start0 ++ filter (fun t => nt_start (nt_class t) conds) types) !! 1
        = Some t
  end.
Proof.
  revert start0 firsts. induction types as [|t types IH]; intros start0 firsts.
  - cbn. by rewrite app_nil_r.
  - cbn [post_init_types first_graph foldl]. rewrite filter_cons. destruct (nt_start (nt_class t) conds) eqn:Es.
    + rewrite decide_True by done.
      destruct start0 as [s0|]; cbn.
      * by exists t.
      * apply (IH (Some t)).
    + rewrite decide_False by (by intros ?). apply IH.
Qed.

Lemma first_graph_lookup types acc v :
  alist_lookup v (first_graph types acc)
  = if decide (v ∈ types) then Some (first (nt_class v) conds) else alist_lookup v acc.
Proof.
  revert acc. induction types as [|t types IH]; intros acc; cbn.
  - rewrite decide_False; [done|]. by intros ?%elem_of_nil.
  - unfold first_graph in IH. rewrite IH, alist_lookup_alist_set.
    repeat case_decide; subst; try done; exfalso;
      repeat match goal with
             | H : _ ∈ _ :: _ |- _ => apply elem_of_cons in H as [H|H]
             | H : _ ∉ _ :: _ |- _ => apply not_elem_of_cons in H as [? ?]
             end; congruence || done.
Qed.

Lemma first_graph_keys types acc x :
  x ∈ (first_graph types acc).*1 <-> x ∈ types \/ x ∈ (acc.*1).
Proof.
  revert acc. induction types as [|t types IH]; intros acc; cbn.
  - split; [by right|]. intros [?%elem_of_nil|?]; done.
  - unfold first_graph in IH. rewrite IH, alist_set_keys, elem_of_cons. tauto.
Qed.

Lemma first_graph_length types acc :
  length (first_graph types acc) <= length types + length acc.
Proof.
  revert acc. induction types as [|t types IH]; intros acc; cbn; [lia|].
  unfold first_graph in IH. etransitivity; [apply IH|].
  pose proof (alist_set_length t (first (nt_class t) conds) acc).
  unfold NTId, TagId in *. lia.
Qed.

Definition types_first : list (NTId * gset NTId) := first_graph TYPES [].

Lemma types_first_lookup v :
  alist_lookup v types_first = if decide (v ∈ TYPES) then Some (first (nt_class v) conds) else None.
Proof. apply first_graph_lookup. Qed.

Lemma types_first_edge v w : edge types_first v w <-> first_of v w.
Proof.
  unfold edge, first_of. rewrite types_first_lookup. split.
  - intros (s & Hs & Hw). case_decide; [|done].
    injection Hs as <-. done.
  - intros [Hv Hw]. rewrite decide_True by done. eauto.
Qed.

Lemma types_first_path v w : path types_first v w <-> leads_to v w.
Proof.
  unfold path, leads_to. split; induction 1; try apply rtc_refl;
    (eapply rtc_l; [by apply types_first_edge|done]).
Qed.

Lemma types_first_closed : closed types_first <-> first_sets_closed.
Proof.
  unfold closed, first_sets_closed. split.
  - intros Hc v w Hvw. apply types_first_edge in Hvw as (s & Hs & Hw).
    destruct (Hc v s w Hs Hw) as [x Hx]. rewrite types_first_lookup in Hx.
    by case_decide.
  - intros Hc v s w Hs Hw.
    assert (Hvw : first_of v w) by (apply types_first_edge; by exists s).
    rewrite types_first_lookup, decide_True by (by eapply Hc). eauto.
Qed.

Lemma types_first_keys v : v ∈ (types_first.*1) <-> v ∈ TYPES.
Proof.
  unfold types_first. rewrite first_graph_keys. split; [intros [?|?%elem_of_nil]; done|by left].
Qed.

(** A component that gets entries in the tables: of more than one type, or
    of one type that is in its own [first] set. *)
Definition recursive_scc (scc : gset NTId) : Prop :=
  size scc <> 1 \/ exists v, v ∈ scc /\ v ∈ first (nt_class v) conds.

(** [[w for w in scc if v in nonterminal_types_first[w]]] *)
Definition parents_in (v : NTId) (scc : gset NTId) : list NTId :=
  filter (fun w => v ∈ first (nt_class w) conds) (elements scc).

Lemma ascend_parents_in_Ok v l :
  (forall w, w ∈ l -> w ∈ TYPES) ->
  ascend_parents_in types_first v l = Ok (filter (fun w => v ∈ first (nt_class w) conds) l).
Proof.
  induction l as [|w l IH]; intros Hl; cbn [ascend_parents_in]; [done|].
  rewrite types_first_lookup, decide_True by (apply Hl; by left).
  rewrite IH by (intros; apply Hl; by right).
  rewrite filter_cons. unfold bool_decide. by repeat case_decide.
Qed.

(** The entries one component gets. *)
Definition entries_of (scc : gset NTId) (t t' : Tables) : Prop :=
  forall v,
    t'.1 !! v = (if decide (v ∈ scc) then Some (scc ∩ first (nt_class v) conds)
                 else t.1 !! v) /\
    t'.2 !! v = (if decide (v ∈ scc) then Some (parents_in v scc) else t.2 !! v).

Lemma scc_entries_run scc t :
  (forall v, v ∈ scc -> v ∈ TYPES) ->
  exists t', scc_entries types_first scc t = (Ok tt, t') /\ entries_of scc t t'.
Proof.
  intros Hscc. unfold scc_entries.
  match goal with |- context [for_each _ ?b _] => set (body := b) end.
  set (I := fun (pre : list NTId) (s : Tables) =>
    forall v,
      s.1 !! v = (if decide (v ∈ pre) then Some (scc ∩ first (nt_class v) conds)
                  else t.1 !! v) /\
      s.2 !! v = (if decide (v ∈ pre) then Some (parents_in v scc) else t.2 !! v)).
  assert (Hstep : forall pre a post s, elements scc = pre ++ a :: post -> I pre s ->
            match body a s with
            | (Ok _, s') => I (pre ++ [a]) s'
            | (Raise e, _) => False
            end).
  { intros pre a post s Hel HI.
    assert (Ha : a ∈ scc).
    { apply elem_of_elements. rewrite Hel. apply elem_of_app. right. by left. }
    unfold body, bind. rewrite types_first_lookup, decide_True by (by apply Hscc).
    cbn [from_option ret].
    rewrite ascend_parents_in_Ok by (intros w Hw%elem_of_elements; by apply Hscc).
    unfold modify. intros v. destruct (HI v) as [H1 H2]. cbn [fst snd].
    fold (parents_in a scc).
    destruct (decide (a = v)) as [->|Hne].
    - rewrite !lookup_insert_eq.
      rewrite !decide_True by (apply elem_of_app; right; by apply list_elem_of_singleton).
      done.
    - rewrite !lookup_insert_ne by done. rewrite H1, H2.
      destruct (decide (v ∈ pre)) as [Hin|Hnin].
      + rewrite !decide_True by (apply elem_of_app; by left). done.
      + rewrite !decide_False; [done|..];
          intros [?| ->%list_elem_of_singleton]%elem_of_app; done. }
  pose proof (for_each_cases I (fun _ => False) (elements scc) body Hstep t) as Hrun.
  assert (H0 : I [] t).
  { intros u. rewrite !decide_False by (by intros ?%elem_of_nil). done. }
  specialize (Hrun H0).
  match type of Hrun with
  | (let (_, _) := ?c in _) =>
      change (for_each (elements scc) body t) with c; destruct c as [[[]|e] t']
  end; [|destruct Hrun].
  exists t'. split; [done|]. intros v. destruct (Hrun v) as [-> ->].
  destruct (decide (v ∈ scc)) as [Hin|Hnin].
  - by rewrite !decide_True by (by apply elem_of_elements).
  - by rewrite !decide_False by (by intros ?%elem_of_elements).
Qed.

Lemma scc_step_run scc t :
  (forall v, v ∈ scc -> v ∈ TYPES) ->
  exists t', scc_step types_first scc t = (Ok tt, t') /\
             ((~ recursive_scc scc /\ t' = t) \/ (recursive_scc scc /\ entries_of scc t t')).
Proof.
  intros Hscc. unfold scc_step. unfold bind at 1.
  destruct (size scc =? 1) eqn:Esz.
  - apply Nat.eqb_eq in Esz.
    destruct (size_1_elem_of _ Esz) as [v Hv]. apply leibniz_equiv in Hv. subst scc.
    rewrite elements_singleton. cbn [head from_option]. unfold bind at 1. unfold ret at 1.
    cbv beta iota. rewrite types_first_lookup, decide_True
      by (apply Hscc; by apply elem_of_singleton).
    cbn [from_option]. unfold bind at 1. unfold ret at 1. cbv beta iota.
    unfold ret at 1. cbv beta iota.
    case_bool_decide as Eb; cbn [negb].
    + destruct (scc_entries_run {[v]} t Hscc) as (t' & Hrun & Hent).
      exists t'. split; [done|]. right. split; [|done]. right. exists v.
      split; [by apply elem_of_singleton|done].
    + exists t. split; [done|]. left.
      split; [|done]. intros [Hs|(u & ->%elem_of_singleton & Hu)]; done.
  - apply Nat.eqb_neq in Esz. unfold ret at 1. cbv beta iota.
    destruct (scc_entries_run scc t Hscc) as (t' & Hrun & Hent).
    exists t'. split; [done|]. right. split; [by left|done].
Qed.

(** The tables after the components [done]. *)
Definition tables_of (done : list (gset NTId)) (t : Tables) : Prop :=
  forall v,
    match t.1 !! v, t.2 !! v with
    | Some F, Some P =>
        exists scc, scc ∈ done /\ v ∈ scc /\ recursive_scc scc /\
                    F = scc ∩ first (nt_class v) conds /\ P = parents_in v scc
    | None, None => forall scc, scc ∈ done -> v ∈ scc -> ~ recursive_scc scc
    | _, _ => False
    end.

Lemma tables_run sccs :
  (forall scc v, scc ∈ sccs -> v ∈ scc -> v ∈ TYPES) ->
  exists t, for_each sccs (scc_step types_first) (∅, ∅) = (Ok tt, t) /\ tables_of sccs t.
Proof.
  intros Hsccs.
  assert (Hstep : forall pre scc post s, sccs = pre ++ scc :: post -> tables_of pre s ->
            match scc_step types_first scc s with
            | (Ok _, s') => tables_of (pre ++ [scc]) s'
            | (Raise e, _) => False
            end).
  { intros pre scc post s Hel HI.
    assert (Hin : scc ∈ sccs) by (rewrite Hel; apply elem_of_app; right; by left).
    destruct (scc_step_run scc s (fun v => Hsccs scc v Hin))
      as (s' & -> & [[Hnr ->]|[Hr Hent]]).
    - intros v. specialize (HI v).
      destruct (s.1 !! v) as [F|], (s.2 !! v) as [P|]; try done.
      + destruct HI as (scc' & ? & ?). exists scc'. split; [|done].
        apply elem_of_app. by left.
      + intros scc' [?| ->%list_elem_of_singleton]%elem_of_app ?; [by eapply HI|done].
    - intros v. specialize (HI v). destruct (Hent v) as [-> ->].
      destruct (decide (v ∈ scc)) as [Hv|Hv].
      + exists scc. split; [|done]. apply elem_of_app. right.
        by apply list_elem_of_singleton.
      + destruct (s.1 !! v) as [F|], (s.2 !! v) as [P|]; try done.
        * destruct HI as (scc' & ? & ?). exists scc'. split; [|done].
          apply elem_of_app. by left.
        * intros scc' [?| ->%list_elem_of_singleton]%elem_of_app ?; [by eapply HI|done]. }
  pose proof (for_each_cases tables_of (fun _ => False) sccs (scc_step types_first) Hstep (∅, ∅))
    as Hrun.
  assert (H0 : tables_of [] (∅, ∅)).
  { intros v. cbn. rewrite !lookup_empty. by intros scc ?%elem_of_nil. }
  specialize (Hrun H0).
  match type of Hrun with
  | (let (_, _) := ?c in _) =>
      change (for_each sccs (scc_step types_first) (∅, ∅)) with c; destruct c as [[[]|e] t]
  end; [|destruct Hrun].
  by exists t.
Qed.

Lemma other_member (scc : gset NTId) v :
  v ∈ scc -> size scc <> 1 -> exists u, u ∈ scc /\ u <> v.
Proof.
  intros Hv Hsz. destruct (set_choose_or_empty (scc ∖ {[v]})) as [[u Hu]|He].
  - apply elem_of_difference in Hu as [Hu Hne]. exists u. split; [done|].
    intros ->. apply Hne. by apply elem_of_singleton.
  - exfalso. apply Hsz. assert (scc = {[v]}) as ->; [|by rewrite size_singleton].
    apply set_eq. intros x. rewrite elem_of_singleton. split; [|by intros ->].
    intros Hx. destruct (decide (x = v)) as [|Hne]; [done|].
    assert (Hd : x ∈ scc ∖ {[v]}).
    { apply elem_of_difference. split; [done|]. by intros ?%elem_of_singleton. }
    rewrite He in Hd. by apply elem_of_empty in Hd.
Qed.

Lemma leads_to_next v u :
  leads_to v u -> u <> v -> exists w, first_of v w /\ leads_to w u.
Proof. intros H Hne. destruct H as [|v w u Hvw Hwu]; [done|]. eauto. Qed.

(** The tables in terms of the grammar, for the components of the graph. *)
Lemma tables_meaning sccs t v :
  tables_of sccs t ->
  (forall scc, scc ∈ sccs -> is_scc types_first scc) ->
  (forall v, v ∈ TYPES <-> exists scc, scc ∈ sccs /\ v ∈ scc) ->
  match t.1 !! v, t.2 !! v with
  | Some F, Some P =>
      left_recursive v /\
      (forall w, w ∈ F <-> first_of v w /\ leads_to w v) /\
      NoDup P /\
      (forall w, w ∈ P <-> first_of w v /\ leads_to v w)
  | None, None => ~ left_recursive v
  | _, _ => False
  end.
Proof.
  intros Ht Hscc Hcover. specialize (Ht v).
  destruct (t.1 !! v) as [F|], (t.2 !! v) as [P|]; try done.
  - destruct Ht as (scc & Hin & Hv & Hrec & -> & ->).
    destruct (Hscc scc Hin) as [Hconn Hmax].
    assert (Htypes : forall u, u ∈ scc -> u ∈ TYPES).
    { intros u Hu. apply Hcover. eauto. }
    assert (Hback : forall u, u ∈ scc -> leads_to u v /\ leads_to v u).
    { intros u Hu. split; apply types_first_path; by apply Hconn. }
    assert (Hmember : forall u, leads_to v u -> leads_to u v -> u ∈ scc).
    { intros u H1 H2. apply (Hmax v u Hv); by apply types_first_path. }
    split; [|split; [|split]].
    + assert (Hother : forall u, u ∈ scc -> u <> v -> left_recursive v).
      { intros u Hu Hne. destruct (Hback u Hu) as [Huv Hvu].
        destruct (leads_to_next v u Hvu Hne) as (w & Hvw & Hwu).
        exists w. split; [done|]. by etransitivity. }
      destruct Hrec as [Hsz|(u & Hu & Huu)].
      * destruct (other_member scc v Hv Hsz) as (u & Hu & Hne). by eapply Hother.
      * destruct (decide (u = v)) as [->|Hne]; [|by eapply Hother].
        exists v. split; [split; [by apply Htypes|done]|apply rtc_refl].
    + intros w. rewrite elem_of_intersection. split.
      * intros [Hw Hf]. split; [split; [by apply Htypes|done]|by apply Hback].
      * intros [[HvT Hf] Hwv]. split; [|done]. apply Hmember; [|done].
        by apply rtc_once.
    + apply NoDup_filter, NoDup_elements.
    + intros w. unfold parents_in. rewrite list_elem_of_filter, elem_of_elements. split.
      * intros [Hf Hw]. split; [split; [by apply Htypes|done]|by apply Hback].
      * intros [[HwT Hf] Hvw]. split; [done|]. apply Hmember; [done|].
        by apply rtc_once.
  - intros (w & [HvT Hf] & Hwv).
    apply Hcover in HvT as (scc & Hin & Hv).
    destruct (Hscc scc Hin) as [Hconn Hmax].
    apply (Ht scc Hin Hv).
    destruct (decide (size scc = 1)) as [Hsz|Hsz]; [right|by left].
    assert (Hw : w ∈ scc).
    { apply (Hmax v w Hv); apply types_first_path; [|done]. apply rtc_once. split; [|done].
      apply Hcover. eauto. }
    rewrite (size_singleton_inv scc w v Hsz Hw Hv) in Hf. eauto.
Qed.

End ParserConstructor.

(** What [IgneaParser(lexer)] returns, and the errors that end it. *)
Lemma IgneaParser_new_run fuel nt_class TYPES lexer_ :
  let conds := conditions (lexer lexer_) in
  match IgneaParser_new fuel nt_class TYPES lexer_ with
  | Ok p =>
      exists sccs t,
        starts nt_class conds TYPES = [_nonterminal_type_start p] /\
        p = mkParser lexer_ t.2 (mkBSR None ∅) (_nonterminal_type_start p) t.1 None ∅ /\
        first_sets_closed nt_class conds TYPES /\
        tables_of nt_class conds sccs t /\
        (forall scc, scc ∈ sccs -> is_scc (types_first nt_class conds TYPES) scc) /\
        (forall v, v ∈ TYPES <-> exists scc, scc ∈ sccs /\ v ∈ scc)
  | Raise e =>
      match e with
      | IgneaMultipleStartsError t => starts nt_class conds TYPES !! 1 = Some t
      | IgneaNoStartError => starts nt_class conds TYPES = []
      | KeyError =>
          length (starts nt_class conds TYPES) = 1 /\
          ~ first_sets_closed nt_class conds TYPES
      | OutOfFuel => length (starts nt_class conds TYPES) = 1 /\ fuel <= length TYPES
      | _ => False
      end
  end.
Proof.
  intros conds. unfold IgneaParser_new. fold conds.
  pose proof (post_init_types_cases nt_class conds TYPES None []) as Hinit.
  destruct (post_init_types nt_class conds TYPES None []) as [[start' firsts]|e].
  2:{ destruct Hinit as (t & -> & Ht). done. }
  destruct Hinit as [Hstart ->]. fold (starts nt_class conds TYPES) in Hstart.
  change (starts nt_class conds TYPES = option_list start') in Hstart.
  fold (types_first nt_class conds TYPES).
  destruct start' as [s|]; [|done].
  pose proof (ignea_compute_sccs_correct fuel (types_first nt_class conds TYPES)) as Hsccs.
  destruct (ignea_compute_sccs fuel (types_first nt_class conds TYPES)) as [sccs|e].
  2:{ destruct Hsccs as [[-> Hnc]|[-> Hf]].
      - split; [by rewrite Hstart|]. intros Hc. apply Hnc. by apply types_first_closed.
      - split; [by rewrite Hstart|]. etransitivity; [exact Hf|].
        etransitivity; [apply first_graph_length|]. cbn. lia. }
  destruct Hsccs as (Hclosed & _ & _ & Hcover & Hscc).
  assert (Hcover' : forall v, v ∈ TYPES <-> exists scc, scc ∈ sccs /\ v ∈ scc).
  { intros v. rewrite <- Hcover. symmetry. apply types_first_keys. }
  destruct (tables_run nt_class conds TYPES sccs) as (t & Hrun & Ht).
  { intros scc v Hin Hv. apply Hcover'. eauto. }
  rewrite Hrun. exists sccs, t. cbn [_nonterminal_type_start].
  split; [done|]. split; [done|].
  split; [by apply types_first_closed|]. done.
Qed.

(** [IgneaParser(lexer)] returns a parser exactly when one type of
    [NONTERMINAL_TYPES] is a starting symbol under the lexer's conditions and
    every type named by a [first] set is in [NONTERMINAL_TYPES] (and the
    fuel of the model suffices, which it does above the number of types).
    The parser returned has that starting symbol, the lexer given, an empty
    BSR and memo and no last terminal.  With no starting symbol the error is
    [IgneaNoStartError]; with several, [IgneaMultipleStartsError] of the
    second one; a [first] set that names a type outside [NONTERMINAL_TYPES]
    ends in a [KeyError]. *)
Theorem IgneaParser_new_cases fuel nt_class TYPES lexer_ :
  match IgneaParser_new fuel nt_class TYPES lexer_ with
  | Ok p =>
      starts nt_class (conditions (lexer lexer_)) TYPES = [_nonterminal_type_start p] /\
      first_sets_closed nt_class (conditions (lexer lexer_)) TYPES /\
      parser_lexer p = lexer_ /\ bsr p = mkBSR None ∅ /\ _eoi p = None /\ _memo p = ∅
  | Raise e =>
      match e with
      | IgneaMultipleStartsError t =>
          starts nt_class (conditions (lexer lexer_)) TYPES !! 1 = Some t
      | IgneaNoStartError => starts nt_class (conditions (lexer lexer_)) TYPES = []
      | KeyError =>
          length (starts nt_class (conditions (lexer lexer_)) TYPES) = 1 /\
          ~ first_sets_closed nt_class (conditions (lexer lexer_)) TYPES
      | OutOfFuel =>
          length (starts nt_class (conditions (lexer lexer_)) TYPES) = 1 /\
          fuel <= length TYPES
      | _ => False
      end
  end.
Proof.
  pose proof (IgneaParser_new_run fuel nt_class TYPES lexer_) as H. cbv zeta in H.
  destruct (IgneaParser_new fuel nt_class TYPES lexer_) as [p|e]; [|done].
  destruct H as (sccs & t & Hs & Hp & Hc & _). split; [done|]. split; [done|].
  rewrite Hp. done.
Qed.

(** The tables of left recursion of a parser [IgneaParser(lexer)] returns.
    A type has an entry in [_nonterminal_types_first], and one in
    [nonterminal_types_ascend_parents], exactly when it is left-recursive: it
    comes back to itself through the [first] sets.  Its entry in
    [_nonterminal_types_first] holds the types of its [first] set that lead
    back to it; its ascend parents are, without repetition, the types that
    have it in their [first] set and that it leads to. *)
Theorem left_recursion_tables fuel nt_class TYPES lexer_ p v :
  IgneaParser_new fuel nt_class TYPES lexer_ = Ok p ->
  (is_Some (_nonterminal_types_first p !! v)
   <-> left_recursive nt_class (conditions (lexer lexer_)) TYPES v) /\
  (is_Some (nonterminal_types_ascend_parents p !! v)
   <-> left_recursive nt_class (conditions (lexer lexer_)) TYPES v) /\
  (forall F, _nonterminal_types_first p !! v = Some F ->
     forall w, w ∈ F <->
               first_of nt_class (conditions (lexer lexer_)) TYPES v w /\
               leads_to nt_class (conditions (lexer lexer_)) TYPES w v) /\
  (forall P, nonterminal_types_ascend_parents p !! v = Some P ->
     NoDup P /\
     forall w, w ∈ P <->
               first_of nt_class (conditions (lexer lexer_)) TYPES w v /\
               leads_to nt_class (conditions (lexer lexer_)) TYPES v w).
Proof.
  intros Hnew.
  pose proof (IgneaParser_new_run fuel nt_class TYPES lexer_) as H. cbv zeta in H.
  rewrite Hnew in H. destruct H as (sccs & t & _ & -> & _ & Ht & Hscc & Hcover).
  pose proof (tables_meaning nt_class _ TYPES sccs t v Ht Hscc Hcover) as Hv.
  cbn [_nonterminal_types_first nonterminal_types_ascend_parents].
  destruct (t.1 !! v) as [F|], (t.2 !! v) as [P|]; try done.
  destruct Hv as (Hlr & HF & Hnd & HP).
  split; [split; eauto|]. split; [split; eauto|].
  split; [by intros ? [= <-]|by intros ? [= <-]].
Qed.

(** The documented relation of the two tables:
    [nonterminal_types_ascend_parents] is the inverse relation of
    [_nonterminal_types_first]. *)
Theorem ascend_parents_inverse_of_first fuel nt_class TYPES lexer_ p v w :
  IgneaParser_new fuel nt_class TYPES lexer_ = Ok p ->
  (exists P, nonterminal_types_ascend_parents p !! v = Some P /\ w ∈ P)
  <-> (exists F, _nonterminal_types_first p !! w = Some F /\ v ∈ F).
Proof.
  intros Hnew.
  pose proof (IgneaParser_new_run fuel nt_class TYPES lexer_) as H. cbv zeta in H.
  rewrite Hnew in H. destruct H as (sccs & t & _ & -> & _ & Ht & Hscc & Hcover).
  pose proof (tables_meaning nt_class _ TYPES sccs t v Ht Hscc Hcover) as Hv.
  pose proof (tables_meaning nt_class _ TYPES sccs t w Ht Hscc Hcover) as Hw.
  cbn [_nonterminal_types_first nonterminal_types_ascend_parents].
  split.
  - intros (P & HP & Hin). rewrite HP in Hv.
    destruct (t.1 !! v) as [Fv|]; [|done]. destruct Hv as (_ & _ & _ & Hv).
    apply Hv in Hin as [Hwv Hvw].
    destruct (t.1 !! w) as [F|], (t.2 !! w) as [Pw|]; try done.
    + exists F. split; [done|]. by apply Hw.
    + exfalso. apply Hw. by exists v.
  - intros (F & HF & Hin). rewrite HF in Hw.
    destruct (t.2 !! w) as [Pw|]; [|done]. destruct Hw as (_ & Hw & _).
    apply Hw in Hin as [Hwv Hvw].
    destruct (t.1 !! v) as [Fv|], (t.2 !! v) as [P|]; try done.
    + exists P. split; [done|]. by apply Hv.
    + exfalso. apply Hv. destruct (decide (w = v)) as [->|Hne].
      * exists v. split; [done|apply rtc_refl].
      * destruct (leads_to_next _ _ _ v w Hvw Hne) as (x & Hvx & Hxw).
        exists x. split; [done|]. eapply rtc_r; done.
Qed.

(** When [derive] is not told whether to ascend, a parser
    [IgneaParser(lexer)] returned ascends exactly when the callee is
    left-recursive and either no caller is given, or the callee is not a type
    of the caller's [first] set that leads back to the caller. *)
Theorem ascend_at_runtime_meaning fuel nt_class TYPES lexer_ p caller callee :
  IgneaParser_new fuel nt_class TYPES lexer_ = Ok p ->
  ascend_at_runtime (_nonterminal_types_first p) caller callee = true
  <-> left_recursive nt_class (conditions (lexer lexer_)) TYPES callee /\
      match caller with
      | None => True
      | Some c =>
          ~ (first_of nt_class (conditions (lexer lexer_)) TYPES c callee /\
             leads_to nt_class (conditions (lexer lexer_)) TYPES callee c)
      end.
Proof.
  intros Hnew.
  pose proof (IgneaParser_new_run fuel nt_class TYPES lexer_) as H. cbv zeta in H.
  rewrite Hnew in H. destruct H as (sccs & t & _ & -> & _ & Ht & Hscc & Hcover).
  pose proof (tables_meaning nt_class _ TYPES sccs t callee Ht Hscc Hcover) as Hcallee.
  cbn [_nonterminal_types_first]. unfold ascend_at_runtime.
  rewrite andb_true_iff, bool_decide_eq_true.
  assert (Hlr : is_Some (t.1 !! callee)
                <-> left_recursive nt_class (conditions (lexer lexer_)) TYPES callee).
  { destruct (t.1 !! callee) as [F|], (t.2 !! callee) as [P|]; try done.
    split; [by intros _; apply Hcallee|eauto]. }
  rewrite Hlr. destruct caller as [c|]; [|tauto].
  pose proof (tables_meaning nt_class _ TYPES sccs t c Ht Hscc Hcover) as Hc.
  destruct (t.1 !! c) as [F|], (t.2 !! c) as [P|]; try done.
  - destruct Hc as (_ & HF & _). rewrite negb_true_iff, bool_decide_eq_false, HF. tauto.
  - split; [|tauto]. intros [_ H]. split; [done|]. intros [Hcc Hback].
    apply Hc. by exists callee.
Qed.

(** The parser of [SumParser] over an empty input. *)
Definition sum_lexer : LexState := fresh_lexer "f" [] 0%N empty_cache None.

Definition sum_parser : IgneaParser :=
  mkParser sum_lexer {[SumParser.E := [SumParser.E]]} (mkBSR None ∅) SumParser.E
           {[SumParser.E := {[SumParser.E]}]} None ∅.

Lemma sum_parser_new :
  IgneaParser_new 5 SumParser.nt_class SumParser.NONTERMINAL_TYPES sum_lexer
  = Ok sum_parser.
Proof. vm_compute. reflexivity. Qed.

Lemma left_recursion_tables_witness :
  left_recursive SumParser.nt_class 0%N SumParser.NONTERMINAL_TYPES SumParser.E /\
  (forall w, w ∈ [SumParser.E] <->
             first_of SumParser.nt_class 0%N SumParser.NONTERMINAL_TYPES w SumParser.E /\
             leads_to SumParser.nt_class 0%N SumParser.NONTERMINAL_TYPES SumParser.E w).
Proof.
  destruct (left_recursion_tables 5 SumParser.nt_class SumParser.NONTERMINAL_TYPES
              sum_lexer sum_parser SumParser.E sum_parser_new) as (H1 & _ & _ & H4).
  split.
  - apply H1. vm_compute. eauto.
  - apply (H4 [SumParser.E]). vm_compute. reflexivity.
Defined.

Lemma ascend_parents_inverse_of_first_witness :
  (exists P, nonterminal_types_ascend_parents sum_parser !! SumParser.E = Some P /\
             SumParser.E ∈ P)
  <-> (exists F, _nonterminal_types_first sum_parser !! SumParser.E = Some F /\
                 SumParser.E ∈ F).
Proof.
  exact (ascend_parents_inverse_of_first 5 SumParser.nt_class SumParser.NONTERMINAL_TYPES
           sum_lexer sum_parser SumParser.E SumParser.E sum_parser_new).
Defined.

Lemma ascend_at_runtime_meaning_witness :
  ~ left_recursive SumParser.nt_class 0%N SumParser.NONTERMINAL_TYPES SumParser.T.
Proof.
  intros Hlr.
  pose proof (proj2 (ascend_at_runtime_meaning 5 SumParser.nt_class
                       SumParser.NONTERMINAL_TYPES sum_lexer sum_parser None
                       SumParser.T sum_parser_new) (conj Hlr I)) as H.
  vm_compute in H. discriminate.
Defined.

(** ** The parser's constructor, component by component *)

(** The component of a node is unique. *)
Lemma is_scc_unique graph (C D : gset NTId) v :
  is_scc graph C -> is_scc graph D -> v ∈ C -> v ∈ D -> C = D.
Proof.
  intros [HC1 HC2] [HD1 HD2] Hc Hd. apply set_eq. intros u. split; intros Hu.
  - apply (HD2 v u Hd); by apply HC1.
  - apply (HC2 v u Hc); by apply HD1.
Qed.

(** The entries of a type [v] of the parser, by the component [scc] of [v]
    in the graph of the [first] sets. *)
Lemma tables_by_component fuel nt_class TYPES lexer_ p scc v :
  IgneaParser_new fuel nt_class TYPES lexer_ = Ok p ->
  is_scc (types_first nt_class (conditions (lexer lexer_)) TYPES) scc ->
  v ∈ TYPES -> v ∈ scc ->
  (~ recursive_scc nt_class (conditions (lexer lexer_)) scc /\
   _nonterminal_types_first p !! v = None /\
   nonterminal_types_ascend_parents p !! v = None) \/
  (recursive_scc nt_class (conditions (lexer lexer_)) scc /\
   _nonterminal_types_first p !! v
   = Some (scc ∩ first (nt_class v) (conditions (lexer lexer_))) /\
   nonterminal_types_ascend_parents p !! v
   = Some (parents_in nt_class (conditions (lexer lexer_)) v scc)).
Proof.
  intros Hnew Hscc HvT Hv.
  pose proof (IgneaParser_new_run fuel nt_class TYPES lexer_) as H. cbv zeta in H.
  rewrite Hnew in H. destruct H as (sccs & t & _ & -> & _ & Ht & Hsccs & Hcover).
  cbn [_nonterminal_types_first nonterminal_types_ascend_parents].
  destruct (proj1 (Hcover v) HvT) as (scc' & Hin & Hv').
  assert (scc' = scc) as -> by (eapply is_scc_unique; eauto).
  specialize (Ht v).
  destruct (t.1 !! v) as [F|], (t.2 !! v) as [P|]; try done.
  - destruct Ht as (scc'' & Hin'' & Hv'' & Hrec & -> & ->).
    assert (scc'' = scc) as -> by (eapply is_scc_unique; eauto).
    right. done.
  - left. split; [by apply Ht|done].
Qed.

(** C5.  The constructor and the components of the graph of the [first]
    sets.  A type whose component has one node and that is not in its own
    [first] set gets no entry, in [_nonterminal_types_first] or in
    [nonterminal_types_ascend_parents].  A type whose component has more
    than one node, or that is in its own [first] set, gets both: the types
    of its [first] set that are in its component, and, without repetition,
    the types of its component that have it in their [first] set. *)
Theorem scc_without_self_loop_is_skipped fuel nt_class TYPES lexer_ p scc v :
  IgneaParser_new fuel nt_class TYPES lexer_ = Ok p ->
  is_scc (types_first nt_class (conditions (lexer lexer_)) TYPES) scc ->
  v ∈ TYPES -> v ∈ scc ->
  (size scc = 1 /\ v ∉ first (nt_class v) (conditions (lexer lexer_)) ->
   _nonterminal_types_first p !! v = None /\
   nonterminal_types_ascend_parents p !! v = None) /\
  (size scc <> 1 \/ v ∈ first (nt_class v) (conditions (lexer lexer_)) ->
   _nonterminal_types_first p !! v
   = Some (scc ∩ first (nt_class v) (conditions (lexer lexer_))) /\
   exists parents,
     nonterminal_types_ascend_parents p !! v = Some parents /\ NoDup parents /\
     forall w, w ∈ parents <->
               w ∈ scc /\ v ∈ first (nt_class w) (conditions (lexer lexer_))).
Proof.
  intros Hnew Hscc HvT Hv.
  destruct (tables_by_component _ _ _ _ _ _ _ Hnew Hscc HvT Hv)
    as [(Hnr & H1 & H2)|(Hr & H1 & H2)]; split.
  - done.
  - intros Hrec. destruct Hnr. destruct Hrec as [?|?]; [by left|right; eauto].
  - intros [Hsz Hnf]. destruct Hr as [?|(u & Hu & Hf)]; [done|].
    by rewrite (size_singleton_inv scc u v Hsz Hu Hv) in Hf.
  - intros _. split; [done|]. eexists. split; [exact H2|]. split.
    + apply NoDup_filter, NoDup_elements.
    + intros w. unfold parents_in. rewrite list_elem_of_filter, elem_of_elements. tauto.
Qed.

(** The component of [T] in the grammar of sums: [T] alone, whose [first]
    set is empty. *)
Lemma sum_T_component :
  is_scc (types_first SumParser.nt_class 0%N SumParser.NONTERMINAL_TYPES) {[SumParser.T]}.
Proof.
  split.
  - intros x y ->%elem_of_singleton ->%elem_of_singleton. apply rtc_refl.
  - intros x y ->%elem_of_singleton Hxy _. apply elem_of_singleton.
    apply rtc_inv in Hxy as [<-|(w & (succ & Hs & Hw) & _)]; [done|].
    rewrite types_first_lookup in Hs. case_decide; [|done].
    injection Hs as <-. by apply elem_of_empty in Hw.
Qed.

Lemma scc_without_self_loop_is_skipped_witness :
  _nonterminal_types_first sum_parser !! SumParser.T = None /\
  nonterminal_types_ascend_parents sum_parser !! SumParser.T = None.
Proof.
  refine (proj1 (scc_without_self_loop_is_skipped 5 SumParser.nt_class
                   SumParser.NONTERMINAL_TYPES sum_lexer sum_parser {[SumParser.T]}
                   SumParser.T sum_parser_new sum_T_component _ _) _).
  - apply elem_of_cons. right. apply elem_of_cons. by left.
  - by apply elem_of_singleton.
  - split; [apply size_singleton|]. cbn. apply not_elem_of_empty.
Defined.







(** ** The lexer's constructor: the off-side tags *)

Section LexerConstructor.

Variable tag_class : TagId -> IgneaTerminalTag.
Variable conds : IgneaConditions.

(** The started tags that are indent tags, and the started tags that are
    dedent tags and no indent tags, in the order of [TERMINAL_TAGS]. *)
Definition indent_tags (tags : list TagId) : list TagId :=
  filter (fun t => start (tag_class t) conds && indent (tag_class t) conds) tags.

Definition dedent_tags (tags : list TagId) : list TagId :=
  filter (fun t => start (tag_class t) conds && negb (indent (tag_class t) conds)
                   && dedent (tag_class t) conds) tags.

Lemma post_init_loop_cases tags offside c :
  match post_init_loop tag_class conds tags offside c with
  | Ok (offside', c') =>
      option_list offside.1 ++ indent_tags tags = option_list offside'.1 /\
      option_list offside.2 ++ dedent_tags tags = option_list offside'.2
  | Raise e =>
      match e with
      | IgneaMultipleIndentsError t =>
          (option_list offside.1 ++ indent_tags tags) !! 1 = Some t
      | IgneaMultipleDedentsError t =>
          (option_list offside.2 ++ dedent_tags tags) !! 1 = Some t
      | _ => False
      end
  end.
Proof.
  revert offside c. induction tags as [|t tags IH]; intros [o0 o1] c.
  - cbn. by rewrite !app_nil_r.
  - cbn [post_init_loop fst snd]. unfold indent_tags, dedent_tags.
    rewrite !filter_cons. fold (indent_tags tags) (dedent_tags tags).
    destruct (start (tag_class t) conds) eqn:Es; cbn [andb negb].
    + destruct (indent (tag_class t) conds) eqn:Ei; cbn [andb negb].
      * rewrite decide_True by done. rewrite decide_False by (by intros ?).
        destruct o0 as [i|]; [done|]. apply (IH (Some t, o1)).
      * rewrite decide_False by (by intros ?).
        destruct (dedent (tag_class t) conds) eqn:Ed.
        -- rewrite decide_True by done.
           destruct o1 as [d|]; [done|]. apply (IH (o0, Some t)).
        -- rewrite decide_False by (by intros ?). apply (IH (o0, o1)).
    + rewrite !decide_False by (by intros ?). apply (IH (o0, o1)).
Qed.

End LexerConstructor.

(** [IgneaLexer(filename, input, conditions)] returns a lexer exactly when
    the started tags hold no indent tag and no dedent tag, and the off-side
    rule is then inactive, or one of each, which are then the off-side tags
    of the cache and of the off-side driver, whose stack holds the level 1.
    A tag that is both an indent and a dedent tag counts as an indent tag.
    A second indent tag raises [IgneaMultipleIndentsError], a second dedent
    tag [IgneaMultipleDedentsError], and one of the two without the other
    [IgneaMissingOffsideError] of the tag found. *)
Theorem IgneaLexer_new_cases tag_class TERMINAL_TAGS fname inp conds :
  match IgneaLexer_new tag_class TERMINAL_TAGS fname inp conds with
  | Ok s =>
      terminal_tags (the_offside s) = terminal_tags_offside (the_cache s) /\
      _stack (the_offside s) = [1] /\
      match terminal_tags_offside (the_cache s) with
      | None =>
          indent_tags tag_class conds TERMINAL_TAGS = [] /\
          dedent_tags tag_class conds TERMINAL_TAGS = []
      | Some (i, d) =>
          indent_tags tag_class conds TERMINAL_TAGS = [i] /\
          dedent_tags tag_class conds TERMINAL_TAGS = [d]
      end
  | Raise e =>
      match e with
      | IgneaMultipleIndentsError t =>
          indent_tags tag_class conds TERMINAL_TAGS !! 1 = Some t
      | IgneaMultipleDedentsError t =>
          dedent_tags tag_class conds TERMINAL_TAGS !! 1 = Some t
      | IgneaMissingOffsideError t =>
          (indent_tags tag_class conds TERMINAL_TAGS = [t] /\
           dedent_tags tag_class conds TERMINAL_TAGS = []) \/
          (indent_tags tag_class conds TERMINAL_TAGS = [] /\
           dedent_tags tag_class conds TERMINAL_TAGS = [t])
      | _ => False
      end
  end.
Proof.
  unfold IgneaLexer_new.
  pose proof (post_init_loop_cases tag_class conds TERMINAL_TAGS (None, None) empty_cache)
    as H.
  destruct (post_init_loop tag_class conds TERMINAL_TAGS (None, None) empty_cache)
    as [[[o0 o1] c]|e]; [|destruct e; done ||exact H].
  cbn in H. destruct H as [Hi Hd].
  destruct o0 as [i|], o1 as [d|]; cbn in *; auto.
Qed.

(** ** The off-side rule: the end of the input and indentation *)

Lemma _get_offside_terminal_total sp cur ind s i d :
  terminal_tags (the_offside s) = Some (i, d) ->
  exists t s', _get_offside_terminal sp cur ind s = (Ok t, s').
Proof.
  intros Htt. unfold _get_offside_terminal, bind, new_position, gets, new_terminal.
  cbn in *. rewrite Htt. cbn. eauto.
Qed.

Lemma drain_total n sp cur s i d :
  terminal_tags (the_offside s) = Some (i, d) ->
  n <= length (_stack (the_offside s)) ->
  exists r s', drain n sp cur s = (Ok r, s').
Proof.
  revert cur s. induction n as [|n IH]; intros cur s Htt Hn; cbn [drain]; [by eauto|].
  destruct (_get_offside_terminal_total sp cur false s i d Htt) as (t & s1 & E1).
  apply _get_offside_terminal_Ok in E1 as Hs1. destruct Hs1 as (i' & d' & _ & _ & Hs1).
  destruct (_stack (the_offside s)) as [|top rest] eqn:Hst; [cbn in Hn; lia|].
  edestruct (IH (Some t) (with_lexer (restack rest) s1)) as (r & s' & Hr).
  - by subst s1.
  - subst s1. cbn in *. lia.
  - exists r, s'. unfold bind at 1. rewrite E1. unfold bind at 1.
    unfold pop_stack, bind, gets. subst s1. cbn in *. rewrite Hst. cbn. exact Hr.
Qed.

(** At the end of the input, with the off-side rule active,
    [prepend_offside_terminals] does not fail: it makes one dedent terminal
    at [start_position] for every level of the stack but the bottom one,
    linked into a list that it returns the head of ([None] when the stack
    holds one level), and leaves the bottom level on the stack. *)
Theorem end_of_input_dedents sp s i d :
  terminal_tags (the_offside s) = Some (i, d) ->
  exists r s',
    prepend_offside_terminals sp None s = (Ok r, s') /\
    lexer s' = restack (drop (length (_stack (the_offside s)) - 1) (_stack (the_offside s)))
                       (lexer s) /\
    batch d sp (length (_stack (the_offside s)) - 1) None r (store s) (store s').
Proof.
  intros Htt.
  destruct (drain_total (length (_stack (the_offside s)) - 1) sp None s i d Htt)
    as (r & s' & Hrun); [lia|].
  destruct (drain_Ok _ _ _ _ _ _ _ _ Hrun Htt) as (Hl & _ & Hb).
  exists r, s'. split; [|done].
  unfold prepend_offside_terminals, bind, gets. by rewrite Htt.
Qed.

(** A terminal whose line starts at or above the top level of the stack,
    with the off-side rule active: above it, one indent terminal at
    [start_position] goes in front of the terminal and the column is pushed;
    at it, nothing is done. *)
Theorem indent_or_same_level sp c s i d top rest :
  terminal_tags (the_offside s) = Some (i, d) ->
  _stack (the_offside s) = top :: rest ->
  top <= column sp ->
  exists r s',
    prepend_offside_terminals sp (Some c) s = (Ok r, s') /\
    if decide (top = column sp) then r = Some c /\ s' = s
    else r = Some (length (terminals (store s))) /\
         lexer s' = restack (column sp :: top :: rest) (lexer s) /\
         batch i sp 1 (Some c) r (store s) (store s').
Proof.
  intros Htt Hst Hle.
  unfold prepend_offside_terminals. unfold bind at 1. unfold gets at 1.
  rewrite Htt, Hst. unfold bind at 1. unfold from_option at 1. cbn [head ret].
  rewrite (proj2 (Nat.ltb_ge _ _) Hle).
  destruct (decide (top = column sp)) as [->|Hne].
  - rewrite Nat.ltb_irrefl. eauto.
  - rewrite (proj2 (Nat.ltb_lt top (column sp))) by lia.
    destruct (_get_offside_terminal_total sp (Some c) true s i d Htt) as (t & s1 & E1).
    apply _get_offside_terminal_Ok in E1 as Hs1.
    destruct Hs1 as (i' & d' & Htt' & -> & ->).
    rewrite Htt in Htt'. injection Htt' as <- <-.
    unfold bind at 1. rewrite E1. unfold bind at 1.
    unfold upd_offside, upd_store, modify, ret. cbn in *. rewrite Hst.
    eexists _, _. split; [reflexivity|]. cbn.
    split; [done|]. split; [done|]. apply (batch_one i sp (Some c) s).
Qed.

(** *** The off-side NFA *)

(** The states of the off-side driver after the characters [chars]. *)
Definition offside_states (state : IgneaLexingState) (chars : list ascii)
  : IgneaLexingState :=
  foldl (fun q c => (offside_nfa q c).2) state chars.

(** Whether a character may still be the first of its line that is no
    white space: the line holds tabs and spaces only so far. *)
Definition blank_so_far (chars : list ascii) : bool :=
  foldl (fun b c => is_newline c || (b && is_blank c)) true chars.

Definition offside_state_of (b : bool) : IgneaLexingState :=
  if b then OFFSIDE_STATES_START else N.lor (N.shiftl 1 0) (N.shiftl 1 3).

Lemma offside_nfa_step b c :
  offside_nfa (offside_state_of b) c
  = (b && negb (is_white c), offside_state_of (is_newline c || (b && is_blank c))).
Proof.
  unfold is_white, is_blank, is_newline.
  destruct (Ascii.eqb c newline) eqn:En.
  - apply Ascii.eqb_eq in En. subst c. by destruct b.
  - destruct (Ascii.eqb c tab) eqn:Et.
    + apply Ascii.eqb_eq in Et. subst c. by destruct b.
    + destruct (Ascii.eqb c space) eqn:Es.
      * apply Ascii.eqb_eq in Es. subst c. by destruct b.
      * unfold offside_nfa, is_white, is_blank, is_newline. rewrite En, Et, Es.
        by destruct b.
Qed.

Lemma offside_states_of b chars :
  offside_states (offside_state_of b) chars
  = offside_state_of (foldl (fun b c => is_newline c || (b && is_blank c)) b chars).
Proof.
  revert b. induction chars as [|c chars IH]; intros b; cbn; [done|].
  rewrite offside_nfa_step. cbn [snd]. apply IH.
Qed.

(** [_IgneaOffside.nfa] returns [True] exactly for the first character of a
    line that is no white space: run from the starting states over [chars],
    it accepts the next character [c] exactly when [c] is no white space and
    the characters since the last newline are tabs and spaces. *)
Theorem offside_nfa_first_of_line chars c :
  (offside_nfa (offside_states OFFSIDE_STATES_START chars) c).1
  = blank_so_far chars && negb (is_white c).
Proof.
  change OFFSIDE_STATES_START with (offside_state_of true).
  by rewrite offside_states_of, offside_nfa_step.
Qed.

(** ** Empty input *)

(** On the empty input a lexer has no terminal: the first call of
    [next_terminal] returns [None] at once, whatever the tags, the conditions
    and the fuel, and leaves the lexer as the constructor made it. *)
Theorem empty_input_no_terminal tag_class TERMINAL_TAGS fname conds s fuel :
  IgneaLexer_new tag_class TERMINAL_TAGS fname [] conds = Ok s ->
  next_terminal tag_class fuel None s = (Ok None, s).
Proof.
  intros Hnew. apply IgneaLexer_new_Ok in Hnew as (c & pair & -> & _ & _).
  unfold next_terminal, fresh_lexer, bind, gets, _get_terminal, read_position. cbn.
  unfold prepend_offside_terminals, bind, gets. cbn.
  by destruct pair as [[i d]|].
Qed.

(** A lexer with three levels of indentation open. *)
Definition three_levels : LexState :=
  with_lexer (restack [5; 3; 1])
    (fresh_lexer "f" [] 0%N empty_cache (Some (OffsideLexer.INDENT, OffsideLexer.DEDENT))).

Lemma end_of_input_dedents_witness :
  exists r s',
    prepend_offside_terminals (mkPosition "f" 9 4 1) None three_levels = (Ok r, s') /\
    r = Some 1 /\ _stack (the_offside s') = [1] /\ length (terminals (store s')) = 2.
Proof.
  destruct (end_of_input_dedents (mkPosition "f" 9 4 1) three_levels
              OffsideLexer.INDENT OffsideLexer.DEDENT eq_refl)
    as (r & s' & Hrun & Hl & Hb).
  exists r, s'. split; [exact Hrun|].
  destruct Hb as (newP & newT & _ & HT & Hlen & _ & _ & _ & Hr & _).
  split; [exact Hr|]. split.
  - unfold the_offside, the_store. rewrite Hl. reflexivity.
  - rewrite HT, length_app, Hlen. reflexivity.
Defined.

Lemma indent_or_same_level_witness :
  exists r s',
    prepend_offside_terminals (mkPosition "f" 9 4 8) (Some 0) three_levels = (Ok r, s') /\
    _stack (the_offside s') = [8; 5; 3; 1].
Proof.
  destruct (indent_or_same_level (mkPosition "f" 9 4 8) 0 three_levels
              OffsideLexer.INDENT OffsideLexer.DEDENT 5 [3; 1] eq_refl eq_refl)
    as (r & s' & Hrun & Hcase); [cbn; lia|].
  exists r, s'. split; [exact Hrun|].
  destruct (decide (5 = column (mkPosition "f" 9 4 8))) as [Heq|_]; [discriminate Heq|].
  destruct Hcase as (_ & Hl & _).
  unfold the_offside, the_store. rewrite Hl. reflexivity.
Defined.

Lemma empty_input_no_terminal_witness :
  exists s,
    IgneaLexer_new OffsideLexer.tag_class OffsideLexer.TERMINAL_TAGS "f" [] 0%N = Ok s /\
    next_terminal OffsideLexer.tag_class 0 None s = (Ok None, s).
Proof.
  destruct (IgneaLexer_new OffsideLexer.tag_class OffsideLexer.TERMINAL_TAGS "f" [] 0%N)
    as [s|e] eqn:E; [|vm_compute in E; discriminate E].
  exists s. split; [reflexivity|].
  exact (empty_input_no_terminal _ _ _ _ _ 0 E).
Defined.

(** ** The parser: what [derive] keeps *)

(** *** The lexer does not raise [IgneaDerivationException] *)

Definition never_derivation {S A} (c : M S A) : Prop :=
  forall s e s', c s = (Raise e, s') -> e <> IgneaDerivationException.

Lemma nd_ret {S A} (a : A) : never_derivation (@ret S A a).
Proof. by intros s e s' [=]. Qed.

Lemma nd_gets {S A} (f : S -> A) : never_derivation (gets f).
Proof. by intros s e s' [=]. Qed.

Lemma nd_modify {S} (f : S -> S) : never_derivation (modify f).
Proof. by intros s e s' [=]. Qed.

Lemma nd_raise {S A} e : e <> IgneaDerivationException -> never_derivation (@raise S A e).
Proof. by intros He s e' s' [= <- _]. Qed.

Lemma nd_from_option {S A} e (o : option A) :
  e <> IgneaDerivationException -> never_derivation (@from_option S A e o).
Proof. intros He. destruct o; [apply nd_ret|by apply nd_raise]. Qed.

Lemma nd_bind {S A B} (c : M S A) (k : A -> M S B) :
  never_derivation c -> (forall a, never_derivation (k a)) -> never_derivation (bind c k).
Proof.
  intros Hc Hk s e s'. unfold bind. destruct (c s) as [[a|e1] s1] eqn:E.
  - apply Hk.
  - intros [= <- <-]. by eapply Hc.
Qed.

Lemma nd_for_each {S A} (l : list A) (body : A -> M S unit) :
  (forall a, never_derivation (body a)) -> never_derivation (for_each l body).
Proof.
  intros Hb. induction l as [|a l IH]; cbn [for_each]; [apply nd_ret|].
  apply nd_bind; [apply Hb|by intros _].
Qed.

Lemma nd_new_position p : never_derivation (new_position p).
Proof. by intros s e s' [=]. Qed.

Lemma nd_new_terminal t : never_derivation (new_terminal t).
Proof. by intros s e s' [=]. Qed.

Create HintDb nd discriminated.
#[local] Hint Resolve nd_ret nd_gets nd_modify nd_new_position nd_new_terminal : nd.

Ltac nd_step :=
  match goal with
  | |- never_derivation (bind _ _) => apply nd_bind; [|intros ?]
  | |- never_derivation (raise _) => apply nd_raise; discriminate
  | |- never_derivation (from_option _ _) => apply nd_from_option; discriminate
  | |- never_derivation (for_each _ _) => apply nd_for_each; intros ?
  | |- never_derivation (upd_store _) => apply nd_modify
  | |- never_derivation (upd_cache _) => apply nd_modify
  | |- never_derivation (upd_offside _) => apply nd_modify
  | |- never_derivation (if ?b then _ else _) => destruct b
  | |- never_derivation (match ?o with _ => _ end) => destruct o
  | |- never_derivation _ => solve [auto with nd]
  end.
Ltac nd := repeat nd_step.

Lemma nd_read_position r : never_derivation (read_position r).
Proof. unfold read_position. nd. Qed.

Lemma nd_read_terminal r : never_derivation (read_terminal r).
Proof. unfold read_terminal. nd. Qed.
#[local] Hint Resolve nd_read_position nd_read_terminal : nd.

Lemma nd_update_position r p : never_derivation (update_position r p).
Proof. unfold update_position. nd. Qed.

Lemma nd_write_terminal r t : never_derivation (write_terminal r t).
Proof. unfold write_terminal. nd. Qed.
#[local] Hint Resolve nd_update_position nd_write_terminal : nd.

Lemma nd__IgneaOffside_nfa c : never_derivation (_IgneaOffside_nfa c).
Proof. unfold _IgneaOffside_nfa. nd. Qed.

Lemma nd__get_offside_terminal sp cur ind :
  never_derivation (_get_offside_terminal sp cur ind).
Proof. unfold _get_offside_terminal. nd. Qed.

Lemma nd_pop_stack : never_derivation pop_stack.
Proof. unfold pop_stack. nd. Qed.
#[local] Hint Resolve nd__IgneaOffside_nfa nd__get_offside_terminal nd_pop_stack : nd.

Lemma nd_drain n sp cur : never_derivation (drain n sp cur).
Proof. revert cur. induction n as [|n IH]; intros cur; cbn [drain]; nd. Qed.

Lemma nd_dedent_while stack sp cur : never_derivation (dedent_while stack sp cur).
Proof.
  revert cur. induction stack as [|top rest IH]; intros cur; cbn [dedent_while]; nd.
Qed.
#[local] Hint Resolve nd_drain nd_dedent_while : nd.

Lemma nd_prepend_offside_terminals sp cur :
  never_derivation (prepend_offside_terminals sp cur).
Proof. unfold prepend_offside_terminals. nd. Qed.
#[local] Hint Resolve nd_prepend_offside_terminals : nd.

Section LexerNeverDerivation.

Variable tag_class : TagId -> IgneaTerminalTag.

Lemma nd__process_nfas c : never_derivation (_process_nfas tag_class c).
Proof. unfold _process_nfas. nd. Qed.

Lemma nd_positives_loop fuel P : never_derivation (positives_loop fuel P).
Proof. revert P. induction fuel as [|fuel IH]; intros P; cbn [positives_loop]; nd. Qed.

Lemma nd_negatives_loop fuel : never_derivation (negatives_loop fuel).
Proof. induction fuel as [|fuel IH]; cbn [negatives_loop]; nd. Qed.
#[local] Hint Resolve nd__process_nfas nd_positives_loop nd_negatives_loop : nd.

Lemma nd__process_positives_negatives fuel P :
  never_derivation (_process_positives_negatives fuel P).
Proof. unfold _process_positives_negatives. nd. Qed.

Lemma nd_run_offside start indices b : never_derivation (run_offside start indices b).
Proof.
  revert b. induction indices as [|i indices IH]; intros b; cbn [run_offside]; nd.
Qed.
#[local] Hint Resolve nd__process_positives_negatives nd_run_offside : nd.

Lemma nd_scan fuel l : never_derivation (scan tag_class fuel l).
Proof.
  revert l. induction fuel as [|fuel IH]; intros l; cbn [scan]; nd.
Qed.

Lemma nd_refine_accepted fuel A : never_derivation (refine_accepted fuel A).
Proof. unfold refine_accepted. nd. Qed.

Lemma nd_emit_terminal l A : never_derivation (emit_terminal l A).
Proof. unfold emit_terminal. nd. Qed.
#[local] Hint Resolve nd_scan nd_refine_accepted nd_emit_terminal : nd.

Lemma nd_get_terminal_loop fuel l : never_derivation (get_terminal_loop tag_class fuel l).
Proof.
  revert l. induction fuel as [|fuel IH]; intros l; cbn [get_terminal_loop]; nd.
Qed.
#[local] Hint Resolve nd_get_terminal_loop : nd.

Lemma nd__get_terminal fuel p : never_derivation (_get_terminal tag_class fuel p).
Proof. unfold _get_terminal. nd. Qed.
#[local] Hint Resolve nd__get_terminal : nd.

Lemma nd_next_terminal fuel cur : never_derivation (next_terminal tag_class fuel cur).
Proof. unfold next_terminal. nd. Qed.

End LexerNeverDerivation.

Lemma nd_start_index t : never_derivation (start_index t).
Proof. unfold start_index. nd. Qed.
#[local] Hint Resolve nd_start_index : nd.

Lemma nd_eoi_walk fuel n eoi : never_derivation (eoi_walk fuel n eoi).
Proof.
  revert eoi. induction fuel as [|fuel IH]; intros eoi; cbn [eoi_walk]; nd.
Qed.

(** *** The store only grows *)

Lemma next_terminal_grows tag_class fuel cur s r s' :
  next_terminal tag_class fuel cur s = (Ok r, s') -> lexer_inv tag_class s ->
  length (terminals (store s)) <= length (terminals (store s')).
Proof.
  intros H Hinv.
  apply next_terminal_cases in H
    as [(n & _ & _ & ->)|(_ & _ & p & s1 & Hg & _ & Hlen & _)]; [done|].
  rewrite Hlen. apply _get_terminal_Ok in Hg; [|by destruct Hinv..].
  destruct (em_grows _ _ _ _ _ Hg) as (newP & newT & _ & HT & _).
  rewrite HT, length_app. lia.
Qed.

(** *** The invariant of the parser *)

Section DeriveKeeps.

Variable tag_class : TagId -> IgneaTerminalTag.

(** The lexer is in a state a lexer reaches, and [_eoi], when set, is a
    terminal of the store. *)
Record parser_inv (p : IgneaParser) : Prop := {
  pi_lexer : lexer_inv tag_class (parser_lexer p);
  pi_eoi : forall e, _eoi p = Some e -> e < length (terminals (store (parser_lexer p)))
}.

(** What a derivation may do to the parser: the starting symbol and the
    tables of left recursion stay, and so do the constants of the lexer and
    [bsr.start]; the store, the sets of the BSR and those of the memo only
    grow; [_eoi], once set, stays set. *)
Record derives (p p' : IgneaParser) : Prop := {
  dv_inv : parser_inv p';
  dv_statics : statics (parser_lexer p') = statics (parser_lexer p);
  dv_terminals : length (terminals (store (parser_lexer p)))
                 <= length (terminals (store (parser_lexer p')));
  dv_start : _nonterminal_type_start p' = _nonterminal_type_start p;
  dv_first : _nonterminal_types_first p' = _nonterminal_types_first p;
  dv_parents : nonterminal_types_ascend_parents p' = nonterminal_types_ascend_parents p;
  dv_bsr_start : bsr_start (bsr p') = bsr_start (bsr p);
  dv_epns : forall k E, epns (bsr p) !! k = Some E ->
                        exists E', epns (bsr p') !! k = Some E' /\ E ⊆ E';
  dv_memo : forall k T, _memo p !! k = Some T ->
                        exists T', _memo p' !! k = Some T' /\ T ⊆ T';
  dv_eoi : is_Some (_eoi p) -> is_Some (_eoi p')
}.

Lemma derives_refl p : parser_inv p -> derives p p.
Proof. intros Hp. split; eauto. Qed.

Lemma derives_trans p1 p2 p3 : derives p1 p2 -> derives p2 p3 -> derives p1 p3.
Proof.
  intros [? H1 ? ? ? ? ? He1 Hm1 ?] [? H2 ? ? ? ? ? He2 Hm2 ?].
  split; try congruence; eauto.
  - lia.
  - intros k E HE. destruct (He1 k E HE) as (E1 & HE1 & ?).
    destruct (He2 k E1 HE1) as (E2 & HE2 & ?). exists E2. split; [done|set_solver].
  - intros k T HT. destruct (Hm1 k T HT) as (T1 & HT1 & ?).
    destruct (Hm2 k T1 HT1) as (T2 & HT2 & ?). exists T2. split; [done|set_solver].
Qed.

(** [c] keeps the invariant from the states [P] holds of, when it returns
    and when it raises [IgneaDerivationException]. *)
Definition keeps {A} (P : IgneaParser -> Prop) (c : M IgneaParser A) : Prop :=
  forall p r p', parser_inv p -> P p -> c p = (r, p') -> passed_over r -> derives p p'.

Definition stable (P : IgneaParser -> Prop) : Prop :=
  forall p p', derives p p' -> P p -> P p'.

(** [t] is a terminal of the store. *)
Definition valid (t : nat) (p : IgneaParser) : Prop :=
  t < length (terminals (store (parser_lexer p))).

Lemma stable_True : stable (fun _ => True).
Proof. done. Qed.

Lemma stable_valid t : stable (valid t).
Proof. intros p p' Hd Ht. unfold valid in *. pose proof (dv_terminals _ _ Hd). lia. Qed.

Lemma k_weaken {A} (P P' : IgneaParser -> Prop) (c : M IgneaParser A) :
  (forall p, P p -> P' p) -> keeps P' c -> keeps P c.
Proof. intros HP Hc p r p' Hinv Hp. apply Hc; auto. Qed.

Lemma k_ret {A} P (a : A) : keeps P (ret a).
Proof. intros p r p' Hinv _ [= <- <-] _. by apply derives_refl. Qed.

Lemma k_gets {A} P (f : IgneaParser -> A) : keeps P (gets f).
Proof. intros p r p' Hinv _ [= <- <-] _. by apply derives_refl. Qed.

Lemma k_raise {A} P e : keeps P (@raise _ A e).
Proof. intros p r p' Hinv _ [= <- <-] _. by apply derives_refl. Qed.

Lemma k_from_option {A} P e (o : option A) : keeps P (from_option e o).
Proof. destruct o; [apply k_ret|apply k_raise]. Qed.

Lemma k_bind {A B} P (c : M IgneaParser A) (k : A -> M IgneaParser B) :
  stable P -> keeps P c -> (forall a, keeps P (k a)) -> keeps P (bind c k).
Proof.
  intros HP Hc Hk p r p' Hinv Hp. unfold bind.
  destruct (c p) as [[a|e] p1] eqn:E.
  - intros Hrun Hr. pose proof (Hc p _ _ Hinv Hp E I) as H1.
    eapply derives_trans; [exact H1|].
    eapply Hk; [by destruct H1|by eapply HP|exact Hrun|exact Hr].
  - intros [= <- <-] Hr. by eapply Hc.
Qed.

Lemma k_modify P (f : IgneaParser -> IgneaParser) :
  (forall p, parser_inv p -> P p -> derives p (f p)) -> keeps P (modify f).
Proof. intros Hf p r p' Hinv Hp [= <- <-] _. by apply Hf. Qed.

Lemma k_catch {A} P (c : M IgneaParser A) : keeps P c -> keeps P (catch_derivation c).
Proof.
  intros Hc p r p' Hinv Hp. unfold catch_derivation.
  destruct (c p) as [[a|e] p1] eqn:E.
  - intros [= <- <-] _. by eapply Hc.
  - destruct e; intros [= <- <-] Hr; try discriminate Hr. by eapply Hc.
Qed.

Lemma k_for_each {A} P (l : list A) (body : A -> M IgneaParser unit) :
  stable P -> (forall a, keeps P (body a)) -> keeps P (for_each l body).
Proof.
  intros HP Hb. induction l as [|a l IH]; cbn [for_each]; [apply k_ret|].
  apply k_bind; [done|apply Hb|by intros _].
Qed.

Lemma k_union_for {A B} `{Countable B} P (l : list A)
      (body : A -> M IgneaParser (gset B)) :
  stable P -> (forall a, keeps P (body a)) -> keeps P (union_for l body).
Proof.
  intros HP Hb. induction l as [|a l IH]; cbn [union_for]; [apply k_ret|].
  apply k_bind; [done|apply Hb|intros more].
  apply k_bind; [done|apply IH|intros rest; apply k_ret].
Qed.

(** A computation of the lexer that only reads. *)
Definition reads {A} (c : M LexState A) : Prop :=
  forall s a s', c s = (Ok a, s') -> s' = s.

Lemma k_in_lexer {A} P (c : M LexState A) :
  never_derivation c -> reads c -> keeps P (in_lexer c).
Proof.
  intros Hnd Hrd p r p' Hinv _. unfold in_lexer.
  destruct (c (parser_lexer p)) as [[a|e] l] eqn:E.
  - intros [= <- <-] _. rewrite (Hrd _ _ _ E), with_parser_lexer_id.
    by apply derives_refl.
  - intros [= <- <-] Hr. cbn in Hr. by destruct (Hnd _ _ _ E).
Qed.

Lemma reads_read_terminal t : reads (read_terminal t).
Proof. intros s a s' H. by apply read_terminal_Ok in H as [-> _]. Qed.

Lemma reads_read_position r : reads (read_position r).
Proof. intros s a s' H. by apply read_position_Ok in H as [-> _]. Qed.

Lemma reads_start_index t : reads (start_index t).
Proof.
  intros s a s' H. unfold start_index in H.
  mbind H as tm s1 H1 H. apply read_terminal_Ok in H1 as [-> _].
  mbind H as q s2 H2 H. apply read_position_Ok in H2 as [-> _]. by mclean.
Qed.

Lemma reads_eoi_walk fuel n eoi : reads (eoi_walk fuel n eoi).
Proof.
  revert eoi. induction fuel as [|fuel IH]; intros eoi s a s' H; cbn [eoi_walk] in H.
  - discriminate.
  - destruct eoi as [e|]; [|by mclean].
    destruct (decide (n = e)); [by mclean|].
    mbind H as i s1 H1 H. apply reads_start_index in H1 as ->.
    mbind H as j s2 H2 H. apply reads_start_index in H2 as ->.
    destruct (i =? j).
    + mbind H as tm s3 H3 H. apply read_terminal_Ok in H3 as [-> _]. by eapply IH.
    + by mclean.
Qed.

(** [next_terminal], and what follows it. *)
Lemma k_next_terminal {B} P fuel cur (k : option nat -> M IgneaParser B) :
  stable P ->
  (forall o, keeps (fun p => P p /\ forall t, o = Some t -> valid t p) (k o)) ->
  keeps P (bind (in_lexer (next_terminal tag_class fuel cur)) k).
Proof.
  intros HP Hk p r p' Hinv Hp. unfold bind, in_lexer.
  destruct (next_terminal tag_class fuel cur (parser_lexer p)) as [[o|e] l] eqn:E.
  - intros Hrun Hr.
    destruct (next_terminal_inv _ _ _ _ _ _ E (pi_lexer _ Hinv)) as (Hl & Hst & Hvalid).
    pose proof (next_terminal_grows _ _ _ _ _ _ E (pi_lexer _ Hinv)) as Hlen.
    assert (H1 : derives p (with_parser_lexer (fun _ => l) p)).
    { destruct Hinv as [Hlx Heoi]. split; cbn; eauto.
      split; cbn; [done|]. intros e He. specialize (Heoi e He). lia. }
    eapply derives_trans; [exact H1|].
    eapply (Hk o); [by destruct H1| |exact Hrun|exact Hr].
    split; [by eapply HP|]. intros t ->. by apply Hvalid.
  - intros [= <- <-] Hr. cbn in Hr. by destruct (nd_next_terminal _ _ _ _ _ _ E).
Qed.

Lemma k_seq {A B} P P' (c : M IgneaParser A) (k : A -> M IgneaParser B) :
  (forall p, P p -> P' p) -> stable P' ->
  keeps P c -> (forall a, keeps P' (k a)) -> keeps P (bind c k).
Proof.
  intros HPP HP Hc Hk p r p' Hinv Hp. unfold bind.
  destruct (c p) as [[a|e] p1] eqn:E.
  - intros Hrun Hr. pose proof (Hc p _ _ Hinv Hp E I) as H1.
    eapply derives_trans; [exact H1|].
    eapply Hk; [by destruct H1|eapply HP; [exact H1|by apply HPP]|exact Hrun|exact Hr].
  - intros [= <- <-] Hr. by eapply Hc.
Qed.

Lemma k_gets_bind {A B} P (f : IgneaParser -> A) (k : A -> M IgneaParser B) :
  (forall p0, keeps (fun p => p = p0 /\ P p0) (k (f p0))) -> keeps P (bind (gets f) k).
Proof.
  intros Hk p r p' Hinv Hp. unfold bind, gets. intros Hrun Hr.
  by eapply (Hk p).
Qed.

Lemma k_from_option_bind {A B} P e (o : option A) (k : A -> M IgneaParser B) :
  (forall a, o = Some a -> keeps P (k a)) -> keeps P (bind (from_option e o) k).
Proof.
  intros Hk. destruct o as [a|].
  - intros p r p' Hinv Hp. unfold bind, from_option, ret. by apply Hk.
  - intros p r p' Hinv Hp. unfold bind, from_option, raise. intros [= <- <-] _.
    by apply derives_refl.
Qed.

Create HintDb ks discriminated.
#[local] Hint Resolve stable_True stable_valid : ks.

Ltac ks_step :=
  match goal with
  | |- keeps _ (bind _ _) => apply k_bind; [solve [auto with ks]| |intros ?]
  | |- keeps _ (ret _) => apply k_ret
  | |- keeps _ (gets _) => apply k_gets
  | |- keeps _ (raise _) => apply k_raise
  | |- keeps _ (from_option _ _) => apply k_from_option
  | |- keeps _ (for_each _ _) => apply k_for_each; [solve [auto with ks]|intros ?]
  | |- keeps _ (union_for _ _) => apply k_union_for; [solve [auto with ks]|intros ?]
  | |- keeps _ (catch_derivation _) => apply k_catch
  | |- keeps _ (in_lexer (read_terminal _)) =>
      apply k_in_lexer; [apply nd_read_terminal|apply reads_read_terminal]
  | |- keeps _ (in_lexer (read_position _)) =>
      apply k_in_lexer; [apply nd_read_position|apply reads_read_position]
  | |- keeps _ (in_lexer (start_index _)) =>
      apply k_in_lexer; [apply nd_start_index|apply reads_start_index]
  | |- keeps _ (in_lexer (eoi_walk _ _ _)) =>
      apply k_in_lexer; [apply nd_eoi_walk|apply reads_eoi_walk]
  | |- keeps _ (if ?b then _ else _) => destruct b
  | |- keeps _ (match ?o with _ => _ end) => destruct o
  | |- keeps _ _ => solve [auto with ks]
  end.
Ltac ks := repeat ks_step.

Lemma k_state_end_position P st : stable P -> keeps P (state_end_position st).
Proof. intros HP. unfold state_end_position. ks. Qed.
#[local] Hint Resolve k_state_end_position : ks.

Lemma k_bsr_add P epn : stable P -> keeps P (bsr_add epn).
Proof.
  intros HP. unfold bsr_add. ks. apply k_modify. intros p [Hlx Heoi] _.
  split; cbn; eauto; [by split|]. intros k E HE.
  match goal with |- context [<[?key := _]> _] => destruct (decide (key = k)) as [<-|Hne] end.
  - rewrite lookup_insert_eq, HE. eexists. split; [done|]. cbn. set_solver.
  - rewrite lookup_insert_ne by done. eauto.
Qed.
#[local] Hint Resolve k_bsr_add : ks.

Lemma set__eoi_derives t p : parser_inv p -> valid t p -> derives p (set__eoi (Some t) p).
Proof. intros [Hlx Heoi] Ht. split; cbn; eauto. split; cbn; [done|]. by intros e [= <-]. Qed.

Lemma k_update_eoi fuel t : keeps (valid t) (update_eoi fuel t).
Proof.
  unfold update_eoi. ks; apply k_modify; intros p Hinv Ht; by apply set__eoi_derives.
Qed.

Lemma k__derive_single_terminal_tag fuel cls st :
  keeps (fun _ => True) (_derive_single_terminal_tag tag_class fuel cls st).
Proof.
  unfold _derive_single_terminal_tag.
  apply k_bind; [auto with ks|auto with ks|intros _].
  apply k_next_terminal; [auto with ks|]. intros [t|]; [|apply k_ret].
  apply (k_weaken _ (valid t)); [intros p [_ H]; by apply H|].
  apply k_bind; [auto with ks|apply k_update_eoi|intros _]. ks.
Qed.

Section Grammar.

(** The [descend] methods reach the parser through [derive] only: they keep
    what [derive] keeps. *)
Variable descend : NTId -> Derive -> IgneaParsingState -> M IgneaParser (gset IgneaParsingState).

Hypothesis descend_keeps :
  forall cls (derive : Derive) st,
    (forall c sts asc, keeps (fun _ => True) (derive c sts asc)) ->
    keeps (fun _ => True) (descend cls derive st).

Variable derive_ : Derive.
Hypothesis derive_keeps_ : forall c sts asc, keeps (fun _ => True) (derive_ c sts asc).

Lemma k_ascend cls st : keeps (fun _ => True) (ascend derive_ cls st).
Proof. unfold ascend. ks. Qed.

Lemma with_memo_derives (m : gmap (NTId * nat) (gset nat)) p :
  parser_inv p ->
  (forall k T, _memo p !! k = Some T -> exists T', m !! k = Some T' /\ T ⊆ T') ->
  derives p (with_memo (fun _ => m) p).
Proof. intros [Hlx Heoi] Hm. split; cbn; eauto. by split. Qed.

Lemma k__derive_single_nonterminal_type cls st flag :
  keeps (fun _ => True) (_derive_single_nonterminal_type descend derive_ cls st flag).
Proof.
  unfold _derive_single_nonterminal_type.
  apply k_bind; [auto with ks|auto with ks|intros _].
  apply k_bind; [auto with ks|auto with ks|intros e].
  apply k_gets_bind. intros p0. cbv beta delta [id].
  apply (k_seq _ (fun _ => True)); [done|auto with ks| |intros _; ks].
  destruct (flag || negb (bool_decide (is_Some (_memo p0 !! (cls, e))))); [|apply k_ret].
  apply (k_seq _ (fun _ => True)); [done|auto with ks| |intros _].
  { case_bool_decide as Hk; [apply k_ret|]. apply k_modify. intros p Hinv [-> _].
    destruct Hinv as [Hlx Heoi]. split; cbn; eauto; [by split|].
    intros k T HT. destruct (decide ((cls, e) = k)) as [<-|Hne].
    - destruct Hk. eauto.
    - rewrite lookup_insert_ne by done. eauto. }
  apply k_gets_bind. intros p1. cbv beta delta [id].
  apply k_from_option_bind. intros memo Hmemo.
  apply (k_seq _ (fun _ => True)); [done|auto with ks| |intros next_states].
  { apply (k_weaken _ (fun _ => True)); [done|]. apply k_catch.
    by apply descend_keeps. }
  destruct next_states as [next_states|]; [|apply k_ret].
  apply k_bind; [auto with ks| |intros _].
  - apply k_for_each; [auto with ks|]. intros next_state.
    apply k_bind; [auto with ks|auto with ks|intros _].
    apply k_from_option_bind. intros t Ht.
    apply k_gets_bind. intros p2. cbv beta delta [id].
    apply k_from_option_bind. intros memo2 Hmemo2.
    apply k_modify. intros p Hinv [-> _].
    destruct Hinv as [Hlx Heoi]. split; cbn; eauto; [by split|].
    intros k T HT. destruct (decide ((cls, e) = k)) as [<-|Hne].
    + rewrite lookup_insert_eq. rewrite Hmemo2 in HT. injection HT as <-.
      eexists. split; [done|]. set_solver.
    + rewrite lookup_insert_ne by done. eauto.
  - ks. apply k_ascend.
Qed.

Lemma k_derive_body fuel cls sts asc :
  keeps (fun _ => True) (derive_body tag_class descend fuel derive_ cls sts asc).
Proof.
  unfold derive_body. apply k_bind; [auto with ks| |intros next_states; ks].
  destruct cls as [tag|nonterminal].
  - apply k_union_for; [auto with ks|]. intros st.
    apply k_bind; [auto with ks|apply k__derive_single_terminal_tag|intros ?; ks].
  - apply k_bind; [auto with ks|apply k_gets|intros p].
    apply k_union_for; [auto with ks|]. intros st.
    apply k__derive_single_nonterminal_type.
Qed.

End Grammar.

Lemma k_derive descend :
  (forall cls (derive : Derive) st,
     (forall c sts asc, keeps (fun _ => True) (derive c sts asc)) ->
     keeps (fun _ => True) (descend cls derive st)) ->
  forall fuel cls sts asc,
    keeps (fun _ => True) (derive tag_class descend fuel cls sts asc).
Proof.
  intros Hd. induction fuel as [|fuel IH]; intros cls sts asc; cbn [derive].
  - apply k_raise.
  - by apply k_derive_body.
Qed.

End DeriveKeeps.

(** What [derive] keeps.  For a grammar whose [descend] methods reach the
    parser through [derive] only, a call of [derive] that returns, or that
    raises [IgneaDerivationException], from a parser whose lexer is in a
    state a lexer reaches and whose [_eoi], when set, is a terminal of the
    store, leaves a parser of which the same holds.  It leaves the starting
    symbol, the two tables of left recursion, [bsr.start] and the constants
    of the lexer as they were; the terminals of the store, the sets of
    [bsr.epns] and the sets of [_memo] only grow; and [_eoi], once set, stays
    set. *)
Theorem derive_keeps tag_class descend fuel cls current_states ascend p r p' :
  (forall n (derive : Derive) st,
     (forall c sts asc, keeps tag_class (fun _ => True) (derive c sts asc)) ->
     keeps tag_class (fun _ => True) (descend n derive st)) ->
  parser_inv tag_class p ->
  derive tag_class descend fuel cls current_states ascend p = (r, p') ->
  passed_over r ->
  parser_inv tag_class p' /\
  _nonterminal_type_start p' = _nonterminal_type_start p /\
  _nonterminal_types_first p' = _nonterminal_types_first p /\
  nonterminal_types_ascend_parents p' = nonterminal_types_ascend_parents p /\
  bsr_start (bsr p') = bsr_start (bsr p) /\
  statics (parser_lexer p') = statics (parser_lexer p) /\
  length (terminals (store (parser_lexer p)))
  <= length (terminals (store (parser_lexer p'))) /\
  (forall k E, epns (bsr p) !! k = Some E ->
     exists E', epns (bsr p') !! k = Some E' /\ E ⊆ E') /\
  (forall k T, _memo p !! k = Some T -> exists T', _memo p' !! k = Some T' /\ T ⊆ T') /\
  (is_Some (_eoi p) -> is_Some (_eoi p')).
Proof.
  intros Hd Hinv Hrun Hr.
  by destruct (k_derive tag_class descend Hd fuel cls current_states ascend
                 p r p' Hinv I Hrun Hr).
Qed.

Lemma derive_keeps_witness :
  exists p, PairParser.new "ab cd" = Ok p /\
    parser_inv KeywordLexer.tag_class (snd (pair_derivation p)) /\
    _nonterminal_types_first (snd (pair_derivation p)) = _nonterminal_types_first p.
Proof.
  let v := eval vm_compute in (PairParser.new "ab cd") in
  match v with Ok ?x => exists x; set (p := x) end.
  split; [vm_compute; reflexivity|].
  assert (Hinv : parser_inv KeywordLexer.tag_class p).
  { split; [|discriminate].
    refine (proj1 (reachable_inv KeywordLexer.tag_class KeywordLexer.TERMINAL_TAGS "f"
                     (String.list_ascii_of_string "ab cd") 0%N _ _)).
    apply reach_new. vm_compute. reflexivity. }
  assert (Hr : passed_over (fst (pair_derivation p))) by (vm_compute; exact I).
  assert (Hd := surjective_pairing (pair_derivation p)).
  unfold pair_derivation at 1 in Hd.
  assert (Hdesc : forall n (derive : Derive) st,
     (forall c sts asc, keeps KeywordLexer.tag_class (fun _ => True) (derive c sts asc)) ->
     keeps KeywordLexer.tag_class (fun _ => True) (PairParser.descend n derive st)).
  { intros n derive st Hderive. unfold PairParser.descend.
    apply k_bind; [apply stable_True|apply Hderive|intros a; apply Hderive]. }
  pose proof (derive_keeps KeywordLexer.tag_class PairParser.descend 20
                (inr (_nonterminal_type_start p))
                {[ ([], lexer_start_position (lexer (parser_lexer p)),
                    lexer_start_position (lexer (parser_lexer p)), None) ]}
                (AscendCaller None) p (fst (pair_derivation p)) (snd (pair_derivation p))
                Hdesc Hinv Hd Hr) as H.
  destruct H as (H1 & _ & H3 & _).
  split; [exact H1|exact H3].
Defined.

(** ** The parser: the outcomes of [parse] *)






(** ** semantic/common.py: trees and their visitors *)

(** [IgneaTreeNode].  An [IgneaNonterminalTreeNode] has the list
    [children], of references to nodes; an [IgneaTerminalTreeNode] has none.
    [start_position] is a reference to a position and [end_terminal] a
    reference to a terminal. *)
Record IgneaTreeNode := mkTreeNode {
  node_type : Symbol;
  node_start_position : nat;
  node_end_terminal : nat;
  node_children : option (list nat)
}.

(** [node.start_position = p] *)
Definition set_node_start_position (p : nat) (n : IgneaTreeNode) : IgneaTreeNode :=
  mkTreeNode (node_type n) p (node_end_terminal n) (node_children n).

(** The objects the visitors of a tree work on: the nodes, and the
    terminals their [end_terminal] fields refer to. *)
Record TreeStore := mkTreeStore {
  tree_nodes : list IgneaTreeNode;
  tree_terminals : list IgneaTerminal
}.

Definition read_node (node : nat) : M TreeStore IgneaTreeNode :=
  let* s := gets tree_nodes in from_option Dangling (s !! node).

Definition read_tree_terminal (t : nat) : M TreeStore IgneaTerminal :=
  let* s := gets tree_terminals in from_option Dangling (s !! t).

Definition assign_start_position (node : nat) (p : nat) : M TreeStore unit :=
  let* n := read_node node in
  modify (fun s => mkTreeStore (<[node := set_node_start_position p n]> (tree_nodes s))
                               (tree_terminals s)).

(** The methods a subclass of [IgneaTreeVisitor] overrides, over the state
    [S] of the visitor and the objects it works on. *)
Record IgneaTreeVisitor (S : Type) := mkTreeVisitor {
  v_top_before : M S unit;
  v_descend : nat -> bool -> M S (option nat);
  v_bottom : M S bool;
  v_ascend : nat -> bool -> M S unit;
  v_top_after : M S unit
}.
Arguments mkTreeVisitor {S}.
Arguments v_top_before {S}.
Arguments v_descend {S}.
Arguments v_bottom {S}.
Arguments v_ascend {S}.
Arguments v_top_after {S}.

Section Visit.

Context {S : Type}.
Variable nodes_of : S -> list IgneaTreeNode.
Variable v : IgneaTreeVisitor S.

(** The first [while] of [IgneaTreeVisitor.visit].  [ascend_stack] and
    [ascend_stack_levels] are kept top first: their heads are Python's
    [[-1]]. *)
Fixpoint descend_loop (fuel : nat) (descend_queue ascend_stack : list nat)
         (descend_queue_levels : Z * Z) (ascend_stack_levels : list Z)
  : M S (list nat * list Z) :=
  match descend_queue with
  | [] => ret (ascend_stack, ascend_stack_levels)
  | node :: descend_queue =>
      match fuel with
      | 0 => raise OutOfFuel
      | Datatypes.S fuel' =>
          let level_changed := (descend_queue_levels.1 =? 0)%Z in
          let descend_queue_levels :=
            if level_changed then (descend_queue_levels.2, 0%Z) else descend_queue_levels in
          let ascend_stack_levels :=
            if level_changed then descend_queue_levels.1 :: ascend_stack_levels
            else ascend_stack_levels in
          let descend_queue_levels :=
            ((descend_queue_levels.1 - 1)%Z, descend_queue_levels.2) in
          let* node_opt := v_descend v node level_changed in
          match node_opt with
          | None =>
              match ascend_stack_levels with
              | [] => raise IndexError
              | top :: rest =>
                  descend_loop fuel' descend_queue ascend_stack descend_queue_levels
                    (if (top - 1 =? 0)%Z then rest else (top - 1)%Z :: rest)
              end
          | Some node =>
              let ascend_stack := node :: ascend_stack in
              let* nodes := gets nodes_of in
              let* n := from_option Dangling (nodes !! node) in
              match node_children n with
              | Some children =>
                  descend_loop fuel' (descend_queue ++ children) ascend_stack
                    (descend_queue_levels.1,
                     (descend_queue_levels.2 + Z.of_nat (length children))%Z)
                    ascend_stack_levels
              | None =>
                  descend_loop fuel' descend_queue ascend_stack descend_queue_levels
                    ascend_stack_levels
              end
          end
      end
  end.

(** The second [while]. *)
Fixpoint ascend_loop (ascend_stack : list nat) (ascend_stack_levels : list Z)
  : M S unit :=
  match ascend_stack with
  | [] => ret tt
  | node :: ascend_stack =>
      let* top := from_option IndexError (head ascend_stack_levels) in
      let level_changed := (top =? 0)%Z in
      let ascend_stack_levels :=
        if level_changed then tail ascend_stack_levels else ascend_stack_levels in
      match ascend_stack_levels with
      | [] => raise IndexError
      | top :: rest =>
          v_ascend v node level_changed ;;
          ascend_loop ascend_stack ((top - 1)%Z :: rest)
      end
  end.

(** [IgneaTreeVisitor.visit], for the visitor of the tree [tree]. *)
Definition visit (fuel : nat) (tree : nat) : M S unit :=
  v_top_before v ;;
  let* r := descend_loop fuel [tree] [] (1%Z, 0%Z) [1%Z] in
  let* b := v_bottom v in
  if negb b then ret tt
  else
    ascend_loop r.1 r.2 ;;
    v_top_after v.

End Visit.

(** [IgneaTreePositionFixer] *)
Definition fixer_ascend (node : nat) (_ : bool) : M TreeStore unit :=
  let* n := read_node node in
  match node_children n with
  | Some children =>
      let* c := from_option IndexError (head children) in
      let* cn := read_node c in
      assign_start_position node (node_start_position cn)
  | None =>
      let* tm := read_tree_terminal (node_end_terminal n) in
      assign_start_position node (start_position tm)
  end.

Definition IgneaTreePositionFixer : IgneaTreeVisitor TreeStore :=
  mkTreeVisitor (ret tt) (fun node _ => ret (Some node)) (ret true) fixer_ascend (ret tt).

(** [IgneaTreePositionUnfixer] *)
Definition unfixer_descend (node : nat) (_ : bool) : M TreeStore (option nat) :=
  let* n := read_node node in
  match node_children n with
  | Some children =>
      let* c := from_option IndexError (head children) in
      assign_start_position c (node_start_position n) ;;
      for_each (seq 1 (length children - 1)) (fun i =>
        let* prev := from_option IndexError (children !! (i - 1)) in
        let* pn := read_node prev in
        let* tm := read_tree_terminal (node_end_terminal pn) in
        let* ci := from_option IndexError (children !! i) in
        assign_start_position ci (end_position tm)) ;;
      ret (Some node)
  | None => ret (Some node)
  end.

Definition IgneaTreePositionUnfixer : IgneaTreeVisitor TreeStore :=
  mkTreeVisitor (ret tt) unfixer_descend (ret false) (fun _ _ => ret tt) (ret tt).

(** *** Trees in the store *)

(** The children of the node [x]; none for a terminal node. *)
Definition kids (N : list IgneaTreeNode) (x : nat) : list nat :=
  match N !! x with
  | Some n => default [] (node_children n)
  | None => []
  end.

(** The nodes of the tree under [root]. *)
Definition in_tree (N : list IgneaTreeNode) (root : nat) : nat -> Prop :=
  rtc (fun a b => b ∈ kids N a) root.

(** The nodes under [root] form a tree: they are objects of the store, no
    node is twice among the children of a node, no node has two parents, and
    the root has none. *)
Record tree_shaped (N : list IgneaTreeNode) (root : nat) : Prop := {
  ts_root : root < length N;
  ts_closed : forall x c, in_tree N root x -> c ∈ kids N x -> c < length N;
  ts_nodup : forall x, in_tree N root x -> NoDup (kids N x);
  ts_parent : forall x y c, in_tree N root x -> in_tree N root y ->
                            c ∈ kids N x -> c ∈ kids N y -> x = y;
  ts_top : forall x, in_tree N root x -> root ∉ kids N x
}.

Lemma in_tree_lt N root x : tree_shaped N root -> in_tree N root x -> x < length N.
Proof.
  intros Hts Hx. apply rtc_inv_r in Hx as [->|(y & Hy & Hc)].
  - by destruct Hts.
  - by eapply (ts_closed _ _ Hts).
Qed.

Lemma in_tree_not_own_child N root x :
  tree_shaped N root -> in_tree N root x -> x ∉ kids N x.
Proof.
  intros Hts Hx Hin.
  assert (Hall : forall y, in_tree N root y -> y <> x).
  { apply (rtc_ind_r (fun y => y <> x)).
    - intros ->. by apply (ts_top _ _ Hts x).
    - intros y z Ha Hc IH ->. fold (in_tree N root y) in Ha.
      assert (y = x) by (by eapply (ts_parent _ _ Hts y x x)).
      by apply IH. }
  by apply (Hall x).
Qed.

(** *** The order of the visit *)

Definition sumZ (l : list Z) : Z := foldr Z.add 0%Z l.

Section VisitOrder.

Context {S : Type}.
Variable nodes_of : S -> list IgneaTreeNode.
Variable v : IgneaTreeVisitor S.
Variable N0 : list IgneaTreeNode.
Variable root : nat.
Hypothesis Hts : tree_shaped N0 root.

(** The nodes visited, [V], and the queue, [Q]: no node is twice in them,
    all are nodes of the tree, the root is among them, every other one is a
    child of a node visited, and the children of a node visited come after
    it. *)
Record bfs_inv (V Q : list nat) : Prop := {
  bi_nodup : NoDup (V ++ Q);
  bi_tree : forall y, y ∈ V ++ Q -> in_tree N0 root y;
  bi_root : root ∈ V ++ Q;
  bi_parent : forall y, y ∈ V ++ Q -> y = root \/ exists u, u ∈ V /\ y ∈ kids N0 u;
  bi_order : forall i u c, V !! i = Some u -> c ∈ kids N0 u ->
                           exists j, i < j /\ (V ++ Q) !! j = Some c
}.

Lemma bfs_inv_start : bfs_inv [] [root].
Proof.
  split; cbn.
  - apply NoDup_singleton.
  - intros y ->%list_elem_of_singleton. apply rtc_refl.
  - by apply list_elem_of_singleton.
  - intros y ->%list_elem_of_singleton. by left.
  - intros i u c Hi. by rewrite lookup_nil in Hi.
Qed.

Lemma bfs_inv_length V Q : bfs_inv V Q -> length V + length Q <= length N0.
Proof.
  intros [Hnd Htree _ _ _]. rewrite <- length_app.
  transitivity (length (seq 0 (length N0))); [|by rewrite length_seq].
  apply submseteq_length, NoDup_submseteq; [done|].
  intros y Hy. apply elem_of_seq. split; [lia|]. cbn.
  by apply (in_tree_lt N0 root), Htree.
Qed.

Lemma bfs_inv_step V x Q :
  bfs_inv V (x :: Q) -> bfs_inv (V ++ [x]) (Q ++ kids N0 x).
Proof.
  intros [Hnd Htree Hroot Hpar Hord].
  assert (Hx : in_tree N0 root x).
  { apply Htree, elem_of_app. right. by left. }
  assert (Heq : (V ++ [x]) ++ Q ++ kids N0 x = (V ++ x :: Q) ++ kids N0 x).
  { by rewrite <- !app_assoc. }
  assert (HxV : x ∉ V).
  { intros HxV. apply NoDup_app in Hnd as (_ & Hd & _). apply (Hd x HxV). by left. }
  split; rewrite ?Heq.
  - apply NoDup_app. split; [done|]. split; [|by apply (ts_nodup _ _ Hts)].
    intros y Hy Hk. destruct (Hpar y Hy) as [->|(u & Hu & Hyu)].
    + by apply (ts_top _ _ Hts x).
    + assert (u = x); [|by subst].
      eapply (ts_parent _ _ Hts u x y); try done.
      apply Htree, elem_of_app. by left.
  - intros y [Hy|Hy]%elem_of_app; [by apply Htree|].
    eapply rtc_r; [exact Hx|done].
  - apply elem_of_app. by left.
  - intros y [Hy|Hy]%elem_of_app.
    + destruct (Hpar y Hy) as [->|(u & Hu & Hyu)]; [by left|right].
      exists u. split; [|done]. apply elem_of_app. by left.
    + right. exists x. split; [|done]. apply elem_of_app. right.
      by apply list_elem_of_singleton.
  - intros i u c Hi Hc.
    destruct (decide (i < length V)) as [Hlt|Hge].
    + rewrite lookup_app_l in Hi by done.
      destruct (Hord i u c Hi Hc) as (j & Hij & Hj).
      exists j. split; [done|]. by apply lookup_app_l_Some.
    + rewrite lookup_app_r in Hi by lia.
      apply list_lookup_singleton_Some in Hi as [Hi <-].
      apply list_elem_of_lookup_1 in Hc as [k Hk].
      exists (length (V ++ x :: Q) + k). split.
      * rewrite length_app. cbn. lia.
      * rewrite lookup_app_r by lia.
        by replace (length (V ++ x :: Q) + k - length (V ++ x :: Q)) with k by lia.
Qed.

(** At the end of the descent every node of the tree is visited. *)
Lemma bfs_inv_all V y : bfs_inv V [] -> in_tree N0 root y -> y ∈ V.
Proof.
  intros [_ _ Hroot _ Hord]. rewrite app_nil_r in *. revert y.
  apply (rtc_ind_r (fun y => y ∈ V)); [done|]. intros y z Ha Hc IH.
  apply list_elem_of_lookup_1 in IH as [i Hi].
  destruct (Hord i y z Hi Hc) as (j & _ & Hj). by eapply list_elem_of_lookup_2.
Qed.

(** The counters of the levels during the descent. *)
Definition levels_inv (V Q : list nat) (dql : Z * Z) (L : list Z) : Prop :=
  (0 <= dql.1)%Z /\ (0 <= dql.2)%Z /\
  (dql.1 + dql.2)%Z = Z.of_nat (length Q) /\
  Forall (fun l => (1 <= l)%Z) L /\
  sumZ L = (Z.of_nat (length V) + dql.1)%Z.

(** The nodes of the store have the children they have in [N0]. *)
Definition same_children (N : list IgneaTreeNode) : Prop :=
  forall y n0, N0 !! y = Some n0 ->
               exists n, N !! y = Some n /\ node_children n = node_children n0.

Variable J : list nat -> S -> Prop.
Hypothesis J_children : forall V s, J V s -> same_children (nodes_of s).
Hypothesis J_step :
  forall V x Q s level_changed,
    bfs_inv V (x :: Q) -> J V s ->
    exists s', v_descend v x level_changed s = (Ok (Some x), s') /\ J (V ++ [x]) s'.

Lemma descend_loop_run fuel :
  forall Q V s dql L,
    bfs_inv V Q -> levels_inv V Q dql L -> J V s ->
    length N0 <= fuel + length V ->
    exists Vf s' L',
      descend_loop nodes_of v fuel Q (rev V) dql L s = (Ok (rev Vf, L'), s') /\
      bfs_inv Vf [] /\ J Vf s' /\
      Forall (fun l => (1 <= l)%Z) L' /\ sumZ L' = Z.of_nat (length Vf).
Proof.
  induction fuel as [|fuel IH]; intros Q V s [a b] L Hbfs Hlv HJ Hfuel.
  - destruct Q as [|x Q].
    + exists V, s, L. destruct Hlv as (Ha & Hb & Hab & HL & Hsum). cbn in *.
      split; [done|]. split; [done|]. split; [done|]. split; [done|]. lia.
    + pose proof (bfs_inv_length _ _ Hbfs) as Hlen. cbn in *. lia.
  - destruct Q as [|x Q].
    + exists V, s, L. destruct Hlv as (Ha & Hb & Hab & HL & Hsum). cbn in *.
      split; [done|]. split; [done|]. split; [done|]. split; [done|]. lia.
    + cbn [descend_loop fst snd].
      destruct (J_step V x Q s (a =? 0)%Z Hbfs HJ) as (s1 & Hd & HJ1).
      unfold bind at 1. rewrite Hd.
      unfold bind at 1. unfold gets at 1.
      assert (Hx : in_tree N0 root x).
      { apply (bi_tree _ _ Hbfs), elem_of_app. right. by left. }
      destruct (lookup_lt_is_Some_2 N0 x (in_tree_lt _ _ _ Hts Hx)) as [n0 Hn0].
      destruct (J_children _ _ HJ1 x n0 Hn0) as (n & Hn & Hch).
      rewrite Hn. unfold bind at 1. cbn [from_option ret].
      assert (Hk : forall cs, default [] (node_children n) = cs -> kids N0 x = cs).
      { intros cs <-. unfold kids. by rewrite Hn0, Hch. }
      pose proof (bfs_inv_step V x Q Hbfs) as Hbfs1.
      destruct Hlv as (Ha & Hb & Hab & HL & Hsum). cbn [fst snd] in *.
      rewrite length_cons in Hab.
      assert (Hlv1 : levels_inv (V ++ [x]) (Q ++ kids N0 x)
                (((if (a =? 0)%Z then (b, 0%Z) else (a, b)).1 - 1)%Z,
                 ((if (a =? 0)%Z then (b, 0%Z) else (a, b)).2
                  + Z.of_nat (length (kids N0 x)))%Z)
                (if (a =? 0)%Z then (if (a =? 0)%Z then (b, 0%Z) else (a, b)).1 :: L
                 else L)).
      { unfold levels_inv. rewrite !length_app. cbn [length fst snd].
        destruct (a =? 0)%Z eqn:Ea; cbn [fst snd sumZ foldr].
        - apply Z.eqb_eq in Ea. subst a. fold (sumZ L).
          repeat split; try lia. constructor; [lia|done].
        - apply Z.eqb_neq in Ea. repeat split; try lia; done. }
      assert (Hfuel1 : length N0 <= fuel + length (V ++ [x])).
      { rewrite length_app. cbn. lia. }
      destruct (node_children n) as [cs|] eqn:Ecs.
      * rewrite <- (Hk cs eq_refl).
        destruct (IH _ _ s1 _ _ Hbfs1 Hlv1 HJ1 Hfuel1) as (Vf & s' & L' & Hrun & Hres).
        rewrite rev_app_distr in Hrun. cbn [rev app] in Hrun.
        exists Vf, s', L'. split; [exact Hrun|exact Hres].
      * rewrite (Hk [] eq_refl), app_nil_r in Hbfs1, Hlv1. cbn [length] in Hlv1.
        rewrite Z.add_0_r in Hlv1.
        destruct (IH _ _ s1 _ _ Hbfs1 Hlv1 HJ1 Hfuel1) as (Vf & s' & L' & Hrun & Hres).
        rewrite rev_app_distr in Hrun. cbn [rev app] in Hrun.
        exists Vf, s', L'. split; [exact Hrun|exact Hres].
Qed.

(** The counters of the levels during the ascent over [n] nodes. *)
Definition levels_ok (L : list Z) (n : nat) : Prop :=
  match L with
  | [] => n = 0
  | l :: rest =>
      (0 <= l)%Z /\ Forall (fun l => (1 <= l)%Z) rest /\
      (l + sumZ rest)%Z = Z.of_nat n
  end.

Variable Vf : list nat.
Variable A : list nat -> S -> Prop.
Hypothesis A_step :
  forall V1 x W s level_changed,
    Vf = V1 ++ x :: W -> A W s ->
    exists s', v_ascend v x level_changed s = (Ok tt, s') /\ A (x :: W) s'.

Lemma ascend_loop_run V1 :
  forall W s L,
    Vf = V1 ++ W -> A W s -> levels_ok L (length V1) ->
    exists s', ascend_loop v (rev V1) L s = (Ok tt, s') /\ A Vf s'.
Proof.
  induction V1 as [|x V1 IH] using rev_ind; intros W s L HV HA HL.
  - exists s. split; [done|]. by subst Vf.
  - rewrite rev_app_distr. cbn [rev app ascend_loop].
    rewrite length_app in HL. cbn [length] in HL.
    destruct L as [|l rest]; [cbn in HL; lia|].
    destruct HL as (Hl & Hrest & Hsum).
    unfold bind at 1. cbn [head from_option ret].
    rewrite <- app_assoc in HV. cbn [app] in HV.
    destruct (l =? 0)%Z eqn:El; cbn [tail].
    + apply Z.eqb_eq in El. subst l.
      destruct rest as [|l' rest']; [cbn in Hsum; lia|].
      apply Forall_cons in Hrest as [Hl' Hrest'].
      destruct (A_step V1 x W s true HV HA) as (s1 & Hrun & HA1).
      unfold bind at 1. rewrite Hrun.
      apply (IH (x :: W) s1); [done|done|].
      cbn [levels_ok sumZ foldr] in *. fold (sumZ rest') in *.
      split; [lia|]. split; [done|lia].
    + apply Z.eqb_neq in El.
      destruct (A_step V1 x W s false HV HA) as (s1 & Hrun & HA1).
      unfold bind at 1. rewrite Hrun.
      apply (IH (x :: W) s1); [done|done|].
      cbn [levels_ok]. split; [lia|]. split; [done|lia].
Qed.

End VisitOrder.

(** *** The position unfixer and the position fixer *)

Definition start_of (N : list IgneaTreeNode) (y : nat) : option nat :=
  node_start_position <$> N !! y.

Section PositionVisitors.

Variable N0 : list IgneaTreeNode.
Variable T0 : list IgneaTerminal.
Variable root : nat.
Hypothesis Hts : tree_shaped N0 root.

(** The position the end terminal of the node [prev] ends at. *)
Definition end_of (prev : nat) : option nat :=
  n ← N0 !! prev; tm ← T0 !! node_end_terminal n; Some (end_position tm).

(** The objects of the tree are complete: the [end_terminal] of a node is a
    terminal of the store, and a nonterminal node has a child. *)
Record tree_complete : Prop := {
  tc_terminal : forall x n, in_tree N0 root x -> N0 !! x = Some n ->
                            is_Some (T0 !! node_end_terminal n);
  tc_children : forall x n, in_tree N0 root x -> N0 !! x = Some n ->
                            node_children n <> Some []
}.

(** The nodes [N] are those of [N0], but for their [start_position]. *)
Definition shaped (N : list IgneaTreeNode) : Prop :=
  length N = length N0 /\
  forall y n0, N0 !! y = Some n0 -> exists p, N !! y = Some (set_node_start_position p n0).

Lemma shaped_refl : shaped N0.
Proof. split; [done|]. intros y n0 H. exists (node_start_position n0). by destruct n0. Qed.

Lemma shaped_same_children N : shaped N -> same_children N0 N.
Proof. intros [_ H] y n0 Hy. destruct (H y n0 Hy) as (p & Hp). eauto. Qed.

Lemma shaped_insert N y n0 p :
  shaped N -> N0 !! y = Some n0 -> shaped (<[y := set_node_start_position p n0]> N).
Proof.
  intros [Hl H] Hy. split; [by rewrite length_insert|].
  intros z m0 Hz. destruct (decide (y = z)) as [->|Hne].
  - rewrite list_lookup_insert_eq by (rewrite Hl; by eapply lookup_lt_Some).
    rewrite Hy in Hz. injection Hz as <-. eauto.
  - rewrite list_lookup_insert_ne by done. eauto.
Qed.

Lemma assign_start_position_run s y n0 p :
  shaped (tree_nodes s) -> N0 !! y = Some n0 ->
  assign_start_position y p s
  = (Ok tt, mkTreeStore (<[y := set_node_start_position p n0]> (tree_nodes s))
                        (tree_terminals s)).
Proof.
  intros [_ H] Hy. destruct (H y n0 Hy) as (q & Hq).
  unfold assign_start_position, read_node, bind, gets, modify. by rewrite Hq.
Qed.

Lemma read_node_run s y n0 :
  shaped (tree_nodes s) -> N0 !! y = Some n0 ->
  exists p, read_node y s = (Ok (set_node_start_position p n0), s) /\
            start_of (tree_nodes s) y = Some p.
Proof.
  intros [_ H] Hy. destruct (H y n0 Hy) as (q & Hq). exists q.
  unfold read_node, bind, gets, start_of. by rewrite Hq.
Qed.

Lemma start_of_insert N y n p z :
  y < length N ->
  start_of (<[y := set_node_start_position p n]> N) z
  = if decide (y = z) then Some p else start_of N z.
Proof.
  intros Hy. unfold start_of. destruct (decide (y = z)) as [->|Hne].
  - by rewrite list_lookup_insert_eq.
  - by rewrite list_lookup_insert_ne.
Qed.

(** The assignments of [IgneaTreePositionUnfixer.descend] to the children
    [c0 :: cs'] of a node that starts at [p]. *)
Lemma unfixer_children c0 cs' n00 p s :
  NoDup (c0 :: cs') ->
  (forall c, c ∈ c0 :: cs' -> exists n0 tm, N0 !! c = Some n0 /\
                                            T0 !! node_end_terminal n0 = Some tm) ->
  N0 !! c0 = Some n00 ->
  tree_terminals s = T0 -> shaped (tree_nodes s) ->
  exists s',
    for_each (seq 1 (length (c0 :: cs') - 1)) (fun i =>
       let* prev := from_option IndexError ((c0 :: cs') !! (i - 1)) in
       let* pn := read_node prev in
       let* tm := read_tree_terminal (node_end_terminal pn) in
       let* ci := from_option IndexError ((c0 :: cs') !! i) in
       assign_start_position ci (end_position tm))
      (mkTreeStore (<[c0 := set_node_start_position p n00]> (tree_nodes s))
                   (tree_terminals s)) = (Ok tt, s') /\
    tree_terminals s' = T0 /\ shaped (tree_nodes s') /\
    (forall y, y ∉ c0 :: cs' -> tree_nodes s' !! y = tree_nodes s !! y) /\
    (forall i c, (c0 :: cs') !! i = Some c ->
       start_of (tree_nodes s') c
       = match i with 0 => Some p | Datatypes.S i' => (c0 :: cs') !! i' ≫= end_of end).
Proof.
  intros Hnd Hcs Hn00 HT Hsh.
  match goal with |- context [for_each _ ?b ?s0'] => set (body := b); set (s0 := s0') end.
  set (I := fun (pre : list nat) (t : TreeStore) =>
    tree_terminals t = T0 /\ shaped (tree_nodes t) /\
    (forall y, y ∉ (c0 :: cs') -> tree_nodes t !! y = tree_nodes s !! y) /\
    (forall i c, i <= length pre -> (c0 :: cs') !! i = Some c ->
       start_of (tree_nodes t) c
       = match i with 0 => Some p | Datatypes.S i' => (c0 :: cs') !! i' ≫= end_of end)).
  assert (Hlen0 : c0 < length (tree_nodes s)).
  { destruct Hsh as [-> _]. by eapply lookup_lt_Some. }
  assert (HI0 : I [] s0).
  { split; [done|]. split; [by apply shaped_insert|]. split.
    - intros y Hy. cbn. rewrite list_lookup_insert_ne; [done|].
      intros ->. apply Hy. by left.
    - intros i c Hi Hc. cbn in Hi. assert (i = 0) as -> by lia.
      cbn in Hc. injection Hc as <-. cbn. rewrite start_of_insert by done.
      by rewrite decide_True. }
  assert (Hstep : forall pre a post t,
            seq 1 (length (c0 :: cs') - 1) = pre ++ a :: post -> I pre t ->
            match body a t with
            | (Ok _, t') => I (pre ++ [a]) t'
            | (Raise e, _) => False
            end).
  { intros pre a post t Hseq (HTt & Hsht & Hout & Hst).
    assert (Ha : a = Datatypes.S (length pre)).
    { assert (H : seq 1 (length (c0 :: cs') - 1) !! length pre = Some a).
      { rewrite Hseq, lookup_app_r by lia. by rewrite Nat.sub_diag. }
      apply lookup_seq in H as [H _]. lia. }
    assert (Halt : a < length (c0 :: cs')).
    { assert (H : a ∈ seq 1 (length (c0 :: cs') - 1)).
      { rewrite Hseq. apply elem_of_app. right. by left. }
      apply elem_of_seq in H. lia. }
    subst a. unfold body.
    replace (Datatypes.S (length pre) - 1) with (length pre) by lia.
    destruct (lookup_lt_is_Some_2 (c0 :: cs') (length pre) ltac:(lia)) as [prev Hprev].
    destruct (lookup_lt_is_Some_2 (c0 :: cs') (Datatypes.S (length pre)) Halt) as [ci Hci].
    rewrite Hprev, Hci. cbn [from_option]. unfold bind at 1. unfold ret at 1.
    cbv beta iota.
    destruct (Hcs prev ltac:(by eapply list_elem_of_lookup_2)) as (np & tmp & Hnp & Htmp).
    destruct (Hcs ci ltac:(by eapply list_elem_of_lookup_2)) as (ni & tmi & Hni & Htmi).
    destruct (read_node_run t prev np Hsht Hnp) as (q & Hread & _).
    unfold bind at 1. rewrite Hread.
    unfold bind at 1. unfold read_tree_terminal, bind, gets. rewrite HTt.
    cbn [node_end_terminal set_node_start_position].
    rewrite Htmp. cbn [from_option ret].
    rewrite (assign_start_position_run t ci ni _ Hsht Hni).
    assert (Hlen : ci < length (tree_nodes t)).
    { destruct Hsht as [-> _]. by eapply lookup_lt_Some. }
    split; [done|]. split; [by apply shaped_insert|]. split.
    - intros y Hy. cbn. rewrite list_lookup_insert_ne; [by apply Hout|].
      intros ->. apply Hy. by eapply list_elem_of_lookup_2.
    - intros i c Hi Hc. cbn [tree_nodes]. rewrite start_of_insert by done.
      rewrite length_app in Hi. cbn in Hi.
      destruct (decide (ci = c)) as [->|Hne].
      + assert (i = Datatypes.S (length pre)) as ->.
        { eapply NoDup_lookup; [exact Hnd|exact Hc|exact Hci]. }
        rewrite Hprev. cbn. unfold end_of. rewrite Hnp. cbn. by rewrite Htmp.
      + apply Hst; [|done].
        destruct (decide (i = Datatypes.S (length pre))) as [->|]; [|lia].
        rewrite Hci in Hc. by injection Hc. }
  pose proof (for_each_cases I (fun _ => False) _ body Hstep s0 HI0) as Hrun.
  match type of Hrun with
  | (let (_, _) := ?c in _) =>
      change (for_each (seq 1 (length (c0 :: cs') - 1)) body s0) with c;
      destruct c as [[[]|e] s']
  end; [|destruct Hrun].
  destruct Hrun as (HT' & Hsh' & Hout' & Hst').
  exists s'. split; [done|]. split; [done|]. split; [done|]. split; [done|].
  intros i c Hc. apply Hst'; [|done].
  apply lookup_lt_Some in Hc. rewrite length_seq. cbn in *. lia.
Qed.

(** The store after [IgneaTreePositionUnfixer] has visited the nodes [V]. *)
Record unfixed (V : list nat) (s : TreeStore) : Prop := {
  uf_terminals : tree_terminals s = T0;
  uf_shaped : shaped (tree_nodes s);
  uf_untouched : forall y, (forall u, u ∈ V -> y ∉ kids N0 u) ->
                           tree_nodes s !! y = N0 !! y;
  uf_assigned : forall u i c, u ∈ V -> kids N0 u !! i = Some c ->
      start_of (tree_nodes s) c
      = match i with
        | 0 => start_of (tree_nodes s) u
        | Datatypes.S i' => kids N0 u !! i' ≫= end_of
        end
}.

Lemma unfixed_start : unfixed [] (mkTreeStore N0 T0).
Proof.
  split; cbn; [done|apply shaped_refl|done|]. intros u i c Hu. by apply elem_of_nil in Hu.
Qed.

Lemma unfixer_step (Hc : tree_complete) V x Q s level_changed :
  bfs_inv N0 root V (x :: Q) -> unfixed V s ->
  exists s', unfixer_descend x level_changed s = (Ok (Some x), s') /\
             unfixed (V ++ [x]) s'.
Proof.
  intros Hbfs [HT Hsh Hun Has].
  assert (Hx : in_tree N0 root x).
  { apply (bi_tree _ _ _ _ Hbfs), elem_of_app. right. by left. }
  assert (HxV : x ∉ V).
  { intros HxV. pose proof (bi_nodup _ _ _ _ Hbfs) as Hnd0.
    apply NoDup_app in Hnd0 as (_ & Hd & _). apply (Hd x HxV). by left. }
  destruct (lookup_lt_is_Some_2 N0 x (in_tree_lt _ _ _ Hts Hx)) as [n0 Hn0].
  destruct (read_node_run s x n0 Hsh Hn0) as (p & Hread & Hp).
  unfold unfixer_descend. unfold bind at 1. rewrite Hread.
  cbn [node_children set_node_start_position node_start_position].
  assert (Hk : kids N0 x = match node_children n0 with Some cs => cs | None => [] end).
  { unfold kids. rewrite Hn0. by destruct (node_children n0). }
  destruct (node_children n0) as [cs|] eqn:Ecs.
  2:{ exists s. split; [done|]. split; [done|done| |].
      - intros y Hy. apply Hun. intros u Hu. apply Hy, elem_of_app. by left.
      - intros u i c [Hu| ->%list_elem_of_singleton]%elem_of_app Hi; [by apply Has|].
        by rewrite Hk in Hi. }
  destruct cs as [|c0 cs'].
  { by destruct (tc_children Hc x n0 Hx Hn0). }
  assert (Hcs : forall c, c ∈ c0 :: cs' ->
            exists m0 tm, N0 !! c = Some m0 /\ T0 !! node_end_terminal m0 = Some tm).
  { intros c Hin. rewrite <- Hk in Hin.
    assert (Hct : in_tree N0 root c) by (eapply rtc_r; [exact Hx|done]).
    destruct (lookup_lt_is_Some_2 N0 c (in_tree_lt _ _ _ Hts Hct)) as [m0 Hm0].
    destruct (tc_terminal Hc c m0 Hct Hm0) as [tm Htm]. eauto. }
  destruct (Hcs c0 ltac:(by left)) as (n00 & _ & Hn00 & _).
  assert (Hnd : NoDup (c0 :: cs')).
  { rewrite <- Hk. by apply (ts_nodup _ _ Hts). }
  destruct (unfixer_children c0 cs' n00 p s Hnd Hcs Hn00 HT Hsh)
    as (s' & Hrun & HT' & Hsh' & Hout & Hst).
  cbn [head from_option]. unfold bind at 1. unfold ret at 1. cbv beta iota.
  unfold bind at 1. rewrite (assign_start_position_run s c0 n00 p Hsh Hn00).
  unfold bind at 1. rewrite Hrun.
  exists s'. split; [done|].
  assert (Hxcs : x ∉ c0 :: cs').
  { rewrite <- Hk. by apply (in_tree_not_own_child _ root). }
  assert (HVcs : forall u, u ∈ V -> u ∉ c0 :: cs').
  { intros u Hu Hin. rewrite <- Hk in Hin.
    destruct (bi_parent _ _ _ _ Hbfs u ltac:(apply elem_of_app; by left))
      as [->|(w & Hw & Huw)].
    - by apply (ts_top _ _ Hts x).
    - assert (w = x); [|by subst].
      eapply (ts_parent _ _ Hts w x u); try done.
      apply (bi_tree _ _ _ _ Hbfs), elem_of_app. by left. }
  split; [done|done| |].
  - intros y Hy. rewrite Hout.
    + apply Hun. intros u Hu. apply Hy, elem_of_app. by left.
    + rewrite <- Hk. apply Hy, elem_of_app. right. by apply list_elem_of_singleton.
  - intros u i c [Hu| ->%list_elem_of_singleton]%elem_of_app Hi.
    + assert (Hccs : c ∉ c0 :: cs').
      { intros Hin. rewrite <- Hk in Hin.
        assert (u = x); [|by subst].
        eapply (ts_parent _ _ Hts u x c); try done.
        * apply (bi_tree _ _ _ _ Hbfs), elem_of_app. by left.
        * by eapply list_elem_of_lookup_2. }
      unfold start_of. rewrite (Hout c Hccs), (Hout u (HVcs u Hu)).
      by apply Has.
    + rewrite Hk in Hi |- *. rewrite (Hst i c Hi). destruct i as [|i']; [|done].
      unfold start_of. rewrite (Hout x Hxcs). exact (eq_sym Hp).
Qed.

(** What [IgneaTreePositionUnfixer.visit] makes of the store. *)
Lemma unfixer_run (Hc : tree_complete) fuel :
  length N0 <= fuel ->
  exists s1 Vf,
    visit tree_nodes IgneaTreePositionUnfixer fuel root (mkTreeStore N0 T0) = (Ok tt, s1) /\
    bfs_inv N0 root Vf [] /\ unfixed Vf s1.
Proof.
  intros Hfuel.
  destruct (descend_loop_run tree_nodes IgneaTreePositionUnfixer N0 root Hts unfixed
              (fun V s H => shaped_same_children _ (uf_shaped _ _ H))
              (fun V x Q s lc => unfixer_step Hc V x Q s lc)
              fuel [root] [] (mkTreeStore N0 T0) (1%Z, 0%Z) [1%Z]
              (bfs_inv_start N0 root)
              ltac:(unfold levels_inv; cbn; repeat split; try lia;
                    by constructor)
              unfixed_start ltac:(cbn; lia))
    as (Vf & s1 & L' & Hrun & Hbfs & Hun & _).
  exists s1, Vf. split; [|done].
  unfold visit. cbn [v_top_before v_bottom IgneaTreePositionUnfixer].
  unfold bind at 1. unfold ret at 1. cbv beta iota.
  cbn [rev] in Hrun. unfold bind at 1. rewrite Hrun. done.
Qed.

(** The nodes are as they should be: a nonterminal node starts where its
    first child starts, and a terminal node where its terminal starts. *)
Record positions_fixed : Prop := {
  pf_nonterminal : forall x n cs,
    in_tree N0 root x -> N0 !! x = Some n -> node_children n = Some cs ->
    exists c cn, head cs = Some c /\ N0 !! c = Some cn /\
                 node_start_position n = node_start_position cn;
  pf_terminal : forall x n,
    in_tree N0 root x -> N0 !! x = Some n -> node_children n = None ->
    exists tm, T0 !! node_end_terminal n = Some tm /\
               node_start_position n = start_position tm
}.

(** The store while [IgneaTreePositionFixer] ascends: the nodes [W] are
    done. *)
Definition fixing (N1 : list IgneaTreeNode) (W : list nat) (s : TreeStore) : Prop :=
  tree_terminals s = T0 /\ shaped (tree_nodes s) /\
  (forall y, y ∈ W -> tree_nodes s !! y = N0 !! y) /\
  (forall y, y ∉ W -> tree_nodes s !! y = N1 !! y).

Lemma set_node_start_position_id n :
  set_node_start_position (node_start_position n) n = n.
Proof. by destruct n. Qed.

Lemma fixer_step (Hp : positions_fixed) N1 Vf V1 x W s level_changed :
  bfs_inv N0 root Vf [] -> Vf = V1 ++ x :: W -> fixing N1 W s ->
  exists s', fixer_ascend x level_changed s = (Ok tt, s') /\ fixing N1 (x :: W) s'.
Proof.
  intros Hbfs HV (HT & Hsh & Hdone & Hrest).
  assert (Hnd : NoDup (V1 ++ x :: W)).
  { rewrite <- HV. pose proof (bi_nodup _ _ _ _ Hbfs) as H. by rewrite app_nil_r in H. }
  assert (Hx : in_tree N0 root x).
  { apply (bi_tree _ _ _ _ Hbfs). rewrite app_nil_r, HV. apply elem_of_app. right. by left. }
  assert (HxW : x ∉ W).
  { apply NoDup_app in Hnd as (_ & _ & Hnd). by apply NoDup_cons in Hnd as [? _]. }
  destruct (lookup_lt_is_Some_2 N0 x (in_tree_lt _ _ _ Hts Hx)) as [n0 Hn0].
  destruct (read_node_run s x n0 Hsh Hn0) as (q & Hread & _).
  assert (Hlen : x < length (tree_nodes s)).
  { destruct Hsh as [-> _]. by eapply lookup_lt_Some. }
  assert (Hfin : forall p, p = node_start_position n0 ->
            fixing N1 (x :: W)
              (mkTreeStore (<[x := set_node_start_position p n0]> (tree_nodes s))
                           (tree_terminals s))).
  { intros p ->. rewrite set_node_start_position_id.
    split; [done|]. split; [|split].
    - cbn. rewrite <- (set_node_start_position_id n0). by apply shaped_insert.
    - intros y [->|Hy]%elem_of_cons; cbn.
      + by rewrite list_lookup_insert_eq.
      + rewrite list_lookup_insert_ne by (intros ->; done). by apply Hdone.
    - intros y Hy. apply not_elem_of_cons in Hy as [Hne Hy]. cbn.
      rewrite list_lookup_insert_ne by done. by apply Hrest. }
  unfold fixer_ascend. unfold bind at 1. rewrite Hread.
  cbn [node_children set_node_start_position node_end_terminal].
  destruct (node_children n0) as [cs|] eqn:Ecs.
  - destruct (pf_nonterminal Hp x n0 cs Hx Hn0 Ecs) as (c & cn & Hhead & Hcn & Hstart).
    rewrite Hhead. cbn [from_option]. unfold bind at 1. unfold ret at 1. cbv beta iota.
    assert (HcW : c ∈ W).
    { assert (Hck : c ∈ kids N0 x).
      { unfold kids. rewrite Hn0, Ecs. cbn. destruct cs; [done|].
        cbn in Hhead. injection Hhead as ->. by left. }
      assert (Hi : Vf !! length V1 = Some x).
      { rewrite HV, lookup_app_r by lia. by rewrite Nat.sub_diag. }
      destruct (bi_order _ _ _ _ Hbfs _ _ _ Hi Hck) as (j & Hij & Hj).
      rewrite app_nil_r, HV, lookup_app_r in Hj by lia.
      destruct (j - length V1) as [|k] eqn:Ej; [lia|]. cbn in Hj.
      by eapply list_elem_of_lookup_2. }
    unfold bind at 1. unfold read_node, bind, gets. rewrite (Hdone c HcW), Hcn.
    cbn [from_option ret].
    rewrite (assign_start_position_run s x n0 _ Hsh Hn0).
    eexists. split; [reflexivity|]. by apply Hfin.
  - destruct (pf_terminal Hp x n0 Hx Hn0 Ecs) as (tm & Htm & Hstart).
    unfold bind at 1. unfold read_tree_terminal, bind, gets. rewrite HT, Htm.
    cbn [from_option ret].
    rewrite (assign_start_position_run s x n0 _ Hsh Hn0).
    eexists. split; [reflexivity|]. by apply Hfin.
Qed.

(** [IgneaTreePositionFixer.visit] on a store [N1] that has the nodes of
    [N0], but for the [start_position] of nodes of the tree. *)
Lemma fixer_run (Hp : positions_fixed) N1 fuel :
  shaped N1 ->
  (forall y, ~ in_tree N0 root y -> N1 !! y = N0 !! y) ->
  length N0 <= fuel ->
  visit tree_nodes IgneaTreePositionFixer fuel root (mkTreeStore N1 T0)
  = (Ok tt, mkTreeStore N0 T0).
Proof.
  intros Hsh Hout Hfuel.
  destruct (descend_loop_run tree_nodes IgneaTreePositionFixer N0 root Hts
              (fun V s => s = mkTreeStore N1 T0)
              ltac:(intros V s ->; by apply shaped_same_children)
              ltac:(intros V x Q s lc _ ->; by eexists)
              fuel [root] [] (mkTreeStore N1 T0) (1%Z, 0%Z) [1%Z]
              (bfs_inv_start N0 root)
              ltac:(unfold levels_inv; cbn; repeat split; try lia;
                    by constructor)
              eq_refl ltac:(cbn; lia))
    as (Vf & s1 & L' & Hrun & Hbfs & -> & HL & Hsum).
  destruct (ascend_loop_run IgneaTreePositionFixer Vf (fixing N1)
              (fun V1 x W s lc HV HA => fixer_step Hp N1 Vf V1 x W s lc Hbfs HV HA)
              Vf [] (mkTreeStore N1 T0) L')
    as (s2 & Hrun2 & HT & Hsh2 & Hdone & Hrest).
  { by rewrite app_nil_r. }
  { split; [done|]. split; [done|]. split; [|done]. by intros y ?%elem_of_nil. }
  { destruct L' as [|l rest]; cbn in *; [lia|].
    apply Forall_cons in HL as [Hl Hrest]. split; [lia|]. split; [done|].
    cbn [sumZ foldr] in Hsum. exact Hsum. }
  unfold visit. cbn [v_top_before v_bottom v_top_after IgneaTreePositionFixer].
  unfold bind at 1. unfold ret at 1. cbv beta iota.
  cbn [rev] in Hrun. unfold bind at 1. rewrite Hrun.
  unfold bind at 1. unfold ret at 1. cbv beta iota. cbn [negb fst snd].
  unfold bind at 1. rewrite Hrun2. unfold ret.
  f_equal. destruct s2 as [N2 T2]. cbn in *. subst T2. f_equal.
  apply list_eq. intros y.
  destruct (decide (y ∈ Vf)) as [Hy|Hy]; [by apply Hdone|].
  assert (Hnt : ~ in_tree N0 root y).
  { intros Hin. by apply Hy, (bfs_inv_all N0 root). }
  rewrite (Hrest y Hy). by apply Hout.
Qed.

End PositionVisitors.

(** [IgneaTreePositionUnfixer] on a tree whose objects are complete: the
    visit returns (for the model, with fuel for every node of the store);
    types, children and end terminals stay, and so do the root and the nodes
    outside the tree; the first child of a node of the tree starts where the
    node starts, and every other child where the end terminal of the child
    before it ends. *)
Theorem position_unfixer_assigns N0 T0 root fuel :
  tree_shaped N0 root -> tree_complete N0 T0 root -> length N0 <= fuel ->
  exists N1,
    visit tree_nodes IgneaTreePositionUnfixer fuel root (mkTreeStore N0 T0)
    = (Ok tt, mkTreeStore N1 T0) /\
    shaped N0 N1 /\
    N1 !! root = N0 !! root /\
    (forall y, ~ in_tree N0 root y -> N1 !! y = N0 !! y) /\
    forall x i c,
      in_tree N0 root x -> kids N0 x !! i = Some c ->
      start_of N1 c = match i with
                      | 0 => start_of N1 x
                      | S i' => kids N0 x !! i' ≫= end_of N0 T0
                      end.
Proof.
  intros Hts Hc Hfuel.
  destruct (unfixer_run N0 T0 root Hts Hc fuel Hfuel)
    as ([N1 T1] & Vf & Hrun & Hbfs & [HT Hsh Hun Has]).
  cbn in *. subst T1. exists N1. split; [done|]. split; [done|].
  assert (Hin : forall u, u ∈ Vf -> in_tree N0 root u).
  { intros u Hu. apply (bi_tree _ _ _ _ Hbfs). by rewrite app_nil_r. }
  split; [|split].
  - apply Hun. intros u Hu. apply (ts_top _ _ Hts). by apply Hin.
  - intros y Hy. apply Hun. intros u Hu Hk. apply Hy.
    eapply rtc_r; [by apply Hin|done].
  - intros x i c Hx Hi. apply Has; [|done]. by apply (bfs_inv_all N0 root).
Qed.

(** [IgneaTreePositionFixer] restores the start positions of a tree: from a
    store whose nodes are those of a tree with fixed positions, but for the
    [start_position] fields of nodes of the tree, the visit returns and
    leaves that tree. *)
Theorem position_fixer_restores N0 T0 root N1 fuel :
  tree_shaped N0 root -> positions_fixed N0 T0 root ->
  shaped N0 N1 ->
  (forall y, ~ in_tree N0 root y -> N1 !! y = N0 !! y) ->
  length N0 <= fuel ->
  visit tree_nodes IgneaTreePositionFixer fuel root (mkTreeStore N1 T0)
  = (Ok tt, mkTreeStore N0 T0).
Proof. intros Hts Hp Hsh Hout Hfuel. by apply fixer_run. Qed.

(** Unfixing and then fixing the positions of a tree with fixed positions
    gives the tree back: every object of the store is as it was. *)
Theorem fix_after_unfix N0 T0 root fuel :
  tree_shaped N0 root -> tree_complete N0 T0 root -> positions_fixed N0 T0 root ->
  length N0 <= fuel ->
  exists s1,
    visit tree_nodes IgneaTreePositionUnfixer fuel root (mkTreeStore N0 T0) = (Ok tt, s1) /\
    visit tree_nodes IgneaTreePositionFixer fuel root s1 = (Ok tt, mkTreeStore N0 T0).
Proof.
  intros Hts Hc Hp Hfuel.
  destruct (unfixer_run N0 T0 root Hts Hc fuel Hfuel)
    as ([N1 T1] & Vf & Hrun & Hbfs & [HT Hsh Hun Has]).
  cbn in *. subst T1. eexists. split; [exact Hrun|].
  apply fixer_run; try done.
  intros y Hy. apply Hun. intros u Hu Hk. apply Hy.
  eapply rtc_r; [|exact Hk]. apply (bi_tree _ _ _ _ Hbfs). by rewrite app_nil_r.
Qed.

(** The tree of [a + b] for the grammar of sums: the root [E] over
    [E PLUS T], with [E] over [T] over [IDENT] and [T] over [IDENT].
    Positions are named by their index; the terminals are [a] from 0 to 1,
    [+] from 2 to 3 and [b] from 4 to 5. *)
Definition sum_terminals : list IgneaTerminal :=
  [mkTerminal {[SumParser.IDENT]} ["a"%char] 0 1 (Some 1);
   mkTerminal {[SumParser.PLUS]} ["+"%char] 2 3 (Some 2);
   mkTerminal {[SumParser.IDENT]} ["b"%char] 4 5 None].

Definition sum_tree : list IgneaTreeNode :=
  [mkTreeNode (inr SumParser.E) 0 2 (Some [1; 2; 3]);
   mkTreeNode (inr SumParser.E) 0 0 (Some [4]);
   mkTreeNode (inl SumParser.PLUS) 2 1 None;
   mkTreeNode (inr SumParser.T) 4 2 (Some [5]);
   mkTreeNode (inr SumParser.T) 0 0 (Some [6]);
   mkTreeNode (inl SumParser.IDENT) 4 2 None;
   mkTreeNode (inl SumParser.IDENT) 0 0 None].

Lemma sum_tree_kids_out x : 7 <= x -> kids sum_tree x = [].
Proof. intros Hx. unfold kids. by rewrite lookup_ge_None_2. Qed.

Lemma sum_tree_lookup_out x n : 7 <= x -> sum_tree !! x = Some n -> False.
Proof. intros Hx. by rewrite lookup_ge_None_2. Qed.

Tactic Notation "each_node" ident(x) :=
  destruct (decide (x < 7));
  [destruct x as [|x]; [|destruct x as [|x]; [|destruct x as [|x];
   [|destruct x as [|x]; [|destruct x as [|x]; [|destruct x as [|x];
   [|destruct x as [|x]; [|exfalso; lia]]]]]]]
  |try (rewrite (sum_tree_kids_out x) in * by lia);
   try (exfalso; eapply (sum_tree_lookup_out x); [lia|eassumption])].

Ltac members :=
  repeat match goal with
         | H : _ ∈ [] |- _ => by apply elem_of_nil in H
         | H : _ ∈ _ :: _ |- _ =>
             let Heq := fresh in
             apply elem_of_cons in H as [Heq|H];
             [first [discriminate Heq|subst; try clear Heq]|]
         end.

Lemma sum_tree_shaped : tree_shaped sum_tree 0.
Proof.
  split.
  - cbn. lia.
  - intros x c _ Hc. each_node x; cbn in Hc; members; cbn; lia.
  - intros x _. each_node x; cbn; repeat (constructor; [set_solver|]); constructor.
  - intros x y c _ _ Hx Hy.
    each_node x; cbn in Hx; members; each_node y; cbn in Hy; members; done.
  - intros x _ Hx. each_node x; cbn in Hx; members; done.
Qed.

Lemma sum_tree_complete : tree_complete sum_tree sum_terminals 0.
Proof.
  split.
  - intros x n _ Hn. each_node x; injection Hn as <-; cbn; eauto.
  - intros x n _ Hn. each_node x; injection Hn as <-; cbn; done.
Qed.

Lemma sum_tree_fixed : positions_fixed sum_tree sum_terminals 0.
Proof.
  split.
  - intros x n cs _ Hn Hcs. each_node x; injection Hn as <-;
      cbn in Hcs; try discriminate; injection Hcs as <-; cbn; eauto.
  - intros x n _ Hn Hcs. each_node x; injection Hn as <-;
      cbn in Hcs; try discriminate; cbn; eauto.
Qed.

Lemma sum_tree_in_tree y : y < 7 -> in_tree sum_tree 0 y.
Proof.
  assert (H1 : in_tree sum_tree 0 1) by (apply rtc_once; cbn; set_solver).
  assert (H3 : in_tree sum_tree 0 3) by (apply rtc_once; cbn; set_solver).
  assert (H4 : in_tree sum_tree 0 4) by (eapply rtc_r; [exact H1|cbn; set_solver]).
  intros Hy. each_node y; [apply rtc_refl|exact H1| |exact H3|exact H4| | |lia].
  - apply rtc_once. cbn. set_solver.
  - eapply rtc_r; [exact H3|cbn; set_solver].
  - eapply rtc_r; [exact H4|cbn; set_solver].
Qed.

Lemma position_fixer_restores_witness :
  visit tree_nodes IgneaTreePositionFixer 7 0
    (mkTreeStore (map (set_node_start_position 9) sum_tree) sum_terminals)
  = (Ok tt, mkTreeStore sum_tree sum_terminals).
Proof.
  apply (position_fixer_restores sum_tree sum_terminals 0
           (map (set_node_start_position 9) sum_tree) 7).
  - exact sum_tree_shaped.
  - exact sum_tree_fixed.
  - split; [reflexivity|]. intros y n0 Hy. exists 9.
    rewrite list_lookup_fmap, Hy. reflexivity.
  - intros y Hy. destruct (decide (y < 7)) as [Hlt|Hge].
    + destruct Hy. by apply sum_tree_in_tree.
    + rewrite !lookup_ge_None_2; [done|cbn; lia|cbn; lia].
  - cbn. lia.
Defined.

Lemma fix_after_unfix_witness :
  exists s1,
    visit tree_nodes IgneaTreePositionUnfixer 7 0 (mkTreeStore sum_tree sum_terminals)
    = (Ok tt, s1) /\
    visit tree_nodes IgneaTreePositionFixer 7 0 s1
    = (Ok tt, mkTreeStore sum_tree sum_terminals).
Proof.
  apply (fix_after_unfix sum_tree sum_terminals 0 7).
  - exact sum_tree_shaped.
  - exact sum_tree_complete.
  - exact sum_tree_fixed.
  - cbn. lia.
Defined.

Lemma position_unfixer_assigns_witness :
  exists N1,
    visit tree_nodes IgneaTreePositionUnfixer 7 0 (mkTreeStore sum_tree sum_terminals)
    = (Ok tt, mkTreeStore N1 sum_terminals) /\
    start_of N1 2 = Some 1 /\ start_of N1 3 = Some 3.
Proof.
  destruct (position_unfixer_assigns sum_tree sum_terminals 0 7
              sum_tree_shaped sum_tree_complete)
    as (N1 & Hrun & _ & _ & _ & Hst); [cbn; lia|].
  exists N1. split; [exact Hrun|]. split.
  - exact (Hst 0 1 2 (rtc_refl _ _) eq_refl).
  - exact (Hst 0 2 3 (rtc_refl _ _) eq_refl).
Defined.

(** *** Well-formed trees *)

(** The leftmost descendant of a node: the terminal node that first
    children lead down to. *)
Inductive leftmost (N : list IgneaTreeNode) : nat -> nat -> Prop :=
| leftmost_here x n :
    N !! x = Some n -> node_children n = None -> leftmost N x x
| leftmost_down x n c cs y :
    N !! x = Some n -> node_children n = Some (c :: cs) -> leftmost N c y ->
    leftmost N x y.

(** A well-formed tree: a nonterminal node starts where its leftmost
    descendant starts, a terminal node where its end terminal starts, and
    the end terminal of every node is a terminal of the store. *)
Record well_formed (N : list IgneaTreeNode) (T : list IgneaTerminal) (root : nat)
  : Prop := {
  wf_nonterminal : forall x n cs,
    in_tree N root x -> N !! x = Some n -> node_children n = Some cs ->
    exists d dn, leftmost N x d /\ N !! d = Some dn /\
                 node_start_position n = node_start_position dn;
  wf_terminal : forall x n,
    in_tree N root x -> N !! x = Some n -> node_children n = None ->
    exists tm, T !! node_end_terminal n = Some tm /\
               node_start_position n = start_position tm;
  wf_end_terminal : forall x n,
    in_tree N root x -> N !! x = Some n -> is_Some (T !! node_end_terminal n)
}.

Lemma leftmost_functional N x y z : leftmost N x y -> leftmost N x z -> y = z.
Proof.
  intros H. revert z. induction H as [x n Hx Hn|x n c cs y Hx Hn Hc IH]; intros z Hz.
  - destruct Hz as [x n' Hx' Hn'|x n' c cs z Hx' Hn' Hc']; [done|]. congruence.
  - destruct Hz as [x n' Hx' Hn'|x n' c' cs' z Hx' Hn' Hc']; [congruence|].
    apply IH. congruence.
Qed.

Lemma well_formed_complete N T root :
  well_formed N T root -> tree_complete N T root.
Proof.
  intros [W1 W2 W3]. split; [exact W3|].
  intros x n Hx Hn Hc. destruct (W1 x n [] Hx Hn Hc) as (d & dn & Hl & _).
  destruct Hl; congruence.
Qed.

Lemma well_formed_fixed N T root :
  well_formed N T root -> positions_fixed N T root.
Proof.
  intros [W1 W2 W3]. split; [|exact W2].
  intros x n cs Hx Hn Hcs. destruct (W1 x n cs Hx Hn Hcs) as (d & dn & Hl & Hd & Hst).
  destruct Hl as [x n' Hx' Hn'|x n' c cs' d Hx' Hn' Hc]; [congruence|].
  assert (n' = n) as -> by congruence.
  assert (cs = c :: cs') as -> by congruence.
  assert (Hcn : exists cn, N !! c = Some cn) by (destruct Hc; eauto).
  destruct Hcn as [cn Hcn]. exists c, cn. split; [done|]. split; [done|].
  rewrite Hst.
  assert (Hct : in_tree N root c).
  { eapply rtc_r; [exact Hx|]. unfold kids. rewrite Hn, Hcs. cbn. by left. }
  destruct (node_children cn) as [cs2|] eqn:Ecn.
  - destruct (W1 c cn cs2 Hct Hcn Ecn) as (d' & dn' & Hl' & Hd' & Hst').
    rewrite (leftmost_functional _ _ _ _ Hl' Hc) in Hd'. congruence.
  - assert (d = c) as ->.
    { eapply leftmost_functional; [exact Hc|]. by eapply leftmost_here. }
    congruence.
Qed.

(** C9.  On a well-formed tree, [IgneaTreePositionUnfixer] and then
    [IgneaTreePositionFixer] both return, and the second leaves the store
    the first started from: every node has its [start_position] of before,
    and its type, children and end terminal, which no pass writes. *)
Theorem fix_unfix_identity N0 T0 root fuel :
  tree_shaped N0 root -> well_formed N0 T0 root -> length N0 <= fuel ->
  exists s1,
    visit tree_nodes IgneaTreePositionUnfixer fuel root (mkTreeStore N0 T0) = (Ok tt, s1) /\
    visit tree_nodes IgneaTreePositionFixer fuel root s1 = (Ok tt, mkTreeStore N0 T0) /\
    (forall y n, N0 !! y = Some n ->
       exists p, tree_nodes s1 !! y
                 = Some (mkTreeNode (node_type n) p (node_end_terminal n) (node_children n))).
Proof.
  intros Hts Hwf Hfuel.
  assert (Hc := well_formed_complete _ _ _ Hwf).
  assert (Hp := well_formed_fixed _ _ _ Hwf).
  destruct (unfixer_run N0 T0 root Hts Hc fuel Hfuel)
    as ([N1 T1] & Vf & Hrun & Hbfs & [HT Hsh Hun Has]).
  cbn in *. subst T1. eexists. split; [exact Hrun|]. split.
  - apply fixer_run; try done.
    intros y Hy. apply Hun. intros u Hu Hk. apply Hy.
    eapply rtc_r; [|exact Hk]. apply (bi_tree _ _ _ _ Hbfs). by rewrite app_nil_r.
  - intros y n Hy. cbn. destruct Hsh as [_ Hsh]. exact (Hsh y n Hy).
Qed.

Lemma sum_tree_well_formed : well_formed sum_tree sum_terminals 0.
Proof.
  assert (L6 : leftmost sum_tree 6 6) by (by eapply leftmost_here).
  assert (L5 : leftmost sum_tree 5 5) by (by eapply leftmost_here).
  assert (L4 : leftmost sum_tree 4 6) by (by eapply leftmost_down).
  assert (L3 : leftmost sum_tree 3 5) by (by eapply leftmost_down).
  assert (L1 : leftmost sum_tree 1 6) by (by eapply leftmost_down).
  assert (L0 : leftmost sum_tree 0 6) by (by eapply leftmost_down).
  split.
  - intros x n cs _ Hn Hcs. each_node x; injection Hn as <-;
      cbn in Hcs; try discriminate; eauto.
  - apply sum_tree_fixed.
  - apply sum_tree_complete.
Qed.

Lemma fix_unfix_identity_witness :
  exists s1,
    visit tree_nodes IgneaTreePositionUnfixer 7 0 (mkTreeStore sum_tree sum_terminals)
    = (Ok tt, s1) /\
    visit tree_nodes IgneaTreePositionFixer 7 0 s1
    = (Ok tt, mkTreeStore sum_tree sum_terminals).
Proof.
  destruct (fix_unfix_identity sum_tree sum_terminals 0 7
              sum_tree_shaped sum_tree_well_formed) as (s1 & H1 & H2 & _); [cbn; lia|].
  exists s1. split; [exact H1|exact H2].
Defined.
